(** * Locomotion core and track engine of the fox platformer

    A shallow embedding of the gameplay core of the game script: the
    locomotion state machine ([EnhancedFSM] and the seven [State]
    classes), the energy model of [CharacterController], ground
    detection, the crumble-platform lifecycle, the sliding window of
    track segments ([Game.updateTrack]) and the lava contact check of
    [Game.animate].

    Modelling conventions.
    - A JavaScript number is an exact rational ([Q]); [Math.min] and
      [Math.max] are [Qmin] and [Qmax]; numeric equality is [==].
      Binary64 rounding is outside the model, except in the module
      [Binary64], which runs the drain and the refund of a charge on
      binary64 numbers.
    - Segment indices and counts are integers ([Z]).
    - The physics engine, the renderer, the audio engine and the UI are
      external collaborators: what the code reads from them arrives as an
      explicit environment argument, what the code tells them is appended
      to a chronological list of [Signal]s.
    - The global [CONFIG] and the per-level clone [this.cfg] are one
      record [Config]; the record [CONFIG] below holds the values of the
      script. *)

From Stdlib Require Import QArith Qminmax Qabs Lqa ZArith Lia.
From Stdlib Require PrimFloat.
From stdpp Require Import gmap strings list fin_maps.
From Equations Require Import Equations.

Local Open Scope Q_scope.

(** ** Numbers *)

(** [a < b] and [a <= b] on JavaScript numbers, as booleans. *)
Definition Qltb (x y : Q) : bool := negb (Qle_bool y x).
Definition Qleb (x y : Q) : bool := Qle_bool x y.

Record Vec3 := mkVec3 { vx : Q; vy : Q; vz : Q }.

Definition vscale (k : Q) (v : Vec3) : Vec3 :=
  mkVec3 (vx v * k) (vy v * k) (vz v * k).

Definition lengthSq (v : Vec3) : Q := vx v * vx v + vy v * vy v + vz v * vz v.

(** ** Configuration *)

Record Config := mkConfig {
  quickJump_cost : Q;
  quickJump_verticalForce : Q;
  quickJump_tapThreshold : Q;
  airDash_forceMultiplier : Q;
  airDash_downwardVelocityCap : Q;
  chargeLeap_maxChargeTime : Q;
  chargeLeap_staminaDrainPerSecond : Q;
  chargeLeap_minChargeEnergy : Q;
  chargeLeap_minVertical : Q;
  chargeLeap_maxVertical : Q;
  chargeLeap_minForward : Q;
  chargeLeap_maxForward : Q;
  chargeLeap_horizontalMultiplierUsesCamera : bool;
  player_height : Q;
  player_radius : Q;
  player_mass : Q;
  player_maxHealth : Q;
  player_maxSprint : Q;
  player_sprintRegenRate : Q;
  player_sprintRegenDelay : Q;
  sprintMultiplier : Q;
  lava_surfaceY : Q;
  lava_killOnContact : bool;
  jump_coyoteTime : Q;
  jump_minGroundTime : Q;
  track_segmentsToGenerateAhead : Z;
  track_segmentsToKeepBehind : Z;
  track_crumbleMode : bool;
  gameplay_minDashEnergy : Q
}.

(** The values of the script's [CONFIG] object ([crumbleMode] is a level
    override; it is switched on here so that the crumble system runs). *)
Definition CONFIG : Config := {|
  quickJump_cost := 5;
  quickJump_verticalForce := 11;
  quickJump_tapThreshold := 0.2;
  airDash_forceMultiplier := 0.3;
  airDash_downwardVelocityCap := -5;
  chargeLeap_maxChargeTime := 1.5;
  chargeLeap_staminaDrainPerSecond := 50;
  chargeLeap_minChargeEnergy := 5;
  chargeLeap_minVertical := 6;
  chargeLeap_maxVertical := 20;
  chargeLeap_minForward := 6;
  chargeLeap_maxForward := 30;
  chargeLeap_horizontalMultiplierUsesCamera := true;
  player_height := 0.8;
  player_radius := 0.30;
  player_mass := 80;
  player_maxHealth := 100;
  player_maxSprint := 100;
  player_sprintRegenRate := 60;
  player_sprintRegenDelay := 0.75;
  sprintMultiplier := 2.75;
  lava_surfaceY := -50;
  lava_killOnContact := true;
  jump_coyoteTime := 0.15;
  jump_minGroundTime := 0.05;
  track_segmentsToGenerateAhead := 8;
  track_segmentsToKeepBehind := 4;
  track_crumbleMode := true;
  gameplay_minDashEnergy := 10
|}.

Definition FLOAT_EPSILON : Q := 0.001.

(** ** State keys, state instances, signals *)

Local Open Scope string_scope.

Definition STATES_IDLE : string := "idle".
Definition STATES_WALK : string := "walk".
Definition STATES_CHARGE : string := "charge".
Definition STATES_LEAP : string := "leap".
Definition STATES_FALL : string := "fall".
Definition STATES_DASH : string := "dash".
Definition STATES_DEAD : string := "dead".

Definition STATES : list string :=
  [STATES_IDLE; STATES_WALK; STATES_CHARGE; STATES_LEAP; STATES_FALL;
   STATES_DASH; STATES_DEAD].

Inductive StateClass :=
| IdleState | WalkState | ChargeState | LeapState | FallState | DashState
| DeadState.

(** Fields of a [ChargeState] instance. *)
Record ChargeData := mkCharge {
  previousState : option string;
  startedGrounded : bool;
  chargeTime : Q;
  energyConsumed : Q;
  startEnergy : Q;
  maxPossibleEnergy : Q
}.

(** Fields of a [DashState] instance. *)
Record DashData := mkDash {
  dashTimer : Q;
  dashDuration : Q;
  staminaUsed : Q
}.

Inductive StateInst :=
| IdleI | WalkI | ChargeI (d : ChargeData) | LeapI | FallI
| DashI (d : DashData) | DeadI.

(** [new stateClass(controller)]: the fields are filled in by [enter]. *)
Definition instantiate (cls : StateClass) : StateInst :=
  match cls with
  | IdleState => IdleI
  | WalkState => WalkI
  | ChargeState => ChargeI (mkCharge None false 0 0 0 0)
  | LeapState => LeapI
  | FallState => FallI
  | DashState => DashI (mkDash 0 0 0)
  | DeadState => DeadI
  end.

(** The key under which [_setupFSM] registers the class of an instance. *)
Definition keyOf (inst : StateInst) : string :=
  match inst with
  | IdleI => STATES_IDLE
  | WalkI => STATES_WALK
  | ChargeI _ => STATES_CHARGE
  | LeapI => STATES_LEAP
  | FallI => STATES_FALL
  | DashI _ => STATES_DASH
  | DeadI => STATES_DEAD
  end.

(** Calls made to the external collaborators, in the order they happen. *)
Inductive Signal :=
| LogError (tag msg : string)            (* logger.logError *)
| UiUpdateSprint (value max : Q)         (* uiManager.updateSprint *)
| UiUpdateHealth (value max : Q)         (* uiManager.updateHealth *)
| UiShowEnergyInsufficient (what : string)
| UiSetChargePreview (fraction : Q)
| UiShowGameOver
| PlayAnimation (name : string) (speed : Q)
| PlaySound (name : string)
| PlatformImpulse (handle : nat) (impulse : Vec3)  (* body.applyImpulse *)
| TriggerDashEffect (force : Q)
| StopTimer
| PlayerDied (reason : string)           (* GameLogger.death *).

(** The second argument of [setState]: a reason string or an object. *)
Record Params := mkParams {
  p_reason : string;
  p_staminaUsed : option Q
}.

Definition noParams : Params := mkParams "" None.
Definition reasonOnly (r : string) : Params := mkParams r None.

Record HistoryEntry := mkHistory {
  h_state : string;
  h_reason : string;
  h_isGrounded : bool;
  h_energy : Q;
  h_health : Q
}.

Record EnhancedFSM := mkFSM {
  _states : gmap string StateClass;
  _current : option StateInst;
  _currentKey : option string;
  _stateHistory : list HistoryEntry;
  _validTransitions : gmap string (list string)
}.

Definition _maxHistory : nat := 10.

(** The key-based transition table built by the constructor. *)
Definition validTransitions : gmap string (list string) :=
  list_to_map
    [(STATES_IDLE,   [STATES_WALK; STATES_CHARGE; STATES_FALL; STATES_DASH; STATES_DEAD]);
     (STATES_WALK,   [STATES_IDLE; STATES_CHARGE; STATES_FALL; STATES_DASH; STATES_DEAD]);
     (STATES_CHARGE, [STATES_LEAP; STATES_IDLE; STATES_FALL; STATES_DEAD]);
     (STATES_LEAP,   [STATES_FALL; STATES_DASH; STATES_IDLE; STATES_DEAD]);
     (STATES_FALL,   [STATES_IDLE; STATES_WALK; STATES_DASH; STATES_DEAD]);
     (STATES_DASH,   [STATES_IDLE; STATES_WALK; STATES_LEAP; STATES_FALL; STATES_DEAD]);
     (STATES_DEAD,   [STATES_IDLE])].

(** [new EnhancedFSM(controller, logger)] *)
Definition newFSM : EnhancedFSM :=
  mkFSM ∅ None None [] validTransitions.

(** [addState(name, cls)] *)
Definition addState (name : string) (cls : StateClass) (f : EnhancedFSM) : EnhancedFSM :=
  mkFSM (<[name := cls]> (_states f)) (_current f) (_currentKey f)
        (_stateHistory f) (_validTransitions f).

(** [CharacterController._setupFSM] *)
Definition _setupFSM : EnhancedFSM :=
  addState STATES_DEAD DeadState
  (addState STATES_DASH DashState
  (addState STATES_FALL FallState
  (addState STATES_LEAP LeapState
  (addState STATES_CHARGE ChargeState
  (addState STATES_WALK WalkState
  (addState STATES_IDLE IdleState newFSM)))))).

(** [_canTransitionKey(fromKey, toKey)]: [!fromKey] holds for [null] and
    for the empty string. *)
Definition _canTransitionKey (f : EnhancedFSM) (fromKey : option string) (toKey : string) : bool :=
  match fromKey with
  | None => true
  | Some k =>
      if decide (k = "") then true
      else bool_decide (toKey ∈ default [] (_validTransitions f !! k))
  end.

(** ** The character controller *)

(** The logical input snapshot: held keys, the pressed-this-frame edge of
    the dash key, and whether the camera yaw moved since the last tick. *)
Record Input := mkInput {
  key_Space : bool;
  key_KeyW : bool;
  key_KeyS : bool;
  key_ShiftLeft : bool;
  pressed_KeyQ : bool;
  yawChanged : bool
}.

(** Coalescing state of the energy log. *)
Record EnergyLog := mkEnergyLog {
  _consumingActive : bool;
  _consumptionAccumulator : Q;
  _consumptionStartValue : Q;
  _regenActive : bool;
  _regenAccumulator : Q;
  _regenStartValue : Q
}.

Record Controller := mkController {
  sprint : Q;
  health : Q;
  sprintRegenTimer : Q;
  isGrounded : bool;
  coyoteTime : Q;
  groundTime : Q;
  translation : Vec3;                  (* body.translation() *)
  linvel : Vec3;                       (* body.linvel() *)
  onFallingPlatform : bool;
  fallingPlatformBody : option nat;    (* handle of a platform body *)
  currentGroundSegment : option nat;   (* reference to a segment *)
  forwardDir : Vec3;                   (* (0,0,1) turned by model.quaternion *)
  inputManager : Input;
  energyLog : EnergyLog;
  fsm : EnhancedFSM;
  signals : list Signal
}.

Definition set_sprint (v : Q) (c : Controller) : Controller :=
  mkController v (health c) (sprintRegenTimer c) (isGrounded c) (coyoteTime c)
    (groundTime c) (translation c) (linvel c) (onFallingPlatform c)
    (fallingPlatformBody c) (currentGroundSegment c) (forwardDir c)
    (inputManager c) (energyLog c) (fsm c) (signals c).

Definition set_health (v : Q) (c : Controller) : Controller :=
  mkController (sprint c) v (sprintRegenTimer c) (isGrounded c) (coyoteTime c)
    (groundTime c) (translation c) (linvel c) (onFallingPlatform c)
    (fallingPlatformBody c) (currentGroundSegment c) (forwardDir c)
    (inputManager c) (energyLog c) (fsm c) (signals c).

Definition set_sprintRegenTimer (v : Q) (c : Controller) : Controller :=
  mkController (sprint c) (health c) v (isGrounded c) (coyoteTime c)
    (groundTime c) (translation c) (linvel c) (onFallingPlatform c)
    (fallingPlatformBody c) (currentGroundSegment c) (forwardDir c)
    (inputManager c) (energyLog c) (fsm c) (signals c).

Definition set_isGrounded (v : bool) (c : Controller) : Controller :=
  mkController (sprint c) (health c) (sprintRegenTimer c) v (coyoteTime c)
    (groundTime c) (translation c) (linvel c) (onFallingPlatform c)
    (fallingPlatformBody c) (currentGroundSegment c) (forwardDir c)
    (inputManager c) (energyLog c) (fsm c) (signals c).

Definition set_coyoteTime (v : Q) (c : Controller) : Controller :=
  mkController (sprint c) (health c) (sprintRegenTimer c) (isGrounded c) v
    (groundTime c) (translation c) (linvel c) (onFallingPlatform c)
    (fallingPlatformBody c) (currentGroundSegment c) (forwardDir c)
    (inputManager c) (energyLog c) (fsm c) (signals c).

Definition set_groundTime (v : Q) (c : Controller) : Controller :=
  mkController (sprint c) (health c) (sprintRegenTimer c) (isGrounded c)
    (coyoteTime c) v (translation c) (linvel c) (onFallingPlatform c)
    (fallingPlatformBody c) (currentGroundSegment c) (forwardDir c)
    (inputManager c) (energyLog c) (fsm c) (signals c).

(** [body.setLinvel(v, true)] *)
Definition set_linvel (v : Vec3) (c : Controller) : Controller :=
  mkController (sprint c) (health c) (sprintRegenTimer c) (isGrounded c)
    (coyoteTime c) (groundTime c) (translation c) v (onFallingPlatform c)
    (fallingPlatformBody c) (currentGroundSegment c) (forwardDir c)
    (inputManager c) (energyLog c) (fsm c) (signals c).

Definition set_fallingPlatform (on : bool) (b : option nat) (c : Controller) : Controller :=
  mkController (sprint c) (health c) (sprintRegenTimer c) (isGrounded c)
    (coyoteTime c) (groundTime c) (translation c) (linvel c) on b
    (currentGroundSegment c) (forwardDir c)
    (inputManager c) (energyLog c) (fsm c) (signals c).

Definition set_currentGroundSegment (v : option nat) (c : Controller) : Controller :=
  mkController (sprint c) (health c) (sprintRegenTimer c) (isGrounded c)
    (coyoteTime c) (groundTime c) (translation c) (linvel c)
    (onFallingPlatform c) (fallingPlatformBody c) v (forwardDir c)
    (inputManager c) (energyLog c) (fsm c) (signals c).

Definition set_energyLog (v : EnergyLog) (c : Controller) : Controller :=
  mkController (sprint c) (health c) (sprintRegenTimer c) (isGrounded c)
    (coyoteTime c) (groundTime c) (translation c) (linvel c)
    (onFallingPlatform c) (fallingPlatformBody c) (currentGroundSegment c)
    (forwardDir c) (inputManager c) v (fsm c) (signals c).

Definition set_fsm (v : EnhancedFSM) (c : Controller) : Controller :=
  mkController (sprint c) (health c) (sprintRegenTimer c) (isGrounded c)
    (coyoteTime c) (groundTime c) (translation c) (linvel c)
    (onFallingPlatform c) (fallingPlatformBody c) (currentGroundSegment c)
    (forwardDir c) (inputManager c) (energyLog c) v (signals c).

(** The physics step moved the player's body. *)
Definition set_translation (v : Vec3) (c : Controller) : Controller :=
  mkController (sprint c) (health c) (sprintRegenTimer c) (isGrounded c)
    (coyoteTime c) (groundTime c) v (linvel c) (onFallingPlatform c)
    (fallingPlatformBody c) (currentGroundSegment c) (forwardDir c)
    (inputManager c) (energyLog c) (fsm c) (signals c).

(** A call to an external collaborator. *)
Definition emit (s : Signal) (c : Controller) : Controller :=
  mkController (sprint c) (health c) (sprintRegenTimer c) (isGrounded c)
    (coyoteTime c) (groundTime c) (translation c) (linvel c)
    (onFallingPlatform c) (fallingPlatformBody c) (currentGroundSegment c)
    (forwardDir c) (inputManager c) (energyLog c) (fsm c) (signals c ++ [s])%list.

(** [this._current = inst; this._currentKey = key] *)
Definition set_current (inst : option StateInst) (key : option string)
    (c : Controller) : Controller :=
  set_fsm (mkFSM (_states (fsm c)) inst key (_stateHistory (fsm c))
                 (_validTransitions (fsm c))) c.

(** [_stateHistory.push(entry)], dropping the oldest entry beyond
    [_maxHistory]. *)
Definition push_history (e : HistoryEntry) (c : Controller) : Controller :=
  let h := (_stateHistory (fsm c) ++ [e])%list in
  let h' := if (_maxHistory <? length h)%nat then tail h else h in
  set_fsm (mkFSM (_states (fsm c)) (_current (fsm c)) (_currentKey (fsm c)) h'
                 (_validTransitions (fsm c))) c.

(** The controller right after its constructor ran (full health and
    energy, airborne, no state yet). *)
Definition newController (cfg : Config) : Controller :=
  mkController (player_maxSprint cfg) (player_maxHealth cfg) 0 false 0 0
    (mkVec3 0 5 0) (mkVec3 0 0 0) false None None (mkVec3 0 0 1)
    (mkInput false false false false false false)
    (mkEnergyLog false 0 0 false 0 0) _setupFSM [].

(** ** What the code reads from the physics engine and the camera *)

(** The readable state of a platform body. *)
Record BodyView := mkBodyView {
  bv_y : Q;                 (* translation().y *)
  bv_vy : Q;                (* linvel().y *)
  bv_mass : option Q;       (* mass?.() *)
  bv_isDynamic : bool       (* isDynamic() *)
}.

(** [env_body h] is [None] when the handle [h] is stale: every access to
    such a body throws. [env_camDir] is the camera's world direction,
    flattened to the ground plane and normalised. *)
Record Env := mkEnv {
  env_body : nat -> option BodyView;
  env_camDir : Vec3
}.

(** What can go wrong inside the hooks of a transition: [exit] of the
    old state throws, or [enter] of the new state throws on both
    attempts, or it throws with [params] and succeeds without. The flag
    says whether [enter] of the recovery state throws as well. *)
Inductive Fault :=
| NoFault
| ExitThrows (recoveryEnterThrows : bool)
| EnterThrows (recoveryEnterThrows : bool)
| EnterRetried.

Section Locomotion.

Variable cfg : Config.

(** *** Energy *)

(** [consumeStamina(amount)] *)
Definition consumeStamina (amount : Q) (c : Controller) : Controller :=
  let before := sprint c in
  let c1 := set_sprint (Qmax 0 (sprint c - amount)) c in
  let c2 := set_sprintRegenTimer 0 c1 in
  let c3 := emit (UiUpdateSprint (sprint c2) (player_maxSprint cfg)) c2 in
  let l := energyLog c3 in
  let l1 :=
    if negb (_consumingActive l)
    then mkEnergyLog true 0 before (_regenActive l) (_regenAccumulator l)
           (_regenStartValue l)
    else l in
  let l2 :=
    mkEnergyLog (_consumingActive l1)
      (_consumptionAccumulator l1 + (before - sprint c3))
      (_consumptionStartValue l1) (_regenActive l1) (_regenAccumulator l1)
      (_regenStartValue l1) in
  set_energyLog l2 c3.

(** [restoreDashEnergy(amount)] *)
Definition restoreDashEnergy (amount : Q) (c : Controller) : Controller :=
  let before := sprint c in
  let c1 := set_sprint (Qmin (player_maxSprint cfg) (sprint c + amount)) c in
  if negb (Qeq_bool (sprint c1) before)
  then emit (UiUpdateSprint (sprint c1) (player_maxSprint cfg)) c1
  else c1.

(** [updateSprint(dt)]: regeneration, only while grounded and after the
    delay. *)
Definition updateSprint (dt : Q) (c : Controller) : Controller :=
  if isGrounded c then
    let c1 := set_sprintRegenTimer (sprintRegenTimer c + dt) c in
    if Qleb (player_sprintRegenDelay cfg) (sprintRegenTimer c1) then
      let before := sprint c1 in
      let added := Qmin (player_maxSprint cfg - sprint c1)
                        (player_sprintRegenRate cfg * dt) in
      let c2 := set_sprint (Qmin (player_maxSprint cfg) (sprint c1 + added)) c1 in
      if negb (Qeq_bool (sprint c2) before) then
        let c3 := emit (UiUpdateSprint (sprint c2) (player_maxSprint cfg)) c2 in
        let l := energyLog c3 in
        let l1 :=
          if negb (_regenActive l)
          then mkEnergyLog (_consumingActive l) (_consumptionAccumulator l)
                 (_consumptionStartValue l) true 0 before
          else l in
        set_energyLog
          (mkEnergyLog (_consumingActive l1) (_consumptionAccumulator l1)
             (_consumptionStartValue l1) (_regenActive l1)
             (_regenAccumulator l1 + (sprint c3 - before)) (_regenStartValue l1))
          c3
      else c2
    else c1
  else
    let l := energyLog c in
    if _regenActive l
    then set_energyLog
           (mkEnergyLog (_consumingActive l) (_consumptionAccumulator l)
              (_consumptionStartValue l) false 0 (_regenStartValue l)) c
    else c.

(** [canBeginCharge()] *)
Definition canBeginCharge (c : Controller) : bool :=
  if Qltb (sprint c) (quickJump_cost cfg) then false
  else (isGrounded c && Qltb (jump_minGroundTime cfg) (groundTime c))
       || Qltb 0 (coyoteTime c).

(** [getMovementInput(input)]: forward and backward only. *)
Definition getMovementInput (input : Input) : Vec3 :=
  let z := (if key_KeyW input then -1 else 0) + (if key_KeyS input then 1 else 0) in
  if Qeq_bool z 0 then mkVec3 0 0 0 else mkVec3 0 0 z.

Definition isSprinting (input : Input) : bool := key_ShiftLeft input.

(** *** State hooks *)

Definition playAnimation (name : string) (speed : Q) (c : Controller) : Controller :=
  emit (PlayAnimation name speed) c.

(** [DashState._executeDash()] *)
Definition _executeDash (d : DashData) (c : Controller) : Controller :=
  let input := inputManager c in
  let force := staminaUsed d * airDash_forceMultiplier cfg in
  let forward := forwardDir c in
  let dashDirection :=
    if key_KeyS input && negb (key_KeyW input) then vscale (-1) forward
    else forward in
  let currentVel := linvel c in
  let c1 :=
    set_linvel
      (mkVec3 (vx dashDirection * force)
              (if isGrounded c then 0
               else Qmax (vy currentVel) (airDash_downwardVelocityCap cfg))
              (vz dashDirection * force)) c in
  emit (TriggerDashEffect force) c1.

(** [enter(prevState, params)] of each state class; the result is the
    entered instance and the controller. *)
Definition state_enter (cls : StateClass) (prevKey : option string)
    (params : Params) (c : Controller) : StateInst * Controller :=
  match cls with
  | IdleState => (IdleI, playAnimation "survey" 1 c)
  | WalkState => (WalkI, playAnimation "walk" 1 c)
  | ChargeState =>
      let c1 := playAnimation "survey" 0.8 c in
      let d := mkCharge prevKey (isGrounded c) 0 0 (sprint c)
                 (Qmin (sprint c)
                       (chargeLeap_staminaDrainPerSecond cfg
                        * chargeLeap_maxChargeTime cfg)) in
      (ChargeI d, emit (UiSetChargePreview 0) c1)
  | LeapState => (LeapI, playAnimation "jump" 1.2 c)
  | FallState => (FallI, playAnimation "fall" 1.0 c)
  | DashState =>
      let c1 := playAnimation "run" 1.5 c in
      let used :=
        Qmax (gameplay_minDashEnergy cfg)
             (Qmin (default (gameplay_minDashEnergy cfg) (p_staminaUsed params))
                   (player_maxSprint cfg)) in
      let d := mkDash 0 0.2 used in
      (DashI d, _executeDash d c1)
  | DeadState => (DeadI, c)
  end.

(** [exit()] of the current state instance. *)
Definition state_exit (cur : option StateInst) (c : Controller) : Controller :=
  match cur with
  | Some (ChargeI _) => emit (UiSetChargePreview 0) c
  | _ => c
  end.

(** *** The state machine *)

(** [_recoverToSafeState()] *)
Definition _recoverToSafeState (exitThrows enterThrows : bool)
    (c : Controller) : Controller :=
  let c1 := if exitThrows then c else state_exit (_current (fsm c)) c in
  match _states (fsm c1) !! STATES_IDLE with
  | Some cls =>
      let c2 := set_current (Some (instantiate cls)) (Some STATES_IDLE) c1 in
      if enterThrows then emit (LogError "FSM Recovery Failed" "") c2
      else
        let '(inst, c3) := state_enter cls None noParams c2 in
        emit (LogError "FSM Recovery" "Recovered to idle state")
             (set_current (Some inst) (Some STATES_IDLE) c3)
  | None => c1
  end.

(** [setState(name, params)] *)
Definition setState (name : string) (params : Params) (ft : Fault)
    (c : Controller) : bool * Controller :=
  let f := fsm c in
  match _states f !! name with
  | None => (false, emit (LogError "FSM" ("Invalid state key: " +:+ name)) c)
  | Some stateClass =>
      if decide (_currentKey f = Some name) then (false, c)
      else
        let reason := p_reason params in
        if negb (_canTransitionKey f (_currentKey f) name) then
          (false,
           emit (LogError "FSM"
                   ("Invalid transition: " +:+ default "null" (_currentKey f)
                    +:+ " -> " +:+ name +:+ " (reason: " +:+ reason +:+ ")")) c)
        else
          let prevKey := _currentKey f in
          let entry := mkHistory name reason (isGrounded c) (sprint c) (health c) in
          match ft with
          | NoFault =>
              let c1 := state_exit (_current f) c in
              let '(inst, c2) := state_enter stateClass prevKey params c1 in
              (true, push_history entry (set_current (Some inst) (Some name) c2))
          | EnterRetried =>
              let c1 := state_exit (_current f) c in
              let '(inst, c2) := state_enter stateClass prevKey noParams c1 in
              (true, push_history entry (set_current (Some inst) (Some name) c2))
          | ExitThrows r =>
              (false,
               _recoverToSafeState true r (emit (LogError "FSM Transition" "") c))
          | EnterThrows r =>
              let c1 := state_exit (_current f) c in
              let c2 := set_current (Some (instantiate stateClass)) (Some name) c1 in
              (false,
               _recoverToSafeState false r (emit (LogError "FSM Transition" "") c2))
          end
  end.

(** A transition requested by the controller's own code: the hooks of
    the seven state classes guard their collaborator calls, so no hook
    throws. *)
Definition transition (name : string) (params : Params) (c : Controller) : Controller :=
  snd (setState name params NoFault c).

(** *** Dash, death, damage *)

(** [performDash()] *)
Definition performDash (c : Controller) : bool * Controller :=
  if Qltb (sprint c) (gameplay_minDashEnergy cfg) then
    (false, emit (UiShowEnergyInsufficient "Dash") c)
  else
    let staminaToConsume := sprint c in
    let c1 := consumeStamina staminaToConsume c in
    let c2 := transition STATES_DASH
                (mkParams "dash_initiated" (Some staminaToConsume)) c1 in
    let c3 := emit (TriggerDashEffect staminaToConsume) c2 in
    (true, emit (PlaySound "dash") c3).

Definition isDead (c : Controller) : bool :=
  match _current (fsm c) with Some DeadI => true | _ => false end.

Definition isCharging (c : Controller) : bool :=
  match _current (fsm c) with Some (ChargeI _) => true | _ => false end.

Definition isDashing (c : Controller) : bool :=
  match _current (fsm c) with Some (DashI _) => true | _ => false end.

(** [die(reason)] *)
Definition die (reason : string) (c : Controller) : Controller :=
  let c1 := emit StopTimer c in
  let c2 := emit (PlayerDied reason) c1 in
  let c3 := emit UiShowGameOver c2 in
  transition STATES_DEAD noParams c3.

(** [takeDamage(amount)] *)
Definition takeDamage (amount : Q) (c : Controller) : Controller :=
  if isDead c then c
  else
    let c1 := set_health (Qmax 0 (health c - amount)) c in
    let c2 := emit (UiUpdateHealth (health c1) (player_maxHealth cfg)) c1 in
    let c3 := emit (PlaySound "damage") c2 in
    if Qleb (health c3) 0 then die "damage" c3 else c3.

(** [processImmediateDash()] *)
Definition processImmediateDash (c : Controller) : Controller :=
  if pressed_KeyQ (inputManager c) then
    if isCharging c then c
    else if isDashing c then c
    else if isDead c then c
    else snd (performDash c)
  else c.

(** *** Idle, Walk, Leap, Fall, Dash: [update] *)

Definition IdleState_update (input : Input) (c : Controller) : Controller :=
  if pressed_KeyQ input then snd (performDash c)
  else if canBeginCharge c && key_Space input then
    transition STATES_CHARGE noParams c
  else
    let mv := getMovementInput input in
    if Qltb 0.01 (lengthSq mv) || yawChanged input
    then transition STATES_WALK noParams c
    else c.

Definition WalkState_update (input : Input) (c : Controller) : Controller :=
  if pressed_KeyQ input then snd (performDash c)
  else if canBeginCharge c && key_Space input then
    transition STATES_CHARGE noParams c
  else
    let mv := getMovementInput input in
    let isMoving := Qltb 0.01 (lengthSq mv) || yawChanged input in
    let fwd := (if key_KeyW input then 1 else 0) + (if key_KeyS input then -1 else 0) in
    let sign := if Qltb 0 fwd then 1 else if Qltb fwd 0 then -1 else 1 in
    if negb isMoving then transition STATES_IDLE noParams c
    else if isSprinting input
    then playAnimation "run" (sign * sprintMultiplier cfg) c
    else playAnimation "walk" (sign * 1) c.

Definition LeapState_update (input : Input) (c : Controller) : Controller :=
  if pressed_KeyQ input then snd (performDash c)
  else if Qltb (vy (linvel c)) 0 then transition STATES_FALL noParams c
  else c.

Definition FallState_update (input : Input) (c : Controller) : Controller :=
  if pressed_KeyQ input then snd (performDash c)
  else
    let groundTimeThreshold := 0.05 in
    if isGrounded c && Qltb (groundTimeThreshold - FLOAT_EPSILON) (groundTime c)
    then
      let mv := getMovementInput (inputManager c) in
      transition (if Qltb 0.01 (lengthSq mv) then STATES_WALK else STATES_IDLE)
                 noParams c
    else c.

Definition DashState_update (dt : Q) (d : DashData) (c : Controller) : Controller :=
  let d1 := mkDash (dashTimer d + dt) (dashDuration d) (staminaUsed d) in
  let c1 := set_current (Some (DashI d1)) (_currentKey (fsm c)) c in
  if Qleb (dashDuration d1) (dashTimer d1) then
    if negb (isGrounded c1) then
      if Qltb 0 (vy (linvel c1))
      then transition STATES_LEAP (reasonOnly "dash_complete_ascending") c1
      else transition STATES_FALL (reasonOnly "dash_complete_falling") c1
    else
      if key_KeyW (inputManager c1) || key_KeyS (inputManager c1)
      then transition STATES_WALK (reasonOnly "dash_complete_move") c1
      else transition STATES_IDLE (reasonOnly "dash_complete_idle") c1
  else c1.

(** *** Charge *)

(** The refund shared by the cancel, tap and fizzle paths:
    [sprint = Math.min(maxSprint, sprint + energyConsumed)]. *)
Definition refund (d : ChargeData) (c : Controller) : Controller :=
  set_sprint (Qmin (player_maxSprint cfg) (sprint c + energyConsumed d)) c.

(** [body.mass?.() || 1000] *)
Definition platformMassOf (bv : BodyView) : Q :=
  let m := default 0 (bv_mass bv) in
  if Qeq_bool m 0 then 1000 else m.

(** The jump impulse shared by the quick jump and the charged leap: on a
    falling platform whose body can be read, the platform receives a
    reaction impulse and the jump is relative to the platform's vertical
    velocity; otherwise (also when the body access throws) the plain
    velocity is set. *)
Definition applyJump (env : Env) (vertical : Q) (addX addZ : Q)
    (reactX reactZ : Q) (c : Controller) : Controller :=
  let currentVel := linvel c in
  let plain :=
    set_linvel (mkVec3 (vx currentVel + addX) vertical (vz currentVel + addZ)) c in
  match onFallingPlatform c, fallingPlatformBody c with
  | true, Some h =>
      match env_body env h with
      | Some bv =>
          let platformMass := platformMassOf bv in
          let reaction := (vertical * player_mass cfg) / platformMass in
          let c1 := emit (PlatformImpulse h (mkVec3 reactX (-reaction * 0.5) reactZ)) c in
          set_linvel (mkVec3 (vx currentVel + addX) (bv_vy bv + vertical)
                             (vz currentVel + addZ)) c1
      | None => plain
      end
  | _, _ => plain
  end.

(** [ChargeState.launch()] *)
Definition ChargeState_launch (env : Env) (d : ChargeData) (c : Controller) : Controller :=
  if Qltb (chargeTime d) (quickJump_tapThreshold cfg) then
    let c1 := refund d c in
    if Qleb (quickJump_cost cfg) (sprint c1) then
      let c2 := consumeStamina (quickJump_cost cfg) c1 in
      let c3 := applyJump env (quickJump_verticalForce cfg) 0 0 0 0 c2 in
      let c4 := emit (PlaySound "jump") c3 in
      transition STATES_LEAP noParams c4
    else
      let c2 := emit (UiShowEnergyInsufficient "Quick Jump") c1 in
      let c3 := emit (UiUpdateSprint (sprint c2) (player_maxSprint cfg)) c2 in
      transition (if isGrounded c3 then STATES_IDLE else STATES_FALL) noParams c3
  else if Qltb 0 (energyConsumed d)
          && Qltb (energyConsumed d) (chargeLeap_minChargeEnergy cfg) then
    let c1 := refund d c in
    let c2 := emit (UiUpdateSprint (sprint c1) (player_maxSprint cfg)) c1 in
    transition STATES_IDLE noParams c2
  else
    let pct :=
      if Qltb 0 (maxPossibleEnergy d)
      then Qmin 1 (energyConsumed d / maxPossibleEnergy d) else 0 in
    let vMin := chargeLeap_minVertical cfg in
    let vMax := chargeLeap_maxVertical cfg in
    let hMin := chargeLeap_minForward cfg in
    let hMax := chargeLeap_maxForward cfg in
    let vY := vMin + (vMax - vMin) * pct in
    let hF := hMin + (hMax - hMin) * pct in
    let dir :=
      if chargeLeap_horizontalMultiplierUsesCamera cfg then env_camDir env
      else forwardDir c in
    let c1 := applyJump env vY (vx dir * hF) (vz dir * hF)
                (- vx dir * hF * 0.3) (- vz dir * hF * 0.3) c in
    let c2 := emit (PlaySound "jump") c1 in
    let c3 := emit (UiSetChargePreview 0) c2 in
    transition STATES_LEAP noParams c3.

(** The drain block of [ChargeState.update]: while the key is held and
    energy and time remain, [Math.min(drain, sprint)] is consumed and
    accumulated. *)
Definition chargeDrain (dt : Q) (d : ChargeData) (c : Controller) : ChargeData * Controller :=
  if Qltb (chargeTime d) (chargeLeap_maxChargeTime cfg) && Qltb 0 (sprint c) then
    let drain := chargeLeap_staminaDrainPerSecond cfg * dt in
    let actual := Qmin drain (sprint c) in
    let c1 := consumeStamina actual c in
    (mkCharge (previousState d) (startedGrounded d) (chargeTime d + dt)
              (energyConsumed d + actual) (startEnergy d) (maxPossibleEnergy d),
     c1)
  else (d, c).

(** [ChargeState.update(input, dt)] *)
Definition ChargeState_update (env : Env) (input : Input) (dt : Q)
    (d : ChargeData) (c : Controller) : Controller :=
  if startedGrounded d && negb (isGrounded c) && Qleb (coyoteTime c) 0 then
    let c1 :=
      if Qltb 0 (energyConsumed d)
      then let r := refund d c in
           emit (UiUpdateSprint (sprint r) (player_maxSprint cfg)) r
      else c in
    transition STATES_FALL noParams c1
  else
    let c1 :=
      if key_Space input
      then playAnimation "walk" (if key_KeyS input then -1 else 1) c
      else c in
    if negb (key_Space input) then ChargeState_launch env d c1
    else if negb (isGrounded c1) && Qleb (coyoteTime c1) 0
            && Qeq_bool (chargeTime d) 0 then
      let c2 :=
        if Qltb 0 (energyConsumed d)
        then let r := refund d c1 in
             emit (UiUpdateSprint (sprint r) (player_maxSprint cfg)) r
        else c1 in
      let c3 := emit (UiSetChargePreview 0) c2 in
      transition STATES_FALL noParams c3
    else
      let '(d1, c2) := chargeDrain dt d c1 in
      let c3 := set_current (Some (ChargeI d1)) (_currentKey (fsm c2)) c2 in
      let percent :=
        if Qltb 0 (maxPossibleEnergy d1)
        then energyConsumed d1 / maxPossibleEnergy d1 else 0 in
      let c4 := emit (UiSetChargePreview percent) c3 in
      if Qleb (sprint c4) 0
         || Qleb (chargeLeap_maxChargeTime cfg) (chargeTime d1)
      then ChargeState_launch env d1 c4
      else c4.

(** [EnhancedFSM.update(dt, input)]: delegate to the current state. *)
Definition fsm_update (env : Env) (dt : Q) (input : Input) (c : Controller) : Controller :=
  match _current (fsm c) with
  | None => c
  | Some IdleI => IdleState_update input c
  | Some WalkI => WalkState_update input c
  | Some (ChargeI d) => ChargeState_update env input dt d c
  | Some LeapI => LeapState_update input c
  | Some FallI => FallState_update input c
  | Some (DashI d) => DashState_update dt d c
  | Some DeadI => c
  end.

(** The energy part of [fixedUpdate(dt)]: the state machine is updated
    with the controller's input snapshot, then energy regenerates unless
    the player is charging or dashing; a dead player only gets the
    (empty) state update. Ground detection runs before it (see
    [checkGrounded]); the velocity smoothing and platform carry that sit
    between the two steps do not touch the energy or the machine and
    are not modelled. *)
Definition fixedUpdateEnergy (env : Env) (dt : Q) (c : Controller) : Controller :=
  if isDead c then fsm_update env dt (inputManager c) c
  else
    let c1 := fsm_update env dt (inputManager c) c in
    if negb (isCharging c1) && negb (isDashing c1) then updateSprint dt c1
    else c1.

End Locomotion.

(** ** Track segments and the game *)

Inductive CrumbleState := STABLE | WARNING | FALLING | DESTROYED.

Global Instance CrumbleState_eq_dec : EqDecision CrumbleState.
Proof. solve_decision. Defined.

(** A track segment together with its platform mesh
    ([threeMeshes[0]]); the [ud_] fields and the crumble state live in
    [mesh.userData]. Each generated segment is one heap object of the
    model: the script takes the segment object from a pool but builds a
    fresh mesh for it, and the pooled object is handed out again only
    after [despawnSegment] has run for its previous use. *)
Record Segment := mkSegment {
  index : Z;
  seg_x : Q;
  seg_z : Q;
  height : Q;
  isCrumblePlatform : bool;
  hasMesh : bool;
  ud_isCrumblePlatform : bool;
  crumbleState : option CrumbleState;
  warningTimer : Q;
  meshY : Q;
  meshVisible : bool;
  rapierBody : option nat;
  dynamic : bool
}.

Definition set_crumble (st : option CrumbleState) (wt : Q) (s : Segment) : Segment :=
  mkSegment (index s) (seg_x s) (seg_z s) (height s) (isCrumblePlatform s)
    (hasMesh s) (ud_isCrumblePlatform s) st wt (meshY s) (meshVisible s)
    (rapierBody s) (dynamic s).

Definition set_body (b : option nat) (dyn : bool) (s : Segment) : Segment :=
  mkSegment (index s) (seg_x s) (seg_z s) (height s) (isCrumblePlatform s)
    (hasMesh s) (ud_isCrumblePlatform s) (crumbleState s) (warningTimer s)
    (meshY s) (meshVisible s) b dyn.

Definition set_mesh (y : Q) (visible : bool) (s : Segment) : Segment :=
  mkSegment (index s) (seg_x s) (seg_z s) (height s) (isCrumblePlatform s)
    (hasMesh s) (ud_isCrumblePlatform s) (crumbleState s) (warningTimer s)
    y visible (rapierBody s) (dynamic s).

(** The result of the downward shape cast: whether the hit has a
    collider and the handle of the body that owns it. *)
Record Hit := mkHit {
  hit_hasCollider : bool;
  hit_parent : option nat
}.

(** The random outcomes of one [generateSegment] call that the model
    keeps: the step to the next position, the clamped height, the
    teeter roll and the crumble roll. *)
Record GenRoll := mkGenRoll {
  roll_dx : Q;
  roll_dz : Q;
  roll_height : Q;
  roll_teeter : bool;
  roll_crumble : bool
}.

Record Game := mkGame {
  segs : gmap nat Segment;          (* the segment objects *)
  nextSeg : nat;
  trackSegments : list nat;         (* references into [segs] *)
  playerSegmentIndex : Z;
  crumbleTimers : gmap Z nat;       (* Map: segment.index -> timer id *)
  timeouts : gmap nat nat;          (* pending setTimeout callbacks:
                                       timer id -> captured segment *)
  nextTimer : nat;
  nextHandle : nat;                 (* next rigid-body handle *)
  score : Z;
  _lastSegmentSearch : option Q;
  running : bool;
  _isCleaningUp : bool;
  _lavaCollider : bool;             (* the lava sensor exists *)
  playerBody : bool;                (* playerController.body exists *)
  playerController : Controller
}.

Definition set_segs (v : gmap nat Segment) (g : Game) : Game :=
  mkGame v (nextSeg g) (trackSegments g) (playerSegmentIndex g)
    (crumbleTimers g) (timeouts g) (nextTimer g) (nextHandle g) (score g)
    (_lastSegmentSearch g) (running g) (_isCleaningUp g) (_lavaCollider g)
    (playerBody g) (playerController g).

Definition set_track (l : list nat) (psi : Z) (g : Game) : Game :=
  mkGame (segs g) (nextSeg g) l psi
    (crumbleTimers g) (timeouts g) (nextTimer g) (nextHandle g) (score g)
    (_lastSegmentSearch g) (running g) (_isCleaningUp g) (_lavaCollider g)
    (playerBody g) (playerController g).

Definition set_timers (ct : gmap Z nat) (ts : gmap nat nat) (nt : nat) (g : Game) : Game :=
  mkGame (segs g) (nextSeg g) (trackSegments g) (playerSegmentIndex g)
    ct ts nt (nextHandle g) (score g)
    (_lastSegmentSearch g) (running g) (_isCleaningUp g) (_lavaCollider g)
    (playerBody g) (playerController g).

Definition set_nextHandle (h : nat) (g : Game) : Game :=
  mkGame (segs g) (nextSeg g) (trackSegments g) (playerSegmentIndex g)
    (crumbleTimers g) (timeouts g) (nextTimer g) h (score g)
    (_lastSegmentSearch g) (running g) (_isCleaningUp g) (_lavaCollider g)
    (playerBody g) (playerController g).

Definition set_lastSegmentSearch (v : option Q) (g : Game) : Game :=
  mkGame (segs g) (nextSeg g) (trackSegments g) (playerSegmentIndex g)
    (crumbleTimers g) (timeouts g) (nextTimer g) (nextHandle g) (score g)
    v (running g) (_isCleaningUp g) (_lavaCollider g)
    (playerBody g) (playerController g).

Definition set_playerController (c : Controller) (g : Game) : Game :=
  mkGame (segs g) (nextSeg g) (trackSegments g) (playerSegmentIndex g)
    (crumbleTimers g) (timeouts g) (nextTimer g) (nextHandle g) (score g)
    (_lastSegmentSearch g) (running g) (_isCleaningUp g) (_lavaCollider g)
    (playerBody g) c.

(** [segs[sid] = f(segs[sid])], for a live reference. *)
Definition update_seg (sid : nat) (f : Segment -> Segment) (g : Game) : Game :=
  set_segs (alter f sid (segs g)) g.

(** [world.createRigidBody(desc)]: a fresh handle. *)
Definition createRigidBody (g : Game) : nat * Game :=
  (nextHandle g, set_nextHandle (S (nextHandle g)) g).

(** [clearTimeout(t)] *)
Definition clearTimeout (t : nat) (g : Game) : Game :=
  set_timers (crumbleTimers g) (delete t (timeouts g)) (nextTimer g) g.

(** The guard that opens [startCrumble], [_destroyFallenPlatform] and
    [despawnSegment]:
    [if (crumbleTimers.has(i)) { clearTimeout(crumbleTimers.get(i)); ... }] *)
Definition clearCrumbleTimer (i : Z) (andDelete : bool) (g : Game) : Game :=
  match crumbleTimers g !! i with
  | Some t =>
      let g1 := clearTimeout t g in
      if andDelete
      then set_timers (delete i (crumbleTimers g1)) (timeouts g1) (nextTimer g1) g1
      else g1
  | None => g
  end.

Section Track.

Variable cfg : Config.

(** *** Crumble system *)

(** [_convertPlatformToDynamic(segment)] *)
Definition _convertPlatformToDynamic (sid : nat) (g : Game) : Game :=
  match segs g !! sid with
  | Some s =>
      if hasMesh s then
        let '(rb, g1) := createRigidBody g in
        update_seg sid (set_body (Some rb) true) g1
      else g
  | None => g
  end.

(** The callback that [startCrumble] hands to [setTimeout]; [sid] is the
    segment it captured. *)
Definition crumbleTimerCallback (sid : nat) (g : Game) : Game :=
  match segs g !! sid with
  | Some s =>
      let g1 := update_seg sid (set_crumble (Some FALLING) (warningTimer s)) g in
      let g2 := _convertPlatformToDynamic sid g1 in
      set_timers (delete (index s) (crumbleTimers g2)) (timeouts g2) (nextTimer g2) g2
  | None => g
  end.

(** A pending timeout fires: it leaves the timer queue and its callback
    runs. A cleared or unknown id does nothing. *)
Definition fireTimeout (t : nat) (g : Game) : Game :=
  match timeouts g !! t with
  | Some sid => crumbleTimerCallback sid (clearTimeout t g)
  | None => g
  end.

(** [startCrumble(segment)] *)
Definition startCrumble (sid : nat) (g : Game) : Game :=
  if negb (track_crumbleMode cfg) then g
  else
    match segs g !! sid with
    | None => g
    | Some s =>
        if negb (isCrumblePlatform s) || negb (hasMesh s) then g
        else if bool_decide (crumbleState s = None ∨ crumbleState s = Some STABLE) then
          let g1 := clearCrumbleTimer (index s) false g in
          let g2 := update_seg sid (set_crumble (Some WARNING) 0) g1 in
          let delayTimer := nextTimer g2 in
          set_timers (<[index s := delayTimer]> (crumbleTimers g2))
                     (<[delayTimer := sid]> (timeouts g2))
                     (S delayTimer) g2
        else g
    end.

(** [CONFIG.lava.surfaceY || -50] *)
Definition lavaY : Q :=
  if Qeq_bool (lava_surfaceY cfg) 0 then -50 else lava_surfaceY cfg.

(** [_destroyFallenPlatform(segment)] *)
Definition _destroyFallenPlatform (sid : nat) (g : Game) : Game :=
  match segs g !! sid with
  | Some s =>
      if negb (hasMesh s) then g
      else if bool_decide (crumbleState s = Some FALLING) then
        let g1 := clearCrumbleTimer (index s) true g in
        update_seg sid
          (fun s => set_crumble (Some DESTROYED) (warningTimer s)
                      (set_mesh (meshY s) false (set_body None (dynamic s) s)))
          g1
      else g
  | None => g
  end.

(** The height the crumble tick compares with the lava: the body's, or
    the mesh's when there is no body or reading it throws. *)
Definition fallingY (env : Env) (s : Segment) : Q :=
  match rapierBody s with
  | Some h => match env_body env h with Some bv => bv_y bv | None => meshY s end
  | None => meshY s
  end.

(** One iteration of the loop of [updateCrumblePlatforms]. *)
Definition crumbleTickSegment (env : Env) (dt : Q) (g : Game) (sid : nat) : Game :=
  match segs g !! sid with
  | Some s =>
      if negb (isCrumblePlatform s) then g
      else if negb (hasMesh s) then g
      else if bool_decide (crumbleState s = Some WARNING) then
        update_seg sid (set_crumble (Some WARNING) (warningTimer s + dt)) g
      else if bool_decide (crumbleState s = Some FALLING) then
        if Qleb (fallingY env s) lavaY then _destroyFallenPlatform sid g else g
      else g
  | None => g
  end.

(** [updateCrumblePlatforms(dt)] *)
Definition updateCrumblePlatforms (env : Env) (dt : Q) (g : Game) : Game :=
  if negb (track_crumbleMode cfg) then g
  else foldl (crumbleTickSegment env dt) g (trackSegments g).

(** One iteration of the loop of [resetCrumblePlatforms]. *)
Definition resetCrumbleSegment (g : Game) (sid : nat) : Game :=
  match segs g !! sid with
  | Some s =>
      if negb (isCrumblePlatform s) then g
      else if negb (hasMesh s) then g
      else
        let '(rb, g1) := createRigidBody g in
        update_seg sid
          (fun s => set_crumble (Some STABLE) (warningTimer s)
                      (set_mesh (height s) true (set_body (Some rb) false s)))
          g1
  | None => g
  end.

(** [resetCrumblePlatforms()] *)
Definition resetCrumblePlatforms (g : Game) : Game :=
  let cleared :=
    foldr (fun it acc => delete (snd it) acc) (timeouts g)
          (map_to_list (crumbleTimers g)) in
  let g1 := set_timers ∅ cleared (nextTimer g) g in
  foldl resetCrumbleSegment g1 (trackSegments g1).

(** *** Generation and despawn *)

(** [despawnSegment(segment)]: the pending crumble timer goes first. *)
Definition despawnSegment (sid : nat) (g : Game) : Game :=
  match segs g !! sid with
  | Some s => clearCrumbleTimer (index s) true g
  | None => g
  end.

(** [track.crumbleSafeBuffer ?? 2] *)
Definition crumbleSafeBuffer : Z := 2.

(** [generateSegment(prevSegment)], with the random outcomes [r]. *)
Definition generateSegment (prevSegment : option nat) (r : GenRoll) (g : Game) : Game :=
  let prev := prevSegment ≫= (fun sid => segs g !! sid) in
  let idx := (match prev with Some p => index p | None => -1 end + 1)%Z in
  let px := match prev with Some p => seg_x p | None => 0 end in
  let pz := match prev with Some p => seg_z p | None => 0 end in
  let ph := match prev with Some p => height p | None => 0 end in
  let '(rb, g1) := createRigidBody g in
  let isCrumble :=
    track_crumbleMode cfg && bool_decide (crumbleSafeBuffer < idx)%Z
    && roll_crumble r in
  let s := mkSegment idx (px + roll_dx r) (pz + roll_dz r) (roll_height r)
             isCrumble true isCrumble
             (if track_crumbleMode cfg then Some STABLE else None)
             0 ((ph + roll_height r) / 2) true (Some rb) (roll_teeter r) in
  let sid := nextSeg g1 in
  mkGame (<[sid := s]> (segs g1)) (S sid) (trackSegments g1 ++ [sid])%list
    (playerSegmentIndex g1) (crumbleTimers g1) (timeouts g1) (nextTimer g1)
    (nextHandle g1) (score g1 + 1)%Z (_lastSegmentSearch g1) (running g1)
    (_isCleaningUp g1) (_lavaCollider g1) (playerBody g1) (playerController g1).

(** [resetGame()]: crumble reset, every segment despawned, empty track. *)
Definition resetGame (g : Game) : Game :=
  let g1 := if track_crumbleMode cfg then resetCrumblePlatforms g else g in
  let g2 := foldl (fun g sid => despawnSegment sid g) g1 (trackSegments g1) in
  mkGame (segs g2) (nextSeg g2) [] 0 (crumbleTimers g2) (timeouts g2)
    (nextTimer g2) (nextHandle g2) 0 (_lastSegmentSearch g2) (running g2)
    (_isCleaningUp g2) (_lavaCollider g2) (playerBody g2) (playerController g2).

(** *** The sliding window: [updateTrack] *)

(** First block: a dynamic body drives the position of its mesh. Bodies
    of segments in the track are live: every removal of such a body
    also clears [segment.rapierBody]. *)
Definition syncSegment (env : Env) (g : Game) (sid : nat) : Game :=
  match segs g !! sid with
  | Some s =>
      match rapierBody s with
      | Some h =>
          match env_body env h with
          | Some bv =>
              if bv_isDynamic bv
              then update_seg sid (fun s => set_mesh (bv_y bv) (meshVisible s) s) g
              else g
          | None => g
          end
      | None => g
      end
  | None => g
  end.

(** [this.trackSegments[i]] *)
Definition segmentAt (g : Game) (i : Z) : option Segment :=
  if (i <? 0)%Z then None
  else trackSegments g !! Z.to_nat i ≫= (fun sid => segs g !! sid).

(** The integers [lo, lo+1, ..., hi-1]. *)
Definition Zrange (lo hi : Z) : list Z :=
  map (fun k => (lo + Z.of_nat k)%Z) (seq 0 (Z.to_nat (hi - lo))).

(** Body of the nearest-segment loop; [None] is [Infinity]. *)
Definition searchStep (g : Game) (px pz : Q) (acc : option Q * Z) (i : Z) : option Q * Z :=
  match segmentAt g i with
  | None => acc
  | Some seg =>
      let dx := px - seg_x seg in
      let dz := pz - seg_z seg in
      let d2 := dx * dx + dz * dz in
      match fst acc with
      | None => (Some d2, i)
      | Some closest => if Qltb d2 closest then (Some d2, i) else acc
      end
  end.

(** The throttled search over [idx-3, idx+4). *)
Definition nearestSegment (g : Game) : Z :=
  let pos := translation (playerController g) in
  let psi := playerSegmentIndex g in
  let searchStart := Z.max 0 (psi - 3) in
  let searchEnd := Z.min (Z.of_nat (length (trackSegments g))) (psi + 4) in
  snd (foldl (searchStep g (vx pos) (vz pos)) (None, psi)
             (Zrange searchStart searchEnd)).

Definition searchThrottleMs : Q := 100.

Definition searchDue (now : Q) (g : Game) : bool :=
  match _lastSegmentSearch g with
  | None => true
  | Some l => Qeq_bool l 0 || Qltb searchThrottleMs (now - l)
  end.

Definition searchBlock (now : Q) (g : Game) : Game :=
  if searchDue now g then
    let g1 := set_lastSegmentSearch (Some now) g in
    set_track (trackSegments g1) (nearestSegment g1) g1
  else g.

Definition trackLength (g : Game) : Z := Z.of_nat (length (trackSegments g)).

Definition desiredSegmentCount (g : Game) : Z :=
  (playerSegmentIndex g + track_segmentsToGenerateAhead cfg)%Z.

(** The despawn block: [splice(0, despawnCount)], [despawnSegment] for
    each removed segment, the player's index moved back. *)
Definition despawnBlock (g : Game) : Game :=
  let despawnCount := (playerSegmentIndex g - track_segmentsToKeepBehind cfg)%Z in
  if (0 <? despawnCount)%Z then
    let n := Z.to_nat despawnCount in
    let segmentsToDespawn := take n (trackSegments g) in
    let g1 := set_track (drop n (trackSegments g)) (playerSegmentIndex g) g in
    let g2 := foldl (fun g sid => despawnSegment sid g) g1 segmentsToDespawn in
    set_track (trackSegments g2) (playerSegmentIndex g2 - despawnCount)%Z g2
  else g.

(** [while (trackSegments.length < desiredSegmentCount) generateSegment(last)];
    [rng] supplies the random outcomes of the successive calls. *)
Equations? generateLoop (rng : nat -> GenRoll) (desired : Z) (g : Game) : Game
  by wf (Z.to_nat (desired - trackLength g)) lt :=
  generateLoop rng desired g with decide (trackLength g < desired)%Z => {
    | left _ := generateLoop rng desired
                  (generateSegment (last (trackSegments g)) (rng (nextSeg g)) g);
    | right _ := g }.
Proof.
  unfold trackLength, generateSegment in *. simpl.
  rewrite length_app. simpl. lia.
Qed.

Definition generateBlock (rng : nat -> GenRoll) (g : Game) : Game :=
  generateLoop rng (desiredSegmentCount g) g.

(** [updateTrack()] on a level other than 'translate' (the kinematic
    motion driver and the damage-zone compaction are not modelled). *)
Definition updateTrack (env : Env) (now : Q) (rng : nat -> GenRoll) (g : Game) : Game :=
  let g0 := foldl (syncSegment env) g (trackSegments g) in
  if negb (playerBody g0) then g0
  else despawnBlock (generateBlock rng (searchBlock now g0)).

(** *** Ground detection *)

(** The matching loop of [checkGrounded]: the first segment of the list
    whose body has the handle of the hit body; segments without a body
    are skipped. *)
Fixpoint findGroundSegment (heap : gmap nat Segment) (hitBody : nat)
    (segments : list nat) : option nat :=
  match segments with
  | [] => None
  | sid :: rest =>
      match heap !! sid with
      | Some s =>
          match rapierBody s with
          | Some h =>
              if decide (h = hitBody) then Some sid
              else findGroundSegment heap hitBody rest
          | None => findGroundSegment heap hitBody rest
          end
      | None => findGroundSegment heap hitBody rest
      end
  end.

Definition with_controller (f : Controller -> Controller) (g : Game) : Game :=
  set_playerController (f (playerController g)) g.

(** The falling-platform logic that follows the match. Reading a stale
    body throws: the enclosing [catch] clears [currentGroundSegment]. *)
Definition groundCrumbleLogic (env : Env) (sid : nat) (g : Game) : Game :=
  match segs g !! sid with
  | Some s =>
      if track_crumbleMode cfg && (isCrumblePlatform s || ud_isCrumblePlatform s)
      then
        if hasMesh s then
          let isBodyDynamic :=
            match rapierBody s with
            | Some b => bv_isDynamic <$> env_body env b
            | None => Some false
            end in
          match isBodyDynamic with
          | Some dyn =>
              if bool_decide (crumbleState s = Some FALLING) && dyn
              then with_controller (set_fallingPlatform true (rapierBody s)) g
              else if bool_decide (crumbleState s = Some STABLE)
              then startCrumble sid g
              else g
          | None => with_controller (set_currentGroundSegment None) g
          end
        else g
      else g
  | None => g
  end.

(** [CharacterController.checkGrounded()]; [hit] is the result of the
    downward shape cast. *)
Definition checkGrounded (env : Env) (hit : option Hit) (g : Game) : Game :=
  let was := isGrounded (playerController g) in
  let hitGround := bool_decide (is_Some hit) in
  let g1 :=
    with_controller
      (fun c => set_fallingPlatform false None (set_isGrounded hitGround c)) g in
  let g2 :=
    match hit with
    | Some h =>
        if hit_hasCollider h then
          match hit_parent h with
          | Some hitBody =>
              let matched := findGroundSegment (segs g1) hitBody (trackSegments g1) in
              let g' := with_controller (set_currentGroundSegment matched) g1 in
              match matched with
              | Some sid => groundCrumbleLogic env sid g'
              | None => g'
              end
          | None => g1
          end
        else with_controller (set_currentGroundSegment None) g1
    | None => with_controller (set_currentGroundSegment None) g1
    end in
  let c2 := playerController g2 in
  let c3 :=
    if hitGround then
      match onFallingPlatform c2, fallingPlatformBody c2 with
      | true, Some fb =>
          match env_body env fb with
          | Some bv =>
              let relY := Qabs (vy (linvel c2) - bv_vy bv) in
              if Qltb relY 3.0 then
                if negb was
                then emit (PlaySound "land") (set_groundTime 0 (set_isGrounded true c2))
                else c2
              else c2
          | None => set_fallingPlatform false None (set_isGrounded false c2)
          end
      | _, _ =>
          if negb was then emit (PlaySound "land") (set_groundTime 0 c2) else c2
      end
    else c2 in
  let c4 :=
    if was && negb (isGrounded c3)
    then set_coyoteTime (jump_coyoteTime cfg) c3 else c3 in
  set_playerController c4 g2.

(** *** Lava *)

(** The lava contact check of [Game.animate]; [inMainMenu] is the state
    of the menu overlay. *)
Definition lavaContactCheck (inMainMenu : bool) (g : Game) : Game :=
  if negb inMainMenu && negb (_isCleaningUp g) && running g
     && lava_killOnContact cfg && _lavaCollider g
     && negb (isDead (playerController g))
  then
    if playerBody g then
      let pos := translation (playerController g) in
      let playerBottom := vy pos - (player_height cfg + player_radius cfg) in
      if Qleb playerBottom (lava_surfaceY cfg + 0.05) then
        with_controller
          (fun c => die cfg "lava" (emit (PlaySound "damage") c)) g
      else g
    else g
  else g.

(** *** Runs of the game *)

(** What can happen to the track and crumble system between two
    observations. *)
Inductive Event :=
| EvPlayerMoved (pos : Vec3)                             (* world.step() *)
| EvCheckGrounded (env : Env) (hit : option Hit)         (* fixedUpdate *)
| EvTimeout (t : nat)                                    (* a timer fires *)
| EvCrumbleTick (env : Env) (dt : Q)                     (* animate *)
| EvUpdateTrack (env : Env) (now : Q) (rng : nat -> GenRoll)
| EvGenerate (r : GenRoll)                               (* level start *)
| EvResetCrumble
| EvResetGame.

Definition step (e : Event) (g : Game) : Game :=
  match e with
  | EvPlayerMoved pos => with_controller (set_translation pos) g
  | EvCheckGrounded env hit => checkGrounded env hit g
  | EvTimeout t => fireTimeout t g
  | EvCrumbleTick env dt => updateCrumblePlatforms env dt g
  | EvUpdateTrack env now rng => updateTrack env now rng g
  | EvGenerate r => generateSegment (last (trackSegments g)) r g
  | EvResetCrumble => resetCrumblePlatforms g
  | EvResetGame => resetGame g
  end.

Definition run (es : list Event) (g : Game) : Game := foldl (fun g e => step e g) g es.

(** The game right after its constructor. *)
Definition newGame : Game :=
  mkGame ∅ 0 [] 0 ∅ ∅ 0 0 0 None true false true true (newController cfg).

Inductive reachable : Game -> Prop :=
| reach_new : reachable newGame
| reach_step g e : reachable g -> reachable (step e g).

End Track.

(** * Properties *)

(** ** The transition discipline of the state machine *)

Record Call := mkCall {
  call_name : string;
  call_params : Params;
  call_fault : Fault
}.

Definition key (c : Controller) : option string := _currentKey (fsm c).

Definition allowedFrom (c : Controller) (k : string) : list string :=
  default [] (_validTransitions (fsm c) !! k).

Section FsmProperties.

Variable cfg : Config.

Definition runCalls (calls : list Call) (c : Controller) : Controller :=
  foldl (fun c call =>
           snd (setState cfg (call_name call) (call_params call) (call_fault call) c))
        c calls.

(** The machine was built by [_setupFSM] and its key is unset or one of
    the seven. *)
Definition FsmInv (c : Controller) : Prop :=
  _states (fsm c) = _states _setupFSM
  /\ _validTransitions (fsm c) = validTransitions
  /\ (key c = None \/ exists k, key c = Some k /\ k ∈ STATES).

Lemma registered_in_STATES name cls :
  _states _setupFSM !! name = Some cls -> name ∈ STATES.
Proof.
  unfold _setupFSM, addState, newFSM; simpl. intros H.
  repeat (rewrite lookup_insert in H; case_decide; [subst; unfold STATES; set_solver|]).
  rewrite lookup_empty in H. done.
Qed.

Lemma STATES_registered name : name ∈ STATES -> is_Some (_states _setupFSM !! name).
Proof.
  unfold STATES. rewrite !elem_of_cons, elem_of_nil.
  intros [->|[->|[->|[->|[->|[->|[->|[]]]]]]]]; eexists; reflexivity.
Qed.

Lemma STATES_nonempty k : k ∈ STATES -> k <> "".
Proof.
  unfold STATES. rewrite !elem_of_cons, elem_of_nil.
  intros [->|[->|[->|[->|[->|[->|[->|[]]]]]]]]; discriminate.
Qed.

(** The hooks leave the machine alone. *)
Lemma state_enter_fsm cls prev p c :
  fsm (snd (state_enter cfg cls prev p c)) = fsm c.
Proof. destruct cls; reflexivity. Qed.

Lemma state_exit_fsm cur c : fsm (state_exit cur c) = fsm c.
Proof. destruct cur as [[]|]; reflexivity. Qed.

Lemma state_exit_signals_grow cur c :
  exists l, signals (state_exit cur c) = (signals c ++ l)%list.
Proof.
  destruct cur as [[]|]; simpl; try (exists []; rewrite app_nil_r; reflexivity).
  eexists; reflexivity.
Qed.

(** What a call to [setState] can do to the key. *)
Inductive Outcome (name : string) (ft : Fault) (c : Controller)
    (r : bool * Controller) : Prop :=
| Rejected :
    fst r = false -> fsm (snd r) = fsm c -> Outcome name ft c r
| Accepted :
    fst r = true -> key (snd r) = Some name -> name ∈ STATES ->
    key c <> Some name -> _canTransitionKey (fsm c) (key c) name = true ->
    Outcome name ft c r
| Recovered :
    fst r = false -> key (snd r) = Some STATES_IDLE -> name ∈ STATES ->
    key c <> Some name -> _canTransitionKey (fsm c) (key c) name = true ->
    ft <> NoFault ->
    Outcome name ft c r.

Lemma recover_static et rt c :
  _states (fsm (_recoverToSafeState cfg et rt c)) = _states (fsm c)
  /\ _validTransitions (fsm (_recoverToSafeState cfg et rt c)) = _validTransitions (fsm c).
Proof.
  unfold _recoverToSafeState.
  set (c1 := if et then c else state_exit (_current (fsm c)) c).
  assert (Hc1 : fsm c1 = fsm c) by (subst c1; destruct et; [reflexivity|apply state_exit_fsm]).
  rewrite Hc1.
  destruct (_states (fsm c) !! STATES_IDLE) as [ci|]; [|rewrite Hc1; split; reflexivity].
  destruct rt; simpl; [rewrite Hc1; split; reflexivity|].
  destruct (state_enter cfg ci None noParams _) as [inst c3] eqn:Hen.
  pose proof (state_enter_fsm ci None noParams
                (set_current (Some (instantiate ci)) (Some STATES_IDLE) c1)) as Hf.
  rewrite Hen in Hf. simpl in Hf. simpl. rewrite Hf. simpl. rewrite Hc1.
  split; reflexivity.
Qed.

Lemma setState_static name p ft c :
  _states (fsm (snd (setState cfg name p ft c))) = _states (fsm c)
  /\ _validTransitions (fsm (snd (setState cfg name p ft c))) = _validTransitions (fsm c).
Proof.
  unfold setState.
  destruct (_states (fsm c) !! name) as [cls|] eqn:E; [|split; reflexivity].
  case_decide; [split; reflexivity|].
  destruct (_canTransitionKey _ _ _); simpl; [|split; reflexivity].
  destruct ft; simpl.
  - destruct (state_enter cfg cls _ p _) as [inst c2] eqn:Hen. simpl.
    pose proof (state_enter_fsm cls (_currentKey (fsm c)) p (state_exit (_current (fsm c)) c)) as Hf.
    rewrite Hen in Hf. simpl in Hf. rewrite Hf, state_exit_fsm. split; reflexivity.
  - destruct (recover_static true recoveryEnterThrows
                (emit (LogError "FSM Transition" "") c)) as [-> ->].
    split; reflexivity.
  - destruct (recover_static false recoveryEnterThrows
                (emit (LogError "FSM Transition" "")
                   (set_current (Some (instantiate cls)) (Some name)
                      (state_exit (_current (fsm c)) c)))) as [-> ->].
    simpl. rewrite state_exit_fsm. split; reflexivity.
  - destruct (state_enter cfg cls _ noParams _) as [inst c2] eqn:Hen. simpl.
    pose proof (state_enter_fsm cls (_currentKey (fsm c)) noParams (state_exit (_current (fsm c)) c)) as Hf.
    rewrite Hen in Hf. simpl in Hf. rewrite Hf, state_exit_fsm. split; reflexivity.
Qed.

Lemma recover_key et rt c :
  _states (fsm c) !! STATES_IDLE = Some IdleState ->
  key (_recoverToSafeState cfg et rt c) = Some STATES_IDLE.
Proof.
  intros Hidle. unfold _recoverToSafeState.
  set (c1 := if et then c else state_exit (_current (fsm c)) c).
  assert (Hc1 : fsm c1 = fsm c) by (subst c1; destruct et; [reflexivity|apply state_exit_fsm]).
  rewrite Hc1, Hidle. destruct rt; reflexivity.
Qed.

Lemma setState_outcome name p ft c :
  _states (fsm c) = _states _setupFSM ->
  Outcome name ft c (setState cfg name p ft c).
Proof.
  intros Hreg. unfold setState.
  destruct (_states (fsm c) !! name) as [cls|] eqn:E;
    [|apply Rejected; reflexivity].
  assert (Hin : name ∈ STATES)
    by (rewrite Hreg in E; eapply registered_in_STATES; eauto).
  case_decide as Hk; [apply Rejected; reflexivity|].
  destruct (_canTransitionKey (fsm c) (_currentKey (fsm c)) name) eqn:Hcan; simpl;
    [|apply Rejected; reflexivity].
  assert (Hidle : _states (fsm c) !! STATES_IDLE = Some IdleState)
    by (rewrite Hreg; reflexivity).
  destruct ft; simpl.
  - destruct (state_enter cfg cls _ p _) as [inst c2] eqn:Hen.
    apply Accepted; auto.
  - apply Recovered; auto; try discriminate.
    simpl. apply recover_key. exact Hidle.
  - apply Recovered; auto; try discriminate.
    simpl. apply recover_key. simpl. rewrite state_exit_fsm. exact Hidle.
  - destruct (state_enter cfg cls _ noParams _) as [inst c2] eqn:Hen.
    apply Accepted; auto.
Qed.

Lemma setState_inv name p ft c :
  FsmInv c -> FsmInv (snd (setState cfg name p ft c)).
Proof.
  intros (Hreg & Htab & Hkey).
  destruct (setState_static name p ft c) as [Hs Ht].
  split; [congruence|]. split; [congruence|].
  destruct (setState_outcome name p ft c Hreg) as [_ Hf|_ Hk Hin _ _|_ Hk _ _ _ _].
  - unfold key. rewrite Hf. exact Hkey.
  - right. eauto.
  - right. exists STATES_IDLE. split; [exact Hk|].
    unfold STATES. rewrite elem_of_cons. left. reflexivity.
Qed.

Lemma newController_inv : FsmInv (newController cfg).
Proof. repeat split. left. reflexivity. Qed.

Lemma runCalls_inv calls c : FsmInv c -> FsmInv (runCalls calls c).
Proof.
  revert c. induction calls as [|call calls IH]; intros c Hc; [exact Hc|].
  simpl. apply IH. apply setState_inv. exact Hc.
Qed.

Lemma canTransition_allowed c k name :
  k <> "" ->
  _canTransitionKey (fsm c) (Some k) name = true <-> name ∈ allowedFrom c k.
Proof.
  intros Hk. unfold _canTransitionKey, allowedFrom.
  case_decide; [contradiction|]. apply bool_decide_eq_true.
Qed.

Lemma allowedFrom_DEAD c name :
  _validTransitions (fsm c) = validTransitions ->
  name ∈ allowedFrom c STATES_DEAD -> name = STATES_IDLE.
Proof.
  intros Ht. unfold allowedFrom. rewrite Ht.
  change (validTransitions !! STATES_DEAD) with (Some [STATES_IDLE]). simpl.
  rewrite elem_of_cons, elem_of_nil. intros [->|[]]. reflexivity.
Qed.

(** C1 (as amended). After any sequence of [setState] calls on a fresh
    controller, whatever the names, parameters and hook failures: (1) the
    key is unset or one of the seven states; (2) a call whose target
    differs from the current state and is not in the table's allowed set
    returns false, appends one error to the log and leaves the current
    state alone; (3) a call whose target is the current state returns
    false and changes nothing, the log included; (4) from no state every
    target passes the table check, and a registered target is entered;
    (5) from Dead the only way out is a call that targets Idle; (6) every
    accepted transition is an edge of the table. *)
Theorem fsm_transition_discipline (calls : list Call) (name : string)
    (params : Params) (ft : Fault) :
  let c := runCalls calls (newController cfg) in
  let r := setState cfg name params ft c in
  (key c = None \/ exists k, key c = Some k /\ k ∈ STATES)
  /\ (forall k, key c = Some k -> name <> k -> name ∉ allowedFrom c k ->
        fst r = false /\ fsm (snd r) = fsm c
        /\ exists msg, signals (snd r) = (signals c ++ [LogError "FSM" msg])%list)
  /\ (key c = Some name -> r = (false, c))
  /\ (key c = None ->
        _canTransitionKey (fsm c) (key c) name = true
        /\ (name ∈ STATES -> ft = NoFault ->
            fst r = true /\ key (snd r) = Some name))
  /\ (key c = Some STATES_DEAD ->
        key (snd r) = Some STATES_DEAD
        \/ (name = STATES_IDLE /\ key (snd r) = Some STATES_IDLE))
  /\ (forall k, key c = Some k -> fst r = true -> name ∈ allowedFrom c k).
Proof.
  intros c r.
  assert (Hinv : FsmInv c) by (apply runCalls_inv, newController_inv).
  destruct Hinv as (Hreg & Htab & Hkey).
  assert (Hne : forall k, key c = Some k -> k <> "").
  { intros k Hk. destruct Hkey as [Hn|(k' & Hk' & Hin)]; [congruence|].
    assert (k = k') by congruence. subst. apply STATES_nonempty, Hin. }
  split; [exact Hkey|].
  split.
  { intros k Hk Hdiff Hnot. subst r. unfold setState. fold (key c). rewrite Hk.
    destruct (_states (fsm c) !! name) as [cls|] eqn:E.
    - case_decide as Heq; [congruence|].
      assert (Hcan : _canTransitionKey (fsm c) (Some k) name = false).
      { destruct (_canTransitionKey (fsm c) (Some k) name) eqn:Hc; [|reflexivity].
        apply canTransition_allowed in Hc; [contradiction|]. apply Hne, Hk. }
      rewrite Hcan. simpl. repeat split. eexists. reflexivity.
    - simpl. repeat split. eexists. reflexivity. }
  split.
  { intros Hk. subst r. unfold setState. fold (key c).
    destruct Hkey as [Hn|(k' & Hk' & Hin)]; [congruence|].
    assert (name = k') by congruence. subst k'.
    destruct (STATES_registered name Hin) as [cls Hcls].
    rewrite Hreg, Hcls. case_decide; [reflexivity|contradiction]. }
  split.
  { intros Hk. rewrite Hk. split; [reflexivity|].
    intros Hin ->. subst r. unfold setState. fold (key c).
    destruct (STATES_registered name Hin) as [cls Hcls].
    rewrite Hreg, Hcls, Hk. case_decide; [discriminate|]. simpl.
    destruct (state_enter cfg cls None params _) as [inst c2]. simpl.
    split; reflexivity. }
  split.
  { intros Hk.
    pose proof (setState_outcome name params ft c Hreg) as Ho.
    change (setState cfg name params ft c) with r in Ho.
    destruct Ho as [_ Hf|_ Hk' _ _ Hcan|_ Hk' _ _ Hcan _].
    - left. unfold key. rewrite Hf. exact Hk.
    - right. fold (key c) in Hcan. rewrite Hk in Hcan.
      apply canTransition_allowed in Hcan; [|discriminate].
      apply allowedFrom_DEAD in Hcan; [|exact Htab]. subst name.
      split; [reflexivity|exact Hk'].
    - right. fold (key c) in Hcan. rewrite Hk in Hcan.
      apply canTransition_allowed in Hcan; [|discriminate].
      apply allowedFrom_DEAD in Hcan; [|exact Htab]. subst name.
      split; [reflexivity|exact Hk']. }
  { intros k Hk Htrue.
    pose proof (setState_outcome name params ft c Hreg) as Ho.
    change (setState cfg name params ft c) with r in Ho.
    destruct Ho as [Hfalse _|_ _ _ _ Hcan|Hfalse _ _ _ _ _].
    - congruence.
    - fold (key c) in Hcan. rewrite Hk in Hcan.
      apply canTransition_allowed in Hcan; [exact Hcan|]. apply Hne, Hk.
    - congruence. }
Qed.

End FsmProperties.

(** The player is Idle and [setState] is asked for Idle again: the
    target is not in the allowed set of Idle, the call returns false, and
    nothing is logged. *)
Lemma fsm_same_state_not_logged :
  let c := snd (setState CONFIG STATES_IDLE noParams NoFault (newController CONFIG)) in
  let r := setState CONFIG STATES_IDLE noParams NoFault c in
  key c = Some STATES_IDLE
  /\ (STATES_IDLE ∉ allowedFrom c STATES_IDLE)
  /\ fst r = false
  /\ signals (snd r) = signals c
  /\ (~ exists msg, signals (snd r) = (signals c ++ [LogError "FSM" msg])%list).
Proof.
  vm_compute. split; [reflexivity|]. split.
  - intros H. repeat (apply elem_of_cons in H as [H|H]; [discriminate|]).
    apply elem_of_nil in H. exact H.
  - split; [reflexivity|]. split; [reflexivity|].
    intros [msg H]. discriminate.
Qed.

(** Dead, then a request for Walk: rejected and logged; the state stays
    Dead. *)
Lemma fsm_transition_discipline_witness :
  let c := runCalls CONFIG [mkCall STATES_IDLE noParams NoFault;
                            mkCall STATES_DEAD noParams NoFault]
             (newController CONFIG) in
  let r := setState CONFIG STATES_WALK noParams NoFault c in
  fst r = false /\ fsm (snd r) = fsm c
  /\ exists msg, signals (snd r) = (signals c ++ [LogError "FSM" msg])%list.
Proof.
  intros c r.
  pose proof (fsm_transition_discipline CONFIG
                [mkCall STATES_IDLE noParams NoFault;
                 mkCall STATES_DEAD noParams NoFault]
                STATES_WALK noParams NoFault) as H.
  destruct H as (_ & H & _).
  apply (H STATES_DEAD).
  - reflexivity.
  - discriminate.
  - vm_compute. intros Hin.
    repeat (apply elem_of_cons in Hin as [Hin|Hin]; [discriminate|]).
    apply elem_of_nil in Hin. exact Hin.
Defined.

(** ** Comparisons on numbers *)

Lemma Qltb_true x y : Qltb x y = true <-> x < y.
Proof.
  unfold Qltb. rewrite negb_true_iff. split.
  - intros H. apply Qnot_le_lt. intros Hle.
    apply Qle_bool_iff in Hle. congruence.
  - intros H. destruct (Qle_bool y x) eqn:E; [|reflexivity].
    apply Qle_bool_iff in E. lra.
Qed.

Lemma Qltb_false x y : Qltb x y = false <-> y <= x.
Proof.
  unfold Qltb. rewrite negb_false_iff. apply Qle_bool_iff.
Qed.

Lemma Qleb_true x y : Qleb x y = true <-> x <= y.
Proof. apply Qle_bool_iff. Qed.

Lemma Qleb_false x y : Qleb x y = false <-> y < x.
Proof.
  unfold Qleb. split.
  - intros H. apply Qnot_le_lt. intros Hle.
    apply Qle_bool_iff in Hle. congruence.
  - intros H. destruct (Qle_bool x y) eqn:E; [|reflexivity].
    apply Qle_bool_iff in E. lra.
Qed.

(** Turn the boolean tests left by a case analysis into facts for [lra]. *)
Ltac qprop :=
  repeat match goal with
  | H : Qltb _ _ = true |- _ => apply Qltb_true in H
  | H : Qltb _ _ = false |- _ => apply Qltb_false in H
  | H : Qleb _ _ = true |- _ => apply Qleb_true in H
  | H : Qleb _ _ = false |- _ => apply Qleb_false in H
  | H : Qeq_bool _ _ = true |- _ => apply Qeq_bool_iff in H
  | H : Qeq_bool _ _ = false |- _ => apply Qeq_bool_neq in H
  | H : (_ && _)%bool = true |- _ => apply andb_true_iff in H as [? ?]
  | H : negb _ = true |- _ => apply negb_true_iff in H
  | H : negb _ = false |- _ => apply negb_false_iff in H
  end.

(** Unfold every [Qmin] and [Qmax] of the goal into its two cases. *)
Ltac qminmax :=
  repeat match goal with
  | |- context [Qmax ?a ?b] =>
      let H := fresh in
      destruct (Q.max_spec a b) as [[? H]|[? H]];
      generalize dependent (Qmax a b); intros
  | |- context [Qmin ?a ?b] =>
      let H := fresh in
      destruct (Q.min_spec a b) as [[? H]|[? H]];
      generalize dependent (Qmin a b); intros
  | Hx : context [Qmax ?a ?b] |- _ =>
      let H := fresh in
      destruct (Q.max_spec a b) as [[? H]|[? H]];
      generalize dependent (Qmax a b); intros
  | Hx : context [Qmin ?a ?b] |- _ =>
      let H := fresh in
      destruct (Q.min_spec a b) as [[? H]|[? H]];
      generalize dependent (Qmin a b); intros
  end.

(** ** The energy invariant *)

(** The configuration is sane: capacities, rates and costs are not
    negative. *)
Record ConfigOK (cfg : Config) : Prop := mkConfigOK {
  ok_maxSprint : 0 <= player_maxSprint cfg;
  ok_regenRate : 0 <= player_sprintRegenRate cfg;
  ok_drain : 0 <= chargeLeap_staminaDrainPerSecond cfg;
  ok_quickJump : 0 <= quickJump_cost cfg
}.

Lemma CONFIG_ok : ConfigOK CONFIG.
Proof. split; vm_compute; discriminate. Qed.

(** What the physics step and the input devices change between two
    calls of the controller's code. *)
Record Sensed := mkSensed {
  s_isGrounded : bool;
  s_coyoteTime : Q;
  s_groundTime : Q;
  s_linvel : Vec3;
  s_onFallingPlatform : bool;
  s_fallingPlatformBody : option nat;
  s_input : Input
}.

Definition sense (s : Sensed) (c : Controller) : Controller :=
  mkController (sprint c) (health c) (sprintRegenTimer c) (s_isGrounded s)
    (s_coyoteTime s) (s_groundTime s) (translation c) (s_linvel s)
    (s_onFallingPlatform s) (s_fallingPlatformBody s) (currentGroundSegment c)
    (forwardDir c) (s_input s) (energyLog c) (fsm c) (signals c).

(** The operations that touch the energy, and the ones that decide which
    of them run. *)
Inductive EnergyStep :=
| StSense (s : Sensed)
| StConsume (amount : Q)                        (* consumeStamina *)
| StRestore (amount : Q)                        (* restoreDashEnergy *)
| StRegen (dt : Q)                              (* updateSprint *)
| StUpdate (env : Env) (dt : Q) (input : Input) (* fsm.update: drain, refunds,
                                                   quick jump, dash *)
| StFixedUpdate (env : Env) (dt : Q)            (* fixedUpdate: fsm.update,
                                                   then regeneration *)
| StDash                                        (* performDash *)
| StImmediateDash                               (* processImmediateDash *)
| StSetState (call : Call).                     (* die, teleport, respawn *)

(** Amounts and time steps are not negative. *)
Definition stepOK (st : EnergyStep) : Prop :=
  match st with
  | StConsume a => 0 <= a
  | StRestore a => 0 <= a
  | StRegen dt => 0 <= dt
  | StUpdate _ dt _ => 0 <= dt
  | StFixedUpdate _ dt => 0 <= dt
  | _ => True
  end.

Section Energy.

Variable cfg : Config.
Hypothesis cfg_ok : ConfigOK cfg.

Definition energyStep (st : EnergyStep) (c : Controller) : Controller :=
  match st with
  | StSense s => sense s c
  | StConsume a => consumeStamina cfg a c
  | StRestore a => restoreDashEnergy cfg a c
  | StRegen dt => updateSprint cfg dt c
  | StUpdate env dt input => fsm_update cfg env dt input c
  | StFixedUpdate env dt => fixedUpdateEnergy cfg env dt c
  | StDash => snd (performDash cfg c)
  | StImmediateDash => processImmediateDash cfg c
  | StSetState call =>
      snd (setState cfg (call_name call) (call_params call) (call_fault call) c)
  end.

Definition runEnergy (sts : list EnergyStep) (c : Controller) : Controller :=
  foldl (fun c st => energyStep st c) c sts.

(** The energy consumed by a charge in progress is not negative. *)
Definition ChargeOK (c : Controller) : Prop :=
  match _current (fsm c) with
  | Some (ChargeI d) => 0 <= energyConsumed d
  | _ => True
  end.

Definition EInv (c : Controller) : Prop :=
  0 <= sprint c /\ sprint c <= player_maxSprint cfg /\ ChargeOK c.

Lemma EInv_ext c c' :
  sprint c' = sprint c -> fsm c' = fsm c -> EInv c -> EInv c'.
Proof. unfold EInv, ChargeOK. intros -> ->. auto. Qed.

Lemma EInv_emit s c : EInv c -> EInv (emit s c).
Proof. apply EInv_ext; reflexivity. Qed.

Lemma EInv_playAnimation n v c : EInv c -> EInv (playAnimation n v c).
Proof. apply EInv_ext; reflexivity. Qed.

Lemma EInv_set_linvel v c : EInv c -> EInv (set_linvel v c).
Proof. apply EInv_ext; reflexivity. Qed.

Lemma EInv_sense s c : EInv c -> EInv (sense s c).
Proof. apply EInv_ext; reflexivity. Qed.

Lemma EInv_applyJump env v ax az rx rz c :
  EInv c -> EInv (applyJump cfg env v ax az rx rz c).
Proof.
  apply EInv_ext; unfold applyJump;
    destruct (onFallingPlatform c), (fallingPlatformBody c) as [h|];
    try reflexivity; destruct (env_body env h); reflexivity.
Qed.

Lemma EInv_charge d k c :
  0 <= energyConsumed d -> EInv c -> EInv (set_current (Some (ChargeI d)) k c).
Proof. intros Hd (H0 & H1 & _). repeat split; assumption. Qed.

Lemma EInv_dash d k c : EInv c -> EInv (set_current (Some (DashI d)) k c).
Proof. intros (H0 & H1 & _). repeat split; assumption. Qed.

Lemma EInv_consumeStamina a c : 0 <= a -> EInv c -> EInv (consumeStamina cfg a c).
Proof.
  intros Ha (H0 & H1 & Hc). unfold EInv, ChargeOK, consumeStamina. simpl.
  split; [|split; [|exact Hc]]; qminmax; lra.
Qed.

Lemma EInv_refund d c : 0 <= energyConsumed d -> EInv c -> EInv (refund cfg d c).
Proof.
  intros Hd (H0 & H1 & Hc). unfold EInv, ChargeOK, refund. simpl.
  pose proof (ok_maxSprint cfg cfg_ok).
  split; [|split; [|exact Hc]]; qminmax; lra.
Qed.

Lemma EInv_restoreDashEnergy a c :
  0 <= a -> EInv c -> EInv (restoreDashEnergy cfg a c).
Proof.
  intros Ha (H0 & H1 & Hc). unfold restoreDashEnergy.
  pose proof (ok_maxSprint cfg cfg_ok).
  destruct (negb _); [apply EInv_emit|];
    (unfold EInv, ChargeOK; simpl; split; [|split; [|exact Hc]]; qminmax; lra).
Qed.

Lemma EInv_updateSprint dt c : 0 <= dt -> EInv c -> EInv (updateSprint cfg dt c).
Proof.
  intros Hdt (H0 & H1 & Hc). unfold updateSprint.
  pose proof (ok_maxSprint cfg cfg_ok). pose proof (ok_regenRate cfg cfg_ok).
  assert (0 <= player_sprintRegenRate cfg * dt) by nra.
  destruct (isGrounded c).
  - destruct (Qleb _ _); [|repeat split; assumption].
    destruct (negb _);
      (unfold EInv, ChargeOK; simpl; split; [|split; [|exact Hc]]; qminmax; lra).
  - destruct (_regenActive _); repeat split; assumption.
Qed.

(** A transition keeps the energy and never leaves a charge with a
    negative account. *)
Lemma state_enter_EInv cls prev p c k :
  EInv c ->
  EInv (set_current (Some (fst (state_enter cfg cls prev p c))) k
                    (snd (state_enter cfg cls prev p c))).
Proof.
  intros (H0 & H1 & _). destruct cls; unfold EInv, ChargeOK; simpl;
    repeat split; try assumption; lra.
Qed.

Lemma state_exit_EInv cur c : EInv c -> EInv (state_exit cur c).
Proof. apply EInv_ext; destruct cur as [[]|]; reflexivity. Qed.

Lemma EInv_set_current_instantiate cls k c :
  EInv c -> EInv (set_current (Some (instantiate cls)) k c).
Proof.
  intros (H0 & H1 & _). destruct cls; unfold EInv, ChargeOK; simpl;
    repeat split; try assumption; lra.
Qed.

Lemma EInv_push_history e c : EInv c -> EInv (push_history e c).
Proof. intros H. exact H. Qed.

Lemma EInv_recover et rt c : EInv c -> EInv (_recoverToSafeState cfg et rt c).
Proof.
  intros Hc. unfold _recoverToSafeState.
  set (c1 := if et then c else state_exit (_current (fsm c)) c).
  assert (Hc1 : EInv c1) by (subst c1; destruct et; [exact Hc|apply state_exit_EInv, Hc]).
  clearbody c1.
  destruct (_states (fsm c1) !! STATES_IDLE) as [ci|]; [|exact Hc1].
  destruct rt.
  - apply EInv_emit, EInv_set_current_instantiate, Hc1.
  - destruct (state_enter cfg ci None noParams _) as [inst c3] eqn:Hen.
    apply EInv_emit.
    pose proof (state_enter_EInv ci None noParams
                  (set_current (Some (instantiate ci)) (Some STATES_IDLE) c1)
                  (Some STATES_IDLE)) as Hs.
    rewrite Hen in Hs. apply Hs. apply EInv_set_current_instantiate, Hc1.
Qed.

Lemma EInv_setState name p ft c : EInv c -> EInv (snd (setState cfg name p ft c)).
Proof.
  intros Hc. unfold setState.
  destruct (_states (fsm c) !! name) as [cls|]; [|apply EInv_emit, Hc].
  case_decide; [exact Hc|].
  destruct (negb _); [apply EInv_emit, Hc|].
  destruct ft; simpl.
  - destruct (state_enter cfg cls _ p _) as [inst c2] eqn:Hen. simpl.
    apply EInv_push_history.
    pose proof (state_enter_EInv cls (_currentKey (fsm c)) p
                  (state_exit (_current (fsm c)) c) (Some name)) as Hs.
    rewrite Hen in Hs. apply Hs, state_exit_EInv, Hc.
  - apply EInv_recover, EInv_emit, Hc.
  - apply EInv_recover, EInv_emit, EInv_set_current_instantiate, state_exit_EInv, Hc.
  - destruct (state_enter cfg cls _ noParams _) as [inst c2] eqn:Hen. simpl.
    apply EInv_push_history.
    pose proof (state_enter_EInv cls (_currentKey (fsm c)) noParams
                  (state_exit (_current (fsm c)) c) (Some name)) as Hs.
    rewrite Hen in Hs. apply Hs, state_exit_EInv, Hc.
Qed.

Lemma EInv_transition name p c : EInv c -> EInv (transition cfg name p c).
Proof. apply EInv_setState. Qed.

Lemma EInv_performDash c : EInv c -> EInv (snd (performDash cfg c)).
Proof.
  intros Hc. unfold performDash.
  destruct (Qltb _ _) eqn:E; simpl; [apply EInv_emit, Hc|].
  apply EInv_emit, EInv_emit, EInv_transition, EInv_consumeStamina; [|exact Hc].
  apply Hc.
Qed.

Create HintDb einv.
#[local] Hint Resolve EInv_emit EInv_playAnimation EInv_set_linvel EInv_applyJump
  EInv_charge EInv_dash EInv_consumeStamina EInv_refund EInv_transition
  EInv_performDash : einv.

Lemma EInv_launch env d c :
  0 <= energyConsumed d -> EInv c -> EInv (ChargeState_launch cfg env d c).
Proof.
  intros Hd Hc. pose proof (ok_quickJump cfg cfg_ok).
  unfold ChargeState_launch.
  repeat match goal with
         | |- context [if ?b then _ else _] => destruct b eqn:?
         end; auto 10 with einv.
Qed.

Lemma EInv_chargeDrain dt d c :
  0 <= dt -> 0 <= energyConsumed d -> EInv c ->
  0 <= energyConsumed (fst (chargeDrain cfg dt d c))
  /\ EInv (snd (chargeDrain cfg dt d c)).
Proof.
  intros Hdt Hd Hc. unfold chargeDrain.
  pose proof (ok_drain cfg cfg_ok).
  assert (0 <= chargeLeap_staminaDrainPerSecond cfg * dt) by nra.
  destruct (Qltb _ _ && Qltb _ _) eqn:E; simpl; [|split; assumption].
  qprop.
  assert (0 <= Qmin (chargeLeap_staminaDrainPerSecond cfg * dt) (sprint c))
    by (qminmax; lra).
  split; [lra|]. apply EInv_consumeStamina; assumption.
Qed.

Lemma EInv_ChargeState_update env input dt d c :
  0 <= dt -> 0 <= energyConsumed d -> EInv c ->
  EInv (ChargeState_update cfg env input dt d c).
Proof.
  intros Hdt Hd Hc. unfold ChargeState_update.
  destruct (startedGrounded d && negb (isGrounded c) && Qleb (coyoteTime c) 0).
  { destruct (Qltb 0 (energyConsumed d)); auto 10 with einv. }
  set (c1 := if key_Space input then _ else c).
  assert (Hc1 : EInv c1) by (subst c1; destruct (key_Space input); auto with einv).
  clearbody c1.
  destruct (negb (key_Space input)); [apply EInv_launch; assumption|].
  destruct (negb (isGrounded c1) && Qleb (coyoteTime c1) 0 && Qeq_bool (chargeTime d) 0).
  { destruct (Qltb 0 (energyConsumed d)); auto 10 with einv. }
  destruct (EInv_chargeDrain dt d c1 Hdt Hd Hc1) as [Hd1 Hc2].
  destruct (chargeDrain cfg dt d c1) as [d1 c2]. simpl in Hd1, Hc2.
  destruct (_ || _); [apply EInv_launch; [assumption|]|]; auto 10 with einv.
Qed.

Lemma EInv_fsm_update env dt input c :
  0 <= dt -> EInv c -> EInv (fsm_update cfg env dt input c).
Proof.
  intros Hdt Hc. unfold fsm_update.
  destruct (_current (fsm c)) as [[| |d| | |d|]|] eqn:Hcur; try exact Hc.
  - unfold IdleState_update.
    repeat match goal with
           | |- context [if ?b then _ else _] => destruct b
           end; auto with einv.
  - unfold WalkState_update.
    repeat match goal with
           | |- context [if ?b then _ else _] => destruct b
           end; auto with einv.
  - apply EInv_ChargeState_update; try assumption.
    destruct Hc as (_ & _ & Hch). unfold ChargeOK in Hch. rewrite Hcur in Hch.
    exact Hch.
  - unfold LeapState_update.
    repeat match goal with
           | |- context [if ?b then _ else _] => destruct b
           end; auto with einv.
  - unfold FallState_update.
    repeat match goal with
           | |- context [if ?b then _ else _] => destruct b
           end; auto with einv.
  - unfold DashState_update.
    repeat match goal with
           | |- context [if ?b then _ else _] => destruct b
           end; auto 10 with einv.
Qed.

Lemma EInv_fixedUpdateEnergy env dt c :
  0 <= dt -> EInv c -> EInv (fixedUpdateEnergy cfg env dt c).
Proof.
  intros Hdt Hc. unfold fixedUpdateEnergy.
  destruct (isDead c); [apply EInv_fsm_update; assumption|].
  destruct (negb _ && negb _); [apply EInv_updateSprint; [assumption|]|];
    apply EInv_fsm_update; assumption.
Qed.

Lemma EInv_energyStep st c : stepOK st -> EInv c -> EInv (energyStep st c).
Proof.
  destruct st; simpl; intros Hst Hc.
  - apply EInv_sense, Hc.
  - apply EInv_consumeStamina; assumption.
  - apply EInv_restoreDashEnergy; assumption.
  - apply EInv_updateSprint; assumption.
  - apply EInv_fsm_update; assumption.
  - apply EInv_fixedUpdateEnergy; assumption.
  - apply EInv_performDash, Hc.
  - unfold processImmediateDash.
    repeat match goal with
           | |- context [if ?b then _ else _] => destruct b
           end; auto with einv.
  - apply EInv_setState, Hc.
Qed.

Lemma EInv_new : EInv (newController cfg).
Proof.
  pose proof (ok_maxSprint cfg cfg_ok).
  unfold EInv, ChargeOK. simpl. repeat split; try assumption; lra.
Qed.

Lemma EInv_run sts c : Forall stepOK sts -> EInv c -> EInv (runEnergy sts c).
Proof.
  revert c. induction sts as [|st sts IH]; intros c Hok Hc; [exact Hc|].
  inversion Hok; subst. simpl. apply IH; [assumption|].
  apply EInv_energyStep; assumption.
Qed.

(** C2. From the freshly built controller, after any sequence of
    [consumeStamina] calls, regeneration ticks, state-machine updates
    (charge drains, refunds, quick jumps), dashes and transitions, with
    amounts and time steps that are not negative, the energy stays within
    [0, maxSprint]. *)
Theorem energy_within_bounds (sts : list EnergyStep) :
  Forall stepOK sts ->
  let c := runEnergy sts (newController cfg) in
  0 <= sprint c /\ sprint c <= player_maxSprint cfg.
Proof.
  intros Hok c.
  destruct (EInv_run sts (newController cfg) Hok EInv_new) as (H0 & H1 & _).
  split; assumption.
Qed.

End Energy.

(** A tap jump, a dash, a second dash that fails, and two regeneration
    ticks. *)
Definition energy_run_example : list EnergyStep :=
  let env := mkEnv (fun _ => None) (mkVec3 0 0 1) in
  let held := mkInput true false false false false false in
  let released := mkInput false false false false false false in
  [StSetState (mkCall STATES_IDLE noParams NoFault);
   StSense (mkSensed true 0 1 (mkVec3 0 0 0) false None held);
   StUpdate env (1 # 60) held;
   StUpdate env (1 # 60) held;
   StUpdate env (1 # 60) released;
   StDash; StDash; StConsume 3; StRegen 1; StFixedUpdate env (1 # 60)].

Lemma energy_within_bounds_witness :
  let c := runEnergy CONFIG energy_run_example (newController CONFIG) in
  0 <= sprint c /\ sprint c <= player_maxSprint CONFIG.
Proof.
  apply (energy_within_bounds CONFIG CONFIG_ok energy_run_example).
  unfold energy_run_example.
  repeat (apply Forall_cons; split; [simpl; try exact I; vm_compute; discriminate|]).
  apply Forall_nil. exact I.
Defined.

(** ** The machine and its instances stay in step *)

(** The machine was built by [_setupFSM]. *)
Definition FsmSetUp (c : Controller) : Prop :=
  _states (fsm c) = _states _setupFSM
  /\ _validTransitions (fsm c) = validTransitions.

(** The current instance is of the class registered under the current
    key. *)
Definition Synced (c : Controller) : Prop :=
  match _current (fsm c) with
  | Some inst => key c = Some (keyOf inst)
  | None => key c = None
  end.

Definition FInv (c : Controller) : Prop := FsmSetUp c /\ Synced c.

Lemma FInv_ext c c' : fsm c' = fsm c -> FInv c -> FInv c'.
Proof. unfold FInv, FsmSetUp, Synced, key. intros ->. auto. Qed.

Lemma registered_class name cls :
  _states _setupFSM !! name = Some cls ->
  keyOf (instantiate cls) = name.
Proof.
  unfold _setupFSM, addState, newFSM; simpl. intros H.
  repeat (rewrite lookup_insert in H; case_decide;
          [subst; injection H as <-; reflexivity|]).
  rewrite lookup_empty in H. discriminate.
Qed.

Lemma keyOf_state_enter cfg cls prev p c :
  keyOf (fst (state_enter cfg cls prev p c)) = keyOf (instantiate cls).
Proof. destruct cls; reflexivity. Qed.

Lemma Synced_key_charging c :
  Synced c -> isCharging c = true -> key c = Some STATES_CHARGE.
Proof.
  unfold Synced, isCharging.
  destruct (_current (fsm c)) as [[]|]; try discriminate. auto.
Qed.

Lemma Synced_not_charging c name :
  Synced c -> key c = Some name -> name <> STATES_CHARGE -> isCharging c = false.
Proof.
  unfold Synced, isCharging.
  destruct (_current (fsm c)) as [[]|]; try reflexivity.
  simpl. intros -> [= <-] H. contradiction.
Qed.

Section Transitions.

Variable cfg : Config.

(** An accepted transition, spelled out. *)
Lemma setState_accept name p c cls :
  _states (fsm c) !! name = Some cls ->
  key c <> Some name ->
  _canTransitionKey (fsm c) (key c) name = true ->
  let se := state_enter cfg cls (key c) p (state_exit (_current (fsm c)) c) in
  setState cfg name p NoFault c =
  (true,
   push_history (mkHistory name (p_reason p) (isGrounded c) (sprint c) (health c))
     (set_current (Some (fst se)) (Some name) (snd se))).
Proof.
  intros Hcls Hk Hcan se. unfold setState. fold (key c).
  rewrite Hcls. case_decide; [contradiction|]. rewrite Hcan. simpl.
  subst se. destruct (state_enter _ _ _ _ _). reflexivity.
Qed.

Lemma setState_sprint name p ft c : sprint (snd (setState cfg name p ft c)) = sprint c.
Proof.
  assert (Hen : forall cls prev q x, sprint (snd (state_enter cfg cls prev q x)) = sprint x)
    by (intros []; reflexivity).
  assert (Hex : forall cur x, sprint (state_exit cur x) = sprint x)
    by (intros [[]|]; reflexivity).
  assert (Hrec : forall et rt x, sprint (_recoverToSafeState cfg et rt x) = sprint x).
  { intros et rt x. unfold _recoverToSafeState.
    set (x1 := if et then x else state_exit (_current (fsm x)) x).
    assert (Hx1 : sprint x1 = sprint x) by (subst x1; destruct et; [reflexivity|apply Hex]).
    clearbody x1.
    destruct (_states (fsm x1) !! STATES_IDLE) as [ci|]; [|exact Hx1].
    destruct rt; [exact Hx1|].
    pose proof (Hen ci None noParams
                  (set_current (Some (instantiate ci)) (Some STATES_IDLE) x1)) as Hsp.
    destruct (state_enter cfg ci None noParams _) as [inst c3]. simpl in *.
    rewrite Hsp. exact Hx1. }
  unfold setState.
  destruct (_states (fsm c) !! name) as [cls|]; [|reflexivity].
  case_decide; [reflexivity|].
  destruct (negb _); [reflexivity|].
  destruct ft; simpl.
  - pose proof (Hen cls (_currentKey (fsm c)) p (state_exit (_current (fsm c)) c)) as Hsp.
    destruct (state_enter cfg cls _ p _) as [inst c2]. simpl in *.
    rewrite Hsp. apply Hex.
  - rewrite Hrec. reflexivity.
  - rewrite Hrec. simpl. apply Hex.
  - pose proof (Hen cls (_currentKey (fsm c)) noParams (state_exit (_current (fsm c)) c)) as Hsp.
    destruct (state_enter cfg cls _ noParams _) as [inst c2]. simpl in *.
    rewrite Hsp. apply Hex.
Qed.

Lemma FInv_setState name p ft c : FInv c -> FInv (snd (setState cfg name p ft c)).
Proof.
  intros [[Hreg Htab] Hsync].
  destruct (setState_static cfg name p ft c) as [Hs Ht].
  split; [split; congruence|].
  assert (Hidle : _states (fsm c) !! STATES_IDLE = Some IdleState)
    by (rewrite Hreg; reflexivity).
  unfold setState.
  destruct (_states (fsm c) !! name) as [cls|] eqn:E; [|exact Hsync].
  case_decide; [exact Hsync|].
  destruct (negb _); [exact Hsync|].
  assert (Hcls : keyOf (instantiate cls) = name)
    by (apply registered_class; rewrite <- Hreg; exact E).
  assert (Hrec : forall et rt x, _states (fsm x) !! STATES_IDLE = Some IdleState ->
                   Synced (_recoverToSafeState cfg et rt x)).
  { intros et rt x Hx. unfold _recoverToSafeState.
    set (x1 := if et then x else state_exit (_current (fsm x)) x).
    assert (Hx1 : fsm x1 = fsm x)
      by (subst x1; destruct et; [reflexivity|apply state_exit_fsm]).
    rewrite Hx1, Hx. destruct rt; reflexivity. }
  destruct ft; simpl.
  - pose proof (keyOf_state_enter cfg cls (_currentKey (fsm c)) p
                  (state_exit (_current (fsm c)) c)) as Hk.
    destruct (state_enter cfg cls _ p _) as [inst c2]. simpl in *.
    unfold Synced, key. simpl. congruence.
  - apply Hrec. exact Hidle.
  - apply Hrec. simpl. rewrite state_exit_fsm. exact Hidle.
  - pose proof (keyOf_state_enter cfg cls (_currentKey (fsm c)) noParams
                  (state_exit (_current (fsm c)) c)) as Hk.
    destruct (state_enter cfg cls _ noParams _) as [inst c2]. simpl in *.
    unfold Synced, key. simpl. congruence.
Qed.

Lemma FInv_transition name p c : FInv c -> FInv (transition cfg name p c).
Proof. apply FInv_setState. Qed.

Lemma FInv_new : FInv (newController cfg).
Proof. repeat split. Qed.

(** A transition along an edge of the table is taken. *)
Lemma transition_taken name p c k :
  FsmSetUp c -> key c = Some k -> k ∈ STATES -> name ∈ STATES -> name <> k ->
  name ∈ default [] (validTransitions !! k) ->
  exists cls,
    _states _setupFSM !! name = Some cls
    /\ transition cfg name p c =
       let se := state_enter cfg cls (Some k) p (state_exit (_current (fsm c)) c) in
       push_history (mkHistory name (p_reason p) (isGrounded c) (sprint c) (health c))
         (set_current (Some (fst se)) (Some name) (snd se)).
Proof.
  intros [Hreg Htab] Hk Hin Hname Hdiff Hallowed.
  destruct (STATES_registered name Hname) as [cls Hcls].
  exists cls. split; [exact Hcls|].
  unfold transition. rewrite (setState_accept name p c cls).
  - simpl. rewrite Hk. reflexivity.
  - rewrite Hreg. exact Hcls.
  - rewrite Hk. congruence.
  - rewrite Hk. apply canTransition_allowed; [apply STATES_nonempty, Hin|].
    unfold allowedFrom. rewrite Htab. exact Hallowed.
Qed.

End Transitions.

(** ** Entering Dash *)

Section Dash.

Variable cfg : Config.

(** C7. Entering Dash: the instance keeps the stamina clamped to
    [minDashEnergy, maxSprint]; the horizontal velocity becomes the
    model's forward direction (reversed when only the backward key is
    held) times [staminaUsed * forceMultiplier]; the vertical velocity
    becomes 0 on the ground and [max(currentVy, cap)] in the air, which
    is never below the current vertical velocity nor below the cap. *)
Theorem dash_entry_velocity (prev : option string) (params : Params) (c : Controller) :
  let used :=
    Qmax (gameplay_minDashEnergy cfg)
         (Qmin (default (gameplay_minDashEnergy cfg) (p_staminaUsed params))
               (player_maxSprint cfg)) in
  let force := used * airDash_forceMultiplier cfg in
  let backward := key_KeyS (inputManager c) && negb (key_KeyW (inputManager c)) in
  let r := state_enter cfg DashState prev params c in
  let v := linvel (snd r) in
  fst r = DashI (mkDash 0 0.2 used)
  /\ vx v == (if backward then - vx (forwardDir c) else vx (forwardDir c)) * force
  /\ vz v == (if backward then - vz (forwardDir c) else vz (forwardDir c)) * force
  /\ (if isGrounded c then vy v = 0
      else vy v = Qmax (vy (linvel c)) (airDash_downwardVelocityCap cfg)
           /\ vy (linvel c) <= vy v
           /\ airDash_downwardVelocityCap cfg <= vy v).
Proof.
  simpl. split; [reflexivity|].
  destruct (key_KeyS (inputManager c) && negb (key_KeyW (inputManager c))); simpl;
    (split; [ring|]); (split; [ring|]);
    destruct (isGrounded c); try reflexivity;
    (split; [reflexivity|]); split; qminmax; lra.
Qed.

(** The states from which the script calls [performDash]: the updates of
    Idle, Walk, Leap and Fall, and [processImmediateDash], which also
    runs before the first state is set. *)
Definition dashCallSite (c : Controller) : Prop :=
  key c = None
  \/ exists k, key c = Some k
               /\ k ∈ [STATES_IDLE; STATES_WALK; STATES_LEAP; STATES_FALL].

Lemma dashCallSite_accepts c :
  FsmSetUp c -> dashCallSite c ->
  key c <> Some STATES_DASH
  /\ _canTransitionKey (fsm c) (key c) STATES_DASH = true.
Proof.
  intros [Hreg Htab] [Hk|(k & Hk & Hin)]; rewrite Hk.
  - split; [discriminate|reflexivity].
  - unfold _canTransitionKey. rewrite Htab.
    rewrite !elem_of_cons, elem_of_nil in Hin.
    destruct Hin as [->|[->|[->|[->|[]]]]]; split; try discriminate; reflexivity.
Qed.

(** Outside the call sites the machine is in Charge, Dash or Dead. *)
Lemma not_dashCallSite c :
  FInv c -> ~ dashCallSite c ->
  key c = Some STATES_CHARGE \/ key c = Some STATES_DASH \/ key c = Some STATES_DEAD.
Proof.
  intros [_ Hsync] Hno. unfold Synced in Hsync.
  destruct (_current (fsm c)) as [[]|]; simpl in Hsync; try tauto;
    exfalso; apply Hno; try (left; exact Hsync);
    right; eexists; (split; [exact Hsync|]); rewrite !elem_of_cons; tauto.
Qed.

(** From Charge, Dash and Dead a request for Dash is turned down. *)
Lemma dash_rejected p c :
  FInv c ->
  key c = Some STATES_CHARGE \/ key c = Some STATES_DASH \/ key c = Some STATES_DEAD ->
  fsm (transition cfg STATES_DASH p c) = fsm c.
Proof.
  intros [[Hreg Htab] _] Hk. unfold transition, setState. rewrite Hreg.
  change (_states _setupFSM !! STATES_DASH) with (Some DashState).
  unfold key in Hk. destruct Hk as [Hk|[Hk|Hk]]; rewrite Hk.
  - rewrite decide_False by discriminate. unfold _canTransitionKey. rewrite Htab.
    reflexivity.
  - rewrite decide_True by reflexivity. reflexivity.
  - rewrite decide_False by discriminate. unfold _canTransitionKey. rewrite Htab.
    reflexivity.
Qed.

(** C10 (as amended). [performDash()], for every call with the energy
    within its cap. Below [minDashEnergy] it returns false, signals
    insufficient energy once and changes neither the energy nor the
    machine. Otherwise it returns true and the energy becomes 0, in
    every state. Called where the script calls it (Idle, Walk, Leap,
    Fall, or before the first state) the machine is then in Dash, the
    parameter passed to the transition is the whole energy held before
    the call, and that is the [staminaUsed] of the Dash instance. Called
    anywhere else, which is in Charge, Dash or Dead, the energy is spent
    all the same but the machine turns the transition down and stays as
    it was. *)
Theorem performDash_contract (c : Controller) :
  FInv c -> sprint c <= player_maxSprint cfg ->
  let r := performDash cfg c in
  (sprint c < gameplay_minDashEnergy cfg ->
     r = (false, emit (UiShowEnergyInsufficient "Dash") c)
     /\ sprint (snd r) = sprint c /\ fsm (snd r) = fsm c)
  /\ (gameplay_minDashEnergy cfg <= sprint c ->
       fst r = true
       /\ sprint (snd r) == 0
       /\ snd r =
          emit (PlaySound "dash")
            (emit (TriggerDashEffect (sprint c))
               (transition cfg STATES_DASH
                  (mkParams "dash_initiated" (Some (sprint c)))
                  (consumeStamina cfg (sprint c) c)))
       /\ (dashCallSite c ->
           key (snd r) = Some STATES_DASH
           /\ exists d, _current (fsm (snd r)) = Some (DashI d)
                        /\ staminaUsed d == sprint c)
       /\ (~ dashCallSite c ->
           (key c = Some STATES_CHARGE \/ key c = Some STATES_DASH
            \/ key c = Some STATES_DEAD)
           /\ fsm (snd r) = fsm c)).
Proof.
  intros Hinv Hmax r. pose proof Hinv as [Hset Hsync].
  subst r. unfold performDash. split.
  - intros Hlt. apply Qltb_true in Hlt. rewrite Hlt. repeat split.
  - intros Hge. apply Qltb_false in Hge. rewrite Hge. cbv zeta. cbn [fst snd].
    split; [reflexivity|].
    set (c1 := consumeStamina cfg (sprint c) c).
    assert (Hf1 : fsm c1 = fsm c) by reflexivity.
    assert (Hs1 : sprint c1 == 0).
    { subst c1. unfold consumeStamina. simpl. qminmax; lra. }
    split.
    { simpl. unfold transition. rewrite setState_sprint. exact Hs1. }
    split; [reflexivity|]. split.
    + intros Hsite.
      destruct (dashCallSite_accepts c Hset Hsite) as [Hne Hcan].
      assert (Hcls : _states (fsm c1) !! STATES_DASH = Some DashState)
        by (rewrite Hf1; destruct Hset as [-> _]; reflexivity).
      pose proof (setState_accept cfg STATES_DASH
                    (mkParams "dash_initiated" (Some (sprint c))) c1 DashState Hcls)
        as Hacc.
      unfold key in Hacc, Hne. rewrite Hf1 in Hacc. specialize (Hacc Hne Hcan).
      unfold transition. rewrite Hacc. simpl.
      split; [reflexivity|].
      eexists. split; [reflexivity|]. simpl.
      apply Qltb_false in Hge. qminmax; lra.
    + intros Hno. pose proof (not_dashCallSite c Hinv Hno) as Hk.
      split; [exact Hk|].
      change (fsm (emit (PlaySound "dash") (emit (TriggerDashEffect (sprint c)) ?x)))
        with (fsm x).
      rewrite dash_rejected; [exact Hf1| |exact Hk].
      eapply FInv_ext; [exact Hf1|exact Hinv].
Qed.

End Dash.

(** ** The quick jump *)

Definition isInsufficient (s : Signal) : bool :=
  match s with UiShowEnergyInsufficient _ => true | _ => false end.

(** How many insufficient-energy signals were sent so far. *)
Fixpoint insufficientCount (l : list Signal) : nat :=
  match l with
  | [] => 0
  | s :: rest => ((if isInsufficient s then 1 else 0) + insufficientCount rest)%nat
  end.

Lemma insufficientCount_app l1 l2 :
  insufficientCount (l1 ++ l2)%list = (insufficientCount l1 + insufficientCount l2)%nat.
Proof. induction l1 as [|s l1 IH]; simpl; [reflexivity|]. rewrite IH. lia. Qed.

(** The falling platform under the player, when its body can be read. *)
Definition ridingPlatform (env : Env) (c : Controller) : option BodyView :=
  if onFallingPlatform c then fallingPlatformBody c ≫= env_body env else None.

Section QuickJump.

Variable cfg : Config.

Lemma applyJump_fsm env v ax az rx rz c :
  fsm (applyJump cfg env v ax az rx rz c) = fsm c.
Proof.
  unfold applyJump.
  destruct (onFallingPlatform c), (fallingPlatformBody c) as [h|];
    try reflexivity; destruct (env_body env h); reflexivity.
Qed.

Lemma applyJump_sprint env v ax az rx rz c :
  sprint (applyJump cfg env v ax az rx rz c) = sprint c.
Proof.
  unfold applyJump.
  destruct (onFallingPlatform c), (fallingPlatformBody c) as [h|];
    try reflexivity; destruct (env_body env h); reflexivity.
Qed.

Lemma applyJump_linvel env v ax az rx rz c :
  linvel (applyJump cfg env v ax az rx rz c) =
  mkVec3 (vx (linvel c) + ax)
         (match ridingPlatform env c with
          | Some bv => bv_vy bv + v
          | None => v
          end)
         (vz (linvel c) + az).
Proof.
  unfold applyJump, ridingPlatform.
  destruct (onFallingPlatform c), (fallingPlatformBody c) as [h|];
    try reflexivity; simpl; destruct (env_body env h); reflexivity.
Qed.

Lemma applyJump_insufficient env v ax az rx rz c :
  insufficientCount (signals (applyJump cfg env v ax az rx rz c))
  = insufficientCount (signals c).
Proof.
  unfold applyJump.
  destruct (onFallingPlatform c), (fallingPlatformBody c) as [h|];
    try reflexivity; destruct (env_body env h); simpl;
    rewrite ?insufficientCount_app; simpl; lia.
Qed.

(** Leaving Charge for Leap, Idle or Fall. *)
Lemma leave_charge name cls p c d :
  FInv c -> _current (fsm c) = Some (ChargeI d) ->
  name ∈ [STATES_LEAP; STATES_IDLE; STATES_FALL] ->
  _states _setupFSM !! name = Some cls ->
  transition cfg name p c =
  let se := state_enter cfg cls (Some STATES_CHARGE) p
              (emit (UiSetChargePreview 0) c) in
  push_history (mkHistory name (p_reason p) (isGrounded c) (sprint c) (health c))
    (set_current (Some (fst se)) (Some name) (snd se)).
Proof.
  intros [Hset Hsync] Hcur Hin Hcls.
  assert (Hk : key c = Some STATES_CHARGE).
  { apply Synced_key_charging; [exact Hsync|]. unfold isCharging. rewrite Hcur. reflexivity. }
  destruct (transition_taken cfg name p c STATES_CHARGE Hset Hk) as (cls' & Hcls' & Heq).
  - unfold STATES. rewrite !elem_of_cons. tauto.
  - eapply registered_in_STATES, Hcls.
  - rewrite !elem_of_cons, elem_of_nil in Hin.
    destruct Hin as [->|[->|[->|[]]]]; discriminate.
  - change (validTransitions !! STATES_CHARGE)
      with (Some [STATES_LEAP; STATES_IDLE; STATES_FALL; STATES_DEAD]). simpl.
    rewrite !elem_of_cons, elem_of_nil in Hin. rewrite !elem_of_cons. tauto.
  - rewrite Heq, Hcur. assert (cls' = cls) by congruence. subst. reflexivity.
Qed.

Lemma fsm_emit s c : fsm (emit s c) = fsm c.
Proof. reflexivity. Qed.

Lemma fsm_consumeStamina a c : fsm (consumeStamina cfg a c) = fsm c.
Proof. reflexivity. Qed.

Lemma fsm_refund d c : fsm (refund cfg d c) = fsm c.
Proof. reflexivity. Qed.

(** Projections through the bookkeeping of a transition. *)
Lemma sprint_push_history e c : sprint (push_history e c) = sprint c.
Proof. reflexivity. Qed.
Lemma sprint_set_current i k c : sprint (set_current i k c) = sprint c.
Proof. reflexivity. Qed.
Lemma sprint_emit s c : sprint (emit s c) = sprint c.
Proof. reflexivity. Qed.
Lemma linvel_push_history e c : linvel (push_history e c) = linvel c.
Proof. reflexivity. Qed.
Lemma linvel_set_current i k c : linvel (set_current i k c) = linvel c.
Proof. reflexivity. Qed.
Lemma linvel_emit s c : linvel (emit s c) = linvel c.
Proof. reflexivity. Qed.
Lemma signals_push_history e c : signals (push_history e c) = signals c.
Proof. reflexivity. Qed.
Lemma signals_set_current i k c : signals (set_current i k c) = signals c.
Proof. reflexivity. Qed.
Lemma signals_emit s c : signals (emit s c) = (signals c ++ [s])%list.
Proof. reflexivity. Qed.
Lemma key_push_history e c : key (push_history e c) = key c.
Proof. reflexivity. Qed.
Lemma key_set_current i k c : key (set_current i k c) = k.
Proof. reflexivity. Qed.
Lemma sprint_consumeStamina a c :
  sprint (consumeStamina cfg a c) = Qmax 0 (sprint c - a).
Proof. reflexivity. Qed.
Lemma linvel_consumeStamina a c : linvel (consumeStamina cfg a c) = linvel c.
Proof. reflexivity. Qed.
Lemma signals_consumeStamina a c :
  signals (consumeStamina cfg a c)
  = (signals c ++ [UiUpdateSprint (Qmax 0 (sprint c - a)) (player_maxSprint cfg)])%list.
Proof. reflexivity. Qed.
Lemma sprint_refund d c :
  sprint (refund cfg d c) = Qmin (player_maxSprint cfg) (sprint c + energyConsumed d).
Proof. reflexivity. Qed.
Lemma linvel_refund d c : linvel (refund cfg d c) = linvel c.
Proof. reflexivity. Qed.
Lemma signals_refund d c : signals (refund cfg d c) = signals c.
Proof. reflexivity. Qed.
Lemma ridingPlatform_same env c c' :
  onFallingPlatform c' = onFallingPlatform c ->
  fallingPlatformBody c' = fallingPlatformBody c ->
  ridingPlatform env c' = ridingPlatform env c.
Proof. unfold ridingPlatform. intros -> ->. reflexivity. Qed.

Create Rewrite HintDb ctl.
#[local] Hint Rewrite sprint_push_history sprint_set_current sprint_emit
  linvel_push_history linvel_set_current linvel_emit
  signals_push_history signals_set_current signals_emit
  key_push_history key_set_current applyJump_sprint applyJump_linvel
  sprint_consumeStamina linvel_consumeStamina signals_consumeStamina
  sprint_refund linvel_refund signals_refund
  insufficientCount_app applyJump_insufficient : ctl.

(** The two outcomes of a tap, spelled out. *)
Lemma launch_tap_jump env d c :
  Qltb (chargeTime d) (quickJump_tapThreshold cfg) = true ->
  Qleb (quickJump_cost cfg) (sprint (refund cfg d c)) = true ->
  ChargeState_launch cfg env d c =
  transition cfg STATES_LEAP noParams
    (emit (PlaySound "jump")
       (applyJump cfg env (quickJump_verticalForce cfg) 0 0 0 0
          (consumeStamina cfg (quickJump_cost cfg) (refund cfg d c)))).
Proof. intros H1 H2. unfold ChargeState_launch. rewrite H1, H2. reflexivity. Qed.

Lemma launch_tap_fail env d c :
  Qltb (chargeTime d) (quickJump_tapThreshold cfg) = true ->
  Qleb (quickJump_cost cfg) (sprint (refund cfg d c)) = false ->
  ChargeState_launch cfg env d c =
  transition cfg (if isGrounded c then STATES_IDLE else STATES_FALL) noParams
    (emit (UiUpdateSprint (sprint (refund cfg d c)) (player_maxSprint cfg))
       (emit (UiShowEnergyInsufficient "Quick Jump") (refund cfg d c))).
Proof. intros H1 H2. unfold ChargeState_launch. rewrite H1, H2. reflexivity. Qed.

(** C3 (as amended). A charge shorter than the tap threshold is
    released. With the energy that the refund leaves at least the
    quick-jump cost, the cost is consumed (so a balance equal to the cost
    becomes 0), the horizontal velocity is kept, the vertical velocity is
    set to the quick-jump force, or to the platform's vertical velocity
    plus that force when the player rides a falling platform whose body
    can be read, and the state is Leap. With that energy below the cost,
    energy and velocity stay as the refund left them, one more
    insufficient-energy signal is sent, and the state is Idle on the
    ground and Fall in the air. *)
Theorem quick_jump_contract (env : Env) (d : ChargeData) (c : Controller) :
  FInv c -> _current (fsm c) = Some (ChargeI d) ->
  chargeTime d < quickJump_tapThreshold cfg ->
  let afterRefund := refund cfg d c in
  let c' := ChargeState_launch cfg env d c in
  (quickJump_cost cfg <= sprint afterRefund ->
     sprint c' == sprint afterRefund - quickJump_cost cfg
     /\ (sprint afterRefund == quickJump_cost cfg -> sprint c' == 0)
     /\ key c' = Some STATES_LEAP
     /\ vx (linvel c') == vx (linvel c) /\ vz (linvel c') == vz (linvel c)
     /\ vy (linvel c') =
        match ridingPlatform env c with
        | Some bv => bv_vy bv + quickJump_verticalForce cfg
        | None => quickJump_verticalForce cfg
        end
     /\ insufficientCount (signals c') = insufficientCount (signals c))
  /\ (sprint afterRefund < quickJump_cost cfg ->
       sprint c' = sprint afterRefund
       /\ linvel c' = linvel c
       /\ insufficientCount (signals c') = S (insufficientCount (signals c))
       /\ key c' = Some (if isGrounded c then STATES_IDLE else STATES_FALL)).
Proof.
  intros Hinv Hcur Htap afterRefund c'.
  apply Qltb_true in Htap. subst c' afterRefund.
  split.
  - intros Hge. pose proof Hge as Hge'. apply Qleb_true in Hge'.
    rewrite (launch_tap_jump env d c Htap Hge').
    rewrite (leave_charge STATES_LEAP LeapState noParams _ d);
      [|eapply FInv_ext; [|exact Hinv];
        rewrite fsm_emit, applyJump_fsm; reflexivity
       |rewrite fsm_emit, applyJump_fsm; exact Hcur
       |rewrite !elem_of_cons; tauto|reflexivity].
    cbv zeta. unfold state_enter, playAnimation. cbn [fst snd].
    autorewrite with ctl.
    rewrite (ridingPlatform_same env c) by reflexivity.
    rewrite sprint_refund in Hge.
    split; [qminmax; lra|]. split; [intros He; qminmax; lra|].
    split; [reflexivity|]. cbn [vx vy vz]. split; [ring|]. split; [ring|].
    split; [reflexivity|]. simpl. lia.
  - intros Hlt. pose proof Hlt as Hlt'. apply Qleb_false in Hlt'.
    rewrite (launch_tap_fail env d c Htap Hlt').
    destruct (isGrounded c).
    + rewrite (leave_charge STATES_IDLE IdleState noParams _ d);
        [|eapply FInv_ext; [|exact Hinv]; reflexivity|exact Hcur
         |rewrite !elem_of_cons; tauto|reflexivity].
      cbv zeta. unfold state_enter, playAnimation. cbn [fst snd].
      autorewrite with ctl. repeat split. simpl. lia.
    + rewrite (leave_charge STATES_FALL FallState noParams _ d);
        [|eapply FInv_ext; [|exact Hinv]; reflexivity|exact Hcur
         |rewrite !elem_of_cons; tauto|reflexivity].
      cbv zeta. unfold state_enter, playAnimation. cbn [fst snd].
      autorewrite with ctl. repeat split. simpl. lia.
Qed.

End QuickJump.

(** ** The charge account *)

Section ChargeAccount.

Variable cfg : Config.
Hypothesis cfg_ok : ConfigOK cfg.

(** While a charge is in progress, what was drained so far plus what is
    left is what the charge started with. *)
Definition Conserve (c : Controller) : Prop :=
  match _current (fsm c) with
  | Some (ChargeI d) =>
      sprint c + energyConsumed d == startEnergy d
      /\ startEnergy d <= player_maxSprint cfg
  | _ => True
  end.

Definition CInv (c : Controller) : Prop := FInv c /\ EInv cfg c /\ Conserve c.

Lemma Conserve_not_charging c : isCharging c = false -> Conserve c.
Proof.
  unfold isCharging, Conserve.
  destruct (_current (fsm c)) as [[]|]; try discriminate; auto.
Qed.

Lemma Conserve_setState name p ft c :
  FsmSetUp c -> sprint c <= player_maxSprint cfg -> Conserve c ->
  Conserve (snd (setState cfg name p ft c)).
Proof.
  intros [Hreg Htab] Hmax Hc.
  assert (Hidle : _states (fsm c) !! STATES_IDLE = Some IdleState)
    by (rewrite Hreg; reflexivity).
  assert (Hex : forall cur, sprint (state_exit cur c) = sprint c)
    by (intros [[]|]; reflexivity).
  assert (Hrec : forall et rt x, _states (fsm x) !! STATES_IDLE = Some IdleState ->
                   Conserve (_recoverToSafeState cfg et rt x)).
  { intros et rt x Hx. apply Conserve_not_charging.
    unfold _recoverToSafeState.
    set (x1 := if et then x else state_exit (_current (fsm x)) x).
    assert (Hx1 : fsm x1 = fsm x)
      by (subst x1; destruct et; [reflexivity|apply state_exit_fsm]).
    rewrite Hx1, Hx. destruct rt; reflexivity. }
  unfold setState.
  destruct (_states (fsm c) !! name) as [cls|] eqn:E; [|exact Hc].
  case_decide; [exact Hc|].
  destruct (negb _); [exact Hc|].
  destruct ft; simpl.
  - specialize (Hex (_current (fsm c))).
    destruct cls; simpl; try exact I.
    unfold Conserve. simpl. rewrite Hex. split; [ring|exact Hmax].
  - apply Hrec. exact Hidle.
  - apply Hrec. simpl. rewrite state_exit_fsm. exact Hidle.
  - specialize (Hex (_current (fsm c))).
    destruct cls; simpl; try exact I.
    unfold Conserve. simpl. rewrite Hex. split; [ring|exact Hmax].
Qed.

Lemma CInv_setState name p ft c : CInv c -> CInv (snd (setState cfg name p ft c)).
Proof.
  intros (Hf & He & Hc). split; [apply FInv_setState, Hf|].
  split; [apply EInv_setState, He|].
  apply Conserve_setState; [apply Hf|apply He|exact Hc].
Qed.

(** An operation that leaves the machine alone and is run outside a
    charge. *)
Lemma CInv_outside_charge c c' :
  fsm c' = fsm c -> isCharging c = false -> EInv cfg c' -> CInv c -> CInv c'.
Proof.
  intros Hf Hnc He (Hfi & _ & _). split; [eapply FInv_ext; eauto|].
  split; [exact He|]. apply Conserve_not_charging.
  unfold isCharging in *. rewrite Hf. exact Hnc.
Qed.

Lemma CInv_same c c' :
  fsm c' = fsm c -> sprint c' = sprint c -> CInv c -> CInv c'.
Proof.
  intros Hf Hs (Hfi & He & Hc). split; [eapply FInv_ext; eauto|].
  split; [eapply EInv_ext; eauto|].
  unfold Conserve in *. rewrite Hf, Hs. exact Hc.
Qed.

Lemma CInv_performDash c :
  isCharging c = false -> CInv c -> CInv (snd (performDash cfg c)).
Proof.
  intros Hnc Hc. unfold performDash.
  destruct (Qltb _ _); simpl; [apply (CInv_same c); auto|].
  apply (CInv_same (transition cfg STATES_DASH
                      (mkParams "dash_initiated" (Some (sprint c)))
                      (consumeStamina cfg (sprint c) c))); try reflexivity.
  apply CInv_setState.
  apply (CInv_outside_charge c); try reflexivity; try assumption.
  apply EInv_consumeStamina; apply Hc.
Qed.

Lemma exit_not_charging name p c d :
  FInv c -> _current (fsm c) = Some (ChargeI d) ->
  name ∈ [STATES_LEAP; STATES_IDLE; STATES_FALL] ->
  isCharging (transition cfg name p c) = false.
Proof.
  intros Hf Hcur Hin.
  rewrite !elem_of_cons, elem_of_nil in Hin.
  destruct Hin as [->|[->|[->|[]]]].
  - rewrite (leave_charge cfg STATES_LEAP LeapState p c d Hf Hcur);
      [reflexivity|rewrite !elem_of_cons; tauto|reflexivity].
  - rewrite (leave_charge cfg STATES_IDLE IdleState p c d Hf Hcur);
      [reflexivity|rewrite !elem_of_cons; tauto|reflexivity].
  - rewrite (leave_charge cfg STATES_FALL FallState p c d Hf Hcur);
      [reflexivity|rewrite !elem_of_cons; tauto|reflexivity].
Qed.

(** [launch] always ends in a transition to Leap, Idle or Fall, requested
    on a controller whose machine is the one [launch] started with. *)
Lemma launch_shape env d c :
  exists name p c',
    ChargeState_launch cfg env d c = transition cfg name p c'
    /\ fsm c' = fsm c
    /\ name ∈ [STATES_LEAP; STATES_IDLE; STATES_FALL].
Proof.
  unfold ChargeState_launch.
  repeat match goal with
         | |- context [if ?b then _ else _] => destruct b
         end;
    eexists _, _, _; (split; [reflexivity|]);
    (split; [rewrite ?fsm_emit, ?applyJump_fsm, ?fsm_emit,
               ?fsm_consumeStamina, ?fsm_refund; reflexivity
            |rewrite !elem_of_cons; tauto]).
Qed.

(** Every path out of [launch] leaves the Charge state. *)
Lemma launch_not_charging env d d0 c :
  FInv c -> _current (fsm c) = Some (ChargeI d0) ->
  isCharging (ChargeState_launch cfg env d c) = false.
Proof.
  intros Hf Hcur.
  destruct (launch_shape env d c) as (name & p & c' & -> & Hfs & Hin).
  eapply exit_not_charging; [eapply FInv_ext; eauto|rewrite Hfs; exact Hcur|exact Hin].
Qed.

Lemma FInv_launch env d c : FInv c -> FInv (ChargeState_launch cfg env d c).
Proof.
  intros Hf.
  destruct (launch_shape env d c) as (name & p & c' & -> & Hfs & Hin).
  apply FInv_transition. eapply FInv_ext; eauto.
Qed.

Lemma chargeDrain_account dt d c :
  let r := chargeDrain cfg dt d c in
  fsm (snd r) = fsm c
  /\ startEnergy (fst r) = startEnergy d
  /\ sprint (snd r) + energyConsumed (fst r) == sprint c + energyConsumed d.
Proof.
  unfold chargeDrain.
  destruct (Qltb _ _ && Qltb _ _) eqn:E; simpl; [|repeat split; reflexivity].
  split; [reflexivity|]. split; [reflexivity|]. qminmax; lra.
Qed.

Lemma CInv_ChargeState_update env input dt d c :
  0 <= dt -> _current (fsm c) = Some (ChargeI d) -> CInv c ->
  CInv (ChargeState_update cfg env input dt d c).
Proof.
  intros Hdt Hcur (Hf & He & Hc).
  assert (Hd : 0 <= energyConsumed d).
  { destruct He as (_ & _ & Hch). unfold ChargeOK in Hch. rewrite Hcur in Hch. exact Hch. }
  split; [|split; [apply EInv_ChargeState_update; assumption|]].
  - (* the machine *)
    unfold ChargeState_update.
    destruct (startedGrounded d && negb (isGrounded c) && Qleb (coyoteTime c) 0).
    { destruct (Qltb 0 (energyConsumed d)); apply FInv_transition;
        (eapply FInv_ext; [|exact Hf]; reflexivity). }
    set (c1 := if key_Space input then _ else c).
    assert (Hc1 : fsm c1 = fsm c) by (subst c1; destruct (key_Space input); reflexivity).
    assert (Hf1 : FInv c1) by (eapply FInv_ext; eauto).
    clearbody c1.
    destruct (negb (key_Space input)); [apply FInv_launch, Hf1|].
    destruct (negb (isGrounded c1) && Qleb (coyoteTime c1) 0 && Qeq_bool (chargeTime d) 0).
    { destruct (Qltb 0 (energyConsumed d)); apply FInv_transition;
        (eapply FInv_ext; [|exact Hf1]; reflexivity). }
    destruct (chargeDrain_account dt d c1) as (Hfd & _ & _).
    destruct (chargeDrain cfg dt d c1) as [d1 c2]. simpl in Hfd.
    assert (Hst : FInv (set_current (Some (ChargeI d1)) (_currentKey (fsm c2)) c2)).
    { destruct Hf1 as [[Hreg Htab] Hsy]. unfold Synced, key in Hsy.
      rewrite Hc1, Hcur in Hsy. simpl in Hsy.
      split; [split; simpl; rewrite Hfd; assumption|].
      unfold Synced, key. simpl. rewrite Hfd, Hc1. exact Hsy. }
    destruct (_ || _); [apply FInv_launch|]; (eapply FInv_ext; [|exact Hst]; reflexivity).
  - (* the account *)
    unfold ChargeState_update.
    destruct (startedGrounded d && negb (isGrounded c) && Qleb (coyoteTime c) 0).
    { apply Conserve_not_charging.
      destruct (Qltb 0 (energyConsumed d));
        (eapply exit_not_charging;
         [eapply FInv_ext; [|exact Hf]; reflexivity|exact Hcur
         |rewrite !elem_of_cons; tauto]). }
    set (c1 := if key_Space input then _ else c).
    assert (Hc1 : fsm c1 = fsm c) by (subst c1; destruct (key_Space input); reflexivity).
    assert (Hs1 : sprint c1 = sprint c) by (subst c1; destruct (key_Space input); reflexivity).
    assert (Hf1 : FInv c1) by (eapply FInv_ext; eauto).
    clearbody c1.
    destruct (negb (key_Space input)).
    { apply Conserve_not_charging. eapply launch_not_charging; [exact Hf1|].
      rewrite Hc1. exact Hcur. }
    destruct (negb (isGrounded c1) && Qleb (coyoteTime c1) 0 && Qeq_bool (chargeTime d) 0).
    { apply Conserve_not_charging.
      destruct (Qltb 0 (energyConsumed d));
        (eapply exit_not_charging;
         [eapply FInv_ext; [|exact Hf1]; reflexivity|simpl; rewrite Hc1; exact Hcur
         |rewrite !elem_of_cons; tauto]). }
    destruct (chargeDrain_account dt d c1) as (Hfd & Hsd & Hacc).
    destruct (chargeDrain cfg dt d c1) as [d1 c2]. simpl in Hfd, Hsd, Hacc.
    destruct (_ || _).
    { apply Conserve_not_charging.
      eapply (launch_not_charging env d1 d1).
      - eapply (FInv_ext (set_current (Some (ChargeI d1)) (_currentKey (fsm c2)) c2));
          [reflexivity|].
        destruct Hf1 as [[Hreg Htab] Hsy]. unfold Synced, key in Hsy.
        rewrite Hc1, Hcur in Hsy. simpl in Hsy.
        split; [split; simpl; rewrite Hfd; assumption|].
        unfold Synced, key. simpl. rewrite Hfd, Hc1. exact Hsy.
      - reflexivity. }
    unfold Conserve in *. simpl. rewrite Hcur in Hc. destruct Hc as [Hsum Hle].
    rewrite Hsd. split; [|exact Hle]. rewrite Hs1 in Hacc. lra.
Qed.

Lemma CInv_fsm_update env dt input c :
  0 <= dt -> CInv c -> CInv (fsm_update cfg env dt input c).
Proof.
  intros Hdt Hc. unfold fsm_update.
  destruct (_current (fsm c)) as [[| |d| | |d|]|] eqn:Hcur; try exact Hc.
  - assert (Hnc : isCharging c = false) by (unfold isCharging; rewrite Hcur; reflexivity).
    unfold IdleState_update.
    repeat match goal with
           | |- context [if ?b then _ else _] => destruct b
           end;
      try apply CInv_performDash; try apply CInv_setState; assumption.
  - assert (Hnc : isCharging c = false) by (unfold isCharging; rewrite Hcur; reflexivity).
    unfold WalkState_update.
    repeat match goal with
           | |- context [if ?b then _ else _] => destruct b
           end;
      try apply CInv_performDash; try apply CInv_setState;
      try (apply (CInv_same c); [reflexivity|reflexivity|]); assumption.
  - apply CInv_ChargeState_update; assumption.
  - assert (Hnc : isCharging c = false) by (unfold isCharging; rewrite Hcur; reflexivity).
    unfold LeapState_update.
    repeat match goal with
           | |- context [if ?b then _ else _] => destruct b
           end;
      try apply CInv_performDash; try apply CInv_setState; assumption.
  - assert (Hnc : isCharging c = false) by (unfold isCharging; rewrite Hcur; reflexivity).
    unfold FallState_update.
    repeat match goal with
           | |- context [if ?b then _ else _] => destruct b
           end;
      try apply CInv_performDash; try apply CInv_setState; assumption.
  - assert (Hst : CInv (set_current
                          (Some (DashI (mkDash (dashTimer d + dt) (dashDuration d)
                                               (staminaUsed d))))
                          (_currentKey (fsm c)) c)).
    { destruct Hc as ([[Hreg Htab] Hsy] & He & _).
      unfold Synced, key in Hsy. rewrite Hcur in Hsy. simpl in Hsy.
      split; [split; [split; assumption|exact Hsy]|].
      split; [apply EInv_dash, He|exact I]. }
    unfold DashState_update.
    repeat match goal with
           | |- context [if ?b then _ else _] => destruct b
           end;
      try apply CInv_setState; exact Hst.
Qed.

Lemma CInv_fixedUpdateEnergy env dt c :
  0 <= dt -> CInv c -> CInv (fixedUpdateEnergy cfg env dt c).
Proof.
  intros Hdt Hc. unfold fixedUpdateEnergy.
  destruct (isDead c); [apply CInv_fsm_update; assumption|].
  pose proof (CInv_fsm_update env dt (inputManager c) c Hdt Hc) as H1.
  destruct (negb (isCharging _)) eqn:Hch; simpl; [|exact H1].
  destruct (negb (isDashing _)); simpl; [|exact H1].
  apply negb_true_iff in Hch.
  eapply CInv_outside_charge; [| exact Hch | | exact H1].
  - unfold updateSprint.
    repeat match goal with
           | |- context [if ?b then _ else _] => destruct b
           end; reflexivity.
  - apply EInv_updateSprint; [exact cfg_ok|exact Hdt|apply H1].
Qed.

End ChargeAccount.


(** ** A tap-length charge gives its energy back *)

(** The steps the script itself takes between two observations: sensing,
    the state-machine update with or without the regeneration that
    follows it in [fixedUpdate], the immediate dash, and transitions
    requested from outside the machine (death, teleport, respawn). *)
Definition scriptStep (st : EnergyStep) : Prop :=
  match st with
  | StSense _ | StUpdate _ _ _ | StFixedUpdate _ _ | StImmediateDash
  | StSetState _ => True
  | _ => False
  end.

Section TapRefund.

Variable cfg : Config.
Hypothesis cfg_ok : ConfigOK cfg.

(** The charge key is held through all of [sts]: the player is charging
    after each step. *)
Fixpoint heldThrough (sts : list EnergyStep) (c : Controller) : Prop :=
  match sts with
  | [] => True
  | st :: rest =>
      isCharging (energyStep cfg st c) = true
      /\ heldThrough rest (energyStep cfg st c)
  end.

(** A charge that started with energy [e0] is in progress. *)
Definition Account (e0 : Q) (c : Controller) : Prop :=
  match _current (fsm c) with
  | Some (ChargeI d) =>
      startEnergy d == e0 /\ sprint c + energyConsumed d == e0
  | _ => False
  end.

Lemma Account_same e0 c c' :
  fsm c' = fsm c -> sprint c' = sprint c -> Account e0 c -> Account e0 c'.
Proof. unfold Account. intros -> ->. auto. Qed.

Lemma setState_charging name p ft c :
  FInv c ->
  let r := snd (setState cfg name p ft c) in
  isCharging r = true ->
  (fsm r = fsm c /\ sprint r = sprint c)
  \/ (name = STATES_CHARGE /\ isCharging c = false /\ Account (sprint c) r).
Proof.
  intros [[Hreg Htab] Hsync] r. subst r.
  assert (Hidle : _states (fsm c) !! STATES_IDLE = Some IdleState)
    by (rewrite Hreg; reflexivity).
  assert (Hex : forall cur, sprint (state_exit cur c) = sprint c)
    by (intros [[]|]; reflexivity).
  assert (Hrec : forall et rt x, _states (fsm x) !! STATES_IDLE = Some IdleState ->
                   isCharging (_recoverToSafeState cfg et rt x) = false).
  { intros et rt x Hx. unfold _recoverToSafeState.
    set (x1 := if et then x else state_exit (_current (fsm x)) x).
    assert (Hx1 : fsm x1 = fsm x)
      by (subst x1; destruct et; [reflexivity|apply state_exit_fsm]).
    rewrite Hx1, Hx. destruct rt; reflexivity. }
  unfold setState. fold (key c).
  destruct (_states (fsm c) !! name) as [cls|] eqn:E; [|left; split; reflexivity].
  case_decide as Hk; [left; split; reflexivity|].
  destruct (negb _); [left; split; reflexivity|].
  assert (Hname : keyOf (instantiate cls) = name)
    by (apply registered_class; rewrite <- Hreg; exact E).
  assert (Hnc : cls = ChargeState -> name = STATES_CHARGE /\ isCharging c = false).
  { intros ->. simpl in Hname. subst name. split; [reflexivity|].
    destruct (isCharging c) eqn:Hch; [|reflexivity].
    apply Synced_key_charging in Hch; [contradiction|exact Hsync]. }
  destruct ft; simpl.
  - specialize (Hex (_current (fsm c))).
    destruct cls; simpl; try discriminate.
    intros _. right. destruct (Hnc eq_refl) as [-> Hn].
    split; [reflexivity|]. split; [exact Hn|].
    unfold Account. simpl. rewrite Hex. split; [reflexivity|ring].
  - rewrite Hrec; [discriminate|exact Hidle].
  - rewrite Hrec; [discriminate|]. simpl. rewrite state_exit_fsm. exact Hidle.
  - specialize (Hex (_current (fsm c))).
    destruct cls; simpl; try discriminate.
    intros _. right. destruct (Hnc eq_refl) as [-> Hn].
    split; [reflexivity|]. split; [exact Hn|].
    unfold Account. simpl. rewrite Hex. split; [reflexivity|ring].
Qed.

(** From outside a charge, a transition that ends in Charge opens an
    account with the energy held at that moment. *)
Lemma transition_enters name p c :
  FInv c -> isCharging c = false ->
  isCharging (transition cfg name p c) = true ->
  Account (sprint c) (transition cfg name p c).
Proof.
  intros Hf Hnc Hch.
  destruct (setState_charging name p NoFault c Hf Hch) as [[Hfs _]|(_ & _ & Ha)];
    [|exact Ha].
  unfold transition, isCharging in *. rewrite Hfs in Hch. congruence.
Qed.

Lemma transition_stays_out name p c :
  FInv c -> isCharging c = false -> name <> STATES_CHARGE ->
  isCharging (transition cfg name p c) = false.
Proof.
  intros Hf Hnc Hname.
  destruct (isCharging (transition cfg name p c)) eqn:Hch; [|reflexivity].
  destruct (setState_charging name p NoFault c Hf Hch) as [[Hfs _]|(Hn & _ & _)];
    [|contradiction].
  unfold transition, isCharging in *. rewrite Hfs in Hch. congruence.
Qed.

Lemma isCharging_emit s c : isCharging (emit s c) = isCharging c.
Proof. reflexivity. Qed.

Lemma performDash_not_charging c :
  FInv c -> isCharging c = false -> isCharging (snd (performDash cfg c)) = false.
Proof.
  intros Hf Hnc. unfold performDash.
  destruct (Qltb _ _); cbn [snd]; [exact Hnc|].
  rewrite !isCharging_emit.
  apply transition_stays_out;
    [eapply FInv_ext; [|exact Hf]; reflexivity|exact Hnc|discriminate].
Qed.

(** What an update does to a charge in progress: the charge ends, or it
    goes on with the same start value and the same total. *)
Lemma ChargeState_update_cases env input dt d c :
  FInv c -> _current (fsm c) = Some (ChargeI d) ->
  let r := ChargeState_update cfg env input dt d c in
  isCharging r = false
  \/ exists d1, _current (fsm r) = Some (ChargeI d1)
                /\ startEnergy d1 = startEnergy d
                /\ sprint r + energyConsumed d1 == sprint c + energyConsumed d.
Proof.
  intros Hf Hcur r. subst r. unfold ChargeState_update.
  destruct (startedGrounded d && negb (isGrounded c) && Qleb (coyoteTime c) 0).
  { left. destruct (Qltb 0 (energyConsumed d));
      (eapply exit_not_charging;
       [eapply FInv_ext; [|exact Hf]; reflexivity|exact Hcur
       |rewrite !elem_of_cons; tauto]). }
  set (c1 := if key_Space input then _ else c).
  assert (Hc1 : fsm c1 = fsm c) by (subst c1; destruct (key_Space input); reflexivity).
  assert (Hs1 : sprint c1 = sprint c) by (subst c1; destruct (key_Space input); reflexivity).
  assert (Hf1 : FInv c1) by (eapply FInv_ext; eauto).
  clearbody c1.
  destruct (negb (key_Space input)).
  { left. eapply launch_not_charging; [exact Hf1|]. rewrite Hc1. exact Hcur. }
  destruct (negb (isGrounded c1) && Qleb (coyoteTime c1) 0 && Qeq_bool (chargeTime d) 0).
  { left. destruct (Qltb 0 (energyConsumed d));
      (eapply exit_not_charging;
       [eapply FInv_ext; [|exact Hf1]; reflexivity|simpl; rewrite Hc1; exact Hcur
       |rewrite !elem_of_cons; tauto]). }
  destruct (chargeDrain_account cfg dt d c1) as (Hfd & Hsd & Hacc).
  destruct (chargeDrain cfg dt d c1) as [d1 c2]. simpl in Hfd, Hsd, Hacc.
  destruct (_ || _).
  { left. eapply (launch_not_charging cfg env d1 d1).
    - eapply (FInv_ext (set_current (Some (ChargeI d1)) (_currentKey (fsm c2)) c2));
        [reflexivity|].
      destruct Hf1 as [[Hreg Htab] Hsy]. unfold Synced, key in Hsy.
      rewrite Hc1, Hcur in Hsy. simpl in Hsy.
      split; [split; simpl; rewrite Hfd; assumption|].
      unfold Synced, key. simpl. rewrite Hfd, Hc1. exact Hsy.
    - reflexivity. }
  right. exists d1. simpl. split; [reflexivity|]. split; [exact Hsd|].
  rewrite <- Hs1. exact Hacc.
Qed.

Lemma updateSprint_fsm dt c : fsm (updateSprint cfg dt c) = fsm c.
Proof.
  unfold updateSprint.
  repeat match goal with
         | |- context [if ?b then _ else _] => destruct b
         end; reflexivity.
Qed.

(** What an update does from outside a charge: the player stays outside,
    or a charge starts with the energy held before the update. *)
Lemma fsm_update_enters env dt input c :
  FInv c -> isCharging c = false ->
  let r := fsm_update cfg env dt input c in
  isCharging r = true -> Account (sprint c) r.
Proof.
  intros Hf Hnc r. subst r. unfold fsm_update.
  pose proof (performDash_not_charging c Hf Hnc) as Hpd.
  destruct (_current (fsm c)) as [[| |d| | |d|]|] eqn:Hcur;
    try (intros Hch; congruence).
  - unfold IdleState_update.
    repeat match goal with
           | |- context [if ?b then _ else _] => destruct b
           end; intros Hch; try congruence;
      try (apply transition_enters; assumption);
      rewrite transition_stays_out in Hch; try assumption; discriminate.
  - unfold WalkState_update.
    repeat match goal with
           | |- context [if ?b then _ else _] => destruct b
           end; intros Hch; try congruence;
      try (apply transition_enters; assumption);
      try (rewrite transition_stays_out in Hch; try assumption; discriminate);
      unfold playAnimation, isCharging in *; simpl in Hch; congruence.
  - unfold isCharging in Hnc. rewrite Hcur in Hnc. discriminate.
  - unfold LeapState_update.
    repeat match goal with
           | |- context [if ?b then _ else _] => destruct b
           end; intros Hch; try congruence;
      rewrite transition_stays_out in Hch; try assumption; discriminate.
  - unfold FallState_update.
    repeat match goal with
           | |- context [if ?b then _ else _] => destruct b
           end; intros Hch; try congruence;
      rewrite transition_stays_out in Hch; try assumption; discriminate.
  - unfold DashState_update.
    set (c1 := set_current _ _ c).
    assert (Hf1 : FInv c1).
    { destruct Hf as [[Hreg Htab] Hsy]. unfold Synced, key in Hsy.
      rewrite Hcur in Hsy. simpl in Hsy.
      split; [split; assumption|exact Hsy]. }
    assert (Hnc1 : isCharging c1 = false) by reflexivity.
    clearbody c1.
    repeat match goal with
           | |- context [if ?b then _ else _] => destruct b
           end; intros Hch; try congruence;
      rewrite transition_stays_out in Hch; try assumption; discriminate.
Qed.

Lemma enter_account st c :
  FInv c -> isCharging c = false -> scriptStep st ->
  isCharging (energyStep cfg st c) = true ->
  Account (sprint c) (energyStep cfg st c).
Proof.
  intros Hf Hnc Hscript. destruct st; simpl in *; try contradiction.
  - intros Hch. unfold isCharging in *. simpl in Hch. congruence.
  - apply fsm_update_enters; assumption.
  - unfold fixedUpdateEnergy.
    assert (Hd : forall x, isCharging (updateSprint cfg dt x) = isCharging x)
      by (intros x; unfold isCharging; rewrite updateSprint_fsm; reflexivity).
    destruct (isDead c); [apply fsm_update_enters; assumption|].
    destruct (isCharging (fsm_update cfg env dt (inputManager c) c)) eqn:Hc1; simpl.
    + intros _. apply fsm_update_enters; assumption.
    + destruct (negb (isDashing _)); [rewrite Hd|]; congruence.
  - unfold processImmediateDash. rewrite Hnc.
    pose proof (performDash_not_charging c Hf Hnc).
    repeat match goal with
           | |- context [if ?b then _ else _] => destruct b
           end; congruence.
  - intros Hch.
    destruct (setState_charging _ _ _ c Hf Hch) as [[Hfs _]|(_ & _ & Ha)];
      [|exact Ha].
    unfold isCharging in *. rewrite Hfs in Hch. congruence.
Qed.

Lemma hold_account e0 st c :
  FInv c -> Account e0 c -> scriptStep st ->
  isCharging (energyStep cfg st c) = true ->
  Account e0 (energyStep cfg st c).
Proof.
  intros Hf Ha Hscript.
  assert (Hcur : exists d, _current (fsm c) = Some (ChargeI d)).
  { unfold Account in Ha. destruct (_current (fsm c)) as [[]|]; try contradiction.
    eexists; reflexivity. }
  destruct Hcur as [d Hcur].
  assert (Hch0 : isCharging c = true) by (unfold isCharging; rewrite Hcur; reflexivity).
  assert (Hupd : forall env dt input,
             isCharging (fsm_update cfg env dt input c) = true ->
             Account e0 (fsm_update cfg env dt input c)).
  { intros env dt input. unfold fsm_update. rewrite Hcur.
    destruct (ChargeState_update_cases env input dt d c Hf Hcur)
      as [Hout|(d1 & Hc1 & Hst & Hsum)]; [congruence|].
    intros _. unfold Account in *. rewrite Hc1. rewrite Hcur in Ha.
    rewrite Hst. destruct Ha as [Ha1 Ha2]. split; [exact Ha1|]. lra. }
  destruct st; simpl in *; try contradiction.
  - intros _. eapply Account_same; [| |exact Ha]; reflexivity.
  - apply Hupd.
  - unfold fixedUpdateEnergy.
    assert (Hd : forall x, isCharging (updateSprint cfg dt x) = isCharging x)
      by (intros x; unfold isCharging; rewrite updateSprint_fsm; reflexivity).
    destruct (isDead c); [apply Hupd|].
    destruct (isCharging (fsm_update cfg env dt (inputManager c) c)) eqn:Hc1; simpl.
    + intros _. apply Hupd. exact Hc1.
    + destruct (negb (isDashing _)); [rewrite Hd|]; congruence.
  - intros _. unfold processImmediateDash. rewrite Hch0.
    destruct (pressed_KeyQ _); exact Ha.
  - intros Hch.
    destruct (setState_charging _ _ _ c Hf Hch) as [[Hfs Hss]|(_ & Hn & _)];
      [|congruence].
    eapply Account_same; eauto.
Qed.

Lemma CInv_step st c :
  stepOK st -> scriptStep st -> CInv cfg c -> CInv cfg (energyStep cfg st c).
Proof.
  intros Hok Hscript Hc. destruct st; simpl in *; try contradiction.
  - apply (CInv_same cfg c); [reflexivity|reflexivity|exact Hc].
  - apply CInv_fsm_update; assumption.
  - apply CInv_fixedUpdateEnergy; assumption.
  - unfold processImmediateDash.
    destruct (pressed_KeyQ _); [|exact Hc].
    destruct (isCharging c) eqn:Hch; [exact Hc|].
    destruct (isDashing c); [exact Hc|].
    destruct (isDead c); [exact Hc|].
    apply CInv_performDash; assumption.
  - apply CInv_setState, Hc.
Qed.

Lemma CInv_new : CInv cfg (newController cfg).
Proof.
  split; [apply FInv_new|]. split; [apply EInv_new, cfg_ok|exact I].
Qed.

Lemma CInv_run sts c :
  Forall (fun st => stepOK st /\ scriptStep st) sts ->
  CInv cfg c -> CInv cfg (runEnergy cfg sts c).
Proof.
  revert c. induction sts as [|st sts IH]; intros c Hok Hc; [exact Hc|].
  inversion Hok as [|? ? [H1 H2] Hrest]; subst. simpl. apply IH; [assumption|].
  apply CInv_step; assumption.
Qed.

Lemma held_account e0 sts c :
  Forall (fun st => stepOK st /\ scriptStep st) sts ->
  CInv cfg c -> Account e0 c -> heldThrough sts c ->
  Account e0 (runEnergy cfg sts c).
Proof.
  revert c. induction sts as [|st sts IH]; intros c Hok Hc Ha Hheld; [exact Ha|].
  inversion Hok as [|? ? [H1 H2] Hrest]; subst.
  destruct Hheld as [Hch Hheld]. simpl. apply IH; try assumption.
  - apply CInv_step; assumption.
  - apply hold_account; try assumption. apply Hc.
Qed.

(** The test that opens [ChargeState.update]: the charge began on the
    ground and the player has left it for longer than the coyote time. *)
Definition leftGround (d : ChargeData) (c : Controller) : bool :=
  startedGrounded d && negb (isGrounded c) && Qleb (coyoteTime c) 0.

Lemma transition_sprint name p c : sprint (transition cfg name p c) = sprint c.
Proof. unfold transition. apply setState_sprint. Qed.

(** The energy after [launch()] on a tap, in terms of the energy the
    refund leaves. *)
Lemma launch_tap_sprint env d c :
  chargeTime d < quickJump_tapThreshold cfg ->
  sprint (ChargeState_launch cfg env d c)
  = if Qleb (quickJump_cost cfg) (sprint (refund cfg d c))
    then Qmax 0 (sprint (refund cfg d c) - quickJump_cost cfg)
    else sprint (refund cfg d c).
Proof.
  intros Htap. apply Qltb_true in Htap.
  destruct (Qleb (quickJump_cost cfg) (sprint (refund cfg d c))) eqn:Hge.
  - rewrite (launch_tap_jump cfg env d c Htap Hge), transition_sprint.
    rewrite sprint_emit, applyJump_sprint, sprint_consumeStamina. reflexivity.
  - rewrite (launch_tap_fail cfg env d c Htap Hge), transition_sprint.
    rewrite !sprint_emit. reflexivity.
Qed.

(** C8 (as amended). The player is not charging and holds energy [e0]; a
    step of the script starts a charge, and the charge key is then held
    through any number of further steps (time steps not negative). The
    refund that opens [launch()] for a tap, [sprint = min(maxSprint,
    sprint + energyConsumed)], sets the energy to [e0] again. But
    [launch()] goes on and attempts the quick jump: after [launch()] on a
    charge shorter than the tap threshold the player is no longer
    charging and the energy is [e0 - quickJump.cost] when [e0] covers
    the cost, and [e0] only when it does not. An update with the key
    released is that [launch()], unless the player has left the ground:
    then the charge is cancelled and the energy is [e0]. *)
Theorem tap_release_energy (before : list EnergyStep) (start : EnergyStep)
    (hold : list EnergyStep) (env : Env) (dt : Q) (input : Input) :
  Forall (fun st => stepOK st /\ scriptStep st) (before ++ start :: hold) ->
  let c0 := runEnergy cfg before (newController cfg) in
  let c := runEnergy cfg hold (energyStep cfg start c0) in
  isCharging c0 = false ->
  heldThrough (start :: hold) c0 ->
  exists d, _current (fsm c) = Some (ChargeI d)
    /\ sprint (refund cfg d c) == sprint c0
    /\ (chargeTime d < quickJump_tapThreshold cfg ->
        let c' := ChargeState_launch cfg env d c in
        isCharging c' = false
        /\ (quickJump_cost cfg <= sprint c0 ->
            sprint c' == sprint c0 - quickJump_cost cfg)
        /\ (sprint c0 < quickJump_cost cfg -> sprint c' == sprint c0))
    /\ (key_Space input = false ->
        let c' := fsm_update cfg env dt input c in
        isCharging c' = false
        /\ (leftGround d c = true -> sprint c' == sprint c0)
        /\ (leftGround d c = false -> c' = ChargeState_launch cfg env d c)).
Proof.
  intros Hok c0 c Hnc [Hstart Hheld].
  apply Forall_app in Hok as [Hbefore Hrest].
  inversion Hrest as [|? ? [Hs1 Hs2] Hhold]; subst.
  assert (Hc0 : CInv cfg c0) by (apply CInv_run; [exact Hbefore|apply CInv_new]).
  assert (Ha0 : Account (sprint c0) (energyStep cfg start c0))
    by (apply enter_account; try assumption; apply Hc0).
  assert (Hc1 : CInv cfg (energyStep cfg start c0)) by (apply CInv_step; assumption).
  pose proof (held_account (sprint c0) hold _ Hhold Hc1 Ha0 Hheld) as Ha.
  pose proof (CInv_run hold _ Hhold Hc1) as Hc.
  fold c in Ha, Hc. unfold Account in Ha.
  destruct (_current (fsm c)) as [[| |d| | | |]|] eqn:Hcur; try contradiction.
  exists d. split; [reflexivity|].
  destruct Ha as [Hst Hsum]. destruct Hc0 as (_ & (_ & Hmax & _) & _).
  destruct Hc as (Hf & (_ & _ & Hcons) & _).
  unfold ChargeOK in Hcons. rewrite Hcur in Hcons.
  assert (Hrefund : sprint (refund cfg d c) == sprint c0).
  { rewrite sprint_refund. qminmax; lra. }
  split; [exact Hrefund|]. split.
  - intros Htap c'. subst c'.
    split; [exact (launch_not_charging cfg env d d c Hf Hcur)|].
    rewrite (launch_tap_sprint env d c Htap).
    pose proof (ok_quickJump cfg cfg_ok) as Hcost.
    destruct (Qleb (quickJump_cost cfg) (sprint (refund cfg d c))) eqn:Hge.
    + apply Qleb_true in Hge. split.
      * intros _. revert Hge Hrefund. generalize (sprint (refund cfg d c)).
        intros r Hge Hr. qminmax; lra.
      * intros Hlt. lra.
    + apply Qleb_false in Hge. split.
      * intros Hle. lra.
      * intros _. exact Hrefund.
  - intros Hrel c'. subst c'. unfold fsm_update. rewrite Hcur.
    unfold ChargeState_update. fold (leftGround d c).
    destruct (leftGround d c).
    + split; [|split; [intros _|discriminate]].
      * destruct (Qltb 0 (energyConsumed d));
          (eapply exit_not_charging;
           [eapply FInv_ext; [|exact Hf]; reflexivity|exact Hcur
           |rewrite !elem_of_cons; tauto]).
      * rewrite transition_sprint.
        destruct (Qltb 0 (energyConsumed d)) eqn:Hpos.
        -- rewrite sprint_emit. exact Hrefund.
        -- apply Qltb_false in Hpos. lra.
    + rewrite Hrel. cbn [negb].
      split; [exact (launch_not_charging cfg env d d c Hf Hcur)|].
      split; [discriminate|reflexivity].
Qed.

End TapRefund.

(** ** Concrete runs *)

(** Grounded, in Charge since this tick, with the given energy; on
    request riding the falling platform whose body has handle 7. *)
Definition tapController (energy : Q) (riding : bool) : Controller :=
  set_fallingPlatform riding (if riding then Some 7%nat else None)
    (transition CONFIG STATES_CHARGE noParams
       (set_isGrounded true
          (transition CONFIG STATES_IDLE noParams
             (set_sprint energy (newController CONFIG))))).

Definition tapCharge (energy : Q) : ChargeData :=
  mkCharge (Some STATES_IDLE) true 0 0 energy (Qmin energy (50 * 1.5)).

(** The platform with handle 7 falls at 3 units per second. *)
Definition fallingEnv : Env :=
  mkEnv (fun h => if (h =? 7)%nat then Some (mkBodyView 0 (-3) None true) else None)
        (mkVec3 0 0 1).

Lemma fsm_set_fallingPlatform on b c : fsm (set_fallingPlatform on b c) = fsm c.
Proof. reflexivity. Qed.

Lemma fsm_set_isGrounded v c : fsm (set_isGrounded v c) = fsm c.
Proof. reflexivity. Qed.

Lemma fsm_set_sprint v c : fsm (set_sprint v c) = fsm c.
Proof. reflexivity. Qed.

Lemma tapController_FInv energy riding : FInv (tapController energy riding).
Proof.
  unfold tapController.
  eapply FInv_ext; [exact (fsm_set_fallingPlatform _ _ _)|].
  refine (FInv_transition CONFIG STATES_CHARGE noParams _ _).
  eapply FInv_ext; [exact (fsm_set_isGrounded _ _)|].
  refine (FInv_transition CONFIG STATES_IDLE noParams _ _).
  eapply FInv_ext; [exact (fsm_set_sprint _ _)|].
  exact (FInv_new CONFIG).
Qed.

(** The energy equals the quick-jump cost and the player rides a falling
    platform: the jump succeeds, the energy becomes 0, the state is Leap,
    but the vertical velocity is 8, not the configured force 11. *)
Lemma quick_jump_on_falling_platform :
  let c := tapController 5 true in
  let d := tapCharge 5 in
  let c' := ChargeState_launch CONFIG fallingEnv d c in
  _current (fsm c) = Some (ChargeI d)
  /\ chargeTime d < quickJump_tapThreshold CONFIG
  /\ sprint (refund CONFIG d c) == quickJump_cost CONFIG
  /\ sprint c' == 0
  /\ key c' = Some STATES_LEAP
  /\ vy (linvel c') == 8
  /\ ~ vy (linvel c') == quickJump_verticalForce CONFIG.
Proof.
  vm_compute. repeat split; try reflexivity. discriminate.
Qed.

Lemma quick_jump_contract_witness :
  let c := tapController 5 false in
  let c' := ChargeState_launch CONFIG fallingEnv (tapCharge 5) c in
  sprint c' == 0 /\ key c' = Some STATES_LEAP
  /\ vy (linvel c') = quickJump_verticalForce CONFIG.
Proof.
  intros c c'.
  assert (Hf : FInv c) by exact (tapController_FInv 5 false).
  assert (Hcur : _current (fsm c) = Some (ChargeI (tapCharge 5)))
    by (vm_compute; reflexivity).
  assert (Htap : chargeTime (tapCharge 5) < quickJump_tapThreshold CONFIG)
    by (vm_compute; reflexivity).
  destruct (quick_jump_contract CONFIG fallingEnv (tapCharge 5) c Hf Hcur Htap)
    as [H _].
  assert (Hge : quickJump_cost CONFIG <= sprint (refund CONFIG (tapCharge 5) c))
    by (vm_compute; discriminate).
  destruct (H Hge) as (_ & H0 & Hk & _ & _ & Hv & _).
  split; [apply H0; vm_compute; reflexivity|]. split; [exact Hk|exact Hv].
Defined.

Lemma performDash_contract_witness :
  let c := transition CONFIG STATES_IDLE noParams (newController CONFIG) in
  let r := performDash CONFIG c in
  fst r = true /\ sprint (snd r) == 0 /\ key (snd r) = Some STATES_DASH.
Proof.
  intros c r.
  assert (Hf : FInv c)
    by exact (FInv_transition CONFIG STATES_IDLE noParams _ (FInv_new CONFIG)).
  assert (Hsite : dashCallSite c).
  { right. exists STATES_IDLE. split; [vm_compute; reflexivity|].
    apply elem_of_cons. left. reflexivity. }
  assert (Hmax : sprint c <= player_maxSprint CONFIG) by (vm_compute; discriminate).
  destruct (performDash_contract CONFIG c Hf Hmax) as [_ H].
  assert (Hge : gameplay_minDashEnergy CONFIG <= sprint c) by (vm_compute; discriminate).
  destruct (H Hge) as (H1 & H2 & _ & H3 & _).
  split; [exact H1|]. split; [exact H2|exact (proj1 (H3 Hsite))].
Defined.

(** The player is charging with full energy and [performDash()] is
    called: it reports success and the energy is gone, but the machine
    is still in Charge, not in Dash. *)
Lemma performDash_while_charging :
  let c := tapController 100 false in
  let r := performDash CONFIG c in
  key c = Some STATES_CHARGE
  /\ gameplay_minDashEnergy CONFIG <= sprint c <= player_maxSprint CONFIG
  /\ fst r = true
  /\ sprint (snd r) == 0
  /\ key (snd r) = Some STATES_CHARGE
  /\ isDashing (snd r) = false
  /\ key (snd r) <> Some STATES_DASH.
Proof.
  vm_compute. repeat split; try reflexivity; discriminate.
Qed.

(** Idle on the ground with full energy, a tick that starts the charge,
    two more ticks with the key held, and the release. *)
Definition tapEnv : Env := mkEnv (fun _ => None) (mkVec3 0 0 1).

Definition spaceHeld : Input := mkInput true false false false false false.

Definition spaceReleased : Input := mkInput false false false false false false.

Definition tapBefore : list EnergyStep :=
  [StSetState (mkCall STATES_IDLE noParams NoFault);
   StSense (mkSensed true 0 1 (mkVec3 0 0 0) false None spaceHeld)].

Definition tapStart : EnergyStep := StUpdate tapEnv (1 # 60) spaceHeld.

Definition tapHold : list EnergyStep :=
  [StUpdate tapEnv (1 # 60) spaceHeld; StFixedUpdate tapEnv (1 # 60)].

Lemma tap_steps_ok :
  Forall (fun st => stepOK st /\ scriptStep st) (tapBefore ++ tapStart :: tapHold).
Proof.
  repeat (apply Forall_cons; split;
          [split; [simpl; try exact I; vm_compute; discriminate|exact I]|]).
  apply Forall_nil. exact I.
Qed.

(** The player starts the charge with 100 units, holds the key for two
    ticks (0.033 s, below the tap threshold of 0.2 s) and lets go: the
    charge has drained energy, the release gives it back and takes the
    quick-jump cost, and the player is left with 95 units, not with the
    100 held before the charge. *)
Lemma tap_release_costs_quick_jump :
  let c0 := runEnergy CONFIG tapBefore (newController CONFIG) in
  let c := runEnergy CONFIG tapHold (energyStep CONFIG tapStart c0) in
  let c' := fsm_update CONFIG tapEnv (1 # 60) spaceReleased c in
  isCharging c0 = false
  /\ sprint c0 == 100
  /\ match _current (fsm c) with
     | Some (ChargeI d) =>
         chargeTime d < quickJump_tapThreshold CONFIG
         /\ 0 < energyConsumed d
         /\ sprint (ChargeState_launch CONFIG tapEnv d c) == 95
     | _ => False
     end
  /\ sprint c < sprint c0
  /\ isCharging c' = false
  /\ key c' = Some STATES_LEAP
  /\ sprint c' == 95
  /\ ~ sprint c' == sprint c0.
Proof.
  vm_compute. repeat split; try reflexivity. discriminate.
Qed.

Lemma tap_release_energy_witness :
  let c0 := runEnergy CONFIG tapBefore (newController CONFIG) in
  let c := runEnergy CONFIG tapHold (energyStep CONFIG tapStart c0) in
  exists d, _current (fsm c) = Some (ChargeI d)
            /\ sprint (refund CONFIG d c) == sprint c0
            /\ sprint (ChargeState_launch CONFIG tapEnv d c)
               == sprint c0 - quickJump_cost CONFIG.
Proof.
  intros c0 c.
  destruct (tap_release_energy CONFIG CONFIG_ok tapBefore tapStart tapHold
              tapEnv (1 # 60) spaceReleased tap_steps_ok)
    as (d & Hcur & Hrefund & Htap & _).
  - vm_compute. reflexivity.
  - vm_compute. repeat split.
  - exists d. split; [exact Hcur|]. split; [exact Hrefund|].
    assert (Hd : Some (ChargeI d) = _current (fsm c)) by (symmetry; exact Hcur).
    vm_compute in Hd. injection Hd as ->.
    destruct Htap as (_ & Hjump & _).
    + vm_compute. reflexivity.
    + apply Hjump. vm_compute. discriminate.
Defined.

(** ** The refund in binary64 *)

(** The arithmetic of the charge drain and of the tap refund on the
    numbers the script computes with. Over these the refund does not
    always give back what the drain took: the sums are rounded. *)
Module Binary64.

Import PrimFloat.
Local Open Scope float_scope.

(** [Math.min] and [Math.max] *)
Definition jsMin (a b : float) : float :=
  if is_nan a || is_nan b then nan
  else if a <? b then a
  else if b <? a then b
  else if get_sign a then a else b.

Definition jsMax (a b : float) : float :=
  if is_nan a || is_nan b then nan
  else if a <? b then b
  else if b <? a then a
  else if get_sign a then b else a.

(** The numbers of a charge: the controller's energy and the charge's
    [energyConsumed] and [chargeTime]. *)
Record Tank := mkTank {
  t_sprint : float;
  t_energyConsumed : float;
  t_chargeTime : float
}.

(** The values of [CONFIG]. *)
Definition staminaDrainPerSecond : float := 50.
Definition maxChargeTime : float := 1.5.
Definition maxSprint : float := 100.
Definition tapThreshold : float := 2 / 10.
Definition timestep : float := 1 / 60.

(** The drain block of [ChargeState.update], with [consumeStamina]. *)
Definition drainTick (dt : float) (t : Tank) : Tank :=
  if (t_chargeTime t <? maxChargeTime) && (0 <? t_sprint t) then
    let drain := staminaDrainPerSecond * dt in
    let actual := jsMin drain (t_sprint t) in
    mkTank (jsMax 0 (t_sprint t - actual)) (t_energyConsumed t + actual)
           (t_chargeTime t + dt)
  else t.

(** The refund of [launch()]. *)
Definition tapRefund (t : Tank) : float :=
  jsMin maxSprint (t_sprint t + t_energyConsumed t).

(** A charge that starts with 50 units and is held for two physics
    steps is a tap, and its refund leaves a little less than 50. *)
Lemma tap_refund_rounds :
  let t := drainTick timestep (drainTick timestep (mkTank 50 0 0)) in
  (t_chargeTime t <? tapThreshold) = true
  /\ (tapRefund t =? 50) = false
  /\ (tapRefund t <? 50) = true.
Proof. vm_compute. repeat split. Qed.

End Binary64.

(** ** Lava contact *)

Section Lava.

Variable cfg : Config.

(** The lava check is armed: the game runs, is not being torn down, the
    main menu is not shown, kill-on-contact is on, the lava sensor and
    the player's body exist. *)
Definition lavaArmed (inMainMenu : bool) (g : Game) : bool :=
  negb inMainMenu && negb (_isCleaningUp g) && running g
  && lava_killOnContact cfg && _lavaCollider g && playerBody g.

(** The lowest point of the player's capsule. *)
Definition playerBottom (g : Game) : Q :=
  vy (translation (playerController g)) - (player_height cfg + player_radius cfg).

(** Any living player can die. *)
Lemma die_kills reason c :
  FInv c -> isDead c = false ->
  let c' := die cfg reason c in
  isDead c' = true
  /\ key c' = Some STATES_DEAD
  /\ health c' = health c
  /\ sprint c' = sprint c
  /\ exists l, signals c' =
       (signals c ++ [StopTimer; PlayerDied reason; UiShowGameOver] ++ l)%list.
Proof.
  intros [Hset Hsync] Halive c'. subst c'. unfold die.
  set (c3 := emit UiShowGameOver _).
  assert (Hf3 : fsm c3 = fsm c) by reflexivity.
  assert (Hcls : _states (fsm c3) !! STATES_DEAD = Some DeadState)
    by (rewrite Hf3; destruct Hset as [-> _]; reflexivity).
  assert (Hne : key c3 <> Some STATES_DEAD).
  { unfold key. rewrite Hf3. unfold Synced, key in Hsync. unfold isDead in Halive.
    destruct (_current (fsm c)) as [[]|]; rewrite Hsync; try discriminate. }
  assert (Hcan : _canTransitionKey (fsm c3) (key c3) STATES_DEAD = true).
  { unfold key. rewrite Hf3. destruct Hset as [_ Htab].
    unfold _canTransitionKey. rewrite Htab.
    unfold Synced, key in Hsync. unfold isDead in Halive.
    destruct (_current (fsm c)) as [[]|]; rewrite Hsync; try reflexivity.
    discriminate. }
  unfold transition.
  rewrite (setState_accept cfg STATES_DEAD noParams c3 DeadState Hcls Hne Hcan).
  cbv zeta. unfold state_enter. cbn [fst snd].
  split; [reflexivity|]. split; [reflexivity|].
  split; [destruct (_current (fsm c3)) as [[]|]; reflexivity|].
  split; [destruct (_current (fsm c3)) as [[]|]; reflexivity|].
  change (signals (push_history ?e (set_current ?i ?k ?x))) with (signals x).
  destruct (state_exit_signals_grow (_current (fsm c3)) c3) as [l Hl].
  exists l. rewrite Hl. subst c3. rewrite !signals_emit.
  rewrite <- !app_assoc. reflexivity.
Qed.

(** C4 (as amended). With the check armed and the player alive, a capsule
    bottom at or below [lavaSurfaceY + 0.05], so in particular one 0.06
    below the surface, kills at once with reason "lava"; the health is
    neither read nor changed. A bottom more than 0.05 above the surface
    is not a hit, and neither is anything while the check is not armed or
    the player is dead already. *)
Theorem lava_contact_rule (inMainMenu : bool) (g : Game) :
  FInv (playerController g) ->
  let c := playerController g in
  let g' := lavaContactCheck cfg inMainMenu g in
  let c' := playerController g' in
  (lavaArmed inMainMenu g = true -> isDead c = false ->
   playerBottom g <= lava_surfaceY cfg + 0.05 ->
     isDead c' = true
     /\ health c' = health c
     /\ exists l, signals c' =
          (signals c ++ [PlaySound "damage"; StopTimer; PlayerDied "lava";
                         UiShowGameOver] ++ l)%list)
  /\ (lava_surfaceY cfg + 0.05 < playerBottom g -> g' = g)
  /\ (lavaArmed inMainMenu g = false -> g' = g)
  /\ (isDead c = true -> g' = g).
Proof.
  intros Hf c g' c'. subst c' g' c. unfold lavaContactCheck, lavaArmed, playerBottom.
  split.
  { intros Harmed Halive Hlow.
    apply andb_true_iff in Harmed as [Harmed Hbody]. rewrite Harmed, Hbody, Halive.
    apply Qleb_true in Hlow. rewrite Hlow. cbn [negb andb].
    unfold with_controller. cbn [playerController set_playerController].
    destruct (die_kills "lava" (emit (PlaySound "damage") (playerController g)))
      as (Hd & _ & Hh & _ & l & Hl).
    - eapply FInv_ext; [|exact Hf]. reflexivity.
    - exact Halive.
    - split; [exact Hd|]. split; [exact Hh|].
      exists l. rewrite Hl, signals_emit, <- !app_assoc. reflexivity. }
  split.
  { intros Hhigh. apply Qleb_false in Hhigh. rewrite Hhigh.
    repeat match goal with
           | |- context [if ?b then _ else _] => destruct b
           end; reflexivity. }
  split.
  { intros Hoff.
    destruct (playerBody g);
      [|match goal with |- (if ?b then _ else _) = _ => destruct b end; reflexivity].
    rewrite andb_true_r in Hoff. rewrite Hoff. reflexivity. }
  intros Hdead. rewrite Hdead. rewrite andb_false_r. reflexivity.
Qed.

End Lava.

(** A running game whose player stands still in Idle with the given
    height of the body's centre. *)
Definition gameWithPlayerAt (y : Q) : Game :=
  with_controller
    (fun c => set_translation (mkVec3 0 y 0)
                (transition CONFIG STATES_IDLE noParams c))
    (newGame CONFIG).

(** The capsule bottom is 0.03 above the lava surface, inside the 0.05
    band, and then 0.03 below it: both are hits, the player dies with
    reason "lava". *)
Lemma lava_tolerance_band_is_a_hit :
  let above := gameWithPlayerAt (-50 + 0.03 + 1.1) in
  let below := gameWithPlayerAt (-50 - 0.03 + 1.1) in
  playerBottom CONFIG above == lava_surfaceY CONFIG + 0.03
  /\ playerBottom CONFIG below == lava_surfaceY CONFIG - 0.03
  /\ isDead (playerController above) = false
  /\ isDead (playerController (lavaContactCheck CONFIG false above)) = true
  /\ isDead (playerController (lavaContactCheck CONFIG false below)) = true
  /\ signals (playerController (lavaContactCheck CONFIG false above))
     = [PlayAnimation "survey" 1; PlaySound "damage"; StopTimer;
        PlayerDied "lava"; UiShowGameOver].
Proof. vm_compute. repeat split. Qed.

Lemma gameWithPlayerAt_FInv y : FInv (playerController (gameWithPlayerAt y)).
Proof.
  unfold gameWithPlayerAt, with_controller.
  cbn [playerController set_playerController].
  eapply FInv_ext; [reflexivity|].
  exact (FInv_transition CONFIG STATES_IDLE noParams _ (FInv_new CONFIG)).
Qed.

Lemma lava_contact_rule_witness :
  let g := gameWithPlayerAt (-50 - 0.06 + 1.1) in
  isDead (playerController (lavaContactCheck CONFIG false g)) = true.
Proof.
  intros g.
  destruct (lava_contact_rule CONFIG false g (gameWithPlayerAt_FInv _)) as (H & _).
  apply H.
  - vm_compute. reflexivity.
  - vm_compute. reflexivity.
  - vm_compute. discriminate.
Defined.

(** ** Ground detection *)

(** Handle of the rigid body of the segment object [sid]. *)
Definition bodyOf (heap : gmap nat Segment) (sid : nat) : option nat :=
  heap !! sid ≫= rapierBody.

Lemma findGroundSegment_cons heap hb sid rest :
  findGroundSegment heap hb (sid :: rest) =
  if decide (bodyOf heap sid = Some hb) then Some sid
  else findGroundSegment heap hb rest.
Proof.
  cbn [findGroundSegment].
  destruct (decide (bodyOf heap sid = Some hb)) as [Hb|Hb]; unfold bodyOf in Hb;
    destruct (heap !! sid) as [s|]; cbn in Hb; try discriminate; try reflexivity.
  - rewrite Hb. rewrite decide_True; reflexivity.
  - destruct (rapierBody s) as [h|]; [|reflexivity].
    rewrite decide_False; [reflexivity|congruence].
Qed.

Lemma findGroundSegment_Some heap hb l sid :
  findGroundSegment heap hb l = Some sid <->
  exists i : nat,
    l !! i = Some sid /\ bodyOf heap sid = Some hb
    /\ forall (j : nat) sid', (j < i)%nat -> l !! j = Some sid' ->
                              bodyOf heap sid' <> Some hb.
Proof.
  induction l as [|x l IH].
  - simpl. split; [discriminate|]. intros (i & Hi & _). destruct i; discriminate.
  - rewrite findGroundSegment_cons. destruct (decide (bodyOf heap x = Some hb)) as [Hx|Hx].
    + split.
      * intros [= <-]. exists 0%nat. split; [reflexivity|]. split; [exact Hx|]. lia.
      * intros (i & Hi & Hb & Hfirst). destruct i as [|i].
        -- simpl in Hi. exact Hi.
        -- exfalso. apply (Hfirst 0%nat x); [lia|reflexivity|exact Hx].
    + rewrite IH. split.
      * intros (i & Hi & Hb & Hfirst). exists (S i). split; [exact Hi|].
        split; [exact Hb|]. intros [|j] y Hj Hy.
        -- simpl in Hy. injection Hy as <-. exact Hx.
        -- apply (Hfirst j y); [lia|exact Hy].
      * intros (i & Hi & Hb & Hfirst). destruct i as [|i].
        -- simpl in Hi. injection Hi as ->. contradiction.
        -- exists i. split; [exact Hi|]. split; [exact Hb|].
           intros j y Hj Hy. apply (Hfirst (S j) y); [lia|exact Hy].
Qed.

Lemma findGroundSegment_None heap hb l :
  findGroundSegment heap hb l = None <->
  forall sid, sid ∈ l -> bodyOf heap sid <> Some hb.
Proof.
  induction l as [|x l IH].
  - simpl. split; [|reflexivity]. intros _ sid Hin. inversion Hin.
  - rewrite findGroundSegment_cons. destruct (decide (bodyOf heap x = Some hb)) as [Hx|Hx].
    + split; [discriminate|]. intros H. exfalso. apply (H x); [left|exact Hx].
    + rewrite IH. split.
      * intros H sid Hin. apply elem_of_cons in Hin as [->|Hin]; auto.
      * intros H sid Hin. apply H. right. exact Hin.
Qed.

Lemma findGroundSegment_elem heap hb l sid :
  findGroundSegment heap hb l = Some sid -> sid ∈ l.
Proof.
  rewrite findGroundSegment_Some. intros (i & Hi & _).
  eapply list_elem_of_lookup_2. exact Hi.
Qed.

Section Ground.

Variable cfg : Config.

(** The segment ground detection settles on. *)
Definition groundSegmentOf (env : Env) (hit : option Hit) (g : Game) : option nat :=
  currentGroundSegment (playerController (checkGrounded cfg env hit g)).

Lemma clearCrumbleTimer_controller i d g :
  playerController (clearCrumbleTimer i d g) = playerController g.
Proof.
  unfold clearCrumbleTimer. destruct (crumbleTimers g !! i); [|reflexivity].
  destruct d; reflexivity.
Qed.

Lemma startCrumble_controller sid g :
  playerController (startCrumble cfg sid g) = playerController g.
Proof.
  unfold startCrumble. destruct (negb _); [reflexivity|].
  destruct (segs g !! sid) as [s|]; [|reflexivity].
  destruct (_ || _); [reflexivity|].
  destruct (bool_decide _); [|reflexivity].
  cbv zeta. exact (clearCrumbleTimer_controller (index s) false g).
Qed.

Lemma groundCrumbleLogic_ground env sid g :
  (forall b, bodyOf (segs g) sid = Some b -> env_body env b <> None) ->
  currentGroundSegment (playerController (groundCrumbleLogic cfg env sid g))
  = currentGroundSegment (playerController g).
Proof.
  intros Hlive. unfold groundCrumbleLogic, bodyOf in *.
  destruct (segs g !! sid) as [s|]; [|reflexivity]. simpl in Hlive.
  destruct (_ && _); [|reflexivity].
  destruct (hasMesh s); [|reflexivity].
  destruct (rapierBody s) as [b|].
  - specialize (Hlive b eq_refl). destruct (env_body env b) as [bv|]; [|contradiction].
    simpl. destruct (_ && _); [reflexivity|].
    destruct (bool_decide _); [|reflexivity].
    rewrite startCrumble_controller. reflexivity.
  - cbn [fmap]. rewrite andb_false_r.
    destruct (bool_decide _); [|reflexivity].
    rewrite startCrumble_controller. reflexivity.
Qed.

(** The first half of [checkGrounded]: the flags are reset and the hit
    is matched against the segments. *)
Definition matchStage (env : Env) (hit : option Hit) (g : Game) : Game :=
  let g1 := with_controller
              (fun c => set_fallingPlatform false None
                          (set_isGrounded (bool_decide (is_Some hit)) c)) g in
  match hit with
  | Some h =>
      if hit_hasCollider h then
        match hit_parent h with
        | Some hitBody =>
            let matched := findGroundSegment (segs g1) hitBody (trackSegments g1) in
            let g' := with_controller (set_currentGroundSegment matched) g1 in
            match matched with
            | Some sid => groundCrumbleLogic cfg env sid g'
            | None => g'
            end
        | None => g1
        end
      else with_controller (set_currentGroundSegment None) g1
  | None => with_controller (set_currentGroundSegment None) g1
  end.

Lemma checkGrounded_ground env hit g :
  currentGroundSegment (playerController (checkGrounded cfg env hit g))
  = currentGroundSegment (playerController (matchStage env hit g)).
Proof.
  unfold checkGrounded, matchStage. cbv zeta.
  match goal with
  | |- _ = currentGroundSegment (playerController ?G) => generalize G
  end.
  intros g2.
  change (currentGroundSegment (playerController (set_playerController ?c ?x)))
    with (currentGroundSegment c).
  generalize (playerController g2). intros c2.
  assert (Hcoy : forall (b : bool) (c3 : Controller), currentGroundSegment
            (if b then set_coyoteTime (jump_coyoteTime cfg) c3 else c3)
            = currentGroundSegment c3) by (intros [] ?; reflexivity).
  rewrite Hcoy.
  destruct (bool_decide (is_Some hit)); [|reflexivity].
  destruct (onFallingPlatform c2); [|destruct (negb _); reflexivity].
  destruct (fallingPlatformBody c2) as [fb|]; [|destruct (negb _); reflexivity].
  destruct (env_body env fb); [|reflexivity].
  destruct (Qltb _ _); [|reflexivity].
  destruct (negb _); reflexivity.
Qed.

Lemma groundSegmentOf_live env h g hitBody :
  hit_hasCollider h = true -> hit_parent h = Some hitBody ->
  env_body env hitBody <> None ->
  groundSegmentOf env (Some h) g
  = findGroundSegment (segs g) hitBody (trackSegments g).
Proof.
  intros Hcol Hpar Hlive. unfold groundSegmentOf.
  rewrite checkGrounded_ground. unfold matchStage.
  cbv zeta. rewrite Hcol, Hpar.
  change (segs (with_controller ?f g)) with (segs g).
  change (trackSegments (with_controller ?f g)) with (trackSegments g).
  destruct (findGroundSegment _ _ _) as [sid|] eqn:Hfound; [|reflexivity].
  rewrite groundCrumbleLogic_ground; [reflexivity|].
  intros b Hb. change (segs (with_controller ?f ?x)) with (segs x) in Hb.
  change (segs (with_controller ?f g)) with (segs g) in Hb.
  apply findGroundSegment_Some in Hfound as (_ & _ & Hsid & _).
  rewrite Hsid in Hb. injection Hb as <-. exact Hlive.
Qed.

(** C9 (as amended). The matching loop runs over the whole active list in
    order and settles on the first segment whose body has the handle of
    the hit body: the position [i] of the match ranges over every index
    of the list, no window around the player's segment index bounds it.
    When no segment of the list has that handle the result is [null]. As long as
    the hit body is live, this is what ground detection stores. *)
Theorem ground_match_scans_whole_list (g : Game) (hitBody : nat) :
  let found := findGroundSegment (segs g) hitBody (trackSegments g) in
  (forall sid,
     found = Some sid <->
     exists i : nat,
       trackSegments g !! i = Some sid
       /\ bodyOf (segs g) sid = Some hitBody
       /\ forall (j : nat) sid', (j < i)%nat -> trackSegments g !! j = Some sid' ->
                                 bodyOf (segs g) sid' <> Some hitBody)
  /\ (found = None <->
      forall sid, sid ∈ trackSegments g -> bodyOf (segs g) sid <> Some hitBody)
  /\ (forall env h,
        hit_hasCollider h = true -> hit_parent h = Some hitBody ->
        env_body env hitBody <> None ->
        groundSegmentOf env (Some h) g = found).
Proof.
  intros found. split; [intros sid; apply findGroundSegment_Some|].
  split; [apply findGroundSegment_None|].
  intros env h. apply groundSegmentOf_live.
Qed.

(** Two games show the same segments at the positions [lo <= i < hi] of
    their active lists. *)
Definition sameInWindow (lo hi : Z) (g1 g2 : Game) : Prop :=
  forall i : Z, (lo <= i < hi)%Z -> segmentAt g1 i = segmentAt g2 i.

(** Ground detection looks only at the window of [behind] positions
    before and [ahead] positions from the player's segment index. *)
Definition windowOnly (behind ahead : Z) : Prop :=
  forall env hit g1 g2,
    playerController g1 = playerController g2 ->
    playerSegmentIndex g1 = playerSegmentIndex g2 ->
    sameInWindow (playerSegmentIndex g1 - behind) (playerSegmentIndex g1 + ahead) g1 g2 ->
    groundSegmentOf env hit g1 = groundSegmentOf env hit g2.

End Ground.

(** A plain platform at slot [i] with the given body. *)
Definition plainSegment (i : nat) (body : option nat) : Segment :=
  mkSegment (Z.of_nat i) 0 0 0 false true false None 0 0 true body false.

(** [n] plain platforms, the one at slot [i] has the body handle [i]. *)
Fixpoint plainHeap (n : nat) : gmap nat Segment :=
  match n with
  | O => ∅
  | S k => <[k := plainSegment k (Some k)]> (plainHeap k)
  end.

Definition plainGame (heap : gmap nat Segment) (n : nat) : Game :=
  set_track (seq 0 n) 0 (set_segs heap (newGame CONFIG)).

Definition liveEnv : Env :=
  mkEnv (fun _ => Some (mkBodyView 0 0 (Some 1) false)) (mkVec3 0 0 1).

Lemma plainHeap_lookup n i :
  plainHeap n !! i = if decide (i < n)%nat then Some (plainSegment i (Some i)) else None.
Proof.
  induction n as [|n IH]; cbn [plainHeap].
  - rewrite lookup_empty. destruct (decide (i < 0)%nat); [lia|reflexivity].
  - destruct (decide (n = i)) as [->|Hne].
    + rewrite lookup_insert_eq. rewrite decide_True by lia. reflexivity.
    + rewrite lookup_insert_ne by exact Hne. rewrite IH.
      destruct (decide (i < n)%nat), (decide (i < S n)%nat); try reflexivity; lia.
Qed.

(** The seventh platform lies outside the window of the player at slot 0,
    yet ground detection finds it when the shape cast hits its body, and
    finds nothing when that platform has no body: the result depends on
    a segment outside the window. *)
Lemma ground_match_outside_window :
  let g1 := plainGame (plainHeap 7) 7 in
  let g2 := plainGame (<[6%nat := plainSegment 6 None]> (plainHeap 7)) 7 in
  let hit := Some (mkHit true (Some 6%nat)) in
  playerController g1 = playerController g2
  /\ playerSegmentIndex g1 = playerSegmentIndex g2
  /\ sameInWindow (playerSegmentIndex g1 - 3) (playerSegmentIndex g1 + 4) g1 g2
  /\ groundSegmentOf CONFIG liveEnv hit g1 = Some 6%nat
  /\ groundSegmentOf CONFIG liveEnv hit g2 = None.
Proof.
  intros g1 g2 hit. split; [reflexivity|]. split; [reflexivity|].
  split.
  { intros i Hi. change (playerSegmentIndex g1) with 0%Z in Hi.
    assert (Hc : i = (-3)%Z \/ i = (-2)%Z \/ i = (-1)%Z \/ i = 0%Z \/ i = 1%Z
                 \/ i = 2%Z \/ i = 3%Z) by lia.
    destruct Hc as [->|[->|[->|[->|[->|[->| ->]]]]]]; reflexivity. }
  split; reflexivity.
Qed.

(** No window, however wide, bounds the search. *)
Lemma ground_match_no_window behind ahead : ~ windowOnly CONFIG behind ahead.
Proof.
  intros Hw.
  pose (n := Z.to_nat ahead).
  pose (g1 := plainGame (plainHeap (S n)) (S n)).
  pose (g2 := plainGame (<[n := plainSegment n None]> (plainHeap (S n))) (S n)).
  pose (h := mkHit true (Some n)).
  assert (Hsame : groundSegmentOf CONFIG liveEnv (Some h) g1
                  = groundSegmentOf CONFIG liveEnv (Some h) g2).
  { apply Hw; [reflexivity|reflexivity|].
    intros i Hi. change (playerSegmentIndex g1) with 0%Z in Hi.
    unfold segmentAt. destruct (i <? 0)%Z eqn:Hneg; [reflexivity|].
    apply Z.ltb_ge in Hneg.
    change (trackSegments g1) with (seq 0 (S n)).
    change (trackSegments g2) with (seq 0 (S n)).
    change (segs g1) with (plainHeap (S n)).
    change (segs g2) with (<[n := plainSegment n None]> (plainHeap (S n))).
    destruct (seq 0 (S n) !! Z.to_nat i) as [sid|] eqn:Hsid; [|reflexivity].
    apply lookup_seq in Hsid as [-> _]. simpl.
    rewrite !lookup_insert_ne by (subst n; lia). reflexivity. }
  rewrite !(groundSegmentOf_live CONFIG liveEnv h _ n eq_refl eq_refl) in Hsame
    by discriminate.
  assert (H1 : findGroundSegment (segs g1) n (trackSegments g1) = Some n).
  { apply findGroundSegment_Some. exists n. change (trackSegments g1) with (seq 0 (S n)).
    change (segs g1) with (plainHeap (S n)).
    split; [apply lookup_seq; lia|].
    split.
    - unfold bodyOf. rewrite plainHeap_lookup, decide_True by lia. reflexivity.
    - intros j sid' Hj Hl. apply lookup_seq in Hl as [-> _].
      unfold bodyOf. rewrite plainHeap_lookup, decide_True by lia. simpl.
      intros [= Heq]. lia. }
  assert (H2 : findGroundSegment (segs g2) n (trackSegments g2) = None).
  { apply findGroundSegment_None. intros sid Hin. change (trackSegments g2) with (seq 0 (S n)) in Hin.
    apply elem_of_seq in Hin.
    change (segs g2) with (<[n := plainSegment n None]> (plainHeap (S n))).
    unfold bodyOf. destruct (decide (n = sid)) as [<-|Hne].
    - rewrite lookup_insert_eq. discriminate.
    - rewrite lookup_insert_ne by exact Hne.
      rewrite plainHeap_lookup, decide_True by lia. simpl. intros [= Heq]. lia. }
  rewrite H1, H2 in Hsame. discriminate.
Qed.

Lemma ground_match_scans_whole_list_witness :
  groundSegmentOf CONFIG liveEnv (Some (mkHit true (Some 6%nat)))
    (plainGame (plainHeap 7) 7)
  = findGroundSegment (plainHeap 7) 6 (seq 0 7).
Proof.
  destruct (ground_match_scans_whole_list CONFIG (plainGame (plainHeap 7) 7) 6)
    as (_ & _ & H).
  apply (H liveEnv (mkHit true (Some 6%nat))).
  - reflexivity.
  - reflexivity.
  - discriminate.
Defined.

(** ** The sliding window of segments *)

(** The part of the game the window is about. *)
Definition windowOf (g : Game) : list nat * Z * bool :=
  (trackSegments g, playerSegmentIndex g, playerBody g).

Lemma windowOf_track g g' : windowOf g' = windowOf g -> trackSegments g' = trackSegments g.
Proof. unfold windowOf. congruence. Qed.

Lemma windowOf_index g g' :
  windowOf g' = windowOf g -> playerSegmentIndex g' = playerSegmentIndex g.
Proof. unfold windowOf. congruence. Qed.

Lemma windowOf_body g g' : windowOf g' = windowOf g -> playerBody g' = playerBody g.
Proof. unfold windowOf. congruence. Qed.

Lemma windowOf_clearCrumbleTimer i d g : windowOf (clearCrumbleTimer i d g) = windowOf g.
Proof.
  unfold clearCrumbleTimer. destruct (crumbleTimers g !! i); [|reflexivity].
  destruct d; reflexivity.
Qed.

Lemma windowOf_foldl {A} (f : Game -> A -> Game) (l : list A) g :
  (forall g x, windowOf (f g x) = windowOf g) ->
  windowOf (foldl f g l) = windowOf g.
Proof.
  intros Hf. revert g. induction l as [|x l IH]; intros g; [reflexivity|].
  simpl. rewrite IH. apply Hf.
Qed.

Section Window.

Variable cfg : Config.

Lemma windowOf_despawnSegment sid g : windowOf (despawnSegment sid g) = windowOf g.
Proof.
  unfold despawnSegment. destruct (segs g !! sid); [|reflexivity].
  apply windowOf_clearCrumbleTimer.
Qed.

Lemma windowOf_syncSegment env g sid : windowOf (syncSegment env g sid) = windowOf g.
Proof.
  unfold syncSegment. destruct (segs g !! sid) as [s|]; [|reflexivity].
  destruct (rapierBody s) as [h|]; [|reflexivity].
  destruct (env_body env h) as [bv|]; [|reflexivity].
  destruct (bv_isDynamic bv); reflexivity.
Qed.

Lemma searchBlock_track now g : trackSegments (searchBlock now g) = trackSegments g.
Proof. unfold searchBlock. destruct (searchDue now g); reflexivity. Qed.

Lemma searchBlock_body now g : playerBody (searchBlock now g) = playerBody g.
Proof. unfold searchBlock. destruct (searchDue now g); reflexivity. Qed.

Lemma generateSegment_track prev r g :
  trackSegments (generateSegment cfg prev r g) = (trackSegments g ++ [nextSeg g])%list.
Proof. reflexivity. Qed.

Lemma generateSegment_index prev r g :
  playerSegmentIndex (generateSegment cfg prev r g) = playerSegmentIndex g.
Proof. reflexivity. Qed.

Lemma generateSegment_length prev r g :
  trackLength (generateSegment cfg prev r g) = (trackLength g + 1)%Z.
Proof.
  unfold trackLength. rewrite generateSegment_track, length_app. simpl. lia.
Qed.

(** The loop appends segments until the list is as long as asked for,
    and not one more. *)
Lemma generateLoop_spec rng desired g :
  trackLength (generateLoop cfg rng desired g) = Z.max (trackLength g) desired
  /\ playerSegmentIndex (generateLoop cfg rng desired g) = playerSegmentIndex g
  /\ playerBody (generateLoop cfg rng desired g) = playerBody g
  /\ exists new, trackSegments (generateLoop cfg rng desired g)
                 = (trackSegments g ++ new)%list.
Proof.
  funelim (generateLoop cfg rng desired g).
  - destruct H as (Hlen & Hidx & Hbody & new & Hnew).
    rewrite Hlen, Hidx, Hbody, Hnew.
    rewrite generateSegment_length, generateSegment_index, generateSegment_track.
    split; [lia|]. split; [reflexivity|]. split; [reflexivity|].
    exists (nextSeg g :: new). rewrite <- app_assoc. reflexivity.
  - split; [lia|]. split; [reflexivity|]. split; [reflexivity|].
    exists []. rewrite app_nil_r. reflexivity.
Qed.

(** The despawn block cuts the list at the front and moves the player's
    index along. *)
Lemma despawnBlock_spec g :
  let count := (playerSegmentIndex g - track_segmentsToKeepBehind cfg)%Z in
  trackSegments (despawnBlock cfg g) = drop (Z.to_nat count) (trackSegments g)
  /\ playerSegmentIndex (despawnBlock cfg g)
     = (playerSegmentIndex g - Z.max 0 count)%Z.
Proof.
  intros count. unfold despawnBlock. fold count.
  destruct (0 <? count)%Z eqn:Hc.
  - apply Z.ltb_lt in Hc. cbv zeta.
    change (trackSegments (set_track ?l ?i ?x)) with l.
    change (playerSegmentIndex (set_track ?l ?i ?x)) with i.
    match goal with
    | |- context [foldl ?f ?a ?l] =>
        pose proof (windowOf_foldl f l a
                      (fun g x => windowOf_despawnSegment x g)) as Hw
    end.
    rewrite (windowOf_track _ _ Hw), (windowOf_index _ _ Hw).
    split; [reflexivity|]. simpl. lia.
  - apply Z.ltb_ge in Hc. split.
    + replace (Z.to_nat count) with 0%nat by lia. reflexivity.
    + lia.
Qed.

(** C6. A call of [updateTrack] with the player's body in place runs the
    search, the generation loop and the despawn block. Generation only
    appends, and leaves the list exactly as long as
    [playerSegmentIndex + segmentsToGenerateAhead] unless it was longer
    already, in which case nothing is generated: the target is never
    exceeded by generation. After the call at most
    [segmentsToKeepBehind] slots lie before the player's slot, so no
    segment more than that many slots behind the player is left; the
    despawn block shifts list and index together, which keeps the length
    at [playerSegmentIndex + segmentsToGenerateAhead] when generation had
    to fill up. Without the player's body the call changes neither list
    nor index. *)
Theorem update_track_window (env : Env) (now : Q) (rng : nat -> GenRoll) (g : Game) :
  let ahead := track_segmentsToGenerateAhead cfg in
  let keep := track_segmentsToKeepBehind cfg in
  let g1 := searchBlock now (foldl (syncSegment env) g (trackSegments g)) in
  let g2 := generateBlock cfg rng g1 in
  let g' := updateTrack cfg env now rng g in
  (playerBody g = true ->
     trackLength g2 = Z.max (trackLength g1) (playerSegmentIndex g1 + ahead)
     /\ (exists new, trackSegments g2 = (trackSegments g1 ++ new)%list)
     /\ playerSegmentIndex g2 = playerSegmentIndex g1
     /\ g' = despawnBlock cfg g2
     /\ (playerSegmentIndex g' <= keep)%Z
     /\ ((0 <= ahead + keep)%Z ->
         (trackLength g' - playerSegmentIndex g'
          = trackLength g2 - playerSegmentIndex g2)%Z
         /\ ((trackLength g1 <= playerSegmentIndex g1 + ahead)%Z ->
             trackLength g' = (playerSegmentIndex g' + ahead)%Z)))
  /\ (playerBody g = false ->
      trackSegments g' = trackSegments g
      /\ playerSegmentIndex g' = playerSegmentIndex g).
Proof.
  intros ahead keep g1 g2 g'.
  pose proof (windowOf_foldl (syncSegment env) (trackSegments g) g
                (windowOf_syncSegment env)) as Hsync.
  split.
  - intros Hbody.
    destruct (generateLoop_spec rng (desiredSegmentCount cfg g1) g1)
      as (Hlen & Hidx & _ & Hnew).
    fold (generateBlock cfg rng g1) in Hlen, Hidx, Hnew. fold g2 in Hlen, Hidx, Hnew.
    assert (Hg' : g' = despawnBlock cfg g2).
    { subst g'. unfold updateTrack. cbv zeta.
      rewrite (windowOf_body _ _ Hsync), Hbody. reflexivity. }
    destruct (despawnBlock_spec g2) as (Hdt & Hdi).
    rewrite <- Hg' in Hdt, Hdi. fold keep in Hdt, Hdi.
    split; [exact Hlen|]. split; [exact Hnew|]. split; [exact Hidx|].
    split; [exact Hg'|]. split; [lia|].
    intros Hpos.
    assert (Hlen' : (trackLength g' - playerSegmentIndex g'
                     = trackLength g2 - playerSegmentIndex g2)%Z).
    { unfold trackLength in *. rewrite Hdt, Hdi, length_drop.
      unfold desiredSegmentCount in Hlen. fold ahead in Hlen. lia. }
    split; [exact Hlen'|]. intros Hfill.
    unfold desiredSegmentCount in Hlen. fold ahead in Hlen. lia.
  - intros Hbody. subst g'. unfold updateTrack. cbv zeta.
    rewrite (windowOf_body _ _ Hsync), Hbody. cbn [negb].
    split; [exact (windowOf_track _ _ Hsync)|exact (windowOf_index _ _ Hsync)].
Qed.

End Window.

(** Random outcomes of a flat, plain platform straight ahead. *)
Definition flatRoll : GenRoll := mkGenRoll 0 4 0 false false.

Lemma update_track_window_witness :
  let g' := updateTrack CONFIG liveEnv 0 (fun _ => flatRoll) (newGame CONFIG) in
  (playerSegmentIndex g' <= 4)%Z
  /\ trackLength g' = (playerSegmentIndex g' + 8)%Z.
Proof.
  destruct (update_track_window CONFIG liveEnv 0 (fun _ => flatRoll) (newGame CONFIG))
    as [H _].
  destruct (H eq_refl) as (_ & _ & _ & _ & Hk & Hw).
  split; [exact Hk|]. apply Hw.
  - vm_compute. discriminate.
  - vm_compute. discriminate.
Defined.

(** ** Crumble lifecycle *)

(** Crumble state of the segment object [sid]. *)
Definition stateOf (g : Game) (sid : nat) : option CrumbleState :=
  segs g !! sid ≫= crumbleState.

(** No pending timeout has captured the segment [sid]. *)
Definition noPending (g : Game) (sid : nat) : Prop :=
  forall t, timeouts g !! t <> Some sid.

(** What holds of timers and segment objects in every state of a run:
    a pending timeout belongs to a segment in Warning and is the one
    registered under that segment's index; segment objects lie below the
    allocation pointer; a crumble platform has a crumble state. *)
Record TInv (g : Game) : Prop := mkTInv {
  ti_pending : forall t sid, timeouts g !! t = Some sid ->
    exists s, segs g !! sid = Some s /\ crumbleState s = Some WARNING
              /\ crumbleTimers g !! index s = Some t;
  ti_alloc : forall sid, is_Some (segs g !! sid) -> (sid < nextSeg g)%nat;
  ti_crumble : forall sid s, segs g !! sid = Some s ->
    isCrumblePlatform s = true -> crumbleState s <> None
}.

(** The fields the crumble system works on. *)
Definition core (g : Game) :=
  (segs g, nextSeg g, crumbleTimers g, timeouts g, trackSegments g).

Lemma core_segs g g' : core g' = core g -> segs g' = segs g.
Proof. unfold core. congruence. Qed.
Lemma core_nextSeg g g' : core g' = core g -> nextSeg g' = nextSeg g.
Proof. unfold core. congruence. Qed.
Lemma core_crumbleTimers g g' : core g' = core g -> crumbleTimers g' = crumbleTimers g.
Proof. unfold core. congruence. Qed.
Lemma core_timeouts g g' : core g' = core g -> timeouts g' = timeouts g.
Proof. unfold core. congruence. Qed.
Lemma core_track g g' : core g' = core g -> trackSegments g' = trackSegments g.
Proof. unfold core. congruence. Qed.

Lemma TInv_ext g g' :
  segs g' = segs g -> nextSeg g' = nextSeg g ->
  crumbleTimers g' = crumbleTimers g -> timeouts g' = timeouts g ->
  TInv g -> TInv g'.
Proof.
  intros Hs Hn Hc Ht [H1 H2 H3]. split; rewrite ?Hs, ?Hn, ?Hc, ?Ht; assumption.
Qed.

Lemma TInv_core g g' : core g' = core g -> TInv g -> TInv g'.
Proof.
  intros H. apply TInv_ext;
    [exact (core_segs _ _ H)|exact (core_nextSeg _ _ H)
    |exact (core_crumbleTimers _ _ H)|exact (core_timeouts _ _ H)].
Qed.

(** *** Timers *)

Lemma TInv_clearTimeout t g : TInv g -> TInv (clearTimeout t g).
Proof.
  intros [H1 H2 H3]. split; [|exact H2|exact H3].
  intros t' sid Ht'. cbn [clearTimeout set_timers timeouts segs crumbleTimers] in *.
  apply lookup_delete_Some in Ht' as [_ Ht']. exact (H1 t' sid Ht').
Qed.

Lemma clearCrumbleTimer_segs i d g : segs (clearCrumbleTimer i d g) = segs g.
Proof.
  unfold clearCrumbleTimer. destruct (crumbleTimers g !! i); [|reflexivity].
  destruct d; reflexivity.
Qed.

Lemma clearCrumbleTimer_nextSeg i d g : nextSeg (clearCrumbleTimer i d g) = nextSeg g.
Proof.
  unfold clearCrumbleTimer. destruct (crumbleTimers g !! i); [|reflexivity].
  destruct d; reflexivity.
Qed.

Lemma clearCrumbleTimer_track i d g :
  trackSegments (clearCrumbleTimer i d g) = trackSegments g.
Proof.
  unfold clearCrumbleTimer. destruct (crumbleTimers g !! i); [|reflexivity].
  destruct d; reflexivity.
Qed.

(** Clearing only takes timeouts away. *)
Lemma clearCrumbleTimer_timeouts i d g t sid :
  timeouts (clearCrumbleTimer i d g) !! t = Some sid ->
  timeouts g !! t = Some sid /\ crumbleTimers g !! i <> Some t.
Proof.
  unfold clearCrumbleTimer. destruct (crumbleTimers g !! i) as [t0|] eqn:Hi.
  - assert (H : timeouts (clearTimeout t0 g) !! t = Some sid ->
                timeouts g !! t = Some sid /\ Some t0 <> Some t).
    { cbn [clearTimeout set_timers timeouts].
      intros H. apply lookup_delete_Some in H as [Hne H]. split; [exact H|congruence]. }
    destruct d; exact H.
  - intros H. split; [exact H|discriminate].
Qed.

Lemma clearCrumbleTimer_map i d g j :
  crumbleTimers (clearCrumbleTimer i d g) !! j =
  if d && bool_decide (j = i) then None else crumbleTimers g !! j.
Proof.
  unfold clearCrumbleTimer. destruct (crumbleTimers g !! i) as [t0|] eqn:Hi.
  - destruct d; cbn [andb].
    + cbn [clearTimeout set_timers crumbleTimers].
      case_bool_decide as Hj.
      * subst j. apply lookup_delete_eq.
      * apply lookup_delete_ne. congruence.
    + reflexivity.
  - destruct d; cbn [andb]; [|reflexivity].
    case_bool_decide as Hj; [subst j; exact Hi|reflexivity].
Qed.

Lemma TInv_clearCrumbleTimer i d g : TInv g -> TInv (clearCrumbleTimer i d g).
Proof.
  intros [H1 H2 H3]. split.
  - intros t sid Ht. apply clearCrumbleTimer_timeouts in Ht as [Ht Hne].
    destruct (H1 t sid Ht) as (s & Hs & Hw & Hc).
    exists s. rewrite clearCrumbleTimer_segs. split; [exact Hs|]. split; [exact Hw|].
    rewrite clearCrumbleTimer_map. destruct d; cbn [andb]; [|exact Hc].
    case_bool_decide as Hj; [|exact Hc]. rewrite Hj in Hc. contradiction.
  - rewrite clearCrumbleTimer_segs, clearCrumbleTimer_nextSeg. exact H2.
  - rewrite clearCrumbleTimer_segs. exact H3.
Qed.

(** After the timer registered under the index of a segment has been
    cleared, no pending timeout belongs to a segment with that index. *)
Lemma clearCrumbleTimer_cancels i d g t sid s :
  TInv g -> segs g !! sid = Some s -> index s = i ->
  timeouts (clearCrumbleTimer i d g) !! t <> Some sid.
Proof.
  intros [H1 _ _] Hs Hi Ht. apply clearCrumbleTimer_timeouts in Ht as [Ht Hne].
  destruct (H1 t sid Ht) as (s' & Hs' & _ & Hc).
  rewrite Hs in Hs'. injection Hs' as <-. rewrite Hi in Hc. contradiction.
Qed.

(** *** Writes to one segment object *)

Lemma update_seg_lookup sid f g sid' :
  segs (update_seg sid f g) !! sid' =
  if decide (sid' = sid) then f <$> segs g !! sid else segs g !! sid'.
Proof.
  cbn [update_seg set_segs segs]. destruct (decide (sid' = sid)) as [->|Hne].
  - apply lookup_alter_eq.
  - apply lookup_alter_ne. congruence.
Qed.

Lemma TInv_update_seg sid f g :
  (forall s, index (f s) = index s) ->
  (forall s, isCrumblePlatform (f s) = isCrumblePlatform s) ->
  (forall s, crumbleState s <> None -> crumbleState (f s) <> None) ->
  (forall s t, segs g !! sid = Some s -> timeouts g !! t = Some sid ->
               crumbleState (f s) = Some WARNING) ->
  TInv g -> TInv (update_seg sid f g).
Proof.
  intros Hidx Hcr Hst Hpend [H1 H2 H3]. split.
  - intros t sid' Ht. change (timeouts (update_seg sid f g)) with (timeouts g) in Ht.
    change (crumbleTimers (update_seg sid f g)) with (crumbleTimers g).
    destruct (H1 t sid' Ht) as (s & Hs & Hw & Hc).
    rewrite update_seg_lookup. destruct (decide (sid' = sid)) as [->|Hne].
    + rewrite Hs. exists (f s). split; [reflexivity|].
      split; [exact (Hpend s t Hs Ht)|]. rewrite Hidx. exact Hc.
    + exists s. auto.
  - intros sid' Hsome. change (nextSeg (update_seg sid f g)) with (nextSeg g).
    apply H2. rewrite update_seg_lookup in Hsome.
    destruct (decide (sid' = sid)) as [->|Hne]; [|exact Hsome].
    apply fmap_is_Some in Hsome. exact Hsome.
  - intros sid' s' Hs' Hc. rewrite update_seg_lookup in Hs'.
    destruct (decide (sid' = sid)) as [->|Hne]; [|exact (H3 sid' s' Hs' Hc)].
    destruct (segs g !! sid) as [s|] eqn:Hs; [|discriminate].
    injection Hs' as <-. apply Hst. apply (H3 sid s Hs). rewrite <- Hcr. exact Hc.
Qed.

(** A write that keeps index, crumble flag and crumble state. *)
Lemma TInv_update_seg_same sid f g :
  (forall s, index (f s) = index s) ->
  (forall s, isCrumblePlatform (f s) = isCrumblePlatform s) ->
  (forall s, crumbleState (f s) = crumbleState s) ->
  TInv g -> TInv (update_seg sid f g).
Proof.
  intros Hidx Hcr Hst Hinv. apply TInv_update_seg; auto.
  - intros s. rewrite Hst. auto.
  - intros s t Hs Ht. rewrite Hst.
    destruct (ti_pending g Hinv t sid Ht) as (s' & Hs' & Hw & _). congruence.
Qed.

(** *** How an operation changes the segment objects *)

(** From [g] to [g'] every segment object is kept as it is, except that
    those in [T] may change along [R]. *)
Definition segsStep (R : Segment -> Segment -> Prop) (T : nat -> Prop)
    (g g' : Game) : Prop :=
  forall sid s, segs g !! sid = Some s ->
    segs g' !! sid = Some s
    \/ (T sid /\ exists s', segs g' !! sid = Some s' /\ R s s').

Lemma segsStep_same R T g g' : segs g' = segs g -> segsStep R T g g'.
Proof. intros H sid s Hs. left. rewrite H. exact Hs. Qed.

Lemma segsStep_mono (R R' : Segment -> Segment -> Prop) (T T' : nat -> Prop) g g' :
  (forall s s', R s s' -> R' s s') -> (forall sid, T sid -> T' sid) ->
  segsStep R T g g' -> segsStep R' T' g g'.
Proof.
  intros HR HT H sid s Hs. destruct (H sid s Hs) as [Hk|(Ht & s' & Hs' & Hr)].
  - left. exact Hk.
  - right. split; [auto|]. exists s'. auto.
Qed.

Lemma segsStep_trans R T g1 g2 g3 :
  (forall a b c, R a b -> R b c -> R a c) ->
  segsStep R T g1 g2 -> segsStep R T g2 g3 -> segsStep R T g1 g3.
Proof.
  intros Htr H12 H23 sid s Hs.
  destruct (H12 sid s Hs) as [Hk|(Ht & s' & Hs' & Hr)].
  - exact (H23 sid s Hk).
  - destruct (H23 sid s' Hs') as [Hk|(_ & s'' & Hs'' & Hr')].
    + right. split; [exact Ht|]. exists s'. auto.
    + right. split; [exact Ht|]. exists s''. split; [exact Hs''|]. eapply Htr; eauto.
Qed.

Lemma segsStep_foldl R (f : Game -> nat -> Game) l g :
  (forall a b c, R a b -> R b c -> R a c) ->
  (forall g x, segsStep R (fun sid => sid = x) g (f g x)) ->
  segsStep R (fun sid => sid ∈ l) g (foldl f g l).
Proof.
  intros Htr Hf. revert g. induction l as [|x l IH]; intros g.
  - apply segsStep_same. reflexivity.
  - simpl. apply (segsStep_trans R _ g (f g x)); [exact Htr| |].
    + eapply segsStep_mono; [| |exact (Hf g x)]; [auto|].
      intros sid ->. left.
    + eapply segsStep_mono; [| |exact (IH (f g x))]; [auto|].
      intros sid Hin. right. exact Hin.
Qed.

Lemma segsStep_update_seg (R : Segment -> Segment -> Prop) sid f g :
  (forall s, segs g !! sid = Some s -> R s (f s)) ->
  segsStep R (fun x => x = sid) g (update_seg sid f g).
Proof.
  intros HR sid' s Hs. rewrite update_seg_lookup.
  destruct (decide (sid' = sid)) as [->|Hne]; [|left; exact Hs].
  right. split; [reflexivity|]. exists (f s). rewrite Hs. split; [reflexivity|auto].
Qed.

Lemma foldl_invariant {A} (P : Game -> Prop) (f : Game -> A -> Game) l g :
  (forall g x, P g -> P (f g x)) -> P g -> P (foldl f g l).
Proof.
  intros Hf. revert g. induction l as [|x l IH]; intros g Hg; [exact Hg|].
  simpl. apply IH. apply Hf. exact Hg.
Qed.

Section Crumble.

Variable cfg : Config.

(** *** [startCrumble] *)

(** What [startCrumble] does when its guards pass. *)
Definition crumbleStarts (sid : nat) (g : Game) : Prop :=
  track_crumbleMode cfg = true
  /\ exists s, segs g !! sid = Some s
               /\ isCrumblePlatform s = true /\ hasMesh s = true
               /\ (crumbleState s = None \/ crumbleState s = Some STABLE).

Lemma startCrumble_cases sid g :
  startCrumble cfg sid g = g
  \/ (crumbleStarts sid g
      /\ exists s, segs g !! sid = Some s /\
         startCrumble cfg sid g =
         let g2 := update_seg sid (set_crumble (Some WARNING) 0)
                     (clearCrumbleTimer (index s) false g) in
         set_timers (<[index s := nextTimer g2]> (crumbleTimers g2))
                    (<[nextTimer g2 := sid]> (timeouts g2))
                    (S (nextTimer g2)) g2).
Proof.
  unfold startCrumble, crumbleStarts.
  destruct (track_crumbleMode cfg); [|left; reflexivity]. cbn [negb].
  destruct (segs g !! sid) as [s|] eqn:Hs; [|left; reflexivity].
  destruct (isCrumblePlatform s) eqn:Hc; [|left; reflexivity].
  destruct (hasMesh s) eqn:Hm; [|left; reflexivity]. cbn [negb orb].
  case_bool_decide as Hst; [|left; reflexivity].
  right. split.
  - split; [reflexivity|]. exists s. auto.
  - exists s. split; reflexivity.
Qed.

Lemma startCrumble_track sid g :
  trackSegments (startCrumble cfg sid g) = trackSegments g.
Proof.
  destruct (startCrumble_cases sid g) as [->|(_ & s & _ & ->)]; [reflexivity|].
  cbv zeta. cbn [set_timers trackSegments update_seg set_segs].
  apply clearCrumbleTimer_track.
Qed.

Lemma startCrumble_nextSeg sid g : nextSeg (startCrumble cfg sid g) = nextSeg g.
Proof.
  destruct (startCrumble_cases sid g) as [->|(_ & s & _ & ->)]; [reflexivity|].
  cbv zeta. cbn [set_timers nextSeg update_seg set_segs].
  apply clearCrumbleTimer_nextSeg.
Qed.

Lemma startCrumble_segs sid g :
  segsStep (fun s s' => (crumbleState s = None \/ crumbleState s = Some STABLE)
                        /\ isCrumblePlatform s = true
                        /\ crumbleState s' = Some WARNING)
           (fun x => x = sid) g (startCrumble cfg sid g).
Proof.
  destruct (startCrumble_cases sid g) as [->|((_ & s0 & Hs0 & Hc & _ & Hst) & s & Hs & ->)].
  - apply segsStep_same. reflexivity.
  - cbv zeta. intros sid' s' Hs'.
    change (segs (set_timers ?a ?b ?c ?x)) with (segs x).
    rewrite update_seg_lookup, clearCrumbleTimer_segs.
    destruct (decide (sid' = sid)) as [->|Hne]; [|left; exact Hs'].
    right. split; [reflexivity|]. rewrite Hs'. eexists. split; [reflexivity|].
    rewrite Hs0 in Hs'. injection Hs' as <-. auto.
Qed.

(** Only a segment of which [startCrumble] was called gets a timeout. *)
Lemma startCrumble_timeouts sid g t sid' :
  timeouts (startCrumble cfg sid g) !! t = Some sid' ->
  timeouts g !! t = Some sid' \/ (sid' = sid /\ crumbleStarts sid g).
Proof.
  destruct (startCrumble_cases sid g) as [->|(Hst & s & Hs & ->)]; [auto|].
  cbv zeta. cbn [set_timers timeouts].
  change (nextTimer (update_seg ?a ?b ?x)) with (nextTimer x).
  change (timeouts (update_seg ?a ?b ?x)) with (timeouts x).
  intros Ht. apply lookup_insert_Some in Ht as [[_ <-]|[_ Ht]]; [right; auto|].
  left. apply clearCrumbleTimer_timeouts in Ht as [Ht _]. exact Ht.
Qed.

Lemma TInv_startCrumble sid g : TInv g -> TInv (startCrumble cfg sid g).
Proof.
  intros Hinv.
  destruct (startCrumble_cases sid g) as [->|((_ & s0 & Hs0 & Hc & _ & Hst) & s & Hs & ->)];
    [exact Hinv|].
  rewrite Hs0 in Hs. injection Hs as <-. cbv zeta.
  set (g1 := clearCrumbleTimer (index s0) false g).
  assert (Hinv1 : TInv g1) by (apply TInv_clearCrumbleTimer; exact Hinv).
  assert (Hs1 : segs g1 !! sid = Some s0)
    by (unfold g1; rewrite clearCrumbleTimer_segs; exact Hs0).
  assert (Hnone : noPending g1 sid).
  { intros t Ht. destruct (ti_pending g1 Hinv1 t sid Ht) as (s' & Hs' & Hw & _).
    rewrite Hs1 in Hs'. injection Hs' as <-. destruct Hst; congruence. }
  set (g2 := update_seg sid (set_crumble (Some WARNING) 0) g1).
  assert (Hinv2 : TInv g2).
  { apply TInv_update_seg; [reflexivity|reflexivity| | |exact Hinv1].
    - intros s _. discriminate.
    - intros s t _ Ht. exfalso. exact (Hnone t Ht). }
  destruct Hinv2 as [H1 H2 H3]. split; [|exact H2|exact H3].
  intros t sid' Ht. cbn [set_timers timeouts segs crumbleTimers] in *.
  apply lookup_insert_Some in Ht as [[<- <-]|[Hne Ht]].
  - exists (set_crumble (Some WARNING) 0 s0). split.
    + unfold g2. rewrite update_seg_lookup, decide_True by reflexivity.
      rewrite Hs1. reflexivity.
    + split; [reflexivity|]. apply lookup_insert_eq.
  - destruct (H1 t sid' Ht) as (s' & Hs' & Hw & Hct).
    exists s'. split; [exact Hs'|]. split; [exact Hw|].
    destruct (decide (index s0 = index s')) as [Heq|Hneq].
    + exfalso. change (timeouts g2) with (timeouts g1) in Ht.
      change (crumbleTimers g2) with (crumbleTimers g1) in Hct.
      unfold g1 in Ht, Hct. apply clearCrumbleTimer_timeouts in Ht as [_ Hn].
      rewrite clearCrumbleTimer_map in Hct. cbn [andb] in Hct. congruence.
    + rewrite lookup_insert_ne by exact Hneq. exact Hct.
Qed.

(** *** The timer callback *)

Lemma _convertPlatformToDynamic_cases sid g :
  _convertPlatformToDynamic sid g = g
  \/ _convertPlatformToDynamic sid g
     = update_seg sid (set_body (Some (nextHandle g)) true)
         (set_nextHandle (S (nextHandle g)) g).
Proof.
  unfold _convertPlatformToDynamic. destruct (segs g !! sid) as [s|]; [|left; reflexivity].
  destruct (hasMesh s); [right; reflexivity|left; reflexivity].
Qed.

Lemma TInv_convert sid g : TInv g -> TInv (_convertPlatformToDynamic sid g).
Proof.
  intros Hinv. destruct (_convertPlatformToDynamic_cases sid g) as [->| ->]; [exact Hinv|].
  apply TInv_update_seg_same; try reflexivity.
  eapply TInv_ext; [..|exact Hinv]; reflexivity.
Qed.

Lemma convert_core sid g :
  nextSeg (_convertPlatformToDynamic sid g) = nextSeg g
  /\ crumbleTimers (_convertPlatformToDynamic sid g) = crumbleTimers g
  /\ timeouts (_convertPlatformToDynamic sid g) = timeouts g
  /\ trackSegments (_convertPlatformToDynamic sid g) = trackSegments g.
Proof.
  destruct (_convertPlatformToDynamic_cases sid g) as [->| ->]; repeat split.
Qed.

Lemma convert_segs sid g :
  segsStep (fun s s' => crumbleState s' = crumbleState s) (fun x => x = sid)
           g (_convertPlatformToDynamic sid g).
Proof.
  destruct (_convertPlatformToDynamic_cases sid g) as [->| ->].
  - apply segsStep_same. reflexivity.
  - apply (segsStep_update_seg _ sid _ (set_nextHandle _ g)). reflexivity.
Qed.

(** From [g] to [g'] the active list and the allocation pointer stay and
    no timeout is added. *)
Definition quiet (g g' : Game) : Prop :=
  trackSegments g' = trackSegments g /\ nextSeg g' = nextSeg g
  /\ forall t sid, timeouts g' !! t = Some sid -> timeouts g !! t = Some sid.

Lemma quiet_refl g : quiet g g.
Proof. repeat split; auto. Qed.

Lemma quiet_trans g1 g2 g3 : quiet g1 g2 -> quiet g2 g3 -> quiet g1 g3.
Proof.
  intros (Ha & Hb & Hc) (Ha' & Hb' & Hc'). split; [congruence|]. split; [congruence|auto].
Qed.

Lemma quiet_core g g' : core g' = core g -> quiet g g'.
Proof.
  intros H. split; [exact (core_track _ _ H)|]. split; [exact (core_nextSeg _ _ H)|].
  rewrite (core_timeouts _ _ H). auto.
Qed.

Lemma quiet_foldl {A} (f : Game -> A -> Game) l g :
  (forall g x, quiet g (f g x)) -> quiet g (foldl f g l).
Proof.
  intros Hf. revert g. induction l as [|x l IH]; intros g; [apply quiet_refl|].
  simpl. eapply quiet_trans; [apply Hf|apply IH].
Qed.

Lemma quiet_clearCrumbleTimer i d g : quiet g (clearCrumbleTimer i d g).
Proof.
  split; [apply clearCrumbleTimer_track|]. split; [apply clearCrumbleTimer_nextSeg|].
  intros t sid Ht. apply clearCrumbleTimer_timeouts in Ht as [Ht _]. exact Ht.
Qed.

Lemma quiet_update_seg sid f g : quiet g (update_seg sid f g).
Proof. repeat split; auto. Qed.

Lemma quiet_convert sid g : quiet g (_convertPlatformToDynamic sid g).
Proof.
  destruct (convert_core sid g) as (Hn & _ & Ht & Htr).
  split; [exact Htr|]. split; [exact Hn|]. rewrite Ht. auto.
Qed.

Lemma crumbleTimerCallback_cases sid g :
  match segs g !! sid with
  | Some s =>
      crumbleTimerCallback sid g =
      let g2 := _convertPlatformToDynamic sid
                  (update_seg sid (set_crumble (Some FALLING) (warningTimer s)) g) in
      set_timers (delete (index s) (crumbleTimers g2)) (timeouts g2) (nextTimer g2) g2
  | None => crumbleTimerCallback sid g = g
  end.
Proof. unfold crumbleTimerCallback. destruct (segs g !! sid); reflexivity. Qed.

Lemma fireTimeout_cases t g :
  match timeouts g !! t with
  | Some sid => fireTimeout t g = crumbleTimerCallback sid (clearTimeout t g)
  | None => fireTimeout t g = g
  end.
Proof. unfold fireTimeout. destruct (timeouts g !! t); reflexivity. Qed.

Lemma quiet_clearTimeout t g : quiet g (clearTimeout t g).
Proof.
  split; [reflexivity|]. split; [reflexivity|].
  intros t' sid Ht. cbn [clearTimeout set_timers timeouts] in Ht.
  apply lookup_delete_Some in Ht as [_ Ht]. exact Ht.
Qed.

Lemma quiet_crumbleTimerCallback sid g : quiet g (crumbleTimerCallback sid g).
Proof.
  pose proof (crumbleTimerCallback_cases sid g) as H.
  destruct (segs g !! sid) as [s|]; rewrite H; [|apply quiet_refl].
  cbv zeta. eapply quiet_trans; [apply quiet_update_seg|].
  eapply quiet_trans; [apply quiet_convert|]. repeat split; auto.
Qed.

Lemma quiet_fireTimeout t g : quiet g (fireTimeout t g).
Proof.
  pose proof (fireTimeout_cases t g) as H.
  destruct (timeouts g !! t) as [sid|]; rewrite H; [|apply quiet_refl].
  eapply quiet_trans; [apply quiet_clearTimeout|apply quiet_crumbleTimerCallback].
Qed.

(** The callback moves the segment it captured to Falling. *)
Lemma crumbleTimerCallback_segs sid g :
  segsStep (fun s s' => crumbleState s' = Some FALLING) (fun x => x = sid)
           g (crumbleTimerCallback sid g).
Proof.
  pose proof (crumbleTimerCallback_cases sid g) as H.
  destruct (segs g !! sid) as [s|] eqn:Hs; rewrite H;
    [|apply segsStep_same; reflexivity].
  cbv zeta. intros sid' s' Hs'. change (segs (set_timers ?a ?b ?c ?x)) with (segs x).
  set (g1 := update_seg sid _ g).
  assert (H1 : segs g1 !! sid' =
               if decide (sid' = sid)
               then Some (set_crumble (Some FALLING) (warningTimer s) s) else Some s').
  { unfold g1. rewrite update_seg_lookup. destruct (decide _) as [->|]; [|exact Hs'].
    rewrite Hs. reflexivity. }
  destruct (decide (sid' = sid)) as [->|Hne].
  - right. split; [reflexivity|].
    destruct (convert_segs sid g1 sid _ H1) as [Hk|(_ & s'' & Hs'' & Hr)].
    + eexists. split; [exact Hk|reflexivity].
    + exists s''. split; [exact Hs''|]. rewrite Hr. reflexivity.
  - left. destruct (convert_segs sid g1 sid' _ H1) as [Hk|(Heq & _)];
      [exact Hk|contradiction].
Qed.

Lemma fireTimeout_segs t g :
  TInv g ->
  segsStep (fun s s' => crumbleState s = Some WARNING /\ crumbleState s' = Some FALLING)
           (fun x => timeouts g !! t = Some x) g (fireTimeout t g).
Proof.
  intros Hinv. pose proof (fireTimeout_cases t g) as H.
  destruct (timeouts g !! t) as [sid|] eqn:Ht; rewrite H;
    [|apply segsStep_same; reflexivity].
  intros sid' s' Hs'.
  destruct (crumbleTimerCallback_segs sid (clearTimeout t g) sid' s' Hs')
    as [Hk|(-> & s'' & Hs'' & Hr)]; [left; exact Hk|].
  right. split; [reflexivity|]. exists s''. split; [exact Hs''|]. split; [|exact Hr].
  destruct (ti_pending g Hinv t sid Ht) as (s0 & Hs0 & Hw & _). congruence.
Qed.

Lemma TInv_fireTimeout t g : TInv g -> TInv (fireTimeout t g).
Proof.
  intros Hinv. pose proof (fireTimeout_cases t g) as H.
  destruct (timeouts g !! t) as [sid|] eqn:Ht; rewrite H; [|exact Hinv].
  destruct (ti_pending g Hinv t sid Ht) as (s & Hs & Hw & Hc).
  set (g0 := clearTimeout t g).
  assert (Hinv0 : TInv g0) by (apply TInv_clearTimeout; exact Hinv).
  assert (Hs0 : segs g0 !! sid = Some s) by exact Hs.
  (* no other pending timeout belongs to a segment with this index *)
  assert (Hother : forall t' sid' s', timeouts g0 !! t' = Some sid' ->
                     segs g0 !! sid' = Some s' -> index s' <> index s).
  { intros t' sid' s' Ht' Hs' Heq. cbn [g0 clearTimeout set_timers timeouts] in Ht'.
    apply lookup_delete_Some in Ht' as [Hne Ht'].
    destruct (ti_pending g Hinv t' sid' Ht') as (s2 & Hs2 & _ & Hc2).
    change (segs g0) with (segs g) in Hs'. rewrite Hs' in Hs2. injection Hs2 as <-.
    rewrite Heq, Hc in Hc2. congruence. }
  pose proof (crumbleTimerCallback_cases sid g0) as Hcb. rewrite Hs0 in Hcb.
  rewrite Hcb. cbv zeta.
  set (g1 := update_seg sid (set_crumble (Some FALLING) (warningTimer s)) g0).
  assert (Hinv1 : TInv g1).
  { apply TInv_update_seg; [reflexivity|reflexivity| | |exact Hinv0].
    - intros s' _. discriminate.
    - intros s' t' Hs' Ht'. exfalso.
      exact (Hother t' sid s' Ht' Hs' (f_equal index (eq_sym (Some_inj _ _ (eq_trans (eq_sym Hs0) Hs'))))). }
  set (g2 := _convertPlatformToDynamic sid g1).
  assert (Hinv2 : TInv g2) by (apply TInv_convert; exact Hinv1).
  destruct (convert_core sid g1) as (Hn2 & Hc2 & Ht2 & _). fold g2 in Hn2, Hc2, Ht2.
  destruct Hinv2 as [H1 H2 H3]. split; [|exact H2|exact H3].
  intros t' sid' Ht'. cbn [set_timers timeouts segs crumbleTimers] in *.
  destruct (H1 t' sid' Ht') as (s' & Hs' & Hw' & Hc').
  exists s'. split; [exact Hs'|]. split; [exact Hw'|].
  rewrite lookup_delete_ne; [exact Hc'|].
  intros Heq. rewrite Ht2 in Ht'. change (timeouts g1) with (timeouts g0) in Ht'.
  (* the segment is not [sid]: that one is Falling now *)
  destruct (decide (sid' = sid)) as [->|Hne].
  - exact (Hother t' sid s Ht' Hs0 eq_refl).
  - assert (Hs0' : segs g0 !! sid' = Some s').
    { destruct (segs g0 !! sid') as [s0'|] eqn:Hq.
      - destruct (crumbleTimerCallback_segs sid g0 sid' s0' Hq) as [Hk|(Heq' & _)];
          [|contradiction].
        rewrite Hcb in Hk. cbv zeta in Hk.
        change (segs (set_timers ?a ?b ?c ?x)) with (segs x) in Hk.
        fold g1 g2 in Hk. congruence.
      - destruct (ti_pending g0 Hinv0 t' sid' Ht') as (sx & Hsx & _). congruence. }
    exact (Hother t' sid' s' Ht' Hs0' (eq_sym Heq)).
Qed.

(** *** The crumble tick *)

(** One tick leaves a segment's state, body and mesh height alone, or
    destroys a Falling segment that has reached the lava. *)
Definition tickRel (env : Env) (s s' : Segment) : Prop :=
  (crumbleState s' = crumbleState s /\ rapierBody s' = rapierBody s
   /\ meshY s' = meshY s)
  \/ (crumbleState s = Some FALLING /\ crumbleState s' = Some DESTROYED
      /\ fallingY env s <= lavaY cfg).

Lemma tickRel_trans env a b c : tickRel env a b -> tickRel env b c -> tickRel env a c.
Proof.
  intros [(Hs & Hb & Hy)|(Hf & Hd & Hy)] [(Hs' & Hb' & Hy')|(Hf' & Hd' & Hy')].
  - left. split; [congruence|]. split; congruence.
  - right. split; [congruence|]. split; [exact Hd'|].
    unfold fallingY in *. rewrite <- Hb, <- Hy. exact Hy'.
  - right. split; [exact Hf|]. split; [congruence|exact Hy].
  - congruence.
Qed.

Lemma _destroyFallenPlatform_cases sid g :
  _destroyFallenPlatform sid g = g
  \/ exists s, segs g !! sid = Some s /\ crumbleState s = Some FALLING
       /\ _destroyFallenPlatform sid g =
          update_seg sid
            (fun s => set_crumble (Some DESTROYED) (warningTimer s)
                        (set_mesh (meshY s) false (set_body None (dynamic s) s)))
            (clearCrumbleTimer (index s) true g).
Proof.
  unfold _destroyFallenPlatform. destruct (segs g !! sid) as [s|]; [|left; reflexivity].
  destruct (hasMesh s); [|left; reflexivity]. cbn [negb].
  case_bool_decide as Hf; [|left; reflexivity].
  right. exists s. auto.
Qed.

Lemma TInv_destroy sid g : TInv g -> TInv (_destroyFallenPlatform sid g).
Proof.
  intros Hinv. destruct (_destroyFallenPlatform_cases sid g) as [->|(s & Hs & Hf & ->)];
    [exact Hinv|].
  assert (Hinv1 : TInv (clearCrumbleTimer (index s) true g))
    by (apply TInv_clearCrumbleTimer; exact Hinv).
  apply TInv_update_seg; [reflexivity|reflexivity| | |exact Hinv1].
  - intros s' _. discriminate.
  - intros s' t Hs' Ht. exfalso.
    destruct (ti_pending _ Hinv1 t sid Ht) as (s2 & Hs2 & Hw & _).
    rewrite clearCrumbleTimer_segs in Hs2. congruence.
Qed.

Lemma quiet_destroy sid g : quiet g (_destroyFallenPlatform sid g).
Proof.
  destruct (_destroyFallenPlatform_cases sid g) as [->|(s & Hs & Hf & ->)];
    [apply quiet_refl|].
  eapply quiet_trans; [apply quiet_clearCrumbleTimer|apply quiet_update_seg].
Qed.

Lemma crumbleTickSegment_cases env dt g sid :
  crumbleTickSegment cfg env dt g sid = g
  \/ (exists s, segs g !! sid = Some s /\ crumbleState s = Some WARNING
        /\ crumbleTickSegment cfg env dt g sid
           = update_seg sid (set_crumble (Some WARNING) (warningTimer s + dt)) g)
  \/ (exists s, segs g !! sid = Some s /\ crumbleState s = Some FALLING
        /\ fallingY env s <= lavaY cfg
        /\ crumbleTickSegment cfg env dt g sid = _destroyFallenPlatform sid g).
Proof.
  unfold crumbleTickSegment. destruct (segs g !! sid) as [s|]; [|left; reflexivity].
  destruct (isCrumblePlatform s); [|left; reflexivity]. cbn [negb].
  destruct (hasMesh s); [|left; reflexivity]. cbn [negb].
  case_bool_decide as Hw.
  - right. left. exists s. auto.
  - case_bool_decide as Hf; [|left; reflexivity].
    destruct (Qleb _ _) eqn:Hy; [|left; reflexivity].
    right. right. exists s. apply Qleb_true in Hy. auto.
Qed.

Lemma TInv_crumbleTickSegment env dt g sid :
  TInv g -> TInv (crumbleTickSegment cfg env dt g sid).
Proof.
  intros Hinv.
  destruct (crumbleTickSegment_cases env dt g sid)
    as [->|[(s & Hs & Hw & ->)|(s & _ & _ & _ & ->)]].
  - exact Hinv.
  - apply TInv_update_seg; [reflexivity|reflexivity| | |exact Hinv].
    + intros s' _. discriminate.
    + reflexivity.
  - apply TInv_destroy. exact Hinv.
Qed.

Lemma quiet_crumbleTickSegment env dt g sid :
  quiet g (crumbleTickSegment cfg env dt g sid).
Proof.
  destruct (crumbleTickSegment_cases env dt g sid)
    as [->|[(s & Hs & Hw & ->)|(s & _ & _ & _ & ->)]].
  - apply quiet_refl.
  - apply quiet_update_seg.
  - apply quiet_destroy.
Qed.

Lemma crumbleTickSegment_segs env dt g sid :
  segsStep (tickRel env) (fun x => x = sid) g (crumbleTickSegment cfg env dt g sid).
Proof.
  destruct (crumbleTickSegment_cases env dt g sid)
    as [->|[(s & Hs & Hw & ->)|(s & Hs & Hf & Hy & ->)]].
  - apply segsStep_same. reflexivity.
  - apply segsStep_update_seg. intros s' Hs'. left.
    rewrite Hs in Hs'. injection Hs' as <-. split; [auto|]. split; reflexivity.
  - destruct (_destroyFallenPlatform_cases sid g) as [->|(s' & Hs' & _ & ->)];
      [apply segsStep_same; reflexivity|].
    intros x sx Hx. rewrite update_seg_lookup, clearCrumbleTimer_segs.
    destruct (decide (x = sid)) as [->|Hne]; [|left; exact Hx].
    right. split; [reflexivity|]. rewrite Hx. eexists. split; [reflexivity|].
    right. rewrite Hs in Hx. injection Hx as <-. auto.
Qed.

Lemma updateCrumblePlatforms_cases env dt g :
  updateCrumblePlatforms cfg env dt g = g
  \/ updateCrumblePlatforms cfg env dt g
     = foldl (crumbleTickSegment cfg env dt) g (trackSegments g).
Proof.
  unfold updateCrumblePlatforms. destruct (negb _); [left|right]; reflexivity.
Qed.

Lemma TInv_updateCrumblePlatforms env dt g :
  TInv g -> TInv (updateCrumblePlatforms cfg env dt g).
Proof.
  intros Hinv. destruct (updateCrumblePlatforms_cases env dt g) as [->| ->]; [exact Hinv|].
  apply foldl_invariant; [|exact Hinv]. intros g' x. apply TInv_crumbleTickSegment.
Qed.

Lemma quiet_updateCrumblePlatforms env dt g :
  quiet g (updateCrumblePlatforms cfg env dt g).
Proof.
  destruct (updateCrumblePlatforms_cases env dt g) as [->| ->]; [apply quiet_refl|].
  apply quiet_foldl. intros g' x. apply quiet_crumbleTickSegment.
Qed.

Lemma updateCrumblePlatforms_segs env dt g :
  segsStep (tickRel env) (fun x => x ∈ trackSegments g) g
           (updateCrumblePlatforms cfg env dt g).
Proof.
  destruct (updateCrumblePlatforms_cases env dt g) as [->| ->];
    [apply segsStep_same; reflexivity|].
  apply segsStep_foldl; [apply tickRel_trans|].
  intros g' x. apply crumbleTickSegment_segs.
Qed.

(** *** Reset *)

(** No timeout is pending. *)
Definition idle (g : Game) : Prop := forall t, timeouts g !! t = None.

Lemma clearAll_lookup (l : list (Z * nat)) (m : gmap nat nat) t v :
  foldr (fun it acc => delete (snd it) acc) m l !! t = Some v ->
  m !! t = Some v /\ forall i, (i, t) ∉ l.
Proof.
  induction l as [|[i t0] l IH]; simpl.
  - intros H. split; [exact H|]. intros i Hin. inversion Hin.
  - intros H. apply lookup_delete_Some in H as [Hne H].
    destruct (IH H) as [Hm Hl]. split; [exact Hm|].
    intros j Hin. apply elem_of_cons in Hin as [Heq|Hin].
    + injection Heq as _ ->. contradiction.
    + exact (Hl j Hin).
Qed.

Lemma resetCrumbleSegment_cases g sid :
  resetCrumbleSegment g sid = g
  \/ resetCrumbleSegment g sid
     = update_seg sid
         (fun s => set_crumble (Some STABLE) (warningTimer s)
                     (set_mesh (height s) true
                        (set_body (Some (nextHandle g)) false s)))
         (set_nextHandle (S (nextHandle g)) g).
Proof.
  unfold resetCrumbleSegment. destruct (segs g !! sid) as [s|]; [|left; reflexivity].
  destruct (isCrumblePlatform s); [|left; reflexivity].
  destruct (hasMesh s); [right|left]; reflexivity.
Qed.

Lemma TInv_resetCrumbleSegment g sid :
  TInv g /\ idle g -> TInv (resetCrumbleSegment g sid) /\ idle (resetCrumbleSegment g sid).
Proof.
  intros [Hinv Hidle]. destruct (resetCrumbleSegment_cases g sid) as [->| ->]; [auto|].
  split; [|exact Hidle].
  apply TInv_update_seg; [reflexivity|reflexivity| | |].
  - intros s _. discriminate.
  - intros s t _ Ht. change (timeouts (set_nextHandle ?h g)) with (timeouts g) in Ht.
    rewrite Hidle in Ht. discriminate.
  - eapply TInv_ext; [..|exact Hinv]; reflexivity.
Qed.

Lemma quiet_resetCrumbleSegment g sid : quiet g (resetCrumbleSegment g sid).
Proof.
  destruct (resetCrumbleSegment_cases g sid) as [->| ->]; [apply quiet_refl|].
  repeat split; auto.
Qed.

Lemma resetCrumbleSegment_segs g sid :
  segsStep (fun s s' => crumbleState s' = Some STABLE) (fun x => x = sid)
           g (resetCrumbleSegment g sid).
Proof.
  destruct (resetCrumbleSegment_cases g sid) as [->| ->];
    [apply segsStep_same; reflexivity|].
  apply (segsStep_update_seg _ sid _ (set_nextHandle _ g)). reflexivity.
Qed.

(** [resetCrumblePlatforms] after its timers have been cleared. *)
Definition timersCleared (g : Game) : Game :=
  set_timers ∅
    (foldr (fun it acc => delete (snd it) acc) (timeouts g)
           (map_to_list (crumbleTimers g)))
    (nextTimer g) g.

Lemma resetCrumblePlatforms_eq g :
  resetCrumblePlatforms g
  = foldl resetCrumbleSegment (timersCleared g) (trackSegments g).
Proof. reflexivity. Qed.

Lemma timersCleared_idle g : TInv g -> idle (timersCleared g).
Proof.
  intros Hinv t. cbn [timersCleared set_timers timeouts].
  destruct (foldr _ _ _ !! t) as [sid|] eqn:Ht; [|reflexivity]. exfalso.
  apply clearAll_lookup in Ht as [Ht Hl].
  destruct (ti_pending g Hinv t sid Ht) as (s & _ & _ & Hc).
  apply (Hl (index s)). apply elem_of_map_to_list. exact Hc.
Qed.

Lemma TInv_timersCleared g : TInv g -> TInv (timersCleared g).
Proof.
  intros Hinv. pose proof (timersCleared_idle g Hinv) as Hidle.
  destruct Hinv as [H1 H2 H3]. split; [|exact H2|exact H3].
  intros t sid Ht. rewrite Hidle in Ht. discriminate.
Qed.

Lemma TInv_resetCrumblePlatforms g :
  TInv g -> TInv (resetCrumblePlatforms g) /\ idle (resetCrumblePlatforms g).
Proof.
  intros Hinv. rewrite resetCrumblePlatforms_eq.
  apply (foldl_invariant (fun g => TInv g /\ idle g)).
  - intros g' x. apply TInv_resetCrumbleSegment.
  - split; [apply TInv_timersCleared|apply timersCleared_idle]; exact Hinv.
Qed.

Lemma quiet_resetCrumblePlatforms g : TInv g -> quiet g (resetCrumblePlatforms g).
Proof.
  intros Hinv. rewrite resetCrumblePlatforms_eq.
  apply (quiet_trans _ (timersCleared g)).
  - split; [reflexivity|]. split; [reflexivity|].
    intros t sid Ht. rewrite (timersCleared_idle g Hinv) in Ht. discriminate.
  - apply quiet_foldl. intros g' x. apply quiet_resetCrumbleSegment.
Qed.

Lemma resetCrumblePlatforms_segs g :
  segsStep (fun s s' => crumbleState s' = Some STABLE) (fun x => x ∈ trackSegments g)
           g (resetCrumblePlatforms g).
Proof.
  rewrite resetCrumblePlatforms_eq.
  apply (segsStep_trans _ _ g (timersCleared g)); [congruence| |].
  - apply segsStep_same. reflexivity.
  - apply (segsStep_foldl _ resetCrumbleSegment (trackSegments g) (timersCleared g));
      [congruence|].
    intros g' x. apply resetCrumbleSegment_segs.
Qed.

(** *** Despawn *)

Lemma despawnSegment_cases sid g :
  despawnSegment sid g = g
  \/ exists s, segs g !! sid = Some s
               /\ despawnSegment sid g = clearCrumbleTimer (index s) true g.
Proof.
  unfold despawnSegment. destruct (segs g !! sid) as [s|]; [right; exists s; auto|left; reflexivity].
Qed.

Lemma TInv_despawnSegment sid g : TInv g -> TInv (despawnSegment sid g).
Proof.
  intros Hinv. destruct (despawnSegment_cases sid g) as [->|(s & _ & ->)]; [exact Hinv|].
  apply TInv_clearCrumbleTimer. exact Hinv.
Qed.

Lemma quiet_despawnSegment sid g : quiet g (despawnSegment sid g).
Proof.
  destruct (despawnSegment_cases sid g) as [->|(s & _ & ->)]; [apply quiet_refl|].
  apply quiet_clearCrumbleTimer.
Qed.

Lemma despawnSegment_segs sid g : segs (despawnSegment sid g) = segs g.
Proof.
  destruct (despawnSegment_cases sid g) as [->|(s & _ & ->)]; [reflexivity|].
  apply clearCrumbleTimer_segs.
Qed.

(** [despawnSegment] cancels the pending timer of its segment. *)
Lemma despawnSegment_cancels sid g :
  TInv g -> is_Some (segs g !! sid) -> noPending (despawnSegment sid g) sid.
Proof.
  intros Hinv [s Hs] t. unfold despawnSegment. rewrite Hs.
  exact (clearCrumbleTimer_cancels (index s) true g t sid s Hinv Hs eq_refl).
Qed.

Definition despawnAll (l : list nat) (g : Game) : Game :=
  foldl (fun g sid => despawnSegment sid g) g l.

Lemma despawnAll_segs l g : segs (despawnAll l g) = segs g.
Proof.
  revert g. induction l as [|x l IH]; intros g; [reflexivity|].
  change (despawnAll (x :: l) g) with (despawnAll l (despawnSegment x g)).
  rewrite IH. apply despawnSegment_segs.
Qed.

Lemma TInv_despawnAll l g : TInv g -> TInv (despawnAll l g).
Proof. apply foldl_invariant. intros g' x. apply TInv_despawnSegment. Qed.

Lemma quiet_despawnAll l g : quiet g (despawnAll l g).
Proof. apply quiet_foldl. intros g' x. apply quiet_despawnSegment. Qed.

Lemma despawnAll_cancels l g sid :
  TInv g -> sid ∈ l -> is_Some (segs g !! sid) -> noPending (despawnAll l g) sid.
Proof.
  revert g. induction l as [|x l IH]; intros g Hinv Hin Hsome; [inversion Hin|].
  change (despawnAll (x :: l) g) with (despawnAll l (despawnSegment x g)).
  destruct (decide (sid = x)) as [->|Hne].
  - pose proof (despawnSegment_cancels x g Hinv Hsome) as Hnp.
    destruct (quiet_despawnAll l (despawnSegment x g)) as (_ & _ & Hsh).
    intros t Ht. exact (Hnp t (Hsh t x Ht)).
  - apply elem_of_cons in Hin as [Heq|Hin]; [contradiction|].
    apply IH; [apply TInv_despawnSegment; exact Hinv|exact Hin|].
    rewrite despawnSegment_segs. exact Hsome.
Qed.

(** *** Generation *)

Lemma generateSegment_segs prev r g :
  exists s, segs (generateSegment cfg prev r g) = <[nextSeg g := s]> (segs g)
            /\ (isCrumblePlatform s = true -> crumbleState s = Some STABLE).
Proof.
  unfold generateSegment, createRigidBody. cbv zeta. cbn [segs nextSeg set_nextHandle].
  eexists. split; [reflexivity|]. cbn [isCrumblePlatform crumbleState].
  destruct (track_crumbleMode cfg); [reflexivity|discriminate].
Qed.

Lemma generateSegment_old prev r g sid s :
  TInv g -> segs g !! sid = Some s ->
  segs (generateSegment cfg prev r g) !! sid = Some s.
Proof.
  intros Hinv Hs. pose proof (ti_alloc g Hinv sid (ex_intro _ s Hs)) as Hlt.
  destruct (generateSegment_segs prev r g) as (s0 & -> & _).
  rewrite lookup_insert_ne by lia. exact Hs.
Qed.

Lemma TInv_generateSegment prev r g : TInv g -> TInv (generateSegment cfg prev r g).
Proof.
  intros Hinv. pose proof Hinv as [H1 H2 H3].
  destruct (generateSegment_segs prev r g) as (s0 & Hsegs & Hst).
  split.
  - intros t sid Ht. change (timeouts (generateSegment cfg prev r g)) with (timeouts g) in Ht.
    change (crumbleTimers (generateSegment cfg prev r g)) with (crumbleTimers g).
    destruct (H1 t sid Ht) as (s & Hs & Hw & Hc).
    exists s. split; [exact (generateSegment_old prev r g sid s Hinv Hs)|auto].
  - intros sid Hsome. change (nextSeg (generateSegment cfg prev r g)) with (S (nextSeg g)).
    rewrite Hsegs in Hsome. destruct (decide (nextSeg g = sid)) as [<-|Hne]; [lia|].
    rewrite lookup_insert_ne in Hsome by exact Hne. specialize (H2 sid Hsome). lia.
  - intros sid s Hs Hc. rewrite Hsegs in Hs.
    destruct (decide (nextSeg g = sid)) as [<-|Hne].
    + rewrite lookup_insert_eq in Hs. injection Hs as <-. rewrite Hst by exact Hc.
      discriminate.
    + rewrite lookup_insert_ne in Hs by exact Hne. exact (H3 sid s Hs Hc).
Qed.

(** What the generation loop leaves alone. *)
Lemma generateLoop_crumble rng desired g :
  TInv g ->
  TInv (generateLoop cfg rng desired g)
  /\ timeouts (generateLoop cfg rng desired g) = timeouts g
  /\ (forall sid s, segs g !! sid = Some s ->
                    segs (generateLoop cfg rng desired g) !! sid = Some s)
  /\ (forall x, x ∈ trackSegments (generateLoop cfg rng desired g) ->
                x ∈ trackSegments g \/ (nextSeg g <= x)%nat)
  /\ (nextSeg g <= nextSeg (generateLoop cfg rng desired g))%nat.
Proof.
  funelim (generateLoop cfg rng desired g); intros Hinv.
  - destruct (H (TInv_generateSegment _ _ _ Hinv)) as (Hi & Ht & Hs & Htr & Hn).
    split; [exact Hi|]. split; [exact Ht|].
    split; [intros sid s Hsid; apply Hs; apply generateSegment_old; assumption|].
    change (nextSeg (generateSegment cfg ?p ?r g)) with (S (nextSeg g)) in Htr, Hn.
    split; [|lia].
    intros x Hx. destruct (Htr x Hx) as [Hin|Hge]; [|right; lia].
    rewrite (generateSegment_track cfg) in Hin. apply elem_of_app in Hin as [Hin|Hin]; [auto|].
    apply list_elem_of_singleton in Hin. right. lia.
  - split; [exact Hinv|]. split; [reflexivity|]. split; [auto|]. split; [auto|lia].
Qed.

(** *** [updateTrack] and [resetGame] *)

Definition sameState (s s' : Segment) : Prop := crumbleState s' = crumbleState s.

Lemma sameState_trans a b c : sameState a b -> sameState b c -> sameState a c.
Proof. unfold sameState. congruence. Qed.

Lemma syncSegment_cases env g sid :
  syncSegment env g sid = g
  \/ exists y, syncSegment env g sid
               = update_seg sid (fun s => set_mesh y (meshVisible s) s) g.
Proof.
  unfold syncSegment. destruct (segs g !! sid) as [s|]; [|left; reflexivity].
  destruct (rapierBody s) as [h|]; [|left; reflexivity].
  destruct (env_body env h) as [bv|]; [|left; reflexivity].
  destruct (bv_isDynamic bv); [right; eexists; reflexivity|left; reflexivity].
Qed.

Lemma TInv_syncSegment env g sid : TInv g -> TInv (syncSegment env g sid).
Proof.
  intros Hinv. destruct (syncSegment_cases env g sid) as [->|(y & ->)]; [exact Hinv|].
  apply TInv_update_seg_same; [reflexivity|reflexivity|reflexivity|exact Hinv].
Qed.

Lemma quiet_syncSegment env g sid : quiet g (syncSegment env g sid).
Proof.
  destruct (syncSegment_cases env g sid) as [->|(y & ->)]; [apply quiet_refl|].
  apply quiet_update_seg.
Qed.

Lemma syncSegment_segs env g sid :
  segsStep sameState (fun x => x = sid) g (syncSegment env g sid).
Proof.
  destruct (syncSegment_cases env g sid) as [->|(y & ->)];
    [apply segsStep_same; reflexivity|].
  apply segsStep_update_seg. reflexivity.
Qed.

Lemma despawnBlock_cases g :
  despawnBlock cfg g = g
  \/ exists n i,
       let gd := despawnAll (take n (trackSegments g))
                   (set_track (drop n (trackSegments g)) (playerSegmentIndex g) g) in
       despawnBlock cfg g = set_track (trackSegments gd) i gd.
Proof.
  unfold despawnBlock. destruct (_ <? _)%Z; [|left; reflexivity].
  right. eexists. eexists. reflexivity.
Qed.

(** What the despawn block does to timers and segment objects. *)
Lemma despawnBlock_crumble g :
  TInv g ->
  TInv (despawnBlock cfg g)
  /\ segs (despawnBlock cfg g) = segs g
  /\ nextSeg (despawnBlock cfg g) = nextSeg g
  /\ (forall t sid, timeouts (despawnBlock cfg g) !! t = Some sid ->
                    timeouts g !! t = Some sid)
  /\ (forall x, x ∈ trackSegments (despawnBlock cfg g) -> x ∈ trackSegments g)
  /\ (forall sid, sid ∈ trackSegments g -> sid ∉ trackSegments (despawnBlock cfg g) ->
                  is_Some (segs g !! sid) -> noPending (despawnBlock cfg g) sid).
Proof.
  intros Hinv. destruct (despawnBlock_cases g) as [->|(n & i & Heq)].
  - split; [exact Hinv|]. split; [reflexivity|]. split; [reflexivity|].
    split; [auto|]. split; [auto|]. intros sid Hin Hout. contradiction.
  - cbv zeta in Heq. rewrite Heq.
    set (g1 := set_track (drop n (trackSegments g)) (playerSegmentIndex g) g).
    assert (Hinv1 : TInv g1) by (eapply TInv_ext; [..|exact Hinv]; reflexivity).
    destruct (quiet_despawnAll (take n (trackSegments g)) g1) as (Htr & Hn & Hsh).
    change (trackSegments (set_track ?l ?j ?x)) with l.
    change (segs (set_track ?l ?j ?x)) with (segs x).
    change (nextSeg (set_track ?l ?j ?x)) with (nextSeg x).
    change (timeouts (set_track ?l ?j ?x)) with (timeouts x).
    rewrite Htr, Hn, despawnAll_segs.
    split; [|split; [reflexivity|split; [reflexivity|split; [exact Hsh|split]]]].
    + eapply TInv_ext; [..|exact (TInv_despawnAll (take n (trackSegments g)) g1 Hinv1)];
        reflexivity.
    + intros x Hx. change (trackSegments g1) with (drop n (trackSegments g)) in Hx.
      rewrite <- (take_drop n (trackSegments g)). apply elem_of_app. right. exact Hx.
    + intros sid Hin Hout Hsome. change (trackSegments g1) with (drop n (trackSegments g)) in Hout.
      rewrite <- (take_drop n (trackSegments g)) in Hin.
      apply elem_of_app in Hin as [Hin|Hin]; [|contradiction].
      intros t Ht. change (timeouts (set_track ?l ?j ?x)) with (timeouts x) in Ht.
      exact (despawnAll_cancels (take n (trackSegments g)) g1 sid Hinv1 Hin Hsome t Ht).
Qed.

Lemma searchBlock_core now g : 
  segs (searchBlock now g) = segs g /\ nextSeg (searchBlock now g) = nextSeg g
  /\ crumbleTimers (searchBlock now g) = crumbleTimers g
  /\ timeouts (searchBlock now g) = timeouts g
  /\ trackSegments (searchBlock now g) = trackSegments g.
Proof. unfold searchBlock. destruct (searchDue now g); repeat split. Qed.

(** The three stages of [updateTrack] after the mesh sync. *)
Lemma updateTrack_cases env now rng g :
  let g0 := foldl (syncSegment env) g (trackSegments g) in
  updateTrack cfg env now rng g = g0
  \/ updateTrack cfg env now rng g
     = despawnBlock cfg (generateBlock cfg rng (searchBlock now g0)).
Proof.
  intros g0. unfold updateTrack. fold g0. destruct (negb _); [left|right]; reflexivity.
Qed.

Lemma updateTrack_crumble env now rng g :
  TInv g ->
  let g' := updateTrack cfg env now rng g in
  TInv g'
  /\ segsStep sameState (fun x => x ∈ trackSegments g) g g'
  /\ (forall t sid, timeouts g' !! t = Some sid -> timeouts g !! t = Some sid)
  /\ (forall x, x ∈ trackSegments g' -> x ∈ trackSegments g \/ (nextSeg g <= x)%nat)
  /\ (forall sid, sid ∈ trackSegments g -> sid ∉ trackSegments g' ->
                  is_Some (segs g !! sid) -> noPending g' sid).
Proof.
  intros Hinv g'. subst g'.
  set (g0 := foldl (syncSegment env) g (trackSegments g)).
  assert (Hinv0 : TInv g0)
    by (apply foldl_invariant; [intros; apply TInv_syncSegment; assumption|exact Hinv]).
  assert (Hq0 : quiet g g0) by (apply quiet_foldl; intros; apply quiet_syncSegment).
  assert (Hs0 : segsStep sameState (fun x => x ∈ trackSegments g) g g0).
  { apply segsStep_foldl; [apply sameState_trans|]. intros; apply syncSegment_segs. }
  destruct Hq0 as (Htr0 & Hn0 & Hsh0).
  destruct (updateTrack_cases env now rng g) as [->| ->]; fold g0.
  - split; [exact Hinv0|]. split; [exact Hs0|]. split; [exact Hsh0|].
    split; [rewrite Htr0; auto|]. intros sid Hin Hout. rewrite Htr0 in Hout. contradiction.
  - destruct (searchBlock_core now g0) as (Hs1 & Hn1 & Hc1 & Ht1 & Htr1).
    set (g1 := searchBlock now g0) in *.
    assert (Hinv1 : TInv g1) by (eapply TInv_ext; [..|exact Hinv0]; assumption).
    destruct (generateLoop_crumble rng (desiredSegmentCount cfg g1) g1 Hinv1)
      as (Hinv2 & Ht2 & Hs2 & Htr2 & Hn2).
    destruct (generateLoop_spec cfg rng (desiredSegmentCount cfg g1) g1)
      as (_ & _ & _ & new & Hnew).
    fold (generateBlock cfg rng g1) in Hinv2, Ht2, Hs2, Htr2, Hn2, Hnew.
    set (g2 := generateBlock cfg rng g1) in *.
    destruct (despawnBlock_crumble g2 Hinv2) as (Hinv3 & Hs3 & Hn3 & Hsh3 & Htr3 & Hcan).
    split; [exact Hinv3|]. split; [|split; [|split]].
    + intros sid s Hs. rewrite Hs3.
      destruct (Hs0 sid s Hs) as [Hk|(Hin & s' & Hs' & Hr)].
      * left. apply Hs2. rewrite Hs1. exact Hk.
      * right. split; [exact Hin|]. exists s'. split; [|exact Hr].
        apply Hs2. rewrite Hs1. exact Hs'.
    + intros t sid Ht. apply Hsh0. rewrite <- Ht1, <- Ht2. apply Hsh3. exact Ht.
    + intros x Hx. apply Htr3 in Hx. destruct (Htr2 x Hx) as [Hin|Hge].
      * left. rewrite <- Htr0, <- Htr1. exact Hin.
      * right. rewrite Hn1, Hn0 in Hge. exact Hge.
    + intros sid Hin Hout Hsome. apply Hcan; [|exact Hout|].
      * rewrite Hnew, Htr1, Htr0. apply elem_of_app. left. exact Hin.
      * destruct Hsome as [s Hs].
        destruct (Hs0 sid s Hs) as [Hk|(_ & s' & Hs' & _)].
        -- exists s. apply Hs2. rewrite Hs1. exact Hk.
        -- exists s'. apply Hs2. rewrite Hs1. exact Hs'.
Qed.

Lemma resetGame_eq g :
  resetGame cfg g =
  let g1 := if track_crumbleMode cfg then resetCrumblePlatforms g else g in
  set_track [] 0
    (mkGame (segs (despawnAll (trackSegments g1) g1))
       (nextSeg (despawnAll (trackSegments g1) g1)) (trackSegments g1)
       (playerSegmentIndex g1) (crumbleTimers (despawnAll (trackSegments g1) g1))
       (timeouts (despawnAll (trackSegments g1) g1))
       (nextTimer (despawnAll (trackSegments g1) g1))
       (nextHandle (despawnAll (trackSegments g1) g1)) 0
       (_lastSegmentSearch (despawnAll (trackSegments g1) g1))
       (running (despawnAll (trackSegments g1) g1))
       (_isCleaningUp (despawnAll (trackSegments g1) g1))
       (_lavaCollider (despawnAll (trackSegments g1) g1))
       (playerBody (despawnAll (trackSegments g1) g1))
       (playerController (despawnAll (trackSegments g1) g1))).
Proof. reflexivity. Qed.

Lemma resetGame_crumble g :
  TInv g ->
  let g' := resetGame cfg g in
  TInv g'
  /\ segsStep (fun s s' => crumbleState s' = Some STABLE)
              (fun x => x ∈ trackSegments g) g g'
  /\ (forall t sid, timeouts g' !! t = Some sid -> timeouts g !! t = Some sid)
  /\ trackSegments g' = []
  /\ (forall sid, sid ∈ trackSegments g -> is_Some (segs g !! sid) -> noPending g' sid).
Proof.
  intros Hinv g'. subst g'. rewrite resetGame_eq. cbv zeta.
  set (g1 := if track_crumbleMode cfg then resetCrumblePlatforms g else g).
  assert (H1 : TInv g1 /\ quiet g g1
               /\ segsStep (fun s s' => crumbleState s' = Some STABLE)
                           (fun x => x ∈ trackSegments g) g g1).
  { unfold g1. destruct (track_crumbleMode cfg).
    - split; [apply TInv_resetCrumblePlatforms; exact Hinv|].
      split; [apply quiet_resetCrumblePlatforms; exact Hinv|].
      apply resetCrumblePlatforms_segs.
    - split; [exact Hinv|]. split; [apply quiet_refl|apply segsStep_same; reflexivity]. }
  destruct H1 as (Hinv1 & (Htr1 & Hn1 & Hsh1) & Hs1).
  set (g2 := despawnAll (trackSegments g1) g1).
  pose proof (TInv_despawnAll (trackSegments g1) g1 Hinv1) as Hinv2. fold g2 in Hinv2.
  destruct (quiet_despawnAll (trackSegments g1) g1) as (_ & _ & Hsh2). fold g2 in Hsh2.
  pose proof (despawnAll_segs (trackSegments g1) g1) as Hs2. fold g2 in Hs2.
  change (segs (set_track ?l ?j (mkGame ?a ?b ?c ?d ?e ?f ?h ?i ?k ?m ?n ?o ?p ?q ?r)))
    with a.
  change (timeouts (set_track ?l ?j (mkGame ?a ?b ?c ?d ?e ?f ?h ?i ?k ?m ?n ?o ?p ?q ?r)))
    with f.
  split; [|split; [|split; [|split]]].
  - eapply TInv_ext; [..|exact Hinv2]; reflexivity.
  - intros sid s Hs. rewrite Hs2. exact (Hs1 sid s Hs).
  - intros t sid Ht. apply Hsh1, Hsh2. exact Ht.
  - reflexivity.
  - intros sid Hin Hsome t Ht.
    refine (despawnAll_cancels (trackSegments g1) g1 sid Hinv1 _ _ t Ht).
    + rewrite Htr1. exact Hin.
    + destruct Hsome as [s Hs]. destruct (Hs1 sid s Hs) as [Hk|(_ & s' & Hs' & _)]; eauto.
Qed.

(** *** Ground detection *)

Lemma groundCrumbleLogic_cases env sid g :
  core (groundCrumbleLogic cfg env sid g) = core g
  \/ groundCrumbleLogic cfg env sid g = startCrumble cfg sid g.
Proof.
  unfold groundCrumbleLogic. destruct (segs g !! sid) as [s|]; [|left; reflexivity].
  destruct (_ && _); [|left; reflexivity].
  destruct (hasMesh s); [|left; reflexivity].
  destruct (match rapierBody s with Some b => _ | None => _ end) as [dyn|];
    [|left; reflexivity].
  destruct (_ && _); [left; reflexivity|].
  destruct (bool_decide _); [right|left]; reflexivity.
Qed.

Lemma checkGrounded_core env hit g :
  core (checkGrounded cfg env hit g) = core (matchStage cfg env hit g).
Proof. reflexivity. Qed.

(** Ground detection leaves timers and segments alone, or starts the
    crumble of the segment it has settled on. *)
Lemma checkGrounded_cases env hit g :
  core (checkGrounded cfg env hit g) = core g
  \/ exists sid g0,
       core g0 = core g /\ sid ∈ trackSegments g
       /\ groundSegmentOf cfg env hit g = Some sid
       /\ core (checkGrounded cfg env hit g) = core (startCrumble cfg sid g0).
Proof.
  unfold groundSegmentOf. rewrite checkGrounded_core, checkGrounded_ground.
  unfold matchStage. cbv zeta.
  destruct hit as [h|]; [|left; reflexivity].
  destruct (hit_hasCollider h); [|left; reflexivity].
  destruct (hit_parent h) as [hb|]; [|left; reflexivity].
  change (segs (with_controller ?f g)) with (segs g).
  change (trackSegments (with_controller ?f g)) with (trackSegments g).
  destruct (findGroundSegment (segs g) hb (trackSegments g)) as [sid|] eqn:Hm;
    [|left; reflexivity].
  match goal with
  | |- context [groundCrumbleLogic cfg env sid ?G] => set (g0 := G)
  end.
  destruct (groundCrumbleLogic_cases env sid g0) as [Hc| ->].
  - left. rewrite Hc. reflexivity.
  - right. exists sid, g0. split; [reflexivity|].
    split; [exact (findGroundSegment_elem _ _ _ _ Hm)|].
    split; [|reflexivity]. rewrite (startCrumble_controller cfg). reflexivity.
Qed.

(** *** One event *)

(** A change of the crumble state of segment [sid] from [s] to [s'] by
    the event [e] in the game [g] is an edge of the lifecycle, taken for
    the reason that belongs to it, or the explicit reset to Stable. *)
Definition lifecycleStep (e : Event) (g : Game) (sid : nat) (s s' : Segment) : Prop :=
  crumbleState s' = crumbleState s
  \/ (crumbleState s = Some STABLE /\ crumbleState s' = Some WARNING
      /\ exists env hit, e = EvCheckGrounded env hit
                         /\ groundSegmentOf cfg env hit g = Some sid)
  \/ (crumbleState s = Some WARNING /\ crumbleState s' = Some FALLING
      /\ exists t, e = EvTimeout t /\ timeouts g !! t = Some sid)
  \/ (crumbleState s = Some FALLING /\ crumbleState s' = Some DESTROYED
      /\ exists env dt, e = EvCrumbleTick env dt /\ fallingY env s <= lavaY cfg)
  \/ (crumbleState s' = Some STABLE /\ (e = EvResetCrumble \/ e = EvResetGame)).

(** The segment has left the active list and no timeout is pending for
    it. *)
Definition retired (g : Game) (sid : nat) : Prop :=
  (sid ∉ trackSegments g) /\ noPending g sid.

Record StepEffect (e : Event) (g g' : Game) : Prop := mkStepEffect {
  se_inv : TInv g';
  se_track : forall x, x ∈ trackSegments g' ->
               x ∈ trackSegments g \/ (nextSeg g <= x)%nat;
  se_timeouts : forall t sid, timeouts g' !! t = Some sid ->
                  timeouts g !! t = Some sid \/ sid ∈ trackSegments g;
  se_segs : forall sid s, segs g !! sid = Some s ->
              segs g' !! sid = Some s
              \/ ((sid ∈ trackSegments g \/ exists t, timeouts g !! t = Some sid)
                  /\ exists s', segs g' !! sid = Some s' /\ lifecycleStep e g sid s s');
  se_despawn : forall sid, sid ∈ trackSegments g -> sid ∉ trackSegments g' ->
                 is_Some (segs g !! sid) -> noPending g' sid
}.

(** An operation that moves no segment in or out of the list and adds no
    timeout. *)
Lemma StepEffect_quiet e g g' :
  TInv g' -> quiet g g' ->
  (forall sid s, segs g !! sid = Some s ->
     segs g' !! sid = Some s
     \/ ((sid ∈ trackSegments g \/ exists t, timeouts g !! t = Some sid)
         /\ exists s', segs g' !! sid = Some s' /\ lifecycleStep e g sid s s')) ->
  StepEffect e g g'.
Proof.
  intros Hinv (Htr & Hn & Hsh) Hsegs. split; [exact Hinv| | |exact Hsegs|].
  - intros x Hx. left. rewrite <- Htr. exact Hx.
  - intros t sid Ht. left. auto.
  - intros sid Hin Hout. rewrite Htr in Hout. contradiction.
Qed.

Lemma step_effect e g : TInv g -> StepEffect e g (step cfg e g).
Proof.
  intros Hinv. destruct e as [pos|env hit|t|env dt|env now rng|r| |]; cbn [step].
  - (* the player moved *)
    apply StepEffect_quiet.
    + eapply TInv_ext; [..|exact Hinv]; reflexivity.
    + apply quiet_core. reflexivity.
    + intros sid s Hs. left. exact Hs.
  - (* ground detection *)
    destruct (checkGrounded_cases env hit g) as [Hc|(sid0 & g0 & Hc0 & Hin & Hgr & Hc)].
    + apply StepEffect_quiet.
      * exact (TInv_core _ _ Hc Hinv).
      * apply quiet_core. exact Hc.
      * intros sid s Hs. left. rewrite (core_segs _ _ Hc). exact Hs.
    + pose proof (TInv_core _ _ Hc0 Hinv) as Hinv0.
      split.
      * exact (TInv_core _ _ Hc (TInv_startCrumble sid0 g0 Hinv0)).
      * intros x Hx. left.
        rewrite (core_track _ _ Hc), startCrumble_track, (core_track _ _ Hc0) in Hx.
        exact Hx.
      * intros t sid Ht. rewrite (core_timeouts _ _ Hc) in Ht.
        apply startCrumble_timeouts in Ht as [Ht|[-> _]].
        -- left. rewrite <- (core_timeouts _ _ Hc0). exact Ht.
        -- right. exact Hin.
      * intros sid s Hs. rewrite (core_segs _ _ Hc).
        rewrite <- (core_segs _ _ Hc0) in Hs.
        destruct (startCrumble_segs sid0 g0 sid s Hs)
          as [Hk|(-> & s' & Hs' & Hst & Hcr & Hw)]; [left; exact Hk|].
        right. split; [left; exact Hin|]. exists s'. split; [exact Hs'|].
        right. left. split.
        -- destruct Hst as [Hnone|Hst]; [|exact Hst].
           exfalso. exact (ti_crumble g0 Hinv0 sid0 s Hs Hcr Hnone).
        -- split; [exact Hw|]. exists env, hit. auto.
      * intros sid Hsid Hout.
        rewrite (core_track _ _ Hc), startCrumble_track, (core_track _ _ Hc0) in Hout.
        contradiction.
  - (* a timer fires *)
    apply StepEffect_quiet.
    + apply TInv_fireTimeout. exact Hinv.
    + apply quiet_fireTimeout.
    + intros sid s Hs.
      destruct (fireTimeout_segs t g Hinv sid s Hs) as [Hk|(Ht & s' & Hs' & Hw & Hf)];
        [left; exact Hk|].
      right. split; [right; exists t; exact Ht|]. exists s'. split; [exact Hs'|].
      right. right. left. split; [exact Hw|]. split; [exact Hf|]. exists t. auto.
  - (* the crumble tick *)
    apply StepEffect_quiet.
    + apply TInv_updateCrumblePlatforms. exact Hinv.
    + apply quiet_updateCrumblePlatforms.
    + intros sid s Hs.
      destruct (updateCrumblePlatforms_segs env dt g sid s Hs)
        as [Hk|(Hin & s' & Hs' & [(Hst & _)|(Hf & Hd & Hy)])]; [left; exact Hk| |].
      * right. split; [left; exact Hin|]. exists s'. split; [exact Hs'|]. left. exact Hst.
      * right. split; [left; exact Hin|]. exists s'. split; [exact Hs'|].
        right. right. right. left. split; [exact Hf|]. split; [exact Hd|].
        exists env, dt. auto.
  - (* the window moves *)
    destruct (updateTrack_crumble env now rng g Hinv) as (Hi & Hs & Hsh & Htr & Hcan).
    split; [exact Hi|exact Htr| | |exact Hcan].
    + intros t sid Ht. left. auto.
    + intros sid s Hsid. destruct (Hs sid s Hsid) as [Hk|(Hin & s' & Hs' & Hr)];
        [left; exact Hk|].
      right. split; [left; exact Hin|]. exists s'. split; [exact Hs'|]. left. exact Hr.
  - (* a segment is generated *)
    split.
    + apply TInv_generateSegment. exact Hinv.
    + intros x Hx. rewrite (generateSegment_track cfg) in Hx.
      apply elem_of_app in Hx as [Hx|Hx]; [left; exact Hx|].
      apply list_elem_of_singleton in Hx. right. lia.
    + intros t sid Ht. left. exact Ht.
    + intros sid s Hs. left. apply generateSegment_old; assumption.
    + intros sid Hin Hout. exfalso. apply Hout.
      rewrite (generateSegment_track cfg). apply elem_of_app. left. exact Hin.
  - (* crumble reset *)
    apply StepEffect_quiet.
    + apply TInv_resetCrumblePlatforms. exact Hinv.
    + apply quiet_resetCrumblePlatforms. exact Hinv.
    + intros sid s Hs.
      destruct (resetCrumblePlatforms_segs g sid s Hs) as [Hk|(Hin & s' & Hs' & Hst)];
        [left; exact Hk|].
      right. split; [left; exact Hin|]. exists s'. split; [exact Hs'|].
      right. right. right. right. auto.
  - (* game reset *)
    destruct (resetGame_crumble g Hinv) as (Hi & Hs & Hsh & Htr & Hcan).
    split; [exact Hi| | | |].
    + intros x Hx. rewrite Htr in Hx. inversion Hx.
    + intros t sid Ht. left. auto.
    + intros sid s Hsid. destruct (Hs sid s Hsid) as [Hk|(Hin & s' & Hs' & Hst)];
        [left; exact Hk|].
      right. split; [left; exact Hin|]. exists s'. split; [exact Hs'|].
      right. right. right. right. auto.
    + intros sid Hin _ Hsome. exact (Hcan sid Hin Hsome).
Qed.

Lemma TInv_new : TInv (newGame cfg).
Proof.
  split.
  - intros t sid Ht. cbn [newGame timeouts] in Ht. rewrite lookup_empty in Ht. discriminate.
  - intros sid [s Hs]. cbn [newGame segs] in Hs. rewrite lookup_empty in Hs. discriminate.
  - intros sid s Hs. cbn [newGame segs] in Hs. rewrite lookup_empty in Hs. discriminate.
Qed.

Lemma TInv_reachable g : reachable cfg g -> TInv g.
Proof.
  induction 1 as [|g e _ IH]; [apply TInv_new|].
  exact (se_inv _ _ _ (step_effect e g IH)).
Qed.

Lemma reachable_run es g : reachable cfg g -> reachable cfg (run cfg es g).
Proof.
  revert g. induction es as [|e es IH]; intros g Hg; [exact Hg|].
  apply (IH (step cfg e g)). constructor. exact Hg.
Qed.

(** A retired segment stays as it is, whatever happens. *)
Lemma step_retired e g sid s :
  TInv g -> segs g !! sid = Some s -> retired g sid ->
  segs (step cfg e g) !! sid = Some s /\ retired (step cfg e g) sid.
Proof.
  intros Hinv Hs [Hout Hnp]. destruct (step_effect e g Hinv) as [_ Htr Hto Hsegs _].
  split; [|split].
  - destruct (Hsegs sid s Hs) as [Hk|([Hin|[t Ht]] & _)];
      [exact Hk|contradiction|exfalso; exact (Hnp t Ht)].
  - intros Hin. destruct (Htr sid Hin) as [Hold|Hge]; [contradiction|].
    pose proof (ti_alloc g Hinv sid (ex_intro _ s Hs)). lia.
  - intros t Ht. destruct (Hto t sid Ht) as [Hold|Hin]; [exact (Hnp t Hold)|contradiction].
Qed.

Lemma run_retired es g sid s :
  TInv g -> segs g !! sid = Some s -> retired g sid ->
  segs (run cfg es g) !! sid = Some s.
Proof.
  revert g. induction es as [|e es IH]; intros g Hinv Hs Hret; [exact Hs|].
  destruct (step_retired e g sid s Hinv Hs Hret) as [Hs' Hret'].
  apply (IH (step cfg e g)); [|exact Hs'|exact Hret'].
  exact (se_inv _ _ _ (step_effect e g Hinv)).
Qed.

(** C5. In every state a run of the game can reach, an event changes the
    crumble state of a segment only along Stable -> Warning, and then the
    event is the ground detection that settles on this segment; along
    Warning -> Falling, and then the event is the firing of a timeout
    that captured this segment; along Falling -> Destroyed, and then the
    event is the crumble tick and the segment's body (or mesh, without a
    body) is at or below the lava height; or it is the explicit reset,
    which puts the segment back to Stable. No state is skipped. A Warning
    segment that an event takes out of the active list has no pending
    timeout afterwards and never reaches Falling, whatever follows. *)
Theorem crumble_lifecycle (g : Game) :
  reachable cfg g ->
  (forall e sid s s',
     segs g !! sid = Some s -> segs (step cfg e g) !! sid = Some s' ->
     lifecycleStep e g sid s s')
  /\ (forall e sid s,
        segs g !! sid = Some s -> crumbleState s = Some WARNING ->
        sid ∈ trackSegments g -> sid ∉ trackSegments (step cfg e g) ->
        noPending (step cfg e g) sid
        /\ forall es, stateOf (run cfg es (step cfg e g)) sid <> Some FALLING).
Proof.
  intros Hreach. pose proof (TInv_reachable g Hreach) as Hinv. split.
  - intros e sid s s' Hs Hs'. destruct (step_effect e g Hinv) as [_ _ _ Hsegs _].
    destruct (Hsegs sid s Hs) as [Hk|(_ & s'' & Hs'' & Hl)].
    + left. congruence.
    + rewrite Hs' in Hs''. injection Hs'' as <-. exact Hl.
  - intros e sid s Hs Hw Hin Hout.
    destruct (step_effect e g Hinv) as [Hinv' _ _ Hsegs Hcan].
    pose proof (Hcan sid Hin Hout (ex_intro _ s Hs)) as Hnp.
    split; [exact Hnp|]. intros es.
    assert (Hs' : exists s', segs (step cfg e g) !! sid = Some s'
                             /\ crumbleState s' <> Some FALLING).
    { destruct (Hsegs sid s Hs) as [Hk|(_ & s' & Hs' & Hl)].
      - exists s. split; [exact Hk|congruence].
      - exists s'. split; [exact Hs'|].
        destruct Hl as [Hl|[(Hl & _)|[(_ & _ & t & -> & Ht)|[(Hl & _)|(Hl & _)]]]];
          try congruence.
        exfalso. apply Hout. cbn [step].
        destruct (quiet_fireTimeout t g) as (-> & _). exact Hin. }
    destruct Hs' as (s' & Hs' & Hnf). unfold stateOf.
    rewrite (run_retired es _ sid s' Hinv' Hs' (conj Hout Hnp)). exact Hnf.
Qed.

End Crumble.

(** Random outcomes of a flat crumble platform straight ahead. *)
Definition crumbleRoll : GenRoll := mkGenRoll 0 4 0 false true.

(** The player lands on the fourth platform, which starts to crumble,
    and runs on before its timer fires. *)
Definition passBy : list Event :=
  [ EvUpdateTrack liveEnv 0 (fun _ => crumbleRoll);
    EvCheckGrounded liveEnv (Some (mkHit true (Some 3%nat)));
    EvPlayerMoved (mkVec3 0 1 16);
    EvUpdateTrack liveEnv 200 (fun _ => crumbleRoll);
    EvPlayerMoved (mkVec3 0 1 28);
    EvUpdateTrack liveEnv 400 (fun _ => crumbleRoll);
    EvPlayerMoved (mkVec3 0 1 40) ].

Lemma crumble_lifecycle_witness :
  let g := run CONFIG passBy (newGame CONFIG) in
  let g' := step CONFIG (EvUpdateTrack liveEnv 600 (fun _ => crumbleRoll)) g in
  stateOf g 3 = Some WARNING
  /\ timeouts g !! 0%nat = Some 3%nat
  /\ noPending g' 3
  /\ stateOf (run CONFIG [EvTimeout 0; EvCrumbleTick liveEnv 1] g') 3 <> Some FALLING.
Proof.
  intros g g'.
  destruct (crumble_lifecycle CONFIG g
              (reachable_run CONFIG passBy _ (reach_new CONFIG))) as [_ H].
  assert (Hs : exists s, segs g !! 3%nat = Some s /\ crumbleState s = Some WARNING).
  { vm_compute. eexists. split; reflexivity. }
  destruct Hs as (s & Hs & Hw).
  destruct (H (EvUpdateTrack liveEnv 600 (fun _ => crumbleRoll)) 3%nat s Hs Hw)
    as [Hnp Hnf].
  - apply (bool_decide_unpack _). vm_compute. exact I.
  - apply (bool_decide_unpack _). vm_compute. exact I.
  - split; [vm_compute; reflexivity|]. split; [vm_compute; reflexivity|].
    split; [exact Hnp|exact (Hnf _)].
Defined.

(** * Further properties of the code *)

(** ** The state machine: history and recovery *)

Section FsmHistory.

Variable cfg : Config.

Definition history (c : Controller) : list HistoryEntry := _stateHistory (fsm c).

Lemma history_push e c :
  history (push_history e c) =
  if (_maxHistory <? length (history c ++ [e]))%nat
  then tail (history c ++ [e]) else (history c ++ [e])%list.
Proof. reflexivity. Qed.

Lemma push_history_bounded e c :
  (length (history c) <= _maxHistory)%nat ->
  (length (history (push_history e c)) <= _maxHistory)%nat.
Proof.
  intros H. rewrite history_push.
  destruct (_maxHistory <? length (history c ++ [e]))%nat eqn:Hlt.
  - destruct (history c) as [|x l]; [simpl; lia|].
    change (tail ((x :: l) ++ [e])) with (l ++ [e])%list.
    rewrite length_app. simpl in *. lia.
  - apply Nat.ltb_ge in Hlt. exact Hlt.
Qed.

Lemma push_history_last e c : last (history (push_history e c)) = Some e.
Proof.
  rewrite history_push.
  destruct (_maxHistory <? length (history c ++ [e]))%nat eqn:Hlt; [|apply last_snoc].
  apply Nat.ltb_lt in Hlt. rewrite length_app in Hlt. simpl in Hlt.
  unfold _maxHistory in Hlt.
  destruct (history c) as [|x l]; [simpl in Hlt; lia|].
  change (tail ((x :: l) ++ [e])) with (l ++ [e])%list. apply last_snoc.
Qed.

Lemma history_recover et rt c :
  history (_recoverToSafeState cfg et rt c) = history c.
Proof.
  unfold _recoverToSafeState.
  set (c1 := if et then c else state_exit (_current (fsm c)) c).
  assert (Hc1 : history c1 = history c).
  { subst c1. destruct et; [reflexivity|]. unfold history. rewrite state_exit_fsm.
    reflexivity. }
  destruct (_states (fsm c1) !! STATES_IDLE) as [ci|]; [|exact Hc1].
  destruct rt; [exact Hc1|].
  destruct (state_enter cfg ci None noParams _) as [inst c3] eqn:Hen.
  pose proof (state_enter_fsm cfg ci None noParams
                (set_current (Some (instantiate ci)) (Some STATES_IDLE) c1)) as Hf.
  rewrite Hen in Hf. cbn [snd] in Hf.
  unfold history. cbn [emit fsm set_current set_fsm _stateHistory]. rewrite Hf.
  exact Hc1.
Qed.

(** What a call does to the history: nothing when it returns false, one
    entry for the target when it returns true. *)
Lemma setState_history name p ft c :
  let r := setState cfg name p ft c in
  (fst r = false /\ history (snd r) = history c)
  \/ (fst r = true /\
      exists c', history c' = history c /\
        history (snd r)
        = history (push_history
                     (mkHistory name (p_reason p) (isGrounded c) (sprint c) (health c)) c')).
Proof.
  unfold setState.
  destruct (_states (fsm c) !! name) as [cls|]; [|left; split; reflexivity].
  case_decide; [left; split; reflexivity|].
  destruct (_canTransitionKey _ _ _); cbn [negb]; [|left; split; reflexivity].
  assert (Henter : forall q,
    history (snd (state_enter cfg cls (_currentKey (fsm c)) q
                    (state_exit (_current (fsm c)) c))) = history c).
  { intros q. unfold history. rewrite state_enter_fsm, state_exit_fsm. reflexivity. }
  destruct ft.
  - right. specialize (Henter p).
    destruct (state_enter cfg cls _ p _) as [inst c2]. cbn [fst snd] in *.
    split; [reflexivity|]. exists (set_current (Some inst) (Some name) c2).
    split; [exact Henter|reflexivity].
  - left. split; [reflexivity|]. cbn [snd]. rewrite history_recover. reflexivity.
  - left. split; [reflexivity|]. cbn [snd]. rewrite history_recover.
    unfold history. cbn [emit fsm set_current set_fsm _stateHistory].
    rewrite state_exit_fsm. reflexivity.
  - right. specialize (Henter noParams).
    destruct (state_enter cfg cls _ noParams _) as [inst c2]. cbn [fst snd] in *.
    split; [reflexivity|]. exists (set_current (Some inst) (Some name) c2).
    split; [exact Henter|reflexivity].
Qed.

Lemma runCalls_history_bounded calls c :
  (length (history c) <= _maxHistory)%nat ->
  (length (history (runCalls cfg calls c)) <= _maxHistory)%nat.
Proof.
  revert c. induction calls as [|call calls IH]; intros c Hc; [exact Hc|].
  simpl. apply IH.
  destruct (setState_history (call_name call) (call_params call) (call_fault call) c)
    as [[_ ->]|[_ (c' & Hc' & ->)]]; [exact Hc|].
  apply push_history_bounded. rewrite Hc'. exact Hc.
Qed.

(** X1. The transition history is a bounded log of the accepted
    transitions. After any sequence of [setState] calls on a fresh
    controller it holds at most [_maxHistory] (ten) entries; a further
    call that returns true puts the entry of its target, with the reason
    and the grounded flag, energy and health read before the transition,
    at the end; a call that returns false (unknown or same state, edge
    not in the table, or a hook that threw) leaves the history as it is. *)
Theorem fsm_history_bounded (calls : list Call) (name : string) (p : Params)
    (ft : Fault) :
  let c := runCalls cfg calls (newController cfg) in
  let r := setState cfg name p ft c in
  (length (history c) <= _maxHistory)%nat
  /\ (length (history (snd r)) <= _maxHistory)%nat
  /\ (if fst r
      then last (history (snd r))
           = Some (mkHistory name (p_reason p) (isGrounded c) (sprint c) (health c))
      else history (snd r) = history c).
Proof.
  intros c r.
  assert (Hc : (length (history c) <= _maxHistory)%nat).
  { apply runCalls_history_bounded. unfold history, _maxHistory. simpl. lia. }
  split; [exact Hc|].
  destruct (setState_history name p ft c) as [[Hf Hh]|[Ht (c' & Hc' & Hh)]];
    fold r in Hf, Hh || fold r in Ht, Hh.
  - rewrite Hf, Hh. split; [exact Hc|reflexivity].
  - rewrite Ht, Hh. split; [|apply push_history_last].
    apply push_history_bounded. rewrite Hc'. exact Hc.
Qed.

(** X2. A transition whose hooks throw is not taken: when the table
    allows the requested edge but [exit] of the old state or [enter] of
    the new one throws, [setState] returns false, logs the error and the
    machine ends in Idle with an Idle instance, whatever the requested
    target was and also when [enter] of the recovery state throws as
    well. *)
Theorem fsm_recovers_to_idle (name : string) (p : Params) (c : Controller)
    (exitThrew recoveryThrows : bool) :
  FsmSetUp c ->
  is_Some (_states (fsm c) !! name) -> key c <> Some name ->
  _canTransitionKey (fsm c) (key c) name = true ->
  let ft := if exitThrew then ExitThrows recoveryThrows
            else EnterThrows recoveryThrows in
  let r := setState cfg name p ft c in
  fst r = false
  /\ key (snd r) = Some STATES_IDLE
  /\ _current (fsm (snd r)) = Some IdleI
  /\ LogError "FSM Transition" "" ∈ signals (snd r).
Proof.
  intros [Hreg _] [cls Hcls] Hk Hcan ft r. subst r ft. unfold setState.
  rewrite Hcls. fold (key c). rewrite decide_False by exact Hk. rewrite Hcan.
  cbn [negb].
  assert (Hrec : forall et c0,
    _states (fsm c0) = _states (fsm c) ->
    LogError "FSM Transition" "" ∈ signals c0 ->
    let c' := _recoverToSafeState cfg et recoveryThrows c0 in
    key c' = Some STATES_IDLE /\ _current (fsm c') = Some IdleI
    /\ LogError "FSM Transition" "" ∈ signals c').
  { intros et c0 Hst Hlog. unfold _recoverToSafeState.
    set (c1 := if et then c0 else state_exit (_current (fsm c0)) c0).
    assert (Hc1 : fsm c1 = fsm c0)
      by (subst c1; destruct et; [reflexivity|apply state_exit_fsm]).
    assert (Hl1 : LogError "FSM Transition" "" ∈ signals c1).
    { subst c1. destruct et; [exact Hlog|].
      destruct (state_exit_signals_grow (_current (fsm c0)) c0) as [l ->].
      apply elem_of_app. left. exact Hlog. }
    rewrite Hc1, Hst, Hreg.
    change (_states _setupFSM !! STATES_IDLE) with (Some IdleState).
    destruct recoveryThrows; cbv zeta.
    - split; [reflexivity|]. split; [reflexivity|].
      cbn [emit signals set_current set_fsm]. apply elem_of_app. left. exact Hl1.
    - cbn [state_enter]. split; [reflexivity|]. split; [reflexivity|].
      unfold playAnimation. cbn [emit signals set_current set_fsm].
      apply elem_of_app. left. apply elem_of_app. left. exact Hl1. }
  destruct exitThrew; cbn [fst snd]; (split; [reflexivity|]); apply Hrec.
  - reflexivity.
  - cbn [emit signals]. apply elem_of_app. right. left.
  - cbn [emit fsm set_current set_fsm _states]. rewrite state_exit_fsm. reflexivity.
  - cbn [emit signals set_current set_fsm].
    apply elem_of_app. right. left.
Qed.

End FsmHistory.

Lemma fsm_recovers_to_idle_witness :
  let c := transition CONFIG STATES_CHARGE noParams
             (transition CONFIG STATES_IDLE noParams (newController CONFIG)) in
  let r := setState CONFIG STATES_LEAP noParams (EnterThrows false) c in
  key c = Some STATES_CHARGE
  /\ fst r = false /\ key (snd r) = Some STATES_IDLE.
Proof.
  intros c r. split; [reflexivity|].
  destruct (fsm_recovers_to_idle CONFIG STATES_LEAP noParams c false false)
    as (H1 & H2 & _).
  - split; reflexivity.
  - eexists. reflexivity.
  - discriminate.
  - reflexivity.
  - split; [exact H1|exact H2].
Defined.

(** ** Damage, regeneration, dash *)

Section Vitals.

Variable cfg : Config.

Lemma state_enter_health cls prev p c :
  health (snd (state_enter cfg cls prev p c)) = health c.
Proof. destruct cls; reflexivity. Qed.

Lemma state_exit_health cur c : health (state_exit cur c) = health c.
Proof. destruct cur as [[]|]; reflexivity. Qed.

(** A transition along an edge of the table arrives, and touches
    neither energy nor health. *)
Lemma transition_arrives name p c k :
  FsmSetUp c -> key c = Some k -> k ∈ STATES -> name ∈ STATES -> name <> k ->
  name ∈ default [] (validTransitions !! k) ->
  key (transition cfg name p c) = Some name
  /\ sprint (transition cfg name p c) = sprint c
  /\ health (transition cfg name p c) = health c.
Proof.
  intros Hset Hk Hin Hname Hne Hal.
  destruct (transition_taken cfg name p c k Hset Hk Hin Hname Hne Hal) as (cls & _ & ->).
  cbv zeta. split; [reflexivity|]. split.
  - change (sprint (push_history ?e (set_current ?i ?j ?x))) with (sprint x).
    destruct cls; destruct (_current (fsm c)) as [[]|]; reflexivity.
  - change (health (push_history ?e (set_current ?i ?j ?x))) with (health x).
    rewrite state_enter_health, state_exit_health. reflexivity.
Qed.

(** X3. [takeDamage(amount)] on a living player lowers the health to
    [max(0, health - amount)] and leaves the energy alone; when nothing
    is left the player dies with reason "damage", otherwise the state
    machine is not touched. On a dead player it does nothing at all. *)
Theorem takeDamage_contract (amount : Q) (c : Controller) :
  FInv c ->
  let c' := takeDamage cfg amount c in
  (isDead c = true -> c' = c)
  /\ (isDead c = false ->
      health c' = Qmax 0 (health c - amount)
      /\ sprint c' = sprint c
      /\ (health c <= amount ->
          isDead c' = true /\ PlayerDied "damage" ∈ signals c')
      /\ (amount < health c ->
          fsm c' = fsm c /\ forall r, PlayerDied r ∈ signals c' -> PlayerDied r ∈ signals c)).
Proof.
  intros Hinv c'. subst c'. unfold takeDamage. split.
  - intros ->. reflexivity.
  - intros Halive. rewrite Halive.
    set (c3 := emit (PlaySound "damage") _).
    assert (Hh3 : health c3 = Qmax 0 (health c - amount)) by reflexivity.
    assert (Hinv3 : FInv c3) by (eapply FInv_ext; [|exact Hinv]; reflexivity).
    destruct (die_kills cfg "damage" c3 Hinv3 Halive) as (Hd & _ & Hhd & Hsd & l & Hl).
    destruct (Qleb (health c3) 0) eqn:Hle.
    + apply Qleb_true in Hle. split; [rewrite Hhd; exact Hh3|].
      split; [rewrite Hsd; reflexivity|]. split.
      * intros _. split; [exact Hd|]. rewrite Hl. apply elem_of_app. right.
        right. left.
      * intros Hlt. exfalso. rewrite Hh3 in Hle. revert Hle. qminmax; lra.
    + apply Qleb_false in Hle. split; [exact Hh3|]. split; [reflexivity|]. split.
      * intros Hge. exfalso. rewrite Hh3 in Hle. revert Hle. qminmax; lra.
      * intros _. split; [reflexivity|]. intros r Hr.
        unfold c3 in Hr. cbn [emit signals set_health] in Hr.
        rewrite !elem_of_app, !list_elem_of_singleton in Hr.
        destruct Hr as [[Hr|Hr]|Hr]; [exact Hr|discriminate|discriminate].
Qed.

(** Time steps of the fixed update, applied to the regeneration only. *)
Definition regenTicks (dts : list Q) (c : Controller) : Controller :=
  foldl (fun c dt => updateSprint cfg dt c) c dts.

Definition Qsum (l : list Q) : Q := foldr Qplus 0 l.

Lemma updateSprint_waits dt c :
  0 <= dt -> sprintRegenTimer c + dt < player_sprintRegenDelay cfg ->
  sprint (updateSprint cfg dt c) = sprint c
  /\ isGrounded (updateSprint cfg dt c) = isGrounded c
  /\ (if isGrounded c
      then sprintRegenTimer (updateSprint cfg dt c) = sprintRegenTimer c + dt
      else sprintRegenTimer (updateSprint cfg dt c) = sprintRegenTimer c).
Proof.
  intros Hdt Hlt. unfold updateSprint. destruct (isGrounded c) eqn:Hg.
  - cbv zeta. cbn [set_sprintRegenTimer sprintRegenTimer].
    apply Qleb_false in Hlt. rewrite Hlt. cbn. rewrite Hg. auto.
  - destruct (_regenActive (energyLog c)); cbn; rewrite Hg; auto.
Qed.

Lemma regenTicks_wait dts c :
  Forall (fun dt => 0 <= dt) dts ->
  sprintRegenTimer c + Qsum dts < player_sprintRegenDelay cfg ->
  sprint (regenTicks dts c) = sprint c
  /\ isGrounded (regenTicks dts c) = isGrounded c
  /\ (if isGrounded c
      then sprintRegenTimer (regenTicks dts c) == sprintRegenTimer c + Qsum dts
      else sprintRegenTimer (regenTicks dts c) = sprintRegenTimer c).
Proof.
  revert c. induction dts as [|dt dts IH]; intros c Hpos Hlt.
  - simpl. split; [reflexivity|]. split; [reflexivity|].
    destruct (isGrounded c); [unfold Qsum; simpl; ring|reflexivity].
  - inversion Hpos as [|? ? Hdt Hrest]; subst.
    assert (Hsum : 0 <= Qsum dts).
    { clear -Hrest. induction Hrest as [|x l Hx _ IHl]; [unfold Qsum; simpl; lra|].
      unfold Qsum in *. simpl. lra. }
    change (Qsum (dt :: dts)) with (dt + Qsum dts) in *.
    destruct (updateSprint_waits dt c Hdt) as (Hs & Hg & Ht); [lra|].
    change (regenTicks (dt :: dts) c) with (regenTicks dts (updateSprint cfg dt c)).
    destruct (IH (updateSprint cfg dt c) Hrest) as (Hs' & Hg' & Ht').
    + destruct (isGrounded c); rewrite Ht; lra.
    + rewrite Hs', Hg', Hs, Hg. split; [reflexivity|]. split; [reflexivity|].
      rewrite Hg in Ht'. destruct (isGrounded c).
      * rewrite Ht', Ht. ring.
      * rewrite Ht', Ht. reflexivity.
Qed.

(** X4. Regeneration waits for the delay. [consumeStamina] restarts the
    regeneration timer, and while the time steps since then add up to
    less than [sprintRegenDelay] the energy stays exactly what the
    consumption left; the timer only runs on the ground. The first
    step on the ground that reaches the delay adds [sprintRegenRate * dt],
    capped at [maxSprint]. *)
Theorem regen_waits_for_delay (amount : Q) (dts : list Q) (dt : Q) (c : Controller) :
  Forall (fun dt => 0 <= dt) dts -> 0 <= dt ->
  Qsum dts < player_sprintRegenDelay cfg ->
  let c1 := consumeStamina cfg amount c in
  let c2 := regenTicks dts c1 in
  let c3 := updateSprint cfg dt c2 in
  sprint c2 = sprint c1
  /\ (isGrounded c = true -> player_sprintRegenDelay cfg <= Qsum dts + dt ->
      sprint c1 <= player_maxSprint cfg ->
      sprint c3 == Qmin (player_maxSprint cfg)
                        (sprint c1 + player_sprintRegenRate cfg * dt))
  /\ (isGrounded c = false -> sprint c3 = sprint c1).
Proof.
  intros Hpos Hdt Hsum c1 c2 c3.
  assert (Ht1 : sprintRegenTimer c1 = 0) by reflexivity.
  assert (Hg1 : isGrounded c1 = isGrounded c) by reflexivity.
  destruct (regenTicks_wait dts c1 Hpos) as (Hs2 & Hg2 & Ht2); [rewrite Ht1; lra|].
  fold c2 in Hs2, Hg2, Ht2. rewrite Hg1 in Hg2, Ht2.
  split; [exact Hs2|]. split.
  - intros Hg Hreach Hmax. rewrite Hg in Ht2, Hg2. rewrite Ht1 in Ht2.
    subst c3. unfold updateSprint. rewrite Hg2. cbv zeta.
    cbn [set_sprintRegenTimer sprintRegenTimer sprint].
    assert (Hle : Qleb (player_sprintRegenDelay cfg) (sprintRegenTimer c2 + dt) = true)
      by (apply Qleb_true; rewrite Ht2; lra).
    rewrite Hle. rewrite <- Hs2 in Hmax |- *.
    match goal with
    | |- sprint (if ?b then _ else _) == _ => destruct b
    end; cbn [sprint set_energyLog emit set_sprint]; qminmax; lra.
  - intros Hg. rewrite Hg in Hg2. subst c3. unfold updateSprint. rewrite Hg2.
    rewrite <- Hs2. destruct (_regenActive (energyLog c2)); reflexivity.
Qed.

(** X5. A dash runs for its duration and then hands over. While the
    accumulated time stays below [dashDuration] the machine stays in Dash;
    the update that reaches it leaves Dash, for Leap (airborne, rising),
    Fall (airborne otherwise), Walk (on the ground with W or S held) or
    Idle. The update never changes energy or health. *)
Theorem dash_runs_its_duration (dt : Q) (d : DashData) (c : Controller) :
  FInv c -> _current (fsm c) = Some (DashI d) ->
  let c' := DashState_update cfg dt d c in
  sprint c' = sprint c /\ health c' = health c
  /\ (dashTimer d + dt < dashDuration d ->
      _current (fsm c')
      = Some (DashI (mkDash (dashTimer d + dt) (dashDuration d) (staminaUsed d)))
      /\ key c' = Some STATES_DASH)
  /\ (dashDuration d <= dashTimer d + dt ->
      key c' = Some
        (if isGrounded c
         then if key_KeyW (inputManager c) || key_KeyS (inputManager c)
              then STATES_WALK else STATES_IDLE
         else if Qltb 0 (vy (linvel c)) then STATES_LEAP else STATES_FALL)).
Proof.
  intros [Hset Hsync] Hcur c'. subst c'. unfold DashState_update. cbv zeta.
  assert (Hk : key c = Some STATES_DASH).
  { unfold Synced in Hsync. rewrite Hcur in Hsync. exact Hsync. }
  set (d1 := mkDash (dashTimer d + dt) (dashDuration d) (staminaUsed d)).
  set (c1 := set_current (Some (DashI d1)) (_currentKey (fsm c)) c).
  assert (Hset1 : FsmSetUp c1) by exact Hset.
  assert (Hk1 : key c1 = Some STATES_DASH) by exact Hk.
  assert (Hgo : forall name p,
    name ∈ [STATES_IDLE; STATES_WALK; STATES_LEAP; STATES_FALL] ->
    key (transition cfg name p c1) = Some name
    /\ sprint (transition cfg name p c1) = sprint c
    /\ health (transition cfg name p c1) = health c).
  { intros name p Hin.
    apply (transition_arrives name p c1 STATES_DASH Hset1 Hk1).
    - unfold STATES. rewrite !elem_of_cons. tauto.
    - unfold STATES. rewrite !elem_of_cons, elem_of_nil in *. tauto.
    - rewrite !elem_of_cons, elem_of_nil in Hin.
      destruct Hin as [->|[->|[->|[->|[]]]]]; discriminate.
    - change (validTransitions !! STATES_DASH)
        with (Some [STATES_IDLE; STATES_WALK; STATES_LEAP; STATES_FALL; STATES_DEAD]).
      simpl. rewrite !elem_of_cons, elem_of_nil in *. tauto. }
  cbn [dashDuration dashTimer d1].
  change (isGrounded c1) with (isGrounded c).
  change (linvel c1) with (linvel c). change (inputManager c1) with (inputManager c).
  destruct (Qleb (dashDuration d) (dashTimer d + dt)) eqn:Hdone.
  - apply Qleb_true in Hdone.
    assert (Hin : forall name, name ∈ [STATES_IDLE; STATES_WALK; STATES_LEAP; STATES_FALL]
                  -> name ∈ [STATES_IDLE; STATES_WALK; STATES_LEAP; STATES_FALL]) by auto.
    destruct (isGrounded c); cbn [negb].
    + destruct (key_KeyW (inputManager c) || key_KeyS (inputManager c)).
      * destruct (Hgo STATES_WALK (reasonOnly "dash_complete_move")) as (H1 & H2 & H3);
          [rewrite !elem_of_cons; tauto|].
        split; [exact H2|]. split; [exact H3|]. split; [intros; lra|auto].
      * destruct (Hgo STATES_IDLE (reasonOnly "dash_complete_idle")) as (H1 & H2 & H3);
          [rewrite !elem_of_cons; tauto|].
        split; [exact H2|]. split; [exact H3|]. split; [intros; lra|auto].
    + destruct (Qltb 0 (vy (linvel c))).
      * destruct (Hgo STATES_LEAP (reasonOnly "dash_complete_ascending")) as (H1 & H2 & H3);
          [rewrite !elem_of_cons; tauto|].
        split; [exact H2|]. split; [exact H3|]. split; [intros; lra|auto].
      * destruct (Hgo STATES_FALL (reasonOnly "dash_complete_falling")) as (H1 & H2 & H3);
          [rewrite !elem_of_cons; tauto|].
        split; [exact H2|]. split; [exact H3|]. split; [intros; lra|auto].
  - apply Qleb_false in Hdone. split; [reflexivity|]. split; [reflexivity|].
    split; [intros _; split; [reflexivity|exact Hk]|intros; lra].
Qed.

(** What the game loop does to the player between two frames. *)
Inductive LoopStep :=
| LoopFixedUpdate (env : Env) (dt : Q)
| LoopDamage (amount : Q)
| LoopImmediateDash.

Definition loopStep (st : LoopStep) (c : Controller) : Controller :=
  match st with
  | LoopFixedUpdate env dt => fixedUpdateEnergy cfg env dt c
  | LoopDamage amount => takeDamage cfg amount c
  | LoopImmediateDash => processImmediateDash cfg c
  end.

(** X6. Death is final for the game loop: on a dead player no sequence
    of fixed updates, damage and dash requests changes anything; there
    is no regeneration, no further damage, no dash and no signal. *)
Theorem dead_stays_dead (sts : list LoopStep) (c : Controller) :
  isDead c = true -> foldl (fun c st => loopStep st c) c sts = c.
Proof.
  intros Hdead. induction sts as [|st sts IH]; [reflexivity|].
  simpl. assert (Hst : loopStep st c = c); [|rewrite Hst; exact IH].
  destruct st as [env dt|amount|]; cbn [loopStep].
  - unfold fixedUpdateEnergy. rewrite Hdead. unfold fsm_update.
    unfold isDead in Hdead. destruct (_current (fsm c)) as [[]|]; try discriminate.
    reflexivity.
  - unfold takeDamage. rewrite Hdead. reflexivity.
  - unfold processImmediateDash. rewrite Hdead.
    destruct (pressed_KeyQ _); [|reflexivity].
    destruct (isCharging c); [reflexivity|]. destruct (isDashing c); reflexivity.
Qed.

(** X7. [performDash()] does not look at the state. Called with enough
    energy while the machine is in Charge, Dash or Dead, it reports
    success and takes the whole energy, but the machine rejects the
    transition: state and instance stay as they were. *)
Theorem performDash_ignores_state (c : Controller) :
  FInv c ->
  key c = Some STATES_CHARGE \/ key c = Some STATES_DASH \/ key c = Some STATES_DEAD ->
  gameplay_minDashEnergy cfg <= sprint c ->
  let r := performDash cfg c in
  fst r = true
  /\ sprint (snd r) == 0
  /\ fsm (snd r) = fsm c.
Proof.
  intros [[Hreg Htab] Hsync] Hk Hge r. subst r. unfold performDash.
  apply Qltb_false in Hge. rewrite Hge. cbv zeta. cbn [fst snd].
  split; [reflexivity|].
  set (c1 := consumeStamina cfg (sprint c) c).
  assert (Hf1 : fsm c1 = fsm c) by reflexivity.
  assert (Hrej : setState cfg STATES_DASH (mkParams "dash_initiated" (Some (sprint c)))
                   NoFault c1 = (false, c1)
                 \/ exists msg, setState cfg STATES_DASH
                      (mkParams "dash_initiated" (Some (sprint c))) NoFault c1
                      = (false, emit (LogError "FSM" msg) c1)).
  { unfold setState. rewrite Hf1, Hreg.
    change (_states _setupFSM !! STATES_DASH) with (Some DashState).
    unfold key in Hk. destruct Hk as [Hk|[Hk|Hk]]; rewrite Hk.
    - rewrite decide_False by discriminate. unfold _canTransitionKey. rewrite Htab.
      right. eexists. reflexivity.
    - rewrite decide_True by reflexivity. left. reflexivity.
    - rewrite decide_False by discriminate. unfold _canTransitionKey. rewrite Htab.
      right. eexists. reflexivity. }
  unfold transition.
  destruct Hrej as [-> |[msg ->]]; cbn [snd emit sprint fsm];
    (split; [|exact Hf1]); unfold c1; rewrite sprint_consumeStamina; qminmax; lra.
Qed.

End Vitals.

(** The player standing still on the ground, right after the start. *)
Definition idleController : Controller :=
  set_isGrounded true (transition CONFIG STATES_IDLE noParams (newController CONFIG)).

Lemma idleController_FInv : FInv idleController.
Proof.
  eapply FInv_ext; [exact (fsm_set_isGrounded _ _)|].
  exact (FInv_transition CONFIG STATES_IDLE noParams _ (FInv_new CONFIG)).
Qed.

Lemma FInv_performDash cfg c : FInv c -> FInv (snd (performDash cfg c)).
Proof.
  intros Hinv. unfold performDash. destruct (Qltb _ _); cbn [snd].
  - eapply FInv_ext; [|exact Hinv]. reflexivity.
  - apply (FInv_ext (transition cfg STATES_DASH
                       (mkParams "dash_initiated" (Some (sprint c)))
                       (consumeStamina cfg (sprint c) c)));
      [rewrite !fsm_emit; reflexivity|].
    apply FInv_transition. eapply FInv_ext; [|exact Hinv]. reflexivity.
Qed.

Lemma takeDamage_contract_witness :
  isDead (takeDamage CONFIG 100 idleController) = true.
Proof.
  destruct (takeDamage_contract CONFIG 100 idleController idleController_FInv)
    as (_ & H).
  destruct (H eq_refl) as (_ & _ & Hkill & _).
  apply Hkill. vm_compute. discriminate.
Defined.

Lemma regen_waits_for_delay_witness :
  let c1 := consumeStamina CONFIG 10 idleController in
  sprint (regenTicks CONFIG [0.25; 0.25] c1) = sprint c1.
Proof.
  destruct (regen_waits_for_delay CONFIG 10 [0.25; 0.25] 0.5 idleController)
    as (H & _).
  - repeat constructor; vm_compute; discriminate.
  - vm_compute. discriminate.
  - vm_compute. reflexivity.
  - exact H.
Defined.

Lemma dash_runs_its_duration_witness :
  let c := snd (performDash CONFIG idleController) in
  exists d, _current (fsm c) = Some (DashI d)
            /\ key (DashState_update CONFIG 0.25 d c) = Some STATES_IDLE.
Proof.
  intros c.
  assert (Hcur : exists d, _current (fsm c) = Some (DashI d)
                           /\ dashDuration d <= dashTimer d + 0.25
                           /\ isGrounded c = true
                           /\ key_KeyW (inputManager c) || key_KeyS (inputManager c) = false).
  { vm_compute. eexists. split; [reflexivity|]. split; [discriminate|]. split; reflexivity. }
  destruct Hcur as (d & Hcur & Hdone & Hg & Hkeys). exists d. split; [exact Hcur|].
  destruct (dash_runs_its_duration CONFIG 0.25 d c
              (FInv_performDash CONFIG _ idleController_FInv) Hcur) as (_ & _ & _ & H).
  rewrite (H Hdone), Hg, Hkeys. reflexivity.
Defined.

Lemma dead_stays_dead_witness :
  let c := die CONFIG "lava" idleController in
  foldl (fun c st => loopStep CONFIG st c) c
        [LoopDamage 10; LoopFixedUpdate liveEnv 0.1; LoopImmediateDash] = c.
Proof.
  intros c. apply (dead_stays_dead CONFIG _ c). vm_compute. reflexivity.
Defined.

Lemma performDash_ignores_state_witness :
  let c := tapController 50 false in
  key c = Some STATES_CHARGE
  /\ fst (performDash CONFIG c) = true
  /\ fsm (snd (performDash CONFIG c)) = fsm c.
Proof.
  intros c.
  assert (Hk : key c = Some STATES_CHARGE) by reflexivity.
  split; [exact Hk|].
  destruct (performDash_ignores_state CONFIG c (tapController_FInv 50 false)) as (H1 & _ & H3).
  - left. exact Hk.
  - vm_compute. discriminate.
  - split; [exact H1|exact H3].
Defined.

(** ** The active list: numbering, timers, reset *)

(** What generation fixes for a segment once and for all. *)
Definition shapeOf (s : Segment) : Z * bool := (index s, isCrumblePlatform s).

Definition shapes (g : Game) : gmap nat (Z * bool) := shapeOf <$> segs g.

Lemma shapes_same g g' : segs g' = segs g -> shapes g' = shapes g.
Proof. unfold shapes. intros ->. reflexivity. Qed.

Lemma shapes_update_seg sid f g :
  (forall s, shapeOf (f s) = shapeOf s) ->
  shapes (update_seg sid f g) = shapes g.
Proof.
  intros Hf. apply map_eq. intros x. unfold shapes. rewrite !lookup_fmap.
  rewrite update_seg_lookup. destruct (decide (x = sid)) as [->|]; [|reflexivity].
  destruct (segs g !! sid) as [s|]; [|reflexivity]. simpl. rewrite Hf. reflexivity.
Qed.

(** From [g] to [g'] the active list, the allocation pointer and the
    shapes of the segments stay. *)
Definition still (g g' : Game) : Prop :=
  trackSegments g' = trackSegments g /\ nextSeg g' = nextSeg g
  /\ shapes g' = shapes g.

Lemma still_refl g : still g g.
Proof. repeat split. Qed.

Lemma still_trans g1 g2 g3 : still g1 g2 -> still g2 g3 -> still g1 g3.
Proof. intros (A & B & C) (A' & B' & C'). repeat split; congruence. Qed.

Lemma still_core g g' : core g' = core g -> still g g'.
Proof.
  intros H. split; [exact (core_track _ _ H)|]. split; [exact (core_nextSeg _ _ H)|].
  apply shapes_same. exact (core_segs _ _ H).
Qed.

Lemma still_foldl {A} (f : Game -> A -> Game) l g :
  (forall g x, still g (f g x)) -> still g (foldl f g l).
Proof.
  intros Hf. revert g. induction l as [|x l IH]; intros g; [apply still_refl|].
  simpl. eapply still_trans; [apply Hf|apply IH].
Qed.

Lemma still_update_seg sid f g :
  (forall s, shapeOf (f s) = shapeOf s) -> still g (update_seg sid f g).
Proof. intros Hf. split; [reflexivity|]. split; [reflexivity|apply shapes_update_seg, Hf]. Qed.

Lemma still_clearCrumbleTimer i d g : still g (clearCrumbleTimer i d g).
Proof.
  split; [apply clearCrumbleTimer_track|]. split; [apply clearCrumbleTimer_nextSeg|].
  apply shapes_same, clearCrumbleTimer_segs.
Qed.

Section ActiveList.

Variable cfg : Config.

Lemma still_startCrumble sid g : still g (startCrumble cfg sid g).
Proof.
  destruct (startCrumble_cases cfg sid g) as [->|(_ & s & _ & ->)]; [apply still_refl|].
  cbv zeta.
  set (g1 := clearCrumbleTimer (index s) false g).
  apply (still_trans _ g1); [apply still_clearCrumbleTimer|].
  apply (still_trans _ (update_seg sid (set_crumble (Some WARNING) 0) g1));
    [apply still_update_seg; reflexivity|].
  repeat split.
Qed.

Lemma still_convert sid g : still g (_convertPlatformToDynamic sid g).
Proof.
  destruct (_convertPlatformToDynamic_cases sid g) as [->| ->]; [apply still_refl|].
  apply (still_trans _ (set_nextHandle (S (nextHandle g)) g)); [repeat split|].
  apply still_update_seg. reflexivity.
Qed.

Lemma still_fireTimeout t g : still g (fireTimeout t g).
Proof.
  pose proof (fireTimeout_cases t g) as H.
  destruct (timeouts g !! t) as [sid|]; rewrite H; [|apply still_refl].
  apply (still_trans _ (clearTimeout t g)); [repeat split|].
  pose proof (crumbleTimerCallback_cases sid (clearTimeout t g)) as Hc.
  destruct (segs (clearTimeout t g) !! sid) as [s|]; rewrite Hc; [|apply still_refl].
  cbv zeta.
  set (g1 := update_seg sid (set_crumble (Some FALLING) (warningTimer s)) (clearTimeout t g)).
  apply (still_trans _ g1); [apply still_update_seg; reflexivity|].
  apply (still_trans _ (_convertPlatformToDynamic sid g1)); [apply still_convert|].
  repeat split.
Qed.

Lemma still_destroy sid g : still g (_destroyFallenPlatform sid g).
Proof.
  destruct (_destroyFallenPlatform_cases sid g) as [->|(s & _ & _ & ->)];
    [apply still_refl|].
  apply (still_trans _ (clearCrumbleTimer (index s) true g));
    [apply still_clearCrumbleTimer|].
  apply still_update_seg. reflexivity.
Qed.

Lemma still_updateCrumblePlatforms env dt g :
  still g (updateCrumblePlatforms cfg env dt g).
Proof.
  destruct (updateCrumblePlatforms_cases cfg env dt g) as [->| ->]; [apply still_refl|].
  apply still_foldl. intros g' x.
  destruct (crumbleTickSegment_cases cfg env dt g' x)
    as [->|[(s & _ & _ & ->)|(s & _ & _ & _ & ->)]].
  - apply still_refl.
  - apply still_update_seg. reflexivity.
  - apply still_destroy.
Qed.

Lemma still_resetCrumblePlatforms g : still g (resetCrumblePlatforms g).
Proof.
  rewrite resetCrumblePlatforms_eq.
  apply (still_trans _ (timersCleared g)); [repeat split|].
  apply still_foldl. intros g' x.
  destruct (resetCrumbleSegment_cases g' x) as [->| ->]; [apply still_refl|].
  apply (still_trans _ (set_nextHandle (S (nextHandle g')) g')); [repeat split|].
  apply still_update_seg. reflexivity.
Qed.

Lemma still_despawnAll l g : still g (despawnAll l g).
Proof.
  apply still_foldl. intros g' x.
  destruct (despawnSegment_cases x g') as [->|(s & _ & ->)]; [apply still_refl|].
  apply still_clearCrumbleTimer.
Qed.

Lemma still_sync env g :
  still g (foldl (syncSegment env) g (trackSegments g)).
Proof.
  apply still_foldl. intros g' x.
  destruct (syncSegment_cases env g' x) as [->|(y & ->)]; [apply still_refl|].
  apply still_update_seg. reflexivity.
Qed.

Lemma still_checkGrounded env hit g : still g (checkGrounded cfg env hit g).
Proof.
  destruct (checkGrounded_cases cfg env hit g) as [Hc|(sid & g0 & Hc0 & _ & _ & Hc)].
  - apply still_core. exact Hc.
  - apply (still_trans _ g0); [apply still_core; exact Hc0|].
    apply (still_trans _ (startCrumble cfg sid g0)); [apply still_startCrumble|].
    apply still_core. exact Hc.
Qed.

(** The active list is a run of consecutively numbered, allocated
    segments; crumble platforms lie beyond the safe buffer. *)
Record TrackShape (g : Game) : Prop := mkTrackShape {
  ts_live : forall sid, sid ∈ trackSegments g -> is_Some (shapes g !! sid);
  ts_next : forall (i : nat) sid sid' a b,
    trackSegments g !! i = Some sid -> trackSegments g !! S i = Some sid' ->
    shapes g !! sid = Some a -> shapes g !! sid' = Some b ->
    b.1 = (a.1 + 1)%Z;
  ts_buffer : forall sid a, shapes g !! sid = Some a -> a.2 = true ->
    (crumbleSafeBuffer < a.1)%Z /\ track_crumbleMode cfg = true;
  ts_alloc : forall sid, is_Some (shapes g !! sid) -> (sid < nextSeg g)%nat
}.

Lemma TrackShape_still g g' : still g g' -> TrackShape g -> TrackShape g'.
Proof.
  intros (Ht & Hn & Hs) [H1 H2 H3 H4]. split; rewrite ?Ht, ?Hn, ?Hs; assumption.
Qed.

Lemma generateSegment_shapes prev r g :
  exists idx cr,
    shapes (generateSegment cfg prev r g) = <[nextSeg g := (idx, cr)]> (shapes g)
    /\ idx = (match prev ≫= (fun sid => shapes g !! sid) with
              | Some a => a.1 | None => -1 end + 1)%Z
    /\ (cr = true -> (crumbleSafeBuffer < idx)%Z /\ track_crumbleMode cfg = true).
Proof.
  unfold generateSegment, createRigidBody. cbv zeta.
  cbn [segs nextSeg set_nextHandle]. unfold shapes at 1. cbn [segs].
  rewrite fmap_insert. eexists. eexists. split; [reflexivity|].
  cbn [shapeOf index isCrumblePlatform]. split.
  - destruct prev as [sid|]; [|reflexivity]. cbn [mbind option_bind].
    unfold shapes. rewrite lookup_fmap. destruct (segs g !! sid); reflexivity.
  - intros Hcr. apply andb_true_iff in Hcr as [Hcr _].
    apply andb_true_iff in Hcr as [Hmode Hidx]. apply bool_decide_eq_true in Hidx.
    split; [exact Hidx|exact Hmode].
Qed.

Lemma TrackShape_generateSegment r g :
  TrackShape g -> TrackShape (generateSegment cfg (last (trackSegments g)) r g).
Proof.
  intros [H1 H2 H3 H4].
  destruct (generateSegment_shapes (last (trackSegments g)) r g) as (idx & cr & Hs & Hidx & Hcr).
  assert (Hfresh : nextSeg g ∉ trackSegments g).
  { intros Hin. specialize (H4 _ (H1 _ Hin)). lia. }
  pose proof (generateSegment_track cfg (last (trackSegments g)) r g) as Htr.
  split; rewrite Hs; rewrite ?Htr;
    change (nextSeg (generateSegment cfg (last (trackSegments g)) r g))
      with (S (nextSeg g)).
  - intros sid Hin. apply elem_of_app in Hin as [Hin|Hin].
    + rewrite lookup_insert_ne; [exact (H1 sid Hin)|].
      intros <-. contradiction.
    + apply list_elem_of_singleton in Hin as ->. rewrite lookup_insert_eq. eauto.
  - intros i sid sid' a b Hi Hi' Ha Hb.
    destruct (decide (S i < length (trackSegments g))%nat) as [Hlt|Hge].
    + rewrite lookup_app_l in Hi by lia. rewrite lookup_app_l in Hi' by lia.
      rewrite lookup_insert_ne in Ha
        by (intros <-; apply Hfresh; eapply list_elem_of_lookup_2; exact Hi).
      rewrite lookup_insert_ne in Hb
        by (intros <-; apply Hfresh; eapply list_elem_of_lookup_2; exact Hi').
      exact (H2 i sid sid' a b Hi Hi' Ha Hb).
    + assert (Hlen : S i = length (trackSegments g)).
      { apply lookup_lt_Some in Hi'. rewrite length_app in Hi'. simpl in Hi'. lia. }
      rewrite lookup_app_l in Hi by lia.
      rewrite lookup_app_r in Hi' by lia.
      replace (S i - length (trackSegments g))%nat with 0%nat in Hi' by lia.
      injection Hi' as <-. rewrite lookup_insert_eq in Hb. injection Hb as <-.
      rewrite lookup_insert_ne in Ha
        by (intros <-; apply Hfresh; eapply list_elem_of_lookup_2; exact Hi).
      assert (Hlast : last (trackSegments g) = Some sid).
      { rewrite last_lookup. rewrite <- Hlen. exact Hi. }
      rewrite Hlast in Hidx. cbn [mbind option_bind] in Hidx. rewrite Ha in Hidx.
      exact Hidx.
  - intros sid a Ha Hc. destruct (decide (nextSeg g = sid)) as [<-|Hne].
    + rewrite lookup_insert_eq in Ha. injection Ha as <-. exact (Hcr Hc).
    + rewrite lookup_insert_ne in Ha by exact Hne. exact (H3 sid a Ha Hc).
  - intros sid Hsome. destruct (decide (nextSeg g = sid)) as [<-|Hne]; [lia|].
    rewrite lookup_insert_ne in Hsome by exact Hne. specialize (H4 sid Hsome). lia.
Qed.

Lemma TrackShape_generateLoop rng desired g :
  TrackShape g -> TrackShape (generateLoop cfg rng desired g).
Proof.
  funelim (generateLoop cfg rng desired g); intros Hinv; [|exact Hinv].
  apply H. apply TrackShape_generateSegment. exact Hinv.
Qed.

Lemma TrackShape_drop n i g :
  TrackShape g -> TrackShape (set_track (drop n (trackSegments g)) i g).
Proof.
  intros [H1 H2 H3 H4]. split; cbn [set_track trackSegments nextSeg];
    change (shapes (set_track ?l ?j g)) with (shapes g).
  - intros sid Hin. apply H1. rewrite <- (take_drop n (trackSegments g)).
    apply elem_of_app. right. exact Hin.
  - intros j sid sid' a b Hj Hj'. rewrite lookup_drop in Hj, Hj'.
    replace (n + S j)%nat with (S (n + j)) in Hj' by lia.
    exact (H2 (n + j)%nat sid sid' a b Hj Hj').
  - exact H3.
  - exact H4.
Qed.

Lemma TrackShape_despawnBlock g : TrackShape g -> TrackShape (despawnBlock cfg g).
Proof.
  intros Hinv. destruct (despawnBlock_cases cfg g) as [->|(n & i & Heq)]; [exact Hinv|].
  cbv zeta in Heq. rewrite Heq.
  set (g1 := set_track (drop n (trackSegments g)) (playerSegmentIndex g) g).
  pose proof (TrackShape_drop n (playerSegmentIndex g) g Hinv) as H1. fold g1 in H1.
  pose proof (TrackShape_still _ _ (still_despawnAll (take n (trackSegments g)) g1) H1)
    as H2.
  eapply TrackShape_still; [|exact H2]. repeat split.
Qed.

Lemma TrackShape_updateTrack env now rng g :
  TrackShape g -> TrackShape (updateTrack cfg env now rng g).
Proof.
  intros Hinv.
  pose proof (TrackShape_still _ _ (still_sync env g) Hinv) as H0.
  destruct (updateTrack_cases cfg env now rng g) as [->| ->]; [exact H0|].
  apply TrackShape_despawnBlock, TrackShape_generateLoop.
  eapply TrackShape_still; [|exact H0].
  destruct (searchBlock_core now (foldl (syncSegment env) g (trackSegments g)))
    as (Hs & Hn & _ & _ & Ht).
  split; [exact Ht|]. split; [exact Hn|apply shapes_same; exact Hs].
Qed.

Lemma TrackShape_resetGame g : TrackShape g -> TrackShape (resetGame cfg g).
Proof.
  intros Hinv. rewrite resetGame_eq. cbv zeta.
  set (g1 := if track_crumbleMode cfg then resetCrumblePlatforms g else g).
  assert (H1 : TrackShape g1).
  { unfold g1. destruct (track_crumbleMode cfg); [|exact Hinv].
    exact (TrackShape_still _ _ (still_resetCrumblePlatforms g) Hinv). }
  pose proof (TrackShape_still _ _ (still_despawnAll (trackSegments g1) g1) H1)
    as [_ _ H3 H4].
  split.
  - intros sid Hin. inversion Hin.
  - intros i sid sid' a b Hi. destruct i; discriminate.
  - exact H3.
  - exact H4.
Qed.

Lemma TrackShape_step e g : TrackShape g -> TrackShape (step cfg e g).
Proof.
  intros Hinv. destruct e as [pos|env hit|t|env dt|env now rng|r| |]; cbn [step].
  - eapply TrackShape_still; [|exact Hinv]. repeat split.
  - exact (TrackShape_still _ _ (still_checkGrounded env hit g) Hinv).
  - exact (TrackShape_still _ _ (still_fireTimeout t g) Hinv).
  - exact (TrackShape_still _ _ (still_updateCrumblePlatforms env dt g) Hinv).
  - apply TrackShape_updateTrack. exact Hinv.
  - apply TrackShape_generateSegment. exact Hinv.
  - exact (TrackShape_still _ _ (still_resetCrumblePlatforms g) Hinv).
  - apply TrackShape_resetGame. exact Hinv.
Qed.

Lemma TrackShape_reachable g : reachable cfg g -> TrackShape g.
Proof.
  induction 1 as [|g e _ IH]; [|apply TrackShape_step; exact IH].
  split.
  - intros sid Hin. inversion Hin.
  - intros i sid sid' a b Hi. destruct i; discriminate.
  - intros sid a Ha. unfold shapes in Ha. cbn [newGame segs] in Ha.
    rewrite fmap_empty, lookup_empty in Ha. discriminate.
  - intros sid [a Ha]. unfold shapes in Ha. cbn [newGame segs] in Ha.
    rewrite fmap_empty, lookup_empty in Ha. discriminate.
Qed.

Lemma segmentAt_Some g (i : Z) s :
  segmentAt g i = Some s ->
  (0 <= i)%Z /\ exists sid, trackSegments g !! Z.to_nat i = Some sid
                            /\ segs g !! sid = Some s.
Proof.
  unfold segmentAt. destruct (i <? 0)%Z eqn:Hneg; [discriminate|].
  apply Z.ltb_ge in Hneg. intros H. split; [exact Hneg|].
  destruct (trackSegments g !! Z.to_nat i) as [sid|]; [|discriminate].
  exists sid. split; [reflexivity|exact H].
Qed.

Lemma TrackShape_offset g (i k : nat) sid sid' a b :
  TrackShape g ->
  trackSegments g !! i = Some sid -> trackSegments g !! (i + k)%nat = Some sid' ->
  shapes g !! sid = Some a -> shapes g !! sid' = Some b ->
  b.1 = (a.1 + Z.of_nat k)%Z.
Proof.
  intros Hinv. revert sid' b. induction k as [|k IH]; intros sid' b Hi Hk Ha Hb.
  - rewrite Nat.add_0_r in Hk. rewrite Hi in Hk. injection Hk as <-.
    rewrite Ha in Hb. injection Hb as <-. lia.
  - assert (Hmid : is_Some (trackSegments g !! (i + k)%nat)).
    { apply lookup_lt_is_Some. apply lookup_lt_Some in Hk. lia. }
    destruct Hmid as [sm Hsm].
    destruct (ts_live g Hinv sm (list_elem_of_lookup_2 _ _ _ Hsm)) as [m Hm].
    specialize (IH sm m Hi Hsm Ha Hm).
    replace (i + S k)%nat with (S (i + k)) in Hk by lia.
    rewrite (ts_next g Hinv (i + k)%nat sm sid' m b Hsm Hk Hm Hb). lia.
Qed.

(** X8. In every state a run of the game can reach, the active list is
    numbered without gaps: the segments at the positions [i] and [j] have
    indices that differ by [j - i]. So two positions never show the same
    index, and the timers, which are filed under the index, cannot be
    mixed up between active segments. *)
Theorem track_indices_consecutive (g : Game) (i j : Z) (s s' : Segment) :
  reachable cfg g ->
  segmentAt g i = Some s -> segmentAt g j = Some s' ->
  (index s' - index s = j - i)%Z.
Proof.
  intros Hreach Hi Hj. pose proof (TrackShape_reachable g Hreach) as Hinv.
  apply segmentAt_Some in Hi as (Hi0 & sid & Hti & Hsi).
  apply segmentAt_Some in Hj as (Hj0 & sid' & Htj & Hsj).
  assert (Ha : shapes g !! sid = Some (shapeOf s))
    by (unfold shapes; rewrite lookup_fmap, Hsi; reflexivity).
  assert (Hb : shapes g !! sid' = Some (shapeOf s'))
    by (unfold shapes; rewrite lookup_fmap, Hsj; reflexivity).
  destruct (Z.le_ge_cases i j) as [Hle|Hle].
  - replace (Z.to_nat j) with (Z.to_nat i + Z.to_nat (j - i))%nat in Htj by lia.
    pose proof (TrackShape_offset g _ _ _ _ _ _ Hinv Hti Htj Ha Hb) as H.
    cbn [shapeOf fst] in H. lia.
  - replace (Z.to_nat i) with (Z.to_nat j + Z.to_nat (i - j))%nat in Hti by lia.
    pose proof (TrackShape_offset g _ _ _ _ _ _ Hinv Htj Hti Hb Ha) as H.
    cbn [shapeOf fst] in H. lia.
Qed.

(** X9. The first platforms never crumble: in every reachable state a
    segment marked as crumble platform has an index above the safe
    buffer of 2, and there is none unless crumble mode is on. *)
Theorem crumble_platforms_beyond_buffer (g : Game) (sid : nat) (s : Segment) :
  reachable cfg g ->
  segs g !! sid = Some s -> isCrumblePlatform s = true ->
  (2 < index s)%Z /\ track_crumbleMode cfg = true.
Proof.
  intros Hreach Hs Hc. pose proof (TrackShape_reachable g Hreach) as Hinv.
  apply (ts_buffer g Hinv sid (shapeOf s)); [|exact Hc].
  unfold shapes. rewrite lookup_fmap, Hs. reflexivity.
Qed.

(** Every pending timeout belongs to a segment of the active list. *)
Definition PendingLive (g : Game) : Prop :=
  forall t sid, timeouts g !! t = Some sid -> sid ∈ trackSegments g.

Lemma PendingLive_step e g :
  TInv g -> TrackShape g -> PendingLive g -> PendingLive (step cfg e g).
Proof.
  intros Hinv Hshape Hlive t sid Ht.
  destruct (step_effect cfg e g Hinv) as [Hinv' _ Hto _ Hcan].
  assert (Hin : sid ∈ trackSegments g).
  { destruct (Hto t sid Ht) as [Hold|Hin]; [exact (Hlive t sid Hold)|exact Hin]. }
  destruct (decide (sid ∈ trackSegments (step cfg e g))) as [Hyes|Hno]; [exact Hyes|].
  exfalso. refine (Hcan sid Hin Hno _ t Ht).
  destruct (ts_live g Hshape sid Hin) as [a Ha]. unfold shapes in Ha.
  rewrite lookup_fmap in Ha. destruct (segs g !! sid); [eauto|discriminate].
Qed.

Lemma PendingLive_reachable g : reachable cfg g -> PendingLive g.
Proof.
  induction 1 as [|g e Hg IH].
  - intros t sid Ht. cbn [newGame timeouts] in Ht. rewrite lookup_empty in Ht.
    discriminate.
  - apply PendingLive_step; [apply (TInv_reachable cfg)|apply TrackShape_reachable|];
      assumption.
Qed.

(** X10. Timers are never left behind. In every reachable state a
    pending crumble timeout belongs to a segment that is still in the
    active list and in Warning; it is the timer filed under that
    segment's index, so a segment has at most one pending timeout. *)
Theorem pending_timers_are_live (g : Game) (t t' sid : nat) :
  reachable cfg g -> timeouts g !! t = Some sid ->
  sid ∈ trackSegments g
  /\ stateOf g sid = Some WARNING
  /\ (timeouts g !! t' = Some sid -> t' = t).
Proof.
  intros Hreach Ht. pose proof (TInv_reachable cfg g Hreach) as Hinv.
  split; [exact (PendingLive_reachable g Hreach t sid Ht)|].
  destruct (ti_pending g Hinv t sid Ht) as (s & Hs & Hw & Hc).
  split; [unfold stateOf; rewrite Hs; exact Hw|].
  intros Ht'. destruct (ti_pending g Hinv t' sid Ht') as (s' & Hs' & _ & Hc').
  rewrite Hs in Hs'. injection Hs' as <-. congruence.
Qed.

(** X11. [resetGame()] leaves nothing behind: called in any reachable
    state, it empties the active list, puts player index and score back
    to 0, and no timeout is pending afterwards. *)
Theorem resetGame_clears (g : Game) :
  reachable cfg g ->
  let g' := resetGame cfg g in
  trackSegments g' = [] /\ playerSegmentIndex g' = 0%Z /\ score g' = 0%Z
  /\ forall t, timeouts g' !! t = None.
Proof.
  intros Hreach g'. split; [reflexivity|]. split; [reflexivity|]. split; [reflexivity|].
  intros t. destruct (timeouts g' !! t) as [sid|] eqn:Ht; [|reflexivity]. exfalso.
  pose proof (PendingLive_reachable g' (reach_step cfg g EvResetGame Hreach) t sid Ht)
    as Hin.
  change (trackSegments g') with (@nil nat) in Hin. inversion Hin.
Qed.

End ActiveList.

(** ** The nearest-segment search and the score *)

(** Squared horizontal distance of the player to a segment. *)
Definition dist2 (g : Game) (s : Segment) : Q :=
  let pos := translation (playerController g) in
  (vx pos - seg_x s) * (vx pos - seg_x s) + (vz pos - seg_z s) * (vz pos - seg_z s).

Lemma elem_of_Zrange lo hi i : i ∈ Zrange lo hi <-> (lo <= i < hi)%Z.
Proof.
  unfold Zrange. rewrite list_elem_of_fmap. split.
  - intros (k & -> & Hk). apply elem_of_seq in Hk. lia.
  - intros H. exists (Z.to_nat (i - lo)). split; [lia|]. apply elem_of_seq. lia.
Qed.

(** What the search loop knows after the positions [seen]: nothing was
    found there and the index is the old one, or the index is the first
    of the nearest segments seen. *)
Definition SearchInv (g : Game) (psi : Z) (seen : list Z) (acc : option Q * Z) : Prop :=
  match fst acc with
  | None => snd acc = psi /\ forall i, i ∈ seen -> segmentAt g i = None
  | Some d =>
      snd acc ∈ seen
      /\ (exists s, segmentAt g (snd acc) = Some s /\ d = dist2 g s)
      /\ forall i s, i ∈ seen -> segmentAt g i = Some s -> d <= dist2 g s
  end.

Lemma searchStep_inv g psi seen acc i :
  SearchInv g psi seen acc ->
  SearchInv g psi (seen ++ [i])
    (searchStep g (vx (translation (playerController g)))
       (vz (translation (playerController g))) acc i).
Proof.
  unfold SearchInv, searchStep. intros Hinv.
  destruct (segmentAt g i) as [seg|] eqn:Hseg.
  - cbv zeta. fold (dist2 g seg). destruct (fst acc) as [d|] eqn:Hacc.
    + destruct Hinv as (Hin & (s & Hs & Hd) & Hmin).
      destruct (Qltb (dist2 g seg) d) eqn:Hlt.
      * apply Qltb_true in Hlt. cbn [fst snd]. split; [apply elem_of_app; right; left|].
        split; [exists seg; auto|].
        intros j sj Hj Hsj. apply elem_of_app in Hj as [Hj|Hj].
        -- specialize (Hmin j sj Hj Hsj). lra.
        -- apply list_elem_of_singleton in Hj as ->. rewrite Hseg in Hsj.
           injection Hsj as <-. lra.
      * apply Qltb_false in Hlt. rewrite Hacc.
        split; [apply elem_of_app; left; exact Hin|]. split; [exists s; auto|].
        intros j sj Hj Hsj. apply elem_of_app in Hj as [Hj|Hj]; [exact (Hmin j sj Hj Hsj)|].
        apply list_elem_of_singleton in Hj as ->. rewrite Hseg in Hsj.
        injection Hsj as <-. exact Hlt.
    + cbn [fst snd]. split; [apply elem_of_app; right; left|].
      split; [exists seg; auto|]. destruct Hinv as [_ Hnone].
      intros j sj Hj Hsj. apply elem_of_app in Hj as [Hj|Hj].
      * rewrite (Hnone j Hj) in Hsj. discriminate.
      * apply list_elem_of_singleton in Hj as ->. rewrite Hseg in Hsj.
        injection Hsj as <-. lra.
  - destruct (fst acc) as [d|] eqn:Hacc.
    + destruct Hinv as (Hin & Hs & Hmin). split; [apply elem_of_app; left; exact Hin|].
      split; [exact Hs|]. intros j sj Hj Hsj.
      apply elem_of_app in Hj as [Hj|Hj]; [exact (Hmin j sj Hj Hsj)|].
      apply list_elem_of_singleton in Hj as ->. rewrite Hseg in Hsj. discriminate.
    + destruct Hinv as [Hpsi Hnone]. split; [exact Hpsi|].
      intros j Hj. apply elem_of_app in Hj as [Hj|Hj]; [exact (Hnone j Hj)|].
      apply list_elem_of_singleton in Hj as ->. exact Hseg.
Qed.

Lemma search_fold_inv g psi l seen acc :
  SearchInv g psi seen acc ->
  SearchInv g psi (seen ++ l)
    (foldl (searchStep g (vx (translation (playerController g)))
              (vz (translation (playerController g)))) acc l).
Proof.
  revert seen acc. induction l as [|i l IH]; intros seen acc Hinv.
  - rewrite app_nil_r. exact Hinv.
  - simpl. replace (seen ++ i :: l)%list with ((seen ++ [i]) ++ l)%list
      by (rewrite <- app_assoc; reflexivity).
    apply IH. apply searchStep_inv. exact Hinv.
Qed.

(** X12. The nearest-segment search of [updateTrack] looks at the
    positions from 3 behind to 3 ahead of the player's index (within the
    list). If a segment is there, the new index is the position of a
    nearest one; otherwise the index stays. Either way the index moves by at most 3 positions in one
    search. *)
Theorem nearest_segment_in_window (g : Game) :
  let psi := playerSegmentIndex g in
  let lo := Z.max 0 (psi - 3) in
  let hi := Z.min (trackLength g) (psi + 4) in
  let r := nearestSegment g in
  (psi - 3 <= r <= psi + 3)%Z
  /\ ((forall i, (lo <= i < hi)%Z -> segmentAt g i = None) -> r = psi)
  /\ (forall i s, (lo <= i < hi)%Z -> segmentAt g i = Some s ->
        (lo <= r < hi)%Z
        /\ exists sr, segmentAt g r = Some sr /\ dist2 g sr <= dist2 g s).
Proof.
  intros psi lo hi r.
  assert (Hinv : SearchInv g psi (Zrange lo hi)
                   (foldl (searchStep g (vx (translation (playerController g)))
                             (vz (translation (playerController g))))
                          (None, psi) (Zrange lo hi))).
  { apply (search_fold_inv g psi (Zrange lo hi) [] (None, psi)).
    split; [reflexivity|]. intros i Hi. inversion Hi. }
  unfold SearchInv in Hinv.
  change (snd (foldl _ (None, psi) (Zrange lo hi))) with r in Hinv.
  destruct (fst (foldl _ (None, psi) (Zrange lo hi))) as [d|].
  - destruct Hinv as (Hin & (sr & Hsr & Hd) & Hmin). apply elem_of_Zrange in Hin.
    split; [lia|]. split.
    + intros Hnone. rewrite (Hnone r Hin) in Hsr. discriminate.
    + intros i s Hi Hs. split; [exact Hin|]. exists sr. split; [exact Hsr|].
      rewrite <- Hd. apply (Hmin i s); [apply elem_of_Zrange; exact Hi|exact Hs].
  - destruct Hinv as [Hr Hnone]. split; [lia|]. split; [intros _; exact Hr|].
    intros i s Hi Hs. rewrite (Hnone i) in Hs; [discriminate|].
    apply elem_of_Zrange. exact Hi.
Qed.

Section Score.

Variable cfg : Config.

Lemma score_clearCrumbleTimer i d g : score (clearCrumbleTimer i d g) = score g.
Proof.
  unfold clearCrumbleTimer. destruct (crumbleTimers g !! i); [|reflexivity].
  destruct d; reflexivity.
Qed.

Lemma score_foldl {A} (f : Game -> A -> Game) l g :
  (forall g x, score (f g x) = score g) -> score (foldl f g l) = score g.
Proof.
  intros Hf. revert g. induction l as [|x l IH]; intros g; [reflexivity|].
  simpl. rewrite IH. apply Hf.
Qed.

Lemma score_despawnBlock g : score (despawnBlock cfg g) = score g.
Proof.
  destruct (despawnBlock_cases cfg g) as [->|(n & i & Heq)]; [reflexivity|].
  cbv zeta in Heq. rewrite Heq. cbn [set_track score]. unfold despawnAll.
  rewrite score_foldl; [reflexivity|]. intros g' x.
  destruct (despawnSegment_cases x g') as [->|(s & _ & ->)]; [reflexivity|].
  apply score_clearCrumbleTimer.
Qed.

Lemma score_sync env g : score (foldl (syncSegment env) g (trackSegments g)) = score g.
Proof.
  apply score_foldl. intros g' x.
  destruct (syncSegment_cases env g' x) as [->|(y & ->)]; reflexivity.
Qed.

Lemma score_searchBlock now g : score (searchBlock now g) = score g.
Proof. unfold searchBlock. destruct (searchDue now g); reflexivity. Qed.

Lemma score_generateLoop rng desired g :
  (score (generateLoop cfg rng desired g) - score g
   = trackLength (generateLoop cfg rng desired g) - trackLength g)%Z.
Proof.
  funelim (generateLoop cfg rng desired g); [|lia].
  rewrite (generateSegment_length cfg) in H.
  change (score (generateSegment cfg ?p ?r g)) with (score g + 1)%Z in H. lia.
Qed.

(** X13. The score counts generated platforms: a call of [updateTrack]
    with the player's body in place raises the score by exactly the
    number of segments its generation loop appends, which is the
    shortfall of the list against [playerSegmentIndex +
    segmentsToGenerateAhead] after the search; syncing, searching and
    despawning do not score. Without the body the score stays. *)
Theorem update_track_scores_generation (env : Env) (now : Q) (rng : nat -> GenRoll)
    (g : Game) :
  let g1 := searchBlock now (foldl (syncSegment env) g (trackSegments g)) in
  let missing := Z.max 0 (desiredSegmentCount cfg g1 - trackLength g1) in
  score (updateTrack cfg env now rng g)
  = (score g + if playerBody g then missing else 0)%Z.
Proof.
  intros g1 missing.
  pose proof (windowOf_body _ _ (windowOf_foldl (syncSegment env) (trackSegments g) g
                                   (windowOf_syncSegment env))) as Hbody.
  unfold updateTrack. cbv zeta. rewrite Hbody.
  destruct (playerBody g); cbn [negb].
  - rewrite score_despawnBlock. unfold generateBlock. fold g1.
    pose proof (score_generateLoop rng (desiredSegmentCount cfg g1) g1) as Hs.
    destruct (generateLoop_spec cfg rng (desiredSegmentCount cfg g1) g1) as (Hl & _).
    assert (H1 : score g1 = score g)
      by (unfold g1; rewrite score_searchBlock; apply score_sync).
    subst missing. lia.
  - rewrite score_sync. lia.
Qed.

End Score.

(** The game of [passBy], where the fourth platform is in Warning. *)
Definition passByGame : Game := run CONFIG passBy (newGame CONFIG).

Lemma passByGame_reachable : reachable CONFIG passByGame.
Proof. apply reachable_run. constructor. Qed.

Lemma track_indices_consecutive_witness :
  exists s s', segmentAt passByGame 0 = Some s /\ segmentAt passByGame 5 = Some s'
               /\ (index s' - index s = 5)%Z.
Proof.
  assert (H : exists s s', segmentAt passByGame 0 = Some s
                           /\ segmentAt passByGame 5 = Some s').
  { vm_compute. eexists. eexists. split; reflexivity. }
  destruct H as (s & s' & H0 & H5). exists s, s'. split; [exact H0|]. split; [exact H5|].
  exact (track_indices_consecutive CONFIG passByGame 0 5 s s' passByGame_reachable H0 H5).
Defined.

Lemma crumble_platforms_beyond_buffer_witness :
  exists s, segs passByGame !! 3%nat = Some s /\ (2 < index s)%Z.
Proof.
  assert (H : exists s, segs passByGame !! 3%nat = Some s /\ isCrumblePlatform s = true).
  { vm_compute. eexists. split; reflexivity. }
  destruct H as (s & Hs & Hc). exists s. split; [exact Hs|].
  exact (proj1 (crumble_platforms_beyond_buffer CONFIG passByGame 3 s
                  passByGame_reachable Hs Hc)).
Defined.

Lemma pending_timers_are_live_witness :
  3%nat ∈ trackSegments passByGame /\ stateOf passByGame 3 = Some WARNING.
Proof.
  assert (Ht : timeouts passByGame !! 0%nat = Some 3%nat) by (vm_compute; reflexivity).
  destruct (pending_timers_are_live CONFIG passByGame 0 0 3 passByGame_reachable Ht)
    as (H1 & H2 & _).
  split; [exact H1|exact H2].
Defined.

Lemma resetGame_clears_witness :
  timeouts passByGame !! 0%nat = Some 3%nat
  /\ timeouts (resetGame CONFIG passByGame) !! 0%nat = None.
Proof.
  split; [vm_compute; reflexivity|].
  destruct (resetGame_clears CONFIG passByGame passByGame_reachable) as (_ & _ & _ & H).
  exact (H 0%nat).
Defined.

Lemma nearest_segment_in_window_witness :
  (playerSegmentIndex passByGame - 3 <= nearestSegment passByGame
   <= playerSegmentIndex passByGame + 3)%Z.
Proof. exact (proj1 (nearest_segment_in_window passByGame)). Defined.

(** ** Ground detection: flags and coyote time *)

Section GroundFlags.

Variable cfg : Config.

(** The controller after the match stage: the grounded flag is the hit,
    ground segment and falling-platform fields are set by the match,
    nothing else is touched. A platform the player rides has a readable
    body. *)
Lemma matchStage_controller env hit g :
  exists gs onf fb,
    playerController (matchStage cfg env hit g)
    = set_currentGroundSegment gs
        (set_fallingPlatform onf fb
           (set_isGrounded (bool_decide (is_Some hit)) (playerController g)))
    /\ (onf = true -> is_Some hit /\ exists b bv, fb = Some b /\ env_body env b = Some bv)
    /\ (hit = None -> gs = None).
Proof.
  assert (Hplain : forall gs,
    (hit = None -> gs = None) ->
    forall G, playerController G
      = set_currentGroundSegment gs
          (set_fallingPlatform false None
             (set_isGrounded (bool_decide (is_Some hit)) (playerController g))) ->
    exists gs onf fb,
      playerController G
      = set_currentGroundSegment gs
          (set_fallingPlatform onf fb
             (set_isGrounded (bool_decide (is_Some hit)) (playerController g)))
      /\ (onf = true -> is_Some hit
          /\ exists b bv, fb = Some b /\ env_body env b = Some bv)
      /\ (hit = None -> gs = None)).
  { intros gs Hgs G HG. exists gs, false, None. split; [exact HG|].
    split; [discriminate|exact Hgs]. }
  unfold matchStage. cbv zeta.
  destruct hit as [h|]; [|apply (Hplain None); reflexivity].
  destruct (hit_hasCollider h); [|apply (Hplain None); [discriminate|reflexivity]].
  destruct (hit_parent h) as [hb|];
    [|apply (Hplain (currentGroundSegment (playerController g)));
      [discriminate|reflexivity]].
  change (segs (with_controller ?f g)) with (segs g).
  change (trackSegments (with_controller ?f g)) with (trackSegments g).
  destruct (findGroundSegment (segs g) hb (trackSegments g)) as [sid|];
    [|apply (Hplain None); [discriminate|reflexivity]].
  unfold groundCrumbleLogic.
  match goal with
  | |- context [segs ?G !! sid] => change (segs G) with (segs g)
  end.
  destruct (segs g !! sid) as [s|];
    [|apply (Hplain (Some sid)); [discriminate|reflexivity]].
  destruct (_ && _); [|apply (Hplain (Some sid)); [discriminate|reflexivity]].
  destruct (hasMesh s); [|apply (Hplain (Some sid)); [discriminate|reflexivity]].
  destruct (rapierBody s) as [b|] eqn:Hb.
  - destruct (env_body env b) as [bv|] eqn:Hbv; cbn [fmap option_fmap option_map];
      [|apply (Hplain None); [discriminate|reflexivity]].
    destruct (_ && _).
    + exists (Some sid), true, (Some b). split; [reflexivity|].
      split; [|discriminate]. intros _. split; [eexists; reflexivity|].
      exists b, bv. auto.
    + destruct (bool_decide (crumbleState s = Some STABLE)).
      * apply (Hplain (Some sid)); [discriminate|].
        rewrite (startCrumble_controller cfg). reflexivity.
      * apply (Hplain (Some sid)); [discriminate|reflexivity].
  - rewrite andb_false_r. destruct (bool_decide (crumbleState s = Some STABLE)).
    + apply (Hplain (Some sid)); [discriminate|].
      rewrite (startCrumble_controller cfg). reflexivity.
    + apply (Hplain (Some sid)); [discriminate|reflexivity].
Qed.

(** X14. The flags that ground detection sets. The player is grounded
    after the check exactly when the shape cast hit something. The coyote
    timer is started, with the configured time, exactly on the step from
    grounded to airborne, and is otherwise left alone. Ground time and
    signals stay when the player was grounded before or nothing is hit;
    a landing (airborne before, hit now, not riding a falling platform)
    restarts the ground time and plays the landing sound once. Without
    a hit there is neither a ground segment nor a platform to ride. *)
Theorem ground_check_flags (env : Env) (hit : option Hit) (g : Game) :
  let c := playerController g in
  let c' := playerController (checkGrounded cfg env hit g) in
  let hitGround := bool_decide (is_Some hit) in
  isGrounded c' = hitGround
  /\ coyoteTime c' = (if isGrounded c && negb hitGround
                      then jump_coyoteTime cfg else coyoteTime c)
  /\ (isGrounded c || negb hitGround = true ->
      groundTime c' = groundTime c /\ signals c' = signals c)
  /\ (isGrounded c || negb hitGround = false -> onFallingPlatform c' = false ->
      groundTime c' = 0 /\ signals c' = (signals c ++ [PlaySound "land"])%list)
  /\ (hitGround = false ->
      currentGroundSegment c' = None /\ onFallingPlatform c' = false).
Proof.
  intros c c' hitGround. subst c' hitGround.
  destruct (matchStage_controller env hit g) as (gs & onf & fb & Hc2 & Honf & Hgs).
  assert (Hfinal : playerController (checkGrounded cfg env hit g) =
    let was := isGrounded c in
    let c2 := playerController (matchStage cfg env hit g) in
    let c3 :=
      if bool_decide (is_Some hit) then
        match onFallingPlatform c2, fallingPlatformBody c2 with
        | true, Some fbh =>
            match env_body env fbh with
            | Some bv =>
                if Qltb (Qabs (vy (linvel c2) - bv_vy bv)) 3.0 then
                  if negb was
                  then emit (PlaySound "land") (set_groundTime 0 (set_isGrounded true c2))
                  else c2
                else c2
            | None => set_fallingPlatform false None (set_isGrounded false c2)
            end
        | _, _ =>
            if negb was then emit (PlaySound "land") (set_groundTime 0 c2) else c2
        end
      else c2 in
    if was && negb (isGrounded c3)
    then set_coyoteTime (jump_coyoteTime cfg) c3 else c3) by reflexivity.
  rewrite Hfinal. clear Hfinal. cbv zeta. rewrite Hc2.
  destruct (bool_decide (is_Some hit)) eqn:Hhit.
  - destruct onf; cbn [onFallingPlatform fallingPlatformBody set_currentGroundSegment
                       set_fallingPlatform].
    all: set (c2 := set_currentGroundSegment gs _).
    all: revert Honf; cbv beta; intros Honf.
    + destruct (Honf eq_refl) as (_ & b & bv & -> & Hbv). rewrite Hbv.
      destruct (Qltb _ _); destruct (isGrounded c) eqn:Hwas;
        cbn [negb andb orb isGrounded coyoteTime onFallingPlatform groundTime
             signals emit set_groundTime set_isGrounded
             set_currentGroundSegment set_fallingPlatform set_coyoteTime c2];
        rewrite ?Hhit; cbn [negb andb orb];
        repeat split; try discriminate; auto.
    + destruct (isGrounded c) eqn:Hwas;
        cbn [negb andb orb isGrounded coyoteTime onFallingPlatform groundTime
             signals emit set_groundTime set_isGrounded
             set_currentGroundSegment set_fallingPlatform set_coyoteTime c2];
        rewrite ?Hhit; cbn [negb andb orb];
        repeat split; try discriminate; auto.
  - assert (Hnone : hit = None).
    { destruct hit; [|reflexivity].
      rewrite bool_decide_eq_true_2 in Hhit by (eexists; reflexivity). discriminate. }
    rewrite (Hgs Hnone) in *.
    set (c2 := set_currentGroundSegment None _).
    assert (Honf' : onf = false).
    { destruct onf; [|reflexivity]. destruct (Honf eq_refl) as ([h Hh] & _). congruence. }
    subst onf.
    destruct (isGrounded c) eqn:Hwas;
      cbn [negb andb orb isGrounded coyoteTime onFallingPlatform groundTime
           signals currentGroundSegment emit set_groundTime set_isGrounded
           set_currentGroundSegment set_fallingPlatform set_coyoteTime c2];
      rewrite ?Hhit; cbn [negb andb orb];
      repeat split; try discriminate; auto.
Qed.

(** X15. The ground segment is never made up: after the check it is a
    segment of the active list whose body is the one the cast hit, or,
    when the hit collider has no owning body, whatever it was before the
    check; when nothing is hit, or the collider is missing, it is
    cleared. *)
Theorem ground_segment_is_active (env : Env) (hit : option Hit) (g : Game) (sid : nat) :
  groundSegmentOf cfg env hit g = Some sid ->
  exists h, hit = Some h /\ hit_hasCollider h = true
    /\ match hit_parent h with
       | Some hb => sid ∈ trackSegments g /\ bodyOf (segs g) sid = Some hb
       | None => currentGroundSegment (playerController g) = Some sid
       end.
Proof.
  unfold groundSegmentOf. rewrite checkGrounded_ground. unfold matchStage. cbv zeta.
  destruct hit as [h|]; [|discriminate]. intros H. exists h. split; [reflexivity|].
  destruct (hit_hasCollider h); [|discriminate]. split; [reflexivity|].
  destruct (hit_parent h) as [hb|]; [|exact H].
  change (segs (with_controller ?f g)) with (segs g) in H.
  change (trackSegments (with_controller ?f g)) with (trackSegments g) in H.
  destruct (findGroundSegment (segs g) hb (trackSegments g)) as [m|] eqn:Hm;
    [|discriminate].
  assert (Hsid : m = sid).
  { destruct (groundCrumbleLogic_cases cfg env m
                (with_controller (set_currentGroundSegment (Some m))
                   (with_controller
                      (fun c => set_fallingPlatform false None
                                  (set_isGrounded (bool_decide (is_Some (Some h))) c)) g)))
      as [Hc|Hc].
    - revert H. unfold groundCrumbleLogic.
      match goal with
      | |- context [segs ?G !! m] => change (segs G) with (segs g)
      end.
      destruct (segs g !! m) as [s|]; [|intros [= ->]; reflexivity].
      destruct (_ && _); [|intros [= ->]; reflexivity].
      destruct (hasMesh s); [|intros [= ->]; reflexivity].
      destruct (match rapierBody s with Some b => _ | None => _ end) as [dyn|];
        [|discriminate].
      destruct (_ && _); [intros [= ->]; reflexivity|].
      destruct (bool_decide (crumbleState s = Some STABLE)); [|intros [= ->]; reflexivity].
      rewrite (startCrumble_controller cfg). intros [= ->]. reflexivity.
    - rewrite Hc, (startCrumble_controller cfg) in H. injection H as ->. reflexivity. }
  subst m. apply findGroundSegment_Some in Hm as (i & Hi & Hb & _).
  split; [eapply list_elem_of_lookup_2; exact Hi|exact Hb].
Qed.

End GroundFlags.

Lemma ground_segment_is_active_witness :
  3%nat ∈ trackSegments passByGame.
Proof.
  assert (H : groundSegmentOf CONFIG liveEnv (Some (mkHit true (Some 3%nat))) passByGame
              = Some 3%nat) by (vm_compute; reflexivity).
  destruct (ground_segment_is_active CONFIG liveEnv _ passByGame 3 H)
    as (h & Hh & _ & Hp).
  injection Hh as <-. exact (proj1 Hp).
Defined.

Lemma ground_check_flags_witness :
  let c := playerController passByGame in
  let c' := playerController (checkGrounded CONFIG liveEnv None passByGame) in
  isGrounded c = true /\ coyoteTime c' = jump_coyoteTime CONFIG.
Proof.
  intros c c'. split; [reflexivity|].
  destruct (ground_check_flags CONFIG liveEnv None passByGame) as (_ & H & _).
  exact H.
Defined.

(** ** The input manager *)

(** An entry of the recovery queue. *)
Record QueuedInput := mkQueued {
  q_type : string;
  q_code : string;
  q_timestamp : Q
}.

(** [EnhancedInputManager]: key states, the presses of the current
    frame and the bounded queue of recent presses. The logger and the
    audio manager are collaborators; the calls that reach the game
    instance and its audio manager are kept in [im_audio]. *)
Inductive AudioCall :=
| ResumeAudio | ResumeThreeAudio | StartBackupBeep | StopBackupBeep.

Record EnhancedInputManager := mkInputManager {
  im_keys : gmap string bool;
  im_keysPressed : gmap string bool;
  im_keysPressedThisFrame : gset string;
  im_keyPressTimes : gmap string Q;
  im_inputQueue : list QueuedInput;
  im_missedInputs : nat;
  im_audio : list AudioCall
}.

Definition maxQueueSize : nat := 10.
Definition inputQueueTimeout : Q := 100.

(** [new EnhancedInputManager(logger)] *)
Definition newInputManager : EnhancedInputManager :=
  mkInputManager ∅ ∅ ∅ ∅ [] 0 [].

(** [_queueInput(input)] *)
Definition _queueInput (input : QueuedInput) (q : list QueuedInput) : list QueuedInput :=
  let q1 := (q ++ [input])%list in
  if (maxQueueSize <? length q1)%nat then tail q1 else q1.

(** The [keydown] listener; [tPress] and [tQueue] are the two readings
    of the clock it takes, [game] and [audio] say whether
    [window.gameInstance] and its audio manager exist. *)
Definition _onKeyDown (code : string) (isRepeat : bool) (tPress tQueue : Q)
    (game audio : bool) (m : EnhancedInputManager) : EnhancedInputManager :=
  if isRepeat then m
  else
    let wasPressed := default false (im_keys m !! code) in
    let keys1 := <[code := true]> (im_keys m) in
    if wasPressed then
      mkInputManager keys1 (im_keysPressed m) (im_keysPressedThisFrame m)
        (im_keyPressTimes m) (im_inputQueue m) (im_missedInputs m) (im_audio m)
    else
      mkInputManager keys1
        (<[code := true]> (im_keysPressed m))
        ({[code]} ∪ im_keysPressedThisFrame m)
        (<[code := tPress]> (im_keyPressTimes m))
        (_queueInput (mkQueued "keydown" code tQueue) (im_inputQueue m))
        (im_missedInputs m)
        (im_audio m
         ++ (if game && audio then [ResumeAudio] else [])
         ++ (if game then [ResumeThreeAudio] else [])
         ++ (if String.eqb code "KeyS" && (game && audio)
             then [StartBackupBeep] else []))%list.

(** The [keyup] listener. A press time of 0 counts as missing. *)
Definition _onKeyUp (code : string) (game audio : bool)
    (m : EnhancedInputManager) : EnhancedInputManager :=
  let times :=
    match im_keyPressTimes m !! code with
    | Some t => if Qeq_bool t 0 then im_keyPressTimes m
                else delete code (im_keyPressTimes m)
    | None => im_keyPressTimes m
    end in
  mkInputManager (<[code := false]> (im_keys m)) (im_keysPressed m)
    (im_keysPressedThisFrame m) times (im_inputQueue m) (im_missedInputs m)
    (im_audio m
     ++ (if String.eqb code "KeyS" && (game && audio)
         then [StopBackupBeep] else []))%list.

(** [_processInputQueue()] at clock reading [now] *)
Definition _processInputQueue (now : Q) (q : list QueuedInput) : list QueuedInput :=
  filter (fun input => Qltb (now - q_timestamp input) inputQueueTimeout = true) q.

(** [endFrameUpdate()] *)
Definition endFrameUpdate (now : Q) (m : EnhancedInputManager) : EnhancedInputManager :=
  mkInputManager (im_keys m) ∅ ∅ (im_keyPressTimes m)
    (_processInputQueue now (im_inputQueue m)) (im_missedInputs m) (im_audio m).

(** [recoverMissedInputs()]: the recovered entries and the manager. *)
Definition recoverMissedInputs (m : EnhancedInputManager)
    : list QueuedInput * EnhancedInputManager :=
  let recovered :=
    filter (fun input =>
              (String.eqb (q_type input) "keydown"
               && negb (default false (im_keysPressed m !! q_code input))) = true)
           (im_inputQueue m) in
  (recovered,
   mkInputManager (im_keys m) (im_keysPressed m) (im_keysPressedThisFrame m)
     (im_keyPressTimes m) (im_inputQueue m)
     (im_missedInputs m + length recovered) (im_audio m)).

(** [wasPressed(keyCode)] *)
Definition wasPressed (keyCode : string) (m : EnhancedInputManager) : bool :=
  bool_decide (keyCode ∈ im_keysPressedThisFrame m).

(** [getHoldDuration(keyCode)] at clock reading [now] *)
Definition getHoldDuration (keyCode : string) (now : Q) (m : EnhancedInputManager) : Q :=
  if negb (default false (im_keys m !! keyCode)) then 0
  else match im_keyPressTimes m !! keyCode with
       | Some t => if Qeq_bool t 0 then 0 else now - t
       | None => 0
       end.

(** [destroy()] *)
Definition destroyInput (m : EnhancedInputManager) : EnhancedInputManager :=
  mkInputManager ∅ ∅ ∅ (im_keyPressTimes m) [] (im_missedInputs m) (im_audio m).

Inductive InputEvent :=
| IeKeyDown (code : string) (isRepeat : bool) (tPress tQueue : Q)
| IeKeyUp (code : string)
| IeEndFrame (now : Q)
| IeRecover
| IeDestroy.

Section InputRuns.

Variables (game audio : bool).


Definition inputStep (e : InputEvent) (m : EnhancedInputManager) : EnhancedInputManager :=
  match e with
  | IeKeyDown code rep t1 t2 => _onKeyDown code rep t1 t2 game audio m
  | IeKeyUp code => _onKeyUp code game audio m
  | IeEndFrame now => endFrameUpdate now m
  | IeRecover => snd (recoverMissedInputs m)
  | IeDestroy => destroyInput m
  end.

Definition inputRun (es : list InputEvent) (m : EnhancedInputManager)
    : EnhancedInputManager :=
  foldl (fun m e => inputStep e m) m es.

Lemma _queueInput_bounded input q :
  (length q <= maxQueueSize)%nat -> (length (_queueInput input q) <= maxQueueSize)%nat.
Proof.
  intros H. unfold _queueInput. cbv zeta.
  destruct (maxQueueSize <? length (q ++ [input]))%nat eqn:Hlt.
  - destruct q as [|x q]; [simpl; lia|].
    change (tail ((x :: q) ++ [input])) with (q ++ [input])%list.
    rewrite length_app. simpl in *. lia.
  - apply Nat.ltb_ge in Hlt. exact Hlt.
Qed.

Lemma _queueInput_keydown input q :
  Forall (fun i => q_type i = "keydown") q -> q_type input = "keydown" ->
  Forall (fun i => q_type i = "keydown") (_queueInput input q).
Proof.
  intros Hq Hi. unfold _queueInput. cbv zeta.
  assert (H1 : Forall (fun i => q_type i = "keydown") (q ++ [input]))
    by (apply Forall_app; split; [exact Hq|repeat constructor; exact Hi]).
  destruct (_ <? _)%nat; [|exact H1].
  destruct (q ++ [input])%list as [|x l]; [constructor|].
  inversion H1; assumption.
Qed.

Definition QueueOK (m : EnhancedInputManager) : Prop :=
  (length (im_inputQueue m) <= maxQueueSize)%nat
  /\ Forall (fun i => q_type i = "keydown") (im_inputQueue m).

Lemma QueueOK_step e m : QueueOK m -> QueueOK (inputStep e m).
Proof.
  intros [Hlen Hty]. destruct e as [code rep t1 t2|code|now| |]; cbn [inputStep].
  - unfold _onKeyDown. destruct rep; [split; assumption|].
    destruct (default false (im_keys m !! code)); [split; assumption|].
    split; cbn [im_inputQueue].
    + apply _queueInput_bounded. exact Hlen.
    + apply _queueInput_keydown; [exact Hty|reflexivity].
  - split; assumption.
  - split; cbn [endFrameUpdate im_inputQueue]; unfold _processInputQueue.
    + etransitivity; [apply length_filter|exact Hlen].
    + apply Forall_forall. intros i Hi. apply list_elem_of_filter in Hi as [_ Hi].
      rewrite Forall_forall in Hty. exact (Hty i Hi).
  - split; assumption.
  - split; cbn [destroyInput im_inputQueue]; [simpl; lia|constructor].
Qed.

(** X16. The recovery queue is bounded: after any sequence of key
    events, frame ends, recoveries and destroys on a fresh input manager
    the queue holds at most [maxQueueSize] (ten) entries, all of them key
    presses; after a frame end every entry is younger than the queue
    timeout of 100 ms. *)
Theorem input_queue_bounded (es : list InputEvent) (now : Q) :
  let m := inputRun es newInputManager in
  (length (im_inputQueue m) <= maxQueueSize)%nat
  /\ Forall (fun i => q_type i = "keydown") (im_inputQueue m)
  /\ Forall (fun i => now - q_timestamp i < inputQueueTimeout)
            (im_inputQueue (endFrameUpdate now m)).
Proof.
  intros m.
  assert (H : QueueOK m).
  { subst m.
    assert (H0 : QueueOK newInputManager) by (split; [simpl; lia|constructor]).
    revert H0. generalize newInputManager.
    induction es as [|e es IH]; intros m0 H0; [exact H0|].
    simpl. apply IH. apply QueueOK_step. exact H0. }
  destruct H as [Hlen Hty]. split; [exact Hlen|]. split; [exact Hty|].
  cbn [endFrameUpdate im_inputQueue]. unfold _processInputQueue.
  apply Forall_forall. intros i Hi. apply list_elem_of_filter in Hi as [Hi _].
  apply Qltb_true. exact Hi.
Qed.

(** No event of the list releases the key or destroys the manager. *)
Definition keepsHeld (code : string) (es : list InputEvent) : Prop :=
  Forall (fun e => e <> IeKeyUp code /\ e <> IeDestroy) es.

(** X17. A press is reported once. [wasPressed] turns true for a key
    only by a key-down event that is not an auto-repeat and finds the key
    up. Hence a key that is held when a frame ends is not reported as
    pressed again, whatever key-down events, repeats, other keys and
    frame ends follow, until it is released; and it stays down. *)
Theorem press_reported_once (code : string) (now : Q) (es : list InputEvent)
    (m : EnhancedInputManager) :
  im_keys m !! code = Some true -> keepsHeld code es ->
  let m' := inputRun es (endFrameUpdate now m) in
  wasPressed code m' = false /\ im_keys m' !! code = Some true.
Proof.
  intros Hdown Hes m'. subst m'.
  assert (H0 : wasPressed code (endFrameUpdate now m) = false
               /\ im_keys (endFrameUpdate now m) !! code = Some true).
  { split; [|exact Hdown]. unfold wasPressed. apply bool_decide_eq_false.
    cbn [endFrameUpdate im_keysPressedThisFrame]. apply not_elem_of_empty. }
  revert H0. generalize (endFrameUpdate now m). clear m Hdown.
  induction es as [|e es IH]; intros m [Hw Hk]; [split; assumption|].
  inversion Hes as [|? ? [Hup Hde] Hrest]; subst.
  simpl. apply IH; [exact Hrest|].
  unfold wasPressed in *. apply bool_decide_eq_false in Hw.
  destruct e as [c rep t1 t2|c|t| |]; cbn [inputStep].
  - unfold _onKeyDown. destruct rep; [split; [apply bool_decide_eq_false|]; assumption|].
    destruct (decide (c = code)) as [->|Hne].
    + rewrite Hk. cbn [default im_keysPressedThisFrame im_keys].
      split; [apply bool_decide_eq_false; exact Hw|apply lookup_insert_eq].
    + destruct (default false (im_keys m !! c));
        cbn [im_keysPressedThisFrame im_keys].
      * split; [apply bool_decide_eq_false; exact Hw|].
        rewrite lookup_insert_ne by exact Hne. exact Hk.
      * split; [|rewrite lookup_insert_ne by exact Hne; exact Hk].
        apply bool_decide_eq_false. rewrite elem_of_union, elem_of_singleton.
        intros [Heq|Hin]; [congruence|contradiction].
  - assert (Hne : c <> code) by (intros ->; apply Hup; reflexivity).
    cbn [_onKeyUp im_keysPressedThisFrame im_keys].
    split; [apply bool_decide_eq_false; exact Hw|].
    rewrite lookup_insert_ne by exact Hne. exact Hk.
  - cbn [endFrameUpdate im_keysPressedThisFrame im_keys].
    split; [apply bool_decide_eq_false; apply not_elem_of_empty|exact Hk].
  - split; [apply bool_decide_eq_false; exact Hw|exact Hk].
  - exfalso. apply Hde. reflexivity.
Qed.

End InputRuns.

Lemma press_reported_once_witness :
  let m := _onKeyDown "Space" false 10 10 true true newInputManager in
  wasPressed "Space" m = true
  /\ wasPressed "Space"
       (inputRun true true
          [IeKeyDown "Space" false 30 30; IeKeyDown "KeyW" false 31 31]
          (endFrameUpdate 16 m)) = false.
Proof.
  intros m. split; [reflexivity|].
  refine (proj1 (press_reported_once true true "Space" 16 _ m _ _)).
  - reflexivity.
  - repeat constructor; discriminate.
Defined.

(** ** The segment pool *)

(** A property of a script object that may be absent, [null] or set. *)
Inductive JsOpt (A : Type) := Undef | Null | Val (a : A).
Arguments Undef {A}.
Arguments Null {A}.
Arguments Val {A} a.

(** The segment object as the pool sees it: the fields of
    [createSegment] and the transient ones that [resetSegment] clears.
    Meshes, bodies, joints and damage zones are references. *)
Record PoolSegment := mkPoolSegment {
  ps_index : Q;
  ps_x : Q;
  ps_z : Q;
  ps_height : Q;
  ps_rotation : Q;
  ps_threeMeshes : list nat;
  ps_rapierBody : option nat;
  ps_dynamic : bool;
  ps_damageZones : list nat;
  ps_rapierHingeBody : option nat;
  ps_rapierJoint : option nat;
  ps_moveType : JsOpt string;
  ps_origin : JsOpt Vec3;
  ps_angle : JsOpt Q;
  ps_dir : JsOpt Q;
  ps_pause : JsOpt Q;
  ps_extentX : JsOpt Q;
  ps_extentY : JsOpt Q;
  ps_spdT : JsOpt Q;
  ps_spdR : JsOpt Q;
  ps_spdRFree : JsOpt Q;
  ps_rotLimitXDeg : JsOpt Q;
  ps_rotLimitZDeg : JsOpt Q;
  ps_isCrumblePlatform : JsOpt bool
}.

(** [SegmentPool]: the stack of pooled objects; [sp_disposed] collects
    the meshes whose resources [destroySegment] released. *)
Record SegmentPool := mkSegmentPool {
  sp_pool : list PoolSegment;
  sp_disposed : list nat
}.

Definition maxPoolSize : nat := 20.

Definition newSegmentPool : SegmentPool := mkSegmentPool [] [].

(** [createSegment()] *)
Definition createSegment : PoolSegment :=
  mkPoolSegment 0 0 0 0 0 [] None false [] None None
    Undef Undef Undef Undef Undef Undef Undef Undef Undef Undef Undef Undef Undef.

(** [resetSegment(segment)] *)
Definition resetSegment (s : PoolSegment) : PoolSegment :=
  mkPoolSegment 0 0 0 0 0 [] None false [] None None
    Null Null (Val 0) (Val 0) (Val 0) Undef Undef Undef Undef Undef Undef Undef
    (Val false).

(** [destroySegment(segment)] *)
Definition destroySegment (s : PoolSegment) (p : SegmentPool) : SegmentPool :=
  mkSegmentPool (sp_pool p) (sp_disposed p ++ ps_threeMeshes s)%list.

(** [getSegment()]: [this.pool.pop() || this.createSegment()] *)
Definition getSegment (p : SegmentPool) : PoolSegment * SegmentPool :=
  match last (sp_pool p) with
  | Some s => (s, mkSegmentPool (removelast (sp_pool p)) (sp_disposed p))
  | None => (createSegment, p)
  end.

(** [returnSegment(segment)] *)
Definition returnSegment (s : PoolSegment) (p : SegmentPool) : SegmentPool :=
  if (length (sp_pool p) <? maxPoolSize)%nat
  then mkSegmentPool (sp_pool p ++ [resetSegment s])%list (sp_disposed p)
  else destroySegment s p.

Inductive PoolOp := PoolGet | PoolReturn (s : PoolSegment).

Definition poolStep (op : PoolOp) (p : SegmentPool) : SegmentPool :=
  match op with
  | PoolGet => snd (getSegment p)
  | PoolReturn s => returnSegment s p
  end.

Definition poolRun (ops : list PoolOp) (p : SegmentPool) : SegmentPool :=
  foldl (fun p op => poolStep op p) p ops.

(** A segment that carries nothing over from an earlier use. *)
Definition falsy {A} (isTrue : A -> bool) (v : JsOpt A) : bool :=
  match v with Val a => negb (isTrue a) | _ => true end.

Record Blank (s : PoolSegment) : Prop := mkBlank {
  blank_index : ps_index s = 0;
  blank_place : ps_x s = 0 /\ ps_z s = 0 /\ ps_height s = 0 /\ ps_rotation s = 0;
  blank_meshes : ps_threeMeshes s = [];
  blank_physics : ps_rapierBody s = None /\ ps_rapierHingeBody s = None
                  /\ ps_rapierJoint s = None /\ ps_dynamic s = false;
  blank_zones : ps_damageZones s = [];
  blank_crumble : falsy (fun b : bool => b) (ps_isCrumblePlatform s) = true;
  blank_motion : match ps_moveType s with Val _ => False | _ => True end
}.

Lemma Blank_create : Blank createSegment.
Proof. split; repeat split. Qed.

Lemma Blank_reset s : Blank (resetSegment s).
Proof. split; repeat split. Qed.

Definition PoolOK (p : SegmentPool) : Prop :=
  (length (sp_pool p) <= maxPoolSize)%nat /\ Forall Blank (sp_pool p).

Lemma removelast_length {A} (l : list A) : (length (removelast l) <= length l)%nat.
Proof.
  induction l as [|x l IH]; [simpl; lia|].
  destruct l as [|y l]; [simpl; lia|].
  change (removelast (x :: y :: l)) with (x :: removelast (y :: l)).
  simpl in *. lia.
Qed.

Lemma removelast_Forall {A} (P : A -> Prop) (l : list A) :
  Forall P l -> Forall P (removelast l).
Proof.
  induction 1 as [|x l Hx Hl IH]; [constructor|].
  destruct l as [|y l]; [constructor|].
  change (removelast (x :: y :: l)) with (x :: removelast (y :: l)).
  constructor; assumption.
Qed.

Lemma PoolOK_step op p : PoolOK p -> PoolOK (poolStep op p).
Proof.
  intros [Hlen Hall]. destruct op as [|s]; cbn [poolStep].
  - unfold getSegment. destruct (last (sp_pool p)); cbn [snd sp_pool]; [|split; assumption].
    split; cbn [sp_pool]; [pose proof (removelast_length (sp_pool p)); lia|].
    apply removelast_Forall. exact Hall.
  - unfold returnSegment. destruct (length (sp_pool p) <? maxPoolSize)%nat eqn:Hlt.
    + apply Nat.ltb_lt in Hlt. split; cbn [sp_pool].
      * rewrite length_app. simpl. lia.
      * apply Forall_app. split; [exact Hall|]. constructor; [apply Blank_reset|constructor].
    + split; assumption.
Qed.

(** X18. The pool stays small and hands out blank segments. After any
    sequence of [getSegment] and [returnSegment] calls on a fresh pool it
    holds at most [maxPoolSize] (twenty) objects, and the segment the next
    [getSegment] returns, recycled or new, has index 0, no meshes, no
    body, hinge or joint, no damage zones, no crumble flag and no motion
    type left from an earlier use. *)
Theorem pool_hands_out_blank_segments (ops : list PoolOp) :
  let p := poolRun ops newSegmentPool in
  (length (sp_pool p) <= maxPoolSize)%nat
  /\ Blank (fst (getSegment p))
  /\ (length (sp_pool (snd (getSegment p))) <= maxPoolSize)%nat.
Proof.
  intros p.
  assert (H : PoolOK p).
  { subst p. assert (H0 : PoolOK newSegmentPool) by (split; [simpl; lia|constructor]).
    revert H0. generalize newSegmentPool.
    induction ops as [|op ops IH]; intros p0 H0; [exact H0|].
    simpl. apply IH. apply PoolOK_step. exact H0. }
  split; [exact (proj1 H)|]. split; [|exact (proj1 (PoolOK_step PoolGet p H))].
  destruct H as [_ Hall]. unfold getSegment.
  destruct (last (sp_pool p)) as [s|] eqn:Hlast; cbn [fst]; [|apply Blank_create].
  rewrite Forall_forall in Hall. apply Hall.
  rewrite last_lookup in Hlast. eapply list_elem_of_lookup_2. exact Hlast.
Qed.

(** X19. Returning and taking is a round trip: while the pool is not
    full, a returned segment comes back from the very next [getSegment],
    reset, and the pool is as before. A segment returned to a full pool
    is not kept: its meshes are disposed of and the pool is unchanged. *)
Theorem pool_return_then_get (s : PoolSegment) (p : SegmentPool) :
  (if (length (sp_pool p) <? maxPoolSize)%nat
   then getSegment (returnSegment s p) = (resetSegment s, p)
   else returnSegment s p
        = mkSegmentPool (sp_pool p) (sp_disposed p ++ ps_threeMeshes s)%list).
Proof.
  unfold returnSegment. destruct (length (sp_pool p) <? maxPoolSize)%nat; [|reflexivity].
  unfold getSegment. cbn [sp_pool sp_disposed].
  rewrite last_snoc, removelast_last. destruct p; reflexivity.
Qed.

(** ** Menu navigation *)

(** [MenuNavigator]: the focusable elements of the current menu (as
    element references), the index of the focused one, the elements that
    show the focus outline and the clicks made. *)
Record MenuNavigator := mkMenuNavigator {
  mn_currentMenu : option string;
  mn_focusable : list nat;
  mn_index : Z;
  mn_outlined : gset nat;
  mn_clicked : list nat
}.

Definition newMenuNavigator : MenuNavigator :=
  mkMenuNavigator None [] 0 ∅ [].

(** [this.focusable[this.index]] *)
Definition focusedElement (m : MenuNavigator) : option nat :=
  if (mn_index m <? 0)%Z then None else mn_focusable m !! Z.to_nat (mn_index m).

(** [updateFocus()]: the outlines of the listed elements are cleared,
    the current element, if there is one, gets it. *)
Definition updateFocus (m : MenuNavigator) : MenuNavigator :=
  mkMenuNavigator (mn_currentMenu m) (mn_focusable m) (mn_index m)
    ((mn_outlined m ∖ list_to_set (mn_focusable m))
     ∪ match focusedElement m with Some el => {[el]} | None => ∅ end)
    (mn_clicked m).

(** [setMenu(id)]; [found] is what the document has under [id]: nothing,
    or the menu's focusable elements. *)
Definition setMenu (id : string) (found : option (list nat)) (m : MenuNavigator)
    : MenuNavigator :=
  match found with
  | None =>
      mkMenuNavigator None (mn_focusable m) (mn_index m) (mn_outlined m) (mn_clicked m)
  | Some els =>
      updateFocus (mkMenuNavigator (Some id) els 0 (mn_outlined m) (mn_clicked m))
  end.

(** [clear()] *)
Definition clearMenu (m : MenuNavigator) : MenuNavigator :=
  mkMenuNavigator None [] 0 (mn_outlined m) (mn_clicked m).

(** [move(d)]; the remainder is the truncating one of the script. *)
Definition move (d : Z) (m : MenuNavigator) : MenuNavigator :=
  match mn_focusable m with
  | [] => m
  | _ =>
      let n := Z.of_nat (length (mn_focusable m)) in
      updateFocus
        (mkMenuNavigator (mn_currentMenu m) (mn_focusable m)
           (Z.rem (mn_index m + d + n) n) (mn_outlined m) (mn_clicked m))
  end.

(** [activate()]: the click on the focused element; [None] when the
    index points at no element and the call throws. *)
Definition activate (m : MenuNavigator) : option MenuNavigator :=
  match mn_focusable m with
  | [] => Some m
  | _ =>
      match focusedElement m with
      | Some el =>
          Some (mkMenuNavigator (mn_currentMenu m) (mn_focusable m) (mn_index m)
                  (mn_outlined m) (mn_clicked m ++ [el])%list)
      | None => None
      end
  end.

Inductive NavKey := NavUp | NavDown | NavActivate | NavOther.

(** [onKey(e)]: ArrowUp or W, ArrowDown or S, Enter or Space. *)
Definition onKey (k : NavKey) (m : MenuNavigator) : option MenuNavigator :=
  match mn_currentMenu m with
  | None => Some m
  | Some _ =>
      match k with
      | NavUp => Some (move (-1) m)
      | NavDown => Some (move 1 m)
      | NavActivate => activate m
      | NavOther => Some m
      end
  end.

Inductive NavEvent :=
| NavKeyDown (k : NavKey)
| NavSetMenu (id : string) (found : option (list nat))
| NavClear.

Definition navStep (e : NavEvent) (m : MenuNavigator) : option MenuNavigator :=
  match e with
  | NavKeyDown k => onKey k m
  | NavSetMenu id found => Some (setMenu id found m)
  | NavClear => Some (clearMenu m)
  end.

Fixpoint navRun (es : list NavEvent) (m : MenuNavigator) : option MenuNavigator :=
  match es with
  | [] => Some m
  | e :: es' => match navStep e m with Some m' => navRun es' m' | None => None end
  end.

(** The index points into the list, or the list is empty and the index
    is 0. *)
Definition IndexOK (m : MenuNavigator) : Prop :=
  match mn_focusable m with
  | [] => mn_index m = 0%Z
  | _ => (0 <= mn_index m < Z.of_nat (length (mn_focusable m)))%Z
  end.

Lemma wrap_down i n :
  (0 <= i < n)%Z -> Z.rem (i + 1 + n) n = (if decide (i + 1 = n) then 0 else i + 1)%Z.
Proof.
  intros H. rewrite Z.rem_mod_nonneg by lia. symmetry.
  destruct (decide (i + 1 = n)%Z).
  - apply (Z.mod_unique_pos _ _ 2); lia.
  - apply (Z.mod_unique_pos _ _ 1); lia.
Qed.

Lemma wrap_up i n :
  (0 <= i < n)%Z -> Z.rem (i + -1 + n) n = (if decide (i = 0) then n - 1 else i - 1)%Z.
Proof.
  intros H. rewrite Z.rem_mod_nonneg by lia. symmetry.
  destruct (decide (i = 0)%Z).
  - apply (Z.mod_unique_pos _ _ 0); lia.
  - apply (Z.mod_unique_pos _ _ 1); lia.
Qed.

Lemma move_IndexOK d m :
  (-1 <= d)%Z -> IndexOK m -> IndexOK (move d m).
Proof.
  unfold IndexOK, move. destruct (mn_focusable m) as [|x l] eqn:Hl.
  - intros _ Hi. rewrite ?Hl. exact Hi.
  - intros Hd Hi. cbn [updateFocus mn_focusable mn_index]. rewrite ?Hl.
    set (n := Z.of_nat (length (x :: l))) in *.
    assert (Hn : (0 < n)%Z) by (subst n; simpl; lia).
    rewrite Z.rem_mod_nonneg by lia. apply Z.mod_pos_bound. exact Hn.
Qed.

Lemma navStep_IndexOK e m :
  IndexOK m -> exists m', navStep e m = Some m' /\ IndexOK m'.
Proof.
  intros Hi. destruct e as [k|id found|]; cbn [navStep].
  - unfold onKey. destruct (mn_currentMenu m); [|eauto].
    destruct k.
    + eexists; split; [reflexivity|]. apply move_IndexOK; [lia|exact Hi].
    + eexists; split; [reflexivity|]. apply move_IndexOK; [lia|exact Hi].
    + unfold activate, focusedElement. unfold IndexOK in Hi.
      destruct (mn_focusable m) as [|x l] eqn:Hl; [exists m; split; [reflexivity|]|].
      * unfold IndexOK. rewrite ?Hl. exact Hi.
      * destruct (mn_index m <? 0)%Z eqn:Hneg; [apply Z.ltb_lt in Hneg; lia|].
        destruct (lookup_lt_is_Some_2 (x :: l) (Z.to_nat (mn_index m))) as [el Hel];
          [simpl in *; lia|].
        rewrite Hel. eexists; split; [reflexivity|].
        unfold IndexOK. cbn [mn_focusable mn_index]. rewrite ?Hl. exact Hi.
    + eauto.
  - destruct found as [els|]; cbn [setMenu].
    + eexists; split; [reflexivity|]. unfold IndexOK.
      cbn [updateFocus mn_focusable mn_index]. destruct els; simpl; lia.
    + eexists; split; [reflexivity|]. exact Hi.
  - eexists; split; [reflexivity|]. reflexivity.
Qed.

(** X20. Keyboard navigation never leaves the menu: after any sequence
    of key presses, menu changes and clears on a fresh navigator no call
    has thrown, and the focus index points at an element of the current
    list (or is 0 while the list is empty), so that Enter always clicks
    an existing element. Moving down and then up, or up and then down,
    returns to the same element: the focus wraps around at both ends. *)
Theorem menu_focus_stays_in_bounds (es : list NavEvent) :
  exists m, navRun es newMenuNavigator = Some m
    /\ IndexOK m
    /\ mn_index (move (-1) (move 1 m)) = mn_index m
    /\ mn_index (move 1 (move (-1) m)) = mn_index m.
Proof.
  assert (Hrun : forall m0, IndexOK m0 ->
            exists m, navRun es m0 = Some m /\ IndexOK m).
  { induction es as [|e es IH]; intros m0 H0; [eauto|].
    destruct (navStep_IndexOK e m0 H0) as (m1 & H1 & Hi1).
    simpl. rewrite H1. apply IH. exact Hi1. }
  destruct (Hrun newMenuNavigator eq_refl) as (m & Hm & Hi).
  exists m. split; [exact Hm|]. split; [exact Hi|].
  unfold IndexOK in Hi. unfold move.
  destruct (mn_focusable m) as [|x l] eqn:Hl.
  - rewrite ?Hl. split; reflexivity.
  - cbn [updateFocus mn_focusable mn_index]. rewrite ?Hl.
    cbn [updateFocus mn_focusable mn_index].
    set (n := Z.of_nat (length (x :: l))) in *.
    rewrite (wrap_down (mn_index m) n Hi), (wrap_up (mn_index m) n Hi).
    split.
    + destruct (decide (mn_index m + 1 = n)%Z).
      * rewrite wrap_up by lia. rewrite decide_True by reflexivity. lia.
      * rewrite wrap_up by lia. rewrite decide_False by lia. lia.
    + destruct (decide (mn_index m = 0)%Z).
      * rewrite wrap_down by lia. rewrite decide_True by lia. lia.
      * rewrite wrap_down by lia. rewrite decide_False by lia. lia.
Qed.

(** ** Rising lava *)

(** The rising-lava part of the game: whether the mode is active and
    the lava mesh exists, the tracked height, the rise speed of this run
    and the shader time (when the uniforms exist). *)
Record RisingLava := mkRisingLava {
  risingLavaActive : bool;
  rl_hasMesh : bool;
  currentLavaHeight : Q;
  rl_meshY : Q;
  _risingLavaSpeed : Q;
  rl_uTime : option Q
}.

(** [updateRisingLava(dt)] *)
Definition updateRisingLava (dt : Q) (rl : RisingLava) : RisingLava :=
  let riseAmount := _risingLavaSpeed rl * dt in
  let h := currentLavaHeight rl + riseAmount in
  mkRisingLava (risingLavaActive rl) (rl_hasMesh rl) h h
    (_risingLavaSpeed rl + 0.05 * dt)
    ((fun t => t + dt) <$> rl_uTime rl).

Section RisingLavaContact.

Variable cfg : Config.

(** [checkRisingLavaCollision()]; the hurt loop of the audio manager and
    the charred look are not part of the model. *)
Definition checkRisingLavaCollision (rl : RisingLava) (g : Game) : Game :=
  if negb (playerBody g) then g
  else if isDead (playerController g) then g
  else
    let playerPos := translation (playerController g) in
    let playerBottomY := vy playerPos - (player_height cfg + player_radius cfg) in
    if Qleb playerBottomY (currentLavaHeight rl)
    then with_controller (die cfg "rising_lava") g
    else g.

(** The rising-lava block of [Game.animate]. *)
Definition risingLavaFrame (clampedDt : Q) (inMainMenu : bool)
    (st : RisingLava * Game) : RisingLava * Game :=
  let '(rl, g) := st in
  if risingLavaActive rl && rl_hasMesh rl && negb (_isCleaningUp g) && running g then
    let rl1 := updateRisingLava clampedDt rl in
    (rl1, if negb inMainMenu then checkRisingLavaCollision rl1 g else g)
  else st.

(** X21. The rising lava kills on touch, without tolerance: with the
    player's body in place and the player alive, a capsule bottom at or
    below the current lava height means death with reason "rising_lava",
    whatever the health, which is not changed; a bottom above the lava
    changes nothing, and neither does the check on a dead player. *)
Theorem rising_lava_contact_rule (rl : RisingLava) (g : Game) :
  FInv (playerController g) -> playerBody g = true ->
  let c := playerController g in
  let g' := checkRisingLavaCollision rl g in
  let c' := playerController g' in
  (isDead c = false -> playerBottom cfg g <= currentLavaHeight rl ->
     isDead c' = true /\ health c' = health c
     /\ PlayerDied "rising_lava" ∈ signals c')
  /\ (currentLavaHeight rl < playerBottom cfg g -> g' = g)
  /\ (isDead c = true -> g' = g).
Proof.
  intros Hinv Hbody c g' c'. subst c' g' c. unfold checkRisingLavaCollision, playerBottom.
  rewrite Hbody. cbn [negb]. split; [|split].
  - intros Halive Hlow. rewrite Halive. apply Qleb_true in Hlow. rewrite Hlow.
    unfold with_controller. cbn [playerController set_playerController].
    destruct (die_kills cfg "rising_lava" (playerController g) Hinv Halive)
      as (Hd & _ & Hh & _ & l & Hl).
    split; [exact Hd|]. split; [exact Hh|]. rewrite Hl.
    apply elem_of_app. right. right. left.
  - intros Hhigh. apply Qleb_false in Hhigh. rewrite Hhigh.
    destruct (isDead _); reflexivity.
  - intros ->. reflexivity.
Qed.

End RisingLavaContact.

(** [n] frames of the same length. *)
Fixpoint riseFrames (n : nat) (dt : Q) (rl : RisingLava) : RisingLava :=
  match n with
  | O => rl
  | S k => updateRisingLava dt (riseFrames k dt rl)
  end.

(** X22. The lava accelerates: after [n] updates with the same time step
    the rise speed has grown by [0.05 * n * dt] and the height by
    [n * speed * dt + 0.05 * dt^2 * n (n - 1) / 2]; the mesh follows the
    tracked height. With a time step and a speed that are not negative
    the lava never sinks. *)
Theorem rising_lava_profile (n : nat) (dt : Q) (rl : RisingLava) :
  let k := inject_Z (Z.of_nat n) in
  let rl' := riseFrames n dt rl in
  _risingLavaSpeed rl' == _risingLavaSpeed rl + 0.05 * k * dt
  /\ currentLavaHeight rl' ==
     currentLavaHeight rl + k * _risingLavaSpeed rl * dt
     + 0.05 * dt * dt * (k * (k - 1) / 2)
  /\ (n <> O -> rl_meshY rl' = currentLavaHeight rl')
  /\ (0 <= dt -> 0 <= _risingLavaSpeed rl ->
      currentLavaHeight rl <= currentLavaHeight rl').
Proof.
  induction n as [|n IH].
  - cbv zeta. cbn [riseFrames]. change (inject_Z (Z.of_nat 0)) with 0.
    split; [ring|]. split; [field|]. split; [congruence|]. intros; lra.
  - cbv zeta in *. destruct IH as (Hs & Hh & _ & Hmono).
    change (riseFrames (S n) dt rl) with (updateRisingLava dt (riseFrames n dt rl)).
    cbn [updateRisingLava _risingLavaSpeed currentLavaHeight rl_meshY].
    rewrite Nat2Z.inj_succ. unfold Z.succ. rewrite inject_Z_plus.
    change (inject_Z 1) with 1.
    set (k := inject_Z (Z.of_nat n)) in *.
    assert (Hk : 0 <= k).
    { subst k. change 0 with (inject_Z 0). rewrite <- Zle_Qle. lia. }
    split; [rewrite Hs; ring|]. split; [rewrite Hh, Hs; field|].
    split; [reflexivity|]. intros Hdt Hv. specialize (Hmono Hdt Hv).
    rewrite Hs. assert (0 <= k * dt) by nra.
    assert (0 <= (_risingLavaSpeed rl + 0.05 * k * dt) * dt) by nra. lra.
Qed.

(** ** Speed modifiers *)

Record SpeedMod := mkSpeedMod {
  sm_multiplier : Q;
  sm_timeLeft : Q
}.

Record SpeedMods := mkSpeedMods {
  activeSpeedMods : list SpeedMod;
  currentSpeedMultiplier : Q
}.

(** [addSpeedModifier(multiplier, duration)]; a multiplier that is not
    a finite number is [None]. *)
Definition addSpeedModifier (multiplier : option Q) (duration : Q) (s : SpeedMods)
    : SpeedMods :=
  match multiplier with
  | None => s
  | Some m =>
      if Qleb m 0 then s
      else mkSpeedMods (activeSpeedMods s ++ [mkSpeedMod m duration])%list
             (currentSpeedMultiplier s)
  end.

(** [_updateSpeedModifiers(dt)] *)
Definition _updateSpeedModifiers (dt : Q) (s : SpeedMods) : SpeedMods :=
  match activeSpeedMods s with
  | [] => mkSpeedMods [] 1
  | _ =>
      let aged := map (fun m => mkSpeedMod (sm_multiplier m) (sm_timeLeft m - dt))
                      (activeSpeedMods s) in
      let total :=
        foldl (fun t m => if Qltb 0 (sm_timeLeft m) then t * sm_multiplier m else t)
              1 aged in
      mkSpeedMods (filter (fun m => Qltb 0 (sm_timeLeft m) = true) aged)
                  (Qmin 5 total)
  end.

Inductive SpeedOp :=
| SpeedAdd (multiplier : option Q) (duration : Q)
| SpeedTick (dt : Q).

Definition speedStep (op : SpeedOp) (s : SpeedMods) : SpeedMods :=
  match op with
  | SpeedAdd m d => addSpeedModifier m d s
  | SpeedTick dt => _updateSpeedModifiers dt s
  end.

Definition SpeedOK (s : SpeedMods) : Prop :=
  Forall (fun m => 0 < sm_multiplier m) (activeSpeedMods s)
  /\ 0 <= currentSpeedMultiplier s <= 5.

Lemma speed_total_nonneg (l : list SpeedMod) (t : Q) :
  Forall (fun m => 0 < sm_multiplier m) l -> 0 <= t ->
  0 <= foldl (fun t m => if Qltb 0 (sm_timeLeft m) then t * sm_multiplier m else t) t l.
Proof.
  intros Hl. revert t. induction Hl as [|m l Hm _ IH]; intros t Ht; [exact Ht|].
  simpl. apply IH. destruct (Qltb 0 (sm_timeLeft m)); [nra|exact Ht].
Qed.

Lemma SpeedOK_step op s : SpeedOK s -> SpeedOK (speedStep op s).
Proof.
  intros [Hall Hcur]. destruct op as [[m|] d|dt]; cbn [speedStep].
  - unfold addSpeedModifier. destruct (Qleb m 0) eqn:Hm; [split; assumption|].
    apply Qleb_false in Hm. split; [|exact Hcur]. cbn [activeSpeedMods].
    apply Forall_app. split; [exact Hall|]. constructor; [exact Hm|constructor].
  - split; assumption.
  - unfold _updateSpeedModifiers. destruct (activeSpeedMods s) as [|x l] eqn:Hl.
    + split; [constructor|]. cbn [currentSpeedMultiplier]. lra.
    + cbv zeta. cbn [activeSpeedMods currentSpeedMultiplier].
      set (aged := map _ (x :: l)).
      assert (Haged : Forall (fun m => 0 < sm_multiplier m) aged).
      { unfold aged. apply Forall_forall. intros m Hm.
        apply list_elem_of_fmap in Hm as (m0 & -> & Hm0).
        rewrite Forall_forall in Hall. exact (Hall m0 Hm0). }
      split.
      * apply Forall_forall. intros m Hm. apply list_elem_of_filter in Hm as [_ Hm].
        rewrite Forall_forall in Haged. exact (Haged m Hm).
      * pose proof (speed_total_nonneg aged 1 Haged) as Hpos.
        assert (H1 : 0 <= 1) by lra. specialize (Hpos H1). revert Hpos.
        generalize (foldl (fun t m => if Qltb 0 (sm_timeLeft m)
                                      then t * sm_multiplier m else t) 1 aged).
        intros t Ht. destruct (Q.min_spec 5 t) as [[H5 Hm]|[H5 Hm]];
          revert Hm; generalize (Qmin 5 t); intros q Hq; split;
          cbn [currentSpeedMultiplier]; lra.
Qed.

(** X23. Speed boosts are kept in check: after any sequence of
    [addSpeedModifier] and [_updateSpeedModifiers] calls, starting
    without modifiers at multiplier 1, the multiplier is never above 5
    and never negative, however many boosts are stacked; every modifier
    kept has a positive multiplier, so one that is zero, negative or not
    a finite number is never taken on; right after an update every
    modifier kept has time left; and an update that finds no modifier
    puts the multiplier back to exactly 1. (The bound below is 0, not
    more: a product of binary64 multipliers can underflow.) *)
Theorem speed_multiplier_clamped (ops : list SpeedOp) (dt : Q) :
  let s := foldl (fun s op => speedStep op s) (mkSpeedMods [] 1) ops in
  0 <= currentSpeedMultiplier s <= 5
  /\ Forall (fun m => 0 < sm_multiplier m) (activeSpeedMods s)
  /\ Forall (fun m => 0 < sm_timeLeft m) (activeSpeedMods (_updateSpeedModifiers dt s))
  /\ (activeSpeedMods s = [] ->
      currentSpeedMultiplier (_updateSpeedModifiers dt s) = 1).
Proof.
  intros s.
  assert (H : SpeedOK s).
  { subst s. assert (H0 : SpeedOK (mkSpeedMods [] 1)).
    { split; [constructor|]. cbn [currentSpeedMultiplier]. lra. }
    revert H0. generalize (mkSpeedMods [] 1).
    induction ops as [|op ops IH]; intros s0 H0; [exact H0|].
    simpl. apply IH. apply SpeedOK_step. exact H0. }
  destruct H as [Hall Hcur]. split; [exact Hcur|]. split; [exact Hall|]. split.
  - unfold _updateSpeedModifiers. destruct (activeSpeedMods s); [constructor|].
    cbv zeta. cbn [activeSpeedMods]. apply Forall_forall. intros m Hm.
    apply list_elem_of_filter in Hm as [Hm _]. apply Qltb_true. exact Hm.
  - intros Hnil. unfold _updateSpeedModifiers. rewrite Hnil. reflexivity.
Qed.

(** ** Spikes *)

Definition isDamageSound (s : Signal) : bool :=
  match s with PlaySound name => bool_decide (name = "damage") | _ => false end.

(** How often the damage sound was played so far. *)
Fixpoint damageSounds (l : list Signal) : nat :=
  match l with
  | [] => 0
  | s :: rest => ((if isDamageSound s then 1 else 0) + damageSounds rest)%nat
  end.

Lemma damageSounds_app l1 l2 :
  damageSounds (l1 ++ l2)%list = (damageSounds l1 + damageSounds l2)%nat.
Proof. induction l1 as [|s l1 IH]; simpl; [reflexivity|]. rewrite IH. lia. Qed.

(** A spike's damage zone. *)
Record DamageZone := mkDamageZone {
  dz_removed : bool;
  dz_platformBody : option nat;
  dz_localOffset : Vec3;
  dz_radius : Q;
  dz_height : Q;
  dz_damage : Q;
  dz_cooldown : Q;
  dz_parentSection : nat
}.

Definition set_cooldown (q : Q) (z : DamageZone) : DamageZone :=
  mkDamageZone (dz_removed z) (dz_platformBody z) (dz_localOffset z) (dz_radius z)
    (dz_height z) (dz_damage z) q (dz_parentSection z).

Definition set_removed (b : bool) (z : DamageZone) : DamageZone :=
  mkDamageZone b (dz_platformBody z) (dz_localOffset z) (dz_radius z)
    (dz_height z) (dz_damage z) (dz_cooldown z) (dz_parentSection z).

(** What the physics engine says about a platform body: its translation,
    and its rotation as the map applied to a local offset. *)
Record ZonePose := mkZonePose {
  zp_translation : Vec3;
  zp_rotate : Vec3 -> Vec3
}.

(** The player and the [hadContact] flags of the obstacle sections. *)
Record HazardState := mkHazardState {
  hs_player : Controller;
  hs_hadContact : list bool
}.

Section Spikes.

Variable cfg : Config.
(** [CONFIG.track.segmentLength] *)
Variable segmentLength : Q.
(** [pose h] is [None] when reading the body [h] throws. *)
Variable pose : nat -> option ZonePose.

(** The body of the [forEach] of [_checkSegmentDamageZones]. *)
Definition zoneCheck (playerPos : Vec3) (dt : Q) (st : HazardState)
    (zone : DamageZone) : DamageZone * HazardState :=
  let maxCheckDistSq := (segmentLength * 2) * (segmentLength * 2) in
  if dz_removed zone then (zone, st)
  else match dz_platformBody zone with
  | None => (zone, st)
  | Some body =>
    if isDead (hs_player st) then (zone, st)
    else match pose body with
    | None => (set_removed true zone, st)
    | Some p =>
      let pPos := zp_translation p in
      let pDx := vx playerPos - vx pPos in
      let pDz := vz playerPos - vz pPos in
      if Qltb maxCheckDistSq (pDx * pDx + pDz * pDz) then (zone, st)
      else
        let r := zp_rotate p (dz_localOffset zone) in
        let spikePos := mkVec3 (vx r + vx pPos) (vy r + vy pPos) (vz r + vz pPos) in
        let dx := vx playerPos - vx spikePos in
        let dz := vz playerPos - vz spikePos in
        let d2 := dx * dx + dz * dz in
        let combined := dz_radius zone + player_radius cfg in
        let playerBottom := vy playerPos - (player_height cfg + player_radius cfg) in
        let spikeBottom := vy spikePos - dz_height zone / 2 in
        let hit :=
          Qltb d2 (combined * combined)
          && Qltb playerBottom (spikeBottom + dz_height zone)
          && Qleb (dz_cooldown zone) 0 in
        let zone1 := if hit then set_cooldown 1 zone else zone in
        let st1 :=
          if hit then
            mkHazardState (takeDamage cfg (dz_damage zone) (hs_player st))
              (<[dz_parentSection zone := true]> (hs_hadContact st))
          else st in
        (if Qltb 0 (dz_cooldown zone1)
         then set_cooldown (dz_cooldown zone1 - dt) zone1 else zone1, st1)
    end
  end.

(** [_checkSegmentDamageZones(segment, playerPos, dt)] on the zones of
    the segment. *)
Fixpoint _checkSegmentDamageZones (playerPos : Vec3) (dt : Q)
    (zones : list DamageZone) (st : HazardState) : list DamageZone * HazardState :=
  match zones with
  | [] => ([], st)
  | zone :: rest =>
      let '(zone', st1) := zoneCheck playerPos dt st zone in
      let '(rest', st2) := _checkSegmentDamageZones playerPos dt rest st1 in
      (zone' :: rest', st2)
  end.

End Spikes.

(** One physics step as the spikes of a segment see it. *)
Record SpikeTick := mkSpikeTick {
  tk_pose : nat -> option ZonePose;
  tk_playerPos : Vec3;
  tk_dt : Q
}.

Fixpoint spikeRun (cfg : Config) (segmentLength : Q) (ticks : list SpikeTick)
    (zones : list DamageZone) (st : HazardState) : list DamageZone * HazardState :=
  match ticks with
  | [] => (zones, st)
  | t :: rest =>
      let '(zones1, st1) :=
        _checkSegmentDamageZones cfg segmentLength (tk_pose t) (tk_playerPos t)
          (tk_dt t) zones st in
      spikeRun cfg segmentLength rest zones1 st1
  end.

Fixpoint elapsed (ticks : list SpikeTick) : Q :=
  match ticks with
  | [] => 0
  | t :: rest => tk_dt t + elapsed rest
  end.

(** The time the zones still have to wait, summed. *)
Fixpoint heat (zones : list DamageZone) : Q :=
  match zones with
  | [] => 0
  | z :: rest => Qmax 0 (dz_cooldown z) + heat rest
  end.

Definition hits (c : Controller) : Q :=
  inject_Z (Z.of_nat (damageSounds (signals c))).

Section SpikeFacts.

Variable cfg : Config.
Variable segmentLength : Q.

Lemma die_sounds reason c :
  FInv c -> isDead c = false ->
  damageSounds (signals (die cfg reason c)) = damageSounds (signals c).
Proof.
  intros [Hset Hsync] Halive. unfold die.
  set (c3 := emit UiShowGameOver _).
  assert (Hf3 : fsm c3 = fsm c) by reflexivity.
  assert (Hcls : _states (fsm c3) !! STATES_DEAD = Some DeadState)
    by (rewrite Hf3; destruct Hset as [-> _]; reflexivity).
  assert (Hne : key c3 <> Some STATES_DEAD).
  { unfold key. rewrite Hf3. unfold Synced, key in Hsync. unfold isDead in Halive.
    destruct (_current (fsm c)) as [[]|]; rewrite Hsync; try discriminate. }
  assert (Hcan : _canTransitionKey (fsm c3) (key c3) STATES_DEAD = true).
  { unfold key. rewrite Hf3. destruct Hset as [_ Htab].
    unfold _canTransitionKey. rewrite Htab.
    unfold Synced, key in Hsync. unfold isDead in Halive.
    destruct (_current (fsm c)) as [[]|]; rewrite Hsync; try reflexivity.
    discriminate. }
  unfold transition.
  rewrite (setState_accept cfg STATES_DEAD noParams c3 DeadState Hcls Hne Hcan).
  cbv zeta. unfold state_enter. cbn [fst snd].
  change (signals (push_history ?e (set_current ?i ?k ?x))) with (signals x).
  assert (Hx : damageSounds (signals (state_exit (_current (fsm c3)) c3))
               = damageSounds (signals c3)).
  { unfold state_exit. destruct (_current (fsm c3)) as [[]|]; try reflexivity.
    rewrite signals_emit, damageSounds_app. simpl. lia. }
  rewrite Hx. subst c3. rewrite !signals_emit, !damageSounds_app. simpl. lia.
Qed.

Lemma takeDamage_sounds amount c :
  FInv c -> isDead c = false ->
  FInv (takeDamage cfg amount c)
  /\ damageSounds (signals (takeDamage cfg amount c)) = S (damageSounds (signals c)).
Proof.
  intros Hinv Halive. unfold takeDamage. rewrite Halive.
  set (c3 := emit (PlaySound "damage") _).
  assert (Hinv3 : FInv c3) by (eapply FInv_ext; [|exact Hinv]; reflexivity).
  assert (Hs3 : damageSounds (signals c3) = S (damageSounds (signals c))).
  { subst c3. rewrite !signals_emit, !damageSounds_app. simpl. lia. }
  destruct (Qleb (health c3) 0).
  - split; [apply FInv_transition; eapply FInv_ext; [|exact Hinv3]; reflexivity|].
    rewrite die_sounds; [exact Hs3|exact Hinv3|exact Halive].
  - split; [exact Hinv3|exact Hs3].
Qed.

Lemma zoneCheck_potential pose playerPos dt st zone :
  FInv (hs_player st) -> 0 <= dt -> dz_cooldown zone <= 1 ->
  let r := zoneCheck cfg segmentLength pose playerPos dt st zone in
  FInv (hs_player (snd r))
  /\ dz_cooldown (fst r) <= 1
  /\ hits (hs_player (snd r)) - Qmax 0 (dz_cooldown (fst r))
     <= hits (hs_player st) - Qmax 0 (dz_cooldown zone) + dt.
Proof.
  intros Hinv Hdt Hcd r. subst r. unfold zoneCheck.
  assert (Hsame : FInv (hs_player st) /\ dz_cooldown zone <= 1
                  /\ hits (hs_player st) - Qmax 0 (dz_cooldown zone)
                     <= hits (hs_player st) - Qmax 0 (dz_cooldown zone) + dt).
  { split; [exact Hinv|]. split; [exact Hcd|]. lra. }
  destruct (dz_removed zone); [exact Hsame|].
  destruct (dz_platformBody zone) as [body|]; [|exact Hsame].
  destruct (isDead (hs_player st)) eqn:Halive; [exact Hsame|].
  destruct (pose body) as [p|]; [|exact Hsame].
  cbv zeta.
  match goal with |- context [if Qltb ?a ?b then (zone, st) else _] =>
    destruct (Qltb a b) end; [exact Hsame|].
  match goal with |- context [if ?h then set_cooldown 1 zone else zone] =>
    destruct h eqn:Hhit end.
  - apply andb_true_iff in Hhit as [_ Hcool]. apply Qleb_true in Hcool.
    cbn [dz_cooldown set_cooldown fst snd hs_player].
    destruct (takeDamage_sounds (dz_damage zone) (hs_player st) Hinv Halive)
      as [Hinv' Hsnd].
    change (Qltb 0 1) with true. cbn [dz_cooldown set_cooldown fst snd hs_player].
    split; [exact Hinv'|]. split; [lra|].
    unfold hits. rewrite Hsnd, Nat2Z.inj_succ. unfold Z.succ. rewrite inject_Z_plus.
    change (inject_Z 1) with 1.
    generalize (inject_Z (Z.of_nat (damageSounds (signals (hs_player st))))).
    intros h. qminmax; lra.
  - cbn [fst snd]. destruct (Qltb 0 (dz_cooldown zone)) eqn:Hpos.
    + apply Qltb_true in Hpos. cbn [dz_cooldown set_cooldown fst snd].
      split; [exact Hinv|]. split; [lra|].
      generalize (hits (hs_player st)). intros h. qminmax; lra.
    + exact Hsame.
Qed.

Lemma check_potential pose playerPos dt zones st :
  FInv (hs_player st) -> 0 <= dt -> Forall (fun z => dz_cooldown z <= 1) zones ->
  let r := _checkSegmentDamageZones cfg segmentLength pose playerPos dt zones st in
  FInv (hs_player (snd r))
  /\ length (fst r) = length zones
  /\ Forall (fun z => dz_cooldown z <= 1) (fst r)
  /\ hits (hs_player (snd r)) - heat (fst r)
     <= hits (hs_player st) - heat zones + inject_Z (Z.of_nat (length zones)) * dt.
Proof.
  intros Hinv Hdt Hall. revert st Hinv.
  induction Hall as [|zone rest Hz _ IH]; intros st Hinv.
  - cbn [_checkSegmentDamageZones fst snd heat length].
    split; [exact Hinv|]. split; [reflexivity|]. split; [constructor|].
    change (inject_Z (Z.of_nat 0)) with 0. lra.
  - cbn [_checkSegmentDamageZones].
    pose proof (zoneCheck_potential pose playerPos dt st zone Hinv Hdt Hz) as Hstep.
    cbv zeta in Hstep.
    destruct (zoneCheck cfg segmentLength pose playerPos dt st zone) as [zone' st1].
    cbn [fst snd] in Hstep. destruct Hstep as (Hinv1 & Hz' & Hpot).
    specialize (IH st1 Hinv1). cbv zeta in IH.
    destruct (_checkSegmentDamageZones cfg segmentLength pose playerPos dt rest st1)
      as [rest' st2].
    cbn [fst snd] in *. destruct IH as (Hinv2 & Hlen & Hall' & Hpot').
    split; [exact Hinv2|]. split; [simpl; rewrite Hlen; reflexivity|].
    split; [constructor; assumption|].
    cbn [heat length]. rewrite Nat2Z.inj_succ. unfold Z.succ. rewrite inject_Z_plus.
    change (inject_Z 1) with 1. lra.
Qed.

Lemma heat_bounds zones :
  Forall (fun z => dz_cooldown z <= 1) zones ->
  0 <= heat zones <= inject_Z (Z.of_nat (length zones)).
Proof.
  induction 1 as [|z rest Hz _ IH].
  - cbn [heat length]. change (inject_Z (Z.of_nat 0)) with 0. lra.
  - cbn [heat length]. rewrite Nat2Z.inj_succ. unfold Z.succ. rewrite inject_Z_plus.
    change (inject_Z 1) with 1. revert IH. generalize (heat rest). intros h IH.
    qminmax; lra.
Qed.

Lemma run_potential ticks zones st :
  FInv (hs_player st) -> Forall (fun t => 0 <= tk_dt t) ticks ->
  Forall (fun z => dz_cooldown z <= 1) zones ->
  let r := spikeRun cfg segmentLength ticks zones st in
  length (fst r) = length zones
  /\ Forall (fun z => dz_cooldown z <= 1) (fst r)
  /\ hits (hs_player (snd r)) - heat (fst r)
     <= hits (hs_player st) - heat zones
        + inject_Z (Z.of_nat (length zones)) * elapsed ticks.
Proof.
  intros Hinv Hticks. revert zones st Hinv.
  induction Hticks as [|t rest Ht _ IH]; intros zones st Hinv Hall.
  - cbn [spikeRun elapsed fst snd]. split; [reflexivity|]. split; [exact Hall|]. lra.
  - cbn [spikeRun elapsed].
    pose proof (check_potential (tk_pose t) (tk_playerPos t) (tk_dt t) zones st
                  Hinv Ht Hall) as Hstep.
    cbv zeta in Hstep.
    destruct (_checkSegmentDamageZones cfg segmentLength (tk_pose t) (tk_playerPos t)
                (tk_dt t) zones st) as [zones1 st1].
    cbn [fst snd] in Hstep. destruct Hstep as (Hinv1 & Hlen1 & Hall1 & Hpot1).
    specialize (IH zones1 st1 Hinv1 Hall1). cbv zeta in IH.
    destruct IH as (Hlen & Hall' & Hpot).
    split; [congruence|]. split; [exact Hall'|].
    rewrite Hlen1 in Hpot. lra.
Qed.

(** X24. A spike hurts at most once per second: over any number of
    calls of [_checkSegmentDamageZones] on the zones of a segment, with
    time steps that are not negative and zones that start with a wait of
    at most one second (new zones start at 0), the damage sound is
    played at most [elapsed time + 1] times per zone, wherever the
    player stands. The number of zones does not change and no wait ever
    exceeds one second. *)
Theorem spike_hits_rate_limited (ticks : list SpikeTick) (zones : list DamageZone)
    (st : HazardState) :
  FInv (hs_player st) ->
  Forall (fun t => 0 <= tk_dt t) ticks ->
  Forall (fun z => dz_cooldown z <= 1) zones ->
  let r := spikeRun cfg segmentLength ticks zones st in
  length (fst r) = length zones
  /\ Forall (fun z => dz_cooldown z <= 1) (fst r)
  /\ hits (hs_player (snd r))
     <= hits (hs_player st)
        + inject_Z (Z.of_nat (length zones)) * (elapsed ticks + 1).
Proof.
  intros Hinv Hticks Hall r.
  destruct (run_potential ticks zones st Hinv Hticks Hall) as (Hlen & Hall' & Hpot).
  fold r in Hlen, Hall', Hpot.
  split; [exact Hlen|]. split; [exact Hall'|].
  pose proof (heat_bounds zones Hall) as [H0 _].
  pose proof (heat_bounds (fst r) Hall') as [_ H1]. rewrite Hlen in H1. lra.
Qed.

End SpikeFacts.

(** The player stands on the lava of a run that has risen to height 0;
    a spike at the origin is checked once with the player on top of it. *)
Definition lavaAtZero : RisingLava := mkRisingLava true true 0 0 0.5 (Some 0).

Definition originSpike : DamageZone :=
  mkDamageZone false (Some 1%nat) (mkVec3 0 0 0) 0.5 1 25 0 0.

Definition originTick : SpikeTick :=
  mkSpikeTick (fun _ => Some (mkZonePose (mkVec3 0 0 0) (fun v => v)))
    (mkVec3 0 1.1 0) (1 # 60).

Lemma rising_lava_contact_rule_witness :
  isDead (playerController
            (checkRisingLavaCollision CONFIG lavaAtZero (gameWithPlayerAt 1.1))) = true.
Proof.
  destruct (rising_lava_contact_rule CONFIG lavaAtZero (gameWithPlayerAt 1.1)
              (gameWithPlayerAt_FInv _)) as (H & _).
  - vm_compute. reflexivity.
  - apply H.
    + vm_compute. reflexivity.
    + vm_compute. discriminate.
Defined.

Lemma spike_hits_rate_limited_witness :
  let st := mkHazardState idleController [false] in
  hits (hs_player (snd (spikeRun CONFIG 20 [originTick; originTick] [originSpike] st)))
  <= hits (hs_player st)
     + inject_Z (Z.of_nat 1) * (elapsed [originTick; originTick] + 1).
Proof.
  intros st.
  destruct (spike_hits_rate_limited CONFIG 20 [originTick; originTick] [originSpike] st)
    as (_ & _ & H).
  - exact idleController_FInv.
  - repeat constructor; vm_compute; discriminate.
  - repeat constructor; vm_compute; discriminate.
  - exact H.
Defined.

